(** * crewagent-builder-frontend: the export pipeline, embedded and verified

    A shallow embedding of the pure export pipeline of the builder
    front end:

    - [src/lib/workflow-graph-v11.ts]   (module [WorkflowGraph])
    - [src/lib/utils.ts]                (module [Utils])
    - [src/lib/agents-manifest-v11.ts]  (module [AgentsManifest])
    - [src/lib/bmad-manifest-v11.ts]    (module [BmadManifest])
    - [src/lib/export/frontmatter.ts]   (module [Frontmatter])
    - [src/lib/bmad-zip-v11.ts]         (module [BmadZip])
    - [src/lib/assets-v11.ts]           (module [Assets])

    The first part of the file holds the embedding, the vocabulary of
    the statements and the worked inputs; the second part holds the
    proofs. Line numbers in the comments are those of the source file.

    Conventions of the embedding.

    - A JavaScript string is the list of its UTF-16 code units
      ([jsstring]); literals are written [u "text"].
    - A value of TypeScript type [unknown] is a [jsval].
    - A JavaScript [Map] keeps its keys in insertion order, and the code
      enumerates them ([Array.from(m.keys())]); it is an association list
      updated in place ([Map.t]).
    - Arrays the code pushes to ([warnings], [errors], ...) are lists in
      push order; every function returns the lists it has pushed to.
    - Diagnostics are built by the code as message strings; they are
      kept here as constructors that carry the interpolated values.
    - Built-ins whose behaviour depends on the host (the collation behind
      [String.prototype.localeCompare], [JSON.parse], [YAML.parse], the
      Unicode table behind [toLowerCase], the Ajv validator, the clock)
      are Section variables; so is [Number::toString], whose digits for
      a double are not computed here.
    - A function that can throw, or whose behaviour on part of its input
      is outside the embedding, returns an [Outcome]. *)

From Stdlib Require Import String Ascii DecimalString.
From Stdlib Require Import List ZArith NArith Lia Bool.
From Stdlib Require Import Permutation PeanoNat Arith Relations Sorted.
From Stdlib Require QArith DecimalZ DecimalPos.
Import ListNotations.

Set Implicit Arguments.
Set Warnings "-register-all".
Local Open Scope Z_scope.
Local Open Scope list_scope.

(* ================================================================== *)
(** * JavaScript values *)
(* ================================================================== *)

Module JS.

(** A string is its sequence of UTF-16 code units. *)
Definition jsstring := list N.

Definition u (s : string) : jsstring :=
  List.map N_of_ascii (list_ascii_of_string s).

Definition str_eq_dec : forall a b : jsstring, {a = b} + {a <> b} :=
  list_eq_dec N.eq_dec.

Definition str_eqb (a b : jsstring) : bool :=
  if str_eq_dec a b then true else false.

(** Truthiness of a string: [Boolean(s)], [!s]. *)
Definition nonEmpty (s : jsstring) : bool :=
  match s with [] => false | _ :: _ => true end.

(** [WhiteSpace] and [LineTerminator] code units of ECMAScript, the ones
    [String.prototype.trim] strips. *)
Definition isWhiteSpace (c : N) : bool :=
  ((9 <=? c) && (c <=? 13) || (c =? 32) || (c =? 160) || (c =? 5760)
   || (8192 <=? c) && (c <=? 8202) || (c =? 8232) || (c =? 8233)
   || (c =? 8239) || (c =? 8287) || (c =? 12288) || (c =? 65279))%N.

Fixpoint trimStart (s : jsstring) : jsstring :=
  match s with
  | [] => []
  | c :: r => if isWhiteSpace c then trimStart r else s
  end.

Definition trimEnd (s : jsstring) : jsstring := rev (trimStart (rev s)).

Definition trim (s : jsstring) : jsstring := trimEnd (trimStart s).

Fixpoint startsWith (s prefix : jsstring) : bool :=
  match prefix, s with
  | [], _ => true
  | p :: ps, c :: cs => (N.eqb p c) && startsWith cs ps
  | _ :: _, [] => false
  end.

(** [String(n)] and [`${n}`] for an integer [n] (below 1e21 in absolute
    value, where JavaScript prints plain decimal digits). *)
Definition String_of_Z (n : Z) : jsstring :=
  u (NilZero.string_of_int (Z.to_int n)).

Definition String_of_nat (n : nat) : jsstring := String_of_Z (Z.of_nat n).

(** [parts.join(sep)]. *)
Fixpoint join (sep : jsstring) (parts : list jsstring) : jsstring :=
  match parts with
  | [] => []
  | [p] => p
  | p :: rest => p ++ sep ++ join sep rest
  end.

(** A finite IEEE double is a dyadic rational [m * 2^e]. *)
Inductive jsnumber :=
| NumNaN
| NumInfinity (negative : bool)
| NumFinite (m e : Z).

Inductive jsval :=
| JUndefined
| JNull
| JBool (b : bool)
| JNum (x : jsnumber)
| JStr (s : jsstring)
| JArr (items : list jsval)
| JObj (props : list (jsstring * jsval)).

(** [Boolean(v)]. *)
Definition truthy (v : jsval) : bool :=
  match v with
  | JUndefined | JNull => false
  | JBool b => b
  | JNum NumNaN => false
  | JNum (NumInfinity _) => true
  | JNum (NumFinite m _) => negb (m =? 0)
  | JStr s => nonEmpty s
  | JArr _ | JObj _ => true
  end.

(** [typeof v === "string" ? v.trim() : ""]. *)
Definition trimmedString (v : jsval) : jsstring :=
  match v with JStr s => trim s | _ => [] end.

(** [v && typeof v === "object" && !Array.isArray(v)]. *)
Definition isPlainObject (v : jsval) : bool :=
  match v with JObj _ => true | _ => false end.

Fixpoint lookupProp (props : list (jsstring * jsval)) (k : jsstring) : jsval :=
  match props with
  | [] => JUndefined
  | (k', v) :: r => if str_eq_dec k' k then v else lookupProp r k
  end.

(** [v?.k] on a value read from JSON: [undefined] unless [v] is an
    object that has the property. *)
Definition prop (v : jsval) (k : string) : jsval :=
  match v with JObj props => lookupProp props (u k) | _ => JUndefined end.

(** The regular expression [/^[A-Za-z0-9][A-Za-z0-9._:-]*$/] that the
    modules declare as [NODE_ID_PATTERN], [WORKFLOW_ID_PATTERN] and
    [AGENT_ID_PATTERN]; without the [m] flag, [$] is the end of input. *)
Definition isAlnum (c : N) : bool :=
  ((65 <=? c) && (c <=? 90) || (97 <=? c) && (c <=? 122)
   || (48 <=? c) && (c <=? 57))%N.

Definition isIdChar (c : N) : bool :=
  (isAlnum c || (c =? 46) || (c =? 95) || (c =? 58) || (c =? 45))%N.

Definition idPatternTest (s : jsstring) : bool :=
  match s with
  | [] => false
  | c :: r => isAlnum c && forallb isIdChar r
  end.

(** [s.replace(/[cls]+/g, by)]: every maximal run of code units of the
    class is replaced by [by]; [inRun] tells that the previous code unit
    was in the class. *)
Fixpoint replaceRunsFrom (cls : N -> bool) (by_ : jsstring) (inRun : bool)
         (s : jsstring) : jsstring :=
  match s with
  | [] => []
  | c :: r =>
      if cls c
      then (if inRun then [] else by_) ++ replaceRunsFrom cls by_ true r
      else c :: replaceRunsFrom cls by_ false r
  end.

Definition replaceRuns (cls : N -> bool) (by_ : jsstring) (s : jsstring) : jsstring :=
  replaceRunsFrom cls by_ false s.

(** [s.replace(/^[cls]+/, "")] and [s.replace(/[cls]+$/, "")]. *)
Fixpoint stripStart (cls : N -> bool) (s : jsstring) : jsstring :=
  match s with
  | [] => []
  | c :: r => if cls c then stripStart cls r else s
  end.

Definition stripEnd (cls : N -> bool) (s : jsstring) : jsstring :=
  rev (stripStart cls (rev s)).

(** [s.split(sep)] for a one-unit separator; [cur] is the part being
    read, reversed. *)
Fixpoint splitFrom (sep : N) (cur : jsstring) (s : jsstring) : list jsstring :=
  match s with
  | [] => [rev cur]
  | c :: r => if (c =? sep)%N then rev cur :: splitFrom sep [] r
              else splitFrom sep (c :: cur) r
  end.

Definition split (sep : N) (s : jsstring) : list jsstring := splitFrom sep [] s.

(** A [Set<string>]: [has] and [add]. *)
Definition setHas (s : list jsstring) (x : jsstring) : bool :=
  if in_dec str_eq_dec x s then true else false.

Definition setAdd (s : list jsstring) (x : jsstring) : list jsstring :=
  if in_dec str_eq_dec x s then s else s ++ [x].

(** The comparator-driven [Array.prototype.sort]: the sort is stable,
    and for a consistent comparator every stable sort returns the same
    array; it is rendered as a stable insertion sort. [cmp a b] is the
    number the comparator returns. *)
Section Sort.
Variable A : Type.
Variable cmp : A -> A -> Z.

Fixpoint insert (x : A) (l : list A) : list A :=
  match l with
  | [] => [x]
  | y :: r => if cmp x y <=? 0 then x :: l else y :: insert x r
  end.

Fixpoint sort (l : list A) : list A :=
  match l with
  | [] => []
  | x :: r => insert x (sort r)
  end.
End Sort.

(** [l.map((x, i) => f(x, i))], with the index starting at [i]. *)
Fixpoint mapi_from (A B : Type) (f : A -> nat -> B) (i : nat) (l : list A) : list B :=
  match l with
  | [] => []
  | x :: r => f x i :: mapi_from f (S i) r
  end.

Definition mapi (A B : Type) (f : A -> nat -> B) (l : list A) : list B :=
  mapi_from f 0 l.

End JS.

(** The insertion-ordered [Map<string, V>] of JavaScript. *)
Module Map.
Import JS.

Definition t (V : Type) := list (jsstring * V).

Fixpoint get (V : Type) (m : t V) (k : jsstring) : option V :=
  match m with
  | [] => None
  | (k', v) :: r => if str_eq_dec k' k then Some v else get r k
  end.

Definition has (V : Type) (m : t V) (k : jsstring) : bool :=
  match get m k with Some _ => true | None => false end.

(** [m.set(k, v)]: an existing key keeps its position, a new key goes
    last. *)
Fixpoint set (V : Type) (m : t V) (k : jsstring) (v : V) : t V :=
  match m with
  | [] => [(k, v)]
  | (k', v') :: r =>
      if str_eq_dec k' k then (k, v) :: r else (k', v') :: set r k v
  end.

Definition keys (V : Type) (m : t V) : list jsstring := List.map fst m.
Definition values (V : Type) (m : t V) : list V := List.map snd m.

(** [m.get(k) ?? 0] on a map of numbers. *)
Definition get0 (m : t Z) (k : jsstring) : Z :=
  match get m k with Some n => n | None => 0 end.

End Map.

(* ================================================================== *)
(** * The workflow graph compiler: [src/lib/workflow-graph-v11.ts] *)
(* ================================================================== *)

Module WorkflowGraph.
Import JS.

Inductive WorkflowGraphV11NodeType := step | decision | merge | end_ | subworkflow.

Record WorkflowGraphV11Node := {
  node_id : jsstring;
  node_type : WorkflowGraphV11NodeType;
  node_file : jsstring;
  node_title : option jsstring;
  node_agentId : option jsstring;
  node_inputs : option (list jsstring);
  node_outputs : option (list jsstring)
}.

Record WorkflowGraphV11Edge := {
  edge_id : option jsstring;
  edge_from : jsstring;
  edge_to : jsstring;
  edge_label : jsstring;
  edge_isDefault : option bool;
  edge_conditionText : option jsstring
}.

Record WorkflowGraphV11 := {
  entryNodeId : jsstring;
  nodes : list WorkflowGraphV11Node;
  edges : list WorkflowGraphV11Edge
}.

(** [BuilderGraphNode]; the optional [data] object is [None] when
    absent. A [null] array element, which the code skips through
    [node?.id], behaves as a node whose [id] is empty. *)
Record BuilderGraphNodeData := {
  data_title : jsval;
  data_agentId : jsval;
  data_inputs : jsval;
  data_outputs : jsval
}.

Record BuilderGraphNode := {
  bnode_id : jsstring;
  bnode_type : jsval;
  bnode_data : option BuilderGraphNodeData
}.

(** [BuilderGraphEdge]. [bedge_ref] is the identity of the edge object:
    the code compares edges with [===], and two slots of the input array
    hold the same object exactly when they carry the same reference. *)
Record BuilderGraphEdgeData := {
  data_isDefault : jsval;
  data_conditionText : jsval
}.

Record BuilderGraphEdge := {
  bedge_ref : nat;
  bedge_id : option jsstring;
  bedge_source : jsstring;
  bedge_target : jsstring;
  bedge_label : jsval;
  bedge_data : option BuilderGraphEdgeData
}.

Inductive GraphError :=
| ErrNoNodes
| ErrInvalidNodeIds (invalidIds : list jsstring)
| ErrIncompleteEdge (idx : nat)
| ErrSourceMissing (source : jsstring) (idx : nat)
| ErrTargetMissing (target : jsstring) (idx : nat)
| ErrCycle
| ErrNoEntryNode.

Inductive GraphWarning :=
| WarnDuplicateNodeIds (duplicates : Z)
| WarnMultipleStarts (chosen : jsstring)
| WarnUnknownNodeType (id : jsstring) (rawType : jsval)
| WarnMultipleDefaults (source : jsstring) (ids : list jsstring).

Record WorkflowGraphBuildResult := {
  graph : option WorkflowGraphV11;
  warnings : list GraphWarning;
  errors : list GraphError
}.

Definition NODE_ID_PATTERN_test : jsstring -> bool := idPatternTest.

Definition isNodeType (value : jsval) : option WorkflowGraphV11NodeType :=
  match value with
  | JStr s =>
      if str_eq_dec s (u "step") then Some step
      else if str_eq_dec s (u "decision") then Some decision
      else if str_eq_dec s (u "merge") then Some merge
      else if str_eq_dec s (u "end") then Some end_
      else if str_eq_dec s (u "subworkflow") then Some subworkflow
      else None
  | _ => None
  end.

Definition parseStringList (value : jsval) : list jsstring :=
  match value with
  | JArr items => filter nonEmpty (List.map trimmedString items)
  | _ => []
  end.

Definition stableEdgeSortKey (edge : BuilderGraphEdge) (fallbackIndex : nat) : jsstring :=
  let id := match bedge_id edge with Some s => trim s | None => [] end in
  if nonEmpty id then id
  else bedge_source edge ++ u "->" ++ bedge_target edge ++ u "#"
       ++ String_of_nat fallbackIndex.

(** An entry of [validEdges]: [{ edge, idx }]. *)
Record EdgeRecord := { edge : BuilderGraphEdge; idx : nat }.

(** Lines 97-101: the [nodesById] map. *)
Definition noteNode (m : Map.t BuilderGraphNode) (node : BuilderGraphNode)
  : Map.t BuilderGraphNode :=
  if nonEmpty (bnode_id node) then Map.set m (bnode_id node) node else m.

Definition buildNodesById (nodes : list BuilderGraphNode) : Map.t BuilderGraphNode :=
  fold_left noteNode nodes [].

(** Lines 114-129: the [edges.forEach] that fills [validEdges] and
    pushes one error per rejected edge; [i] is the index of the head. *)
Fixpoint validateEdges (nodesById : Map.t BuilderGraphNode)
         (edges : list BuilderGraphEdge) (i : nat)
  : list EdgeRecord * list GraphError :=
  match edges with
  | [] => ([], [])
  | e :: rest =>
      let '(valid, errs) := validateEdges nodesById rest (S i) in
      if negb (nonEmpty (bedge_source e)) || negb (nonEmpty (bedge_target e))
      then (valid, ErrIncompleteEdge i :: errs)
      else if negb (Map.has nodesById (bedge_source e))
      then (valid, ErrSourceMissing (bedge_source e) i :: errs)
      else if negb (Map.has nodesById (bedge_target e))
      then (valid, ErrTargetMissing (bedge_target e) i :: errs)
      else ({| edge := e; idx := i |} :: valid, errs)
  end.

(** Lines 131-141: in-degrees and adjacency lists. *)
Definition initIndegree (nodeIds : list jsstring) : Map.t Z :=
  fold_left (fun m id => Map.set m id 0) nodeIds [].

Definition initOutgoing (nodeIds : list jsstring) : Map.t (list jsstring) :=
  fold_left (fun m id => Map.set m id []) nodeIds [].

Definition addEdge (st : Map.t Z * Map.t (list jsstring)) (r : EdgeRecord)
  : Map.t Z * Map.t (list jsstring) :=
  let '(indegree, outgoing) := st in
  let source := bedge_source (edge r) in
  let target := bedge_target (edge r) in
  let outgoing' :=
    match Map.get outgoing source with
    | Some targets => Map.set outgoing source (targets ++ [target])
    | None => outgoing
    end in
  (Map.set indegree target (Map.get0 indegree target + 1), outgoing').

Definition degrees (nodeIds : list jsstring) (validEdges : list EdgeRecord)
  : Map.t Z * Map.t (list jsstring) :=
  fold_left addEdge validEdges (initIndegree nodeIds, initOutgoing nodeIds).

(** Lines 152-156: the inner [for (const to of outgoing.get(id) ?? [])]. *)
Fixpoint relax (tos : list jsstring) (queue : list jsstring) (nextIndegree : Map.t Z)
  : list jsstring * Map.t Z :=
  match tos with
  | [] => (queue, nextIndegree)
  | to :: rest =>
      let value := Map.get0 nextIndegree to - 1 in
      let nextIndegree' := Map.set nextIndegree to value in
      relax rest (if value =? 0 then queue ++ [to] else queue) nextIndegree'
  end.

(** Lines 148-157: the [while (queue.length)] loop, one iteration per
    unit of fuel. The result is the final [visited] and the queue left
    when the loop stopped. *)
Fixpoint kahn (fuel : nat) (outgoing : Map.t (list jsstring))
         (queue : list jsstring) (nextIndegree : Map.t Z) (visited : Z)
  : Z * list jsstring :=
  match fuel with
  | O => (visited, queue)
  | S fuel' =>
      match queue with
      | [] => (visited, [])
      | id :: queue' =>
          if negb (nonEmpty id) then (visited, queue')
          else
            let tos := match Map.get outgoing id with Some l => l | None => [] end in
            let '(queue'', nextIndegree') := relax tos queue' nextIndegree in
            kahn fuel' outgoing queue'' nextIndegree' (visited + 1)
      end
  end.

Definition zeroIndegree (indegree : Map.t Z) (nodeIds : list jsstring) : list jsstring :=
  filter (fun id => Map.get0 indegree id =? 0) nodeIds.

(** Lines 143-162. Every node enters the queue at most once (lemma
    [kahn_fuel_enough] below), so [length nodeIds] iterations exhaust
    the queue. *)
Definition cycleErrors (nodeIds : list jsstring) (validEdges : list EdgeRecord)
           (indegree : Map.t Z) (outgoing : Map.t (list jsstring)) : list GraphError :=
  match validEdges with
  | [] => []
  | _ :: _ =>
      let queue := zeroIndegree indegree nodeIds in
      let visited := fst (kahn (length nodeIds) outgoing queue indegree 0) in
      if visited =? Z.of_nat (length nodeIds) then [] else [ErrCycle]
  end.

(** Lines 185-206: the emitted node for [id], from what
    [nodesById.get(id)] returned, with the warning it may push. *)
Definition mapNodeOf (id : jsstring) (node : option BuilderGraphNode)
  : WorkflowGraphV11Node * list GraphWarning :=
  let rawType := match node with Some n => bnode_type n | None => JUndefined end in
  let type := match isNodeType rawType with Some t => t | None => step end in
  let warns :=
    if truthy rawType && negb (match isNodeType rawType with Some _ => true | None => false end)
    then [WarnUnknownNodeType id rawType] else [] in
  let data := match node with Some n => bnode_data n | None => None end in
  let title := match data with Some d => trimmedString (data_title d) | None => [] end in
  let agentId := match data with Some d => trimmedString (data_agentId d) | None => [] end in
  let inputs := match data with Some d => parseStringList (data_inputs d) | None => [] end in
  let outputs := match data with Some d => parseStringList (data_outputs d) | None => [] end in
  ({| node_id := id;
      node_type := type;
      node_file := u "steps/" ++ id ++ u ".md";
      node_title := if nonEmpty title then Some title else None;
      node_agentId := if nonEmpty agentId then Some agentId else None;
      node_inputs := match inputs with [] => None | _ => Some inputs end;
      node_outputs := match outputs with [] => None | _ => Some outputs end |},
   warns).

(** Lines 183-184. *)
Definition mapNode (nodesById : Map.t BuilderGraphNode) (id : jsstring)
  : WorkflowGraphV11Node * list GraphWarning :=
  mapNodeOf id (Map.get nodesById id).

(** Lines 209-214: [edgesBySource]. *)
Definition addToBucket (m : Map.t (list EdgeRecord)) (record : EdgeRecord)
  : Map.t (list EdgeRecord) :=
  let source := bedge_source (edge record) in
  let bucket := match Map.get m source with Some b => b | None => [] end in
  Map.set m source (bucket ++ [record]).

Definition groupBySource (validEdges : list EdgeRecord) : Map.t (list EdgeRecord) :=
  fold_left addToBucket validEdges [].

(** [edge?.data?.isDefault === true] *)
Definition flaggedDefault (r : EdgeRecord) : bool :=
  match bedge_data (edge r) with
  | Some d => match data_isDefault d with JBool true => true | _ => false end
  | None => false
  end.

(** Lines 231-249: one emitted edge; [i] is its position in the sorted
    group. *)
Definition mapEdge (multi : bool) (chosenDefault : option EdgeRecord)
           (r : EdgeRecord) (i : nat) : WorkflowGraphV11Edge :=
  let e := edge r in
  let rawLabel := trimmedString (bedge_label e) in
  let label :=
    if nonEmpty rawLabel then rawLabel
    else if multi then u "branch-" ++ String_of_nat (i + 1) else u "next" in
  let conditionText :=
    match bedge_data e with Some d => trimmedString (data_conditionText d) | None => [] end in
  let id :=
    match bedge_id e with
    | Some s => if nonEmpty (trim s) then Some (trim s) else None
    | None => None
    end in
  let isDefault :=
    match chosenDefault with
    | Some c => Nat.eqb (bedge_ref (edge c)) (bedge_ref e)
    | None => false
    end in
  {| edge_id := id;
     edge_from := bedge_source e;
     edge_to := bedge_target e;
     edge_label := label;
     edge_isDefault := if multi && isDefault then Some true else None;
     edge_conditionText := if nonEmpty conditionText then Some conditionText else None |}.

Section Compiler.

(** [a.localeCompare(b)]: the host's collation. *)
Variable localeCompare : jsstring -> jsstring -> Z.

Definition sortStrings : list jsstring -> list jsstring := sort localeCompare.

(** Lines 164-172. *)
Definition startNodesOf (indegree : Map.t Z) (nodeIds : list jsstring) : list jsstring :=
  sortStrings (zeroIndegree indegree nodeIds).

Definition chooseEntry (startNodes : list jsstring) : jsstring * list GraphWarning :=
  match startNodes with
  | [] => ([], [])
  | [s] => (s, [])
  | s :: _ :: _ => (s, [WarnMultipleStarts s])
  end.

(** Lines 219-221: the group of a source, in stable order. *)
Definition sortGroup (group : list EdgeRecord) : list EdgeRecord :=
  sort (fun a b => localeCompare (stableEdgeSortKey (edge a) (idx a))
                                 (stableEdgeSortKey (edge b) (idx b)))
       group.

Definition chosenDefaultOf (group : list EdgeRecord) : option EdgeRecord :=
  match filter flaggedDefault group with
  | d :: _ => Some d
  | [] => hd_error group
  end.

Definition defaultIdOf (d : EdgeRecord) : jsstring :=
  match bedge_id (edge d) with
  | Some s => s
  | None => stableEdgeSortKey (edge d) (idx d)
  end.

(** Lines 223-249: the emitted edges of one source, from its sorted
    [group], and the warning the source may push. *)
Definition emitGroup (source : jsstring) (group : list EdgeRecord)
  : list WorkflowGraphV11Edge * list GraphWarning :=
  let multi := (1 <? length group)%nat in
  let defaults := filter flaggedDefault group in
  let chosenDefault := if multi then chosenDefaultOf group else None in
  let warns :=
    if multi && (1 <? length defaults)%nat
    then [WarnMultipleDefaults source (List.map defaultIdOf defaults)] else [] in
  (mapi (mapEdge multi chosenDefault) group, warns).

(** Lines 218-221: the body of [sources.forEach]. *)
Definition mapGroup (edgesBySource : Map.t (list EdgeRecord)) (source : jsstring)
  : list WorkflowGraphV11Edge * list GraphWarning :=
  emitGroup source
    (sortGroup (match Map.get edgesBySource source with Some g => g | None => [] end)).

Definition buildWorkflowGraphV11 (nodes : list BuilderGraphNode)
           (edges : list BuilderGraphEdge) : WorkflowGraphBuildResult :=
  match nodes with
  | [] => {| graph := None; warnings := []; errors := [ErrNoNodes] |}
  | _ :: _ =>
      let nodesById := buildNodesById nodes in
      let nodeIds := Map.keys nodesById in
      let duplicates := Z.of_nat (length nodes) - Z.of_nat (length nodeIds) in
      let warnings1 :=
        if 0 <? duplicates then [WarnDuplicateNodeIds duplicates] else [] in
      let invalidIds := filter (fun id => negb (NODE_ID_PATTERN_test id)) nodeIds in
      let errors1 :=
        match invalidIds with [] => [] | _ :: _ => [ErrInvalidNodeIds invalidIds] end in
      let '(validEdges, errors2) := validateEdges nodesById edges 0 in
      let '(indegree, outgoing) := degrees nodeIds validEdges in
      let errors3 := cycleErrors nodeIds validEdges indegree outgoing in
      let startNodes := startNodesOf indegree nodeIds in
      let '(entryNodeId, warnings2) := chooseEntry startNodes in
      let errors4 := if nonEmpty entryNodeId then [] else [ErrNoEntryNode] in
      let errors := errors1 ++ errors2 ++ errors3 ++ errors4 in
      let warnings := warnings1 ++ warnings2 in
      match errors with
      | _ :: _ => {| graph := None; warnings := warnings; errors := errors |}
      | [] =>
          let mapped := List.map (mapNode nodesById) (sortStrings nodeIds) in
          let mappedNodes := List.map fst mapped in
          let warnings3 := flat_map snd mapped in
          let edgesBySource := groupBySource validEdges in
          let sources := sortStrings (Map.keys edgesBySource) in
          let groups := List.map (mapGroup edgesBySource) sources in
          let mappedEdges := flat_map fst groups in
          let warnings4 := flat_map snd groups in
          {| graph := Some {| entryNodeId := entryNodeId;
                              nodes := mappedNodes;
                              edges := mappedEdges |};
             warnings := warnings ++ warnings3 ++ warnings4;
             errors := [] |}
      end
  end.

End Compiler.

(** The comparison of code units, a collation that agrees with the
    host's on lower-case ASCII letters followed by digits; it is the
    comparator of the worked examples. *)
Fixpoint codeUnitCompare (a b : jsstring) : Z :=
  match a, b with
  | [], [] => 0
  | [], _ :: _ => -1
  | _ :: _, [] => 1
  | x :: a', y :: b' =>
      if (x <? y)%N then -1 else if (y <? x)%N then 1 else codeUnitCompare a' b'
  end.

Definition plainNode (id : string) : BuilderGraphNode :=
  {| bnode_id := u id; bnode_type := JStr (u "step"); bnode_data := None |}.

Definition plainEdge (ref : nat) (id : option string) (source target : string) (label : jsval)
  : BuilderGraphEdge :=
  {| bedge_ref := ref; bedge_id := option_map u id; bedge_source := u source;
     bedge_target := u target; bedge_label := label; bedge_data := None |}.

End WorkflowGraph.

(* ================================================================== *)
(** * Agent ids: [src/lib/utils.ts] *)
(* ================================================================== *)

Module Utils.
Import JS.

Definition isValidAgentId (input : jsstring) : bool := idPatternTest input.

(** [[a-z0-9._:-]] *)
Definition isSlugChar (c : N) : bool :=
  ((97 <=? c) && (c <=? 122) || (48 <=? c) && (c <=? 57)
   || (c =? 46) || (c =? 95) || (c =? 58) || (c =? 45))%N.

Definition isDash (c : N) : bool := (c =? 45)%N.

(** [[a-z0-9]] *)
Definition isLowerAlnum (c : N) : bool :=
  ((97 <=? c) && (c <=? 122) || (48 <=? c) && (c <=? 57))%N.

Section Slug.

(** [String.prototype.toLowerCase], the Unicode case mapping of the host. *)
Variable toLowerCase : jsstring -> jsstring.

Definition slugifyAgentId (input : jsstring) : jsstring :=
  let trimmed := toLowerCase (trim input) in
  let cleaned :=
    stripEnd isDash
      (stripStart isDash
         (replaceRuns isDash (u "-")
            (replaceRuns (fun c => negb (isSlugChar c)) (u "-") trimmed))) in
  match cleaned with
  | [] => u "agent"
  | c :: _ => if isLowerAlnum c then cleaned else u "agent-" ++ cleaned
  end.

(** The [for (let i = 2; i < 1000; i += 1)] loop: [count] iterations are
    left and [i] is the current suffix. *)
Fixpoint firstFreeSuffix (base : jsstring) (existingIds : list jsstring)
         (count : nat) (i : Z) : option jsstring :=
  match count with
  | O => None
  | S count' =>
      let next := base ++ u "-" ++ String_of_Z i in
      if setHas existingIds next
      then firstFreeSuffix base existingIds count' (i + 1)
      else Some next
  end.

(** [now] is what [Date.now()] returns when the fallback reads it. *)
Definition uniqueAgentId (now : Z) (baseName : jsstring) (existingIds : list jsstring)
  : jsstring :=
  let base := slugifyAgentId baseName in
  if negb (setHas existingIds base) then base
  else match firstFreeSuffix base existingIds 998 2 with
       | Some next => next
       | None => base ++ u "-" ++ String_of_Z now
       end.

End Slug.

(** The case mapping on the ASCII range, for the worked examples. *)
Definition asciiLowerCase (s : jsstring) : jsstring :=
  List.map (fun c => if ((65 <=? c) && (c <=? 90))%N then (c + 32)%N else c) s.

End Utils.

(* ================================================================== *)
(** * The agent manifest builder: [src/lib/agents-manifest-v11.ts] *)
(* ================================================================== *)

Module AgentsManifest.
Import JS Utils.

Record ToolPolicyFs := {
  fs_enabled : bool;
  fs_maxReadBytes : option jsnumber;
  fs_maxWriteBytes : option jsnumber
}.

Record ToolPolicyMcp := {
  mcp_enabled : bool;
  mcp_allowedServers : list jsstring
}.

Record ToolPolicyV11 := { tools_fs : ToolPolicyFs; tools_mcp : ToolPolicyMcp }.

Record AgentMetadataV11 := {
  meta_name : jsstring;
  meta_title : jsstring;
  meta_icon : jsstring;
  meta_module : option jsstring;
  meta_description : option jsstring;
  meta_sourceId : option jsstring
}.

Record AgentPersonaV11 := {
  persona_role : jsstring;
  persona_identity : jsstring;
  persona_communication_style : jsstring;
  persona_principles : list jsstring
}.

Record PromptV11 := {
  prompt_id : jsstring;
  prompt_content : jsstring;
  prompt_description : option jsstring
}.

Record AgentV11 := {
  agent_id : jsstring;
  agent_metadata : AgentMetadataV11;
  agent_persona : AgentPersonaV11;
  agent_tools : ToolPolicyV11;
  agent_critical_actions : option (list jsstring);
  agent_prompts : option (list PromptV11);
  agent_menu : option (list jsval);
  agent_systemPrompt : option jsstring;
  agent_userPromptTemplate : option jsstring;
  agent_discussion : option bool;
  agent_webskip : option bool;
  agent_conversational_knowledge : option (list jsval)
}.

(** [schemaVersion] is the constant ["1.1"]. *)
Record AgentsManifestV11 := { agents : list AgentV11 }.

Inductive AgentsError :=
| ErrNoAgents
| ErrAgentsJsonParse
| ErrAgentNotObject (index : nat)
| ErrAgentIdEmpty (index : nat)
| ErrAgentIdInvalid (index : nat) (id : jsstring)
| ErrAgentIdDuplicate (id : jsstring)
| ErrAgentNameEmpty (index : nat)
| ErrAgentTitleEmpty (index : nat)
| ErrAgentsJsonShape
| ErrAgentsSchema (text : jsstring).

Inductive AgentsWarning :=
| WarnSchemaVersionInvalid (rawSchemaVersion : jsstring)
| WarnSchemaVersionNormalized (rawSchemaVersion : jsstring)
| WarnMenuFiltered (agentId : jsstring)
| WarnKnowledgeFiltered (agentId : jsstring).

Record AgentsManifestBuildResult := {
  manifest : option AgentsManifestV11;
  warnings : list AgentsWarning;
  errors : list AgentsError
}.

(** An Ajv [ErrorObject], as far as [formatAjvErrorList] reads it. *)
Record ErrorObject := {
  instancePath : jsstring;
  schemaPath : jsstring;
  message : option jsstring
}.

Definition DEFAULT_TOOLS : ToolPolicyV11 :=
  {| tools_fs := {| fs_enabled := true; fs_maxReadBytes := None; fs_maxWriteBytes := None |};
     tools_mcp := {| mcp_enabled := false; mcp_allowedServers := [] |} |}.

(** U+1F9E9, a surrogate pair. *)
Definition DEFAULT_ICON : jsstring := [55358%N; 56809%N].

Definition formatAjvErrorList (errs : list ErrorObject) : list jsstring :=
  List.map
    (fun err =>
       let path :=
         if nonEmpty (instancePath err) then instancePath err
         else if nonEmpty (schemaPath err) then schemaPath err
         else u "value" in
       path ++ u ": " ++ match message err with Some m => m | None => u "invalid" end)
    errs.

Definition normalizeString (value : jsval) : jsstring := trimmedString value.

Definition normalizeStringArray (value : jsval) : list jsstring :=
  match value with
  | JArr items => filter nonEmpty (List.map trimmedString items)
  | _ => []
  end.

(** [typeof v === "number" && v >= 1] *)
Definition numberAtLeastOne (v : jsval) : option jsnumber :=
  match v with
  | JNum (NumInfinity false) => Some (NumInfinity false)
  | JNum (NumFinite m e) =>
      if (if 0 <=? e then 1 <=? m else 2 ^ (- e) <=? m)
      then Some (NumFinite m e) else None
  | _ => None
  end.

Definition normalizeTools (raw : jsval) : ToolPolicyV11 :=
  match raw with
  | JObj _ =>
      let fsObj := match prop raw "fs" with JObj _ as o => o | _ => JUndefined end in
      let mcpObj := match prop raw "mcp" with JObj _ as o => o | _ => JUndefined end in
      {| tools_fs :=
           {| fs_enabled := match prop fsObj "enabled" with JBool b => b | _ => true end;
              fs_maxReadBytes := numberAtLeastOne (prop fsObj "maxReadBytes");
              fs_maxWriteBytes := numberAtLeastOne (prop fsObj "maxWriteBytes") |};
         tools_mcp :=
           {| mcp_enabled := match prop mcpObj "enabled" with JBool b => b | _ => false end;
              mcp_allowedServers :=
                match prop mcpObj "allowedServers" with
                | JArr items =>
                    flat_map
                      (fun v => match v with
                                | JStr s => if nonEmpty (trim s) then [s] else []
                                | _ => []
                                end)
                      items
                | _ => []
                end |} |}
  | _ => DEFAULT_TOOLS
  end.

Definition isDigit (c : N) : bool := ((48 <=? c) && (c <=? 57))%N.

(** [/^1\.1(\.\d+)?$/] *)
Definition schemaVersionPatternTest (s : jsstring) : bool :=
  match s with
  | 49%N :: 46%N :: 49%N :: rest =>
      match rest with
      | [] => true
      | 46%N :: d :: ds => isDigit d && forallb isDigit ds
      | _ => false
      end
  | _ => false
  end.

Definition someIfNonEmpty (A : Type) (l : list A) : option (list A) :=
  match l with [] => None | _ :: _ => Some l end.

Definition someIfString (v : jsval) : option jsstring :=
  match v with JStr s => Some s | _ => None end.

Definition someIfBoolean (v : jsval) : option bool :=
  match v with JBool b => Some b | _ => None end.

Definition someIfTruthy (s : jsstring) : option jsstring :=
  if nonEmpty s then Some s else None.

(** The loop state of both [forEach]: the [agents] array, the [seen]
    set, and what has been pushed to [warnings] and [errors]. *)
Record BuildState := {
  st_agents : list AgentV11;
  st_seen : list jsstring;
  st_warnings : list AgentsWarning;
  st_errors : list AgentsError
}.

Definition pushError (st : BuildState) (e : AgentsError) : BuildState :=
  {| st_agents := st_agents st; st_seen := st_seen st;
     st_warnings := st_warnings st; st_errors := st_errors st ++ [e] |}.

Section Builder.

Variable toLowerCase : jsstring -> jsstring.

(** [JSON.parse]; [None] when it throws. *)
Variable JSON_parse : jsstring -> option jsval.

(** The compiled Ajv validator of [agents.schema.json]: the verdict of
    [validate(value)], and [validate.errors] after the call ([[]] for
    [null]). *)
Variable schemaValid : AgentsManifestV11 -> bool.
Variable schemaErrors : AgentsManifestV11 -> list ErrorObject.

(** [Date.now()] while the item at a given index is processed. *)
Variable Date_now : nat -> Z.

Definition validateAgentsManifestV11 (value : AgentsManifestV11) : bool * list jsstring :=
  let ok := schemaValid value in
  (ok, if ok then [] else formatAjvErrorList (schemaErrors value)).

(** Lines 166-187: the body of the legacy [parsed.forEach]. *)
Definition legacyItem (st : BuildState) (item : jsval) (index : nat) : BuildState :=
  match item with
  | JObj _ =>
      let name := normalizeString (prop item "name") in
      if negb (nonEmpty name) then st
      else
        let role := normalizeString (prop item "role") in
        let id := uniqueAgentId toLowerCase (Date_now index) name (st_seen st) in
        {| st_agents :=
             st_agents st ++
             [{| agent_id := id;
                 agent_metadata :=
                   {| meta_name := name; meta_title := name; meta_icon := DEFAULT_ICON;
                      meta_module := None; meta_description := None;
                      meta_sourceId := None |};
                 agent_persona :=
                   {| persona_role := if nonEmpty role then role else u "Agent";
                      persona_identity := if nonEmpty role then role else u "TBD";
                      persona_communication_style := u "direct";
                      persona_principles := [u "TBD"] |};
                 agent_tools := DEFAULT_TOOLS;
                 agent_critical_actions := None;
                 agent_prompts := None;
                 agent_menu := None;
                 agent_systemPrompt := None;
                 agent_userPromptTemplate := None;
                 agent_discussion := None;
                 agent_webskip := None;
                 agent_conversational_knowledge := None |}];
           st_seen := setAdd (st_seen st) id;
           st_warnings := st_warnings st;
           st_errors := st_errors st |}
  | _ => st
  end.

Definition parsePrinciples (principlesRaw : jsval) : list jsstring :=
  match principlesRaw with
  | JArr _ => normalizeStringArray principlesRaw
  | JStr s => filter nonEmpty (List.map trim (split 10 s))
  | _ => []
  end.

Definition parsePrompts (raw : jsval) : list PromptV11 :=
  match raw with
  | JArr items =>
      flat_map
        (fun p =>
           match p with
           | JObj _ =>
               let pid := normalizeString (prop p "id") in
               let content := normalizeString (prop p "content") in
               if negb (nonEmpty pid) || negb (nonEmpty content) then []
               else [{| prompt_id := pid; prompt_content := content;
                        prompt_description :=
                          someIfTruthy (normalizeString (prop p "description")) |}]
           | _ => []
           end)
        items
  | _ => []
  end.

Definition filterMenu (items : list jsval) : list jsval :=
  filter
    (fun item =>
       match item with
       | JObj _ => nonEmpty (normalizeString (prop item "description"))
       | _ => false
       end)
    items.

Definition filterKnowledge (items : list jsval) : list jsval :=
  filter isPlainObject items.

(** Lines 198-321: the body of [rawAgents.forEach]. *)
Definition manifestItem (st : BuildState) (item : jsval) (index : nat) : BuildState :=
  match item with
  | JObj _ =>
      let agent := item in
      let id := normalizeString (prop agent "id") in
      if negb (nonEmpty id) then pushError st (ErrAgentIdEmpty index)
      else if negb (isValidAgentId id) then pushError st (ErrAgentIdInvalid index id)
      else if setHas (st_seen st) id then pushError st (ErrAgentIdDuplicate id)
      else
        let metadataObj :=
          match prop agent "metadata" with JObj _ as o => o | _ => JObj [] end in
        let mname := normalizeString (prop metadataObj "name") in
        let mtitle := normalizeString (prop metadataObj "title") in
        let name := if nonEmpty mname then mname else if nonEmpty mtitle then mtitle else id in
        let title := if nonEmpty mtitle then mtitle else if nonEmpty mname then mname else name in
        let icon :=
          let i := normalizeString (prop metadataObj "icon") in
          if nonEmpty i then i else DEFAULT_ICON in
        if negb (nonEmpty name) then pushError st (ErrAgentNameEmpty index)
        else if negb (nonEmpty title) then pushError st (ErrAgentTitleEmpty index)
        else
          let personaObj :=
            match prop agent "persona" with JObj _ as o => o | _ => JObj [] end in
          let role :=
            let r := normalizeString (prop personaObj "role") in
            if nonEmpty r then r else u "Agent" in
          let identity :=
            let i := normalizeString (prop personaObj "identity") in
            if nonEmpty i then i else if nonEmpty role then role else u "TBD" in
          let communication_style :=
            let c := normalizeString (prop personaObj "communication_style") in
            if nonEmpty c then c else u "direct" in
          let principles := parsePrinciples (prop personaObj "principles") in
          let critical_actions :=
            match prop agent "critical_actions" with
            | JArr _ as a => normalizeStringArray a
            | _ => []
            end in
          let prompts := parsePrompts (prop agent "prompts") in
          let menu :=
            match prop agent "menu" with JArr items => filterMenu items | _ => [] end in
          let warnMenu :=
            match prop agent "menu" with
            | JArr items =>
                if Nat.eqb (length menu) (length items) then [] else [WarnMenuFiltered id]
            | _ => []
            end in
          let conversational_knowledge :=
            match prop agent "conversational_knowledge" with
            | JArr items => filterKnowledge items
            | _ => []
            end in
          let warnKnowledge :=
            match prop agent "conversational_knowledge" with
            | JArr items =>
                if Nat.eqb (length conversational_knowledge) (length items) then []
                else [WarnKnowledgeFiltered id]
            | _ => []
            end in
          let normalizedAgent :=
            {| agent_id := id;
               agent_metadata :=
                 {| meta_name := name; meta_title := title; meta_icon := icon;
                    meta_module := someIfTruthy (normalizeString (prop metadataObj "module"));
                    meta_description :=
                      someIfTruthy (normalizeString (prop metadataObj "description"));
                    meta_sourceId :=
                      someIfTruthy (normalizeString (prop metadataObj "sourceId")) |};
               agent_persona :=
                 {| persona_role := role;
                    persona_identity := identity;
                    persona_communication_style := communication_style;
                    persona_principles :=
                      match principles with [] => [u "TBD"] | _ :: _ => principles end |};
               agent_tools := normalizeTools (prop agent "tools");
               agent_critical_actions := someIfNonEmpty critical_actions;
               agent_prompts := someIfNonEmpty prompts;
               agent_menu := someIfNonEmpty menu;
               agent_systemPrompt := someIfString (prop agent "systemPrompt");
               agent_userPromptTemplate := someIfString (prop agent "userPromptTemplate");
               agent_discussion := someIfBoolean (prop agent "discussion");
               agent_webskip := someIfBoolean (prop agent "webskip");
               agent_conversational_knowledge := someIfNonEmpty conversational_knowledge |} in
          {| st_agents := st_agents st ++ [normalizedAgent];
             st_seen := setAdd (st_seen st) id;
             st_warnings := st_warnings st ++ warnMenu ++ warnKnowledge;
             st_errors := st_errors st |}
  | _ => pushError st (ErrAgentNotObject index)
  end.

(** [items.forEach((item, index) => body)], threading the loop state. *)
Fixpoint forEachFrom (body : BuildState -> jsval -> nat -> BuildState)
         (st : BuildState) (items : list jsval) (index : nat) : BuildState :=
  match items with
  | [] => st
  | item :: rest => forEachFrom body (body st item index) rest (S index)
  end.

Definition schemaVersionWarnings (obj : jsval) : list AgentsWarning :=
  let rawSchemaVersion := normalizeString (prop obj "schemaVersion") in
  if nonEmpty rawSchemaVersion && negb (schemaVersionPatternTest rawSchemaVersion)
  then [WarnSchemaVersionInvalid rawSchemaVersion]
  else if nonEmpty rawSchemaVersion && negb (str_eqb rawSchemaVersion (u "1.1"))
  then [WarnSchemaVersionNormalized rawSchemaVersion]
  else [].

Definition buildAgentsManifestV11 (agentsJsonRaw : jsstring) : AgentsManifestBuildResult :=
  let trimmed := trim agentsJsonRaw in
  if negb (nonEmpty trimmed)
  then {| manifest := None; warnings := []; errors := [ErrNoAgents] |}
  else
    match JSON_parse trimmed with
    | None => {| manifest := None; warnings := []; errors := [ErrAgentsJsonParse] |}
    | Some parsed =>
        let st0 := {| st_agents := []; st_seen := []; st_warnings := []; st_errors := [] |} in
        let st :=
          match parsed with
          | JArr items => forEachFrom legacyItem st0 items 0
          | JObj _ =>
              let st1 :=
                {| st_agents := []; st_seen := [];
                   st_warnings := schemaVersionWarnings parsed; st_errors := [] |} in
              let rawAgents :=
                match prop parsed "agents" with JArr items => items | _ => [] end in
              forEachFrom manifestItem st1 rawAgents 0
          | _ => pushError st0 ErrAgentsJsonShape
          end in
        let errors :=
          st_errors st ++ match st_agents st with [] => [ErrNoAgents] | _ :: _ => [] end in
        match errors with
        | _ :: _ =>
            {| manifest := None; warnings := st_warnings st; errors := errors |}
        | [] =>
            let manifest := {| agents := st_agents st |} in
            let '(ok, validationErrors) := validateAgentsManifestV11 manifest in
            if negb ok
            then {| manifest := None; warnings := st_warnings st;
                    errors := List.map ErrAgentsSchema validationErrors |}
            else {| manifest := Some manifest; warnings := st_warnings st; errors := [] |}
        end
    end.

End Builder.

End AgentsManifest.

(* ================================================================== *)
(** * Outcomes *)
(* ================================================================== *)

(** What a call does: it returns a value or throws; [NotCovered] marks
    the inputs on which the embedding does not say what the code does. *)
Module Outcomes.

Inductive Outcome (A : Type) : Type :=
| Returns (a : A)
| Throws
| NotCovered.

Arguments Returns {A} a.
Arguments Throws {A}.
Arguments NotCovered {A}.

(** Sequencing: what throws, or is not covered, stays so. *)
Definition bind (A B : Type) (o : Outcome A) (f : A -> Outcome B) : Outcome B :=
  match o with
  | Returns a => f a
  | Throws => Throws
  | NotCovered => NotCovered
  end.

End Outcomes.

(* ================================================================== *)
(** * Numbers *)
(* ================================================================== *)

(** The operations on numbers that the builders use on workflow ids. A
    finite number [NumFinite m e] is the rational [m * 2^e]; the two
    zeros are not told apart (the code does not: they print alike, are
    the same [Map] key and compare as equal). *)
Module JSNumber.
Import JS.

Definition finiteValue (m e : Z) : QArith_base.Q :=
  QArith_base.Qmult (QArith_base.inject_Z m)
                    (QArith_base.Qpower (QArith_base.Qmake 2 1) e).

Definition isNaN (n : jsnumber) : bool :=
  match n with NumNaN => true | _ => false end.

(** The sign of [a - b], as [Array.prototype.sort] reads the number a
    comparator returns: negative, zero or positive, and zero when the
    difference is [NaN] (a [NaN] operand, or two infinities of one
    sign). The difference of two distinct finite doubles is never
    rounded to zero, so its sign is the sign of the exact difference. *)
Definition subtractSign (a b : jsnumber) : Z :=
  match a, b with
  | NumNaN, _ | _, NumNaN => 0
  | NumInfinity na, NumInfinity nb =>
      if Bool.eqb na nb then 0 else if na then -1 else 1
  | NumInfinity na, NumFinite _ _ => if na then -1 else 1
  | NumFinite _ _, NumInfinity nb => if nb then 1 else -1
  | NumFinite m1 e1, NumFinite m2 e2 =>
      match QArith_base.Qcompare (finiteValue m1 e1) (finiteValue m2 e2) with
      | Lt => -1
      | Eq => 0
      | Gt => 1
      end
  end.

(** [SameValueZero], the equality of [Map] keys: [NaN] is equal to
    itself. *)
Definition sameValueZero (a b : jsnumber) : bool :=
  match a, b with
  | NumNaN, NumNaN => true
  | NumInfinity na, NumInfinity nb => Bool.eqb na nb
  | NumFinite m1 e1, NumFinite m2 e2 =>
      QArith_base.Qeq_bool (finiteValue m1 e1) (finiteValue m2 e2)
  | _, _ => false
  end.

(** The number whose value is the integer [z]. *)
Definition ofZ (z : Z) : jsnumber := NumFinite z 0.

(** [Number.isSafeInteger]: an integer whose absolute value is at most
    [2^53 - 1]; every such integer is a double. *)
Definition isSafeInteger (z : Z) : Prop := Z.abs z < 2 ^ 53.

End JSNumber.

(* ================================================================== *)
(** * The package manifest builder: [src/lib/bmad-manifest-v11.ts] *)
(* ================================================================== *)

Module BmadManifest.
Import JS JSNumber Outcomes.

(** [WorkflowListItemForManifest]; [id] is a number. *)
Record WorkflowListItemForManifest := {
  wf_id : jsnumber;
  wf_name : jsstring;
  wf_isDefault : option bool
}.

Record ManifestEntry := {
  entry_workflow : jsstring;
  entry_graph : jsstring;
  entry_agents : jsstring;
  entry_assetsDir : jsstring
}.

Record ManifestWorkflow := {
  mw_id : jsstring;
  mw_displayName : jsstring;
  mw_workflow : jsstring;
  mw_graph : jsstring;
  mw_tags : list jsstring
}.

Record BmadManifestV11 := {
  name : jsstring;
  version : jsstring;
  createdAt : jsstring;
  entry : ManifestEntry;
  workflows : list ManifestWorkflow
}.

Inductive ManifestError :=
| ErrWorkflowsEmpty
| ErrDuplicateWorkflowId (id : jsnumber)
| ErrNoValidWorkflow
| ErrInvalidWorkflowIds (invalidIds : list jsstring)
| ErrCreatedAtEmpty
| ErrVersionEmpty.

Inductive ManifestWarning :=
| WarnProjectNameEmpty
| WarnMultipleDefaultWorkflows (ids : list jsnumber)
| WarnNoDefaultWorkflow (chosen : option jsnumber).

Record BmadManifestBuildResult := {
  manifest : option BmadManifestV11;
  warnings : list ManifestWarning;
  errors : list ManifestError
}.

Definition WORKFLOW_ID_PATTERN_test : jsstring -> bool := idPatternTest.

Definition buildWorkflowPaths (id : jsstring) : jsstring * jsstring :=
  let base := u "workflows/" ++ id in
  (base ++ u "/workflow.md", base ++ u "/workflow.graph.json").

(** The [Map<number, WorkflowListItemForManifest>] called [byId], in
    insertion order; its keys are compared by [SameValueZero]. *)
Definition hasId (byId : list WorkflowListItemForManifest) (id : jsnumber) : bool :=
  existsb (fun w => sameValueZero (wf_id w) id) byId.

(** Lines 66-73: the loop that fills [byId]; a [null] element of the
    array is [None]. *)
Fixpoint collectById (workflows : list (option WorkflowListItemForManifest))
         (byId : list WorkflowListItemForManifest)
  : list WorkflowListItemForManifest * list ManifestError :=
  match workflows with
  | [] => (byId, [])
  | None :: rest => collectById rest byId
  | Some workflow :: rest =>
      if hasId byId (wf_id workflow)
      then let '(m, errs) := collectById rest byId in
           (m, ErrDuplicateWorkflowId (wf_id workflow) :: errs)
      else collectById rest (byId ++ [workflow])
  end.

(** [(a, b) => a.id - b.id], as the sort reads it. On numbers other
    than [NaN] the comparator is consistent, and every sort returns the
    array of the stable insertion sort. *)
Definition byIdAscending (a b : WorkflowListItemForManifest) : Z :=
  subtractSign (wf_id a) (wf_id b).

Definition flagged (w : WorkflowListItemForManifest) : bool :=
  match wf_isDefault w with Some true => true | _ => false end.

(** Lines 93-101: the entry workflow and the warnings of its selection. *)
Definition selectEntry (ordered : list WorkflowListItemForManifest)
  : option WorkflowListItemForManifest * list ManifestWarning :=
  let defaults := filter flagged ordered in
  let entryWorkflow := hd_error (sort byIdAscending defaults) in
  let warnings1 :=
    if (1 <? length defaults)%nat
    then [WarnMultipleDefaultWorkflows (List.map wf_id (sort byIdAscending defaults))]
    else [] in
  match entryWorkflow with
  | Some w => (Some w, warnings1)
  | None =>
      let entryWorkflow' := hd_error ordered in
      (entryWorkflow', warnings1 ++ [WarnNoDefaultWorkflow (option_map wf_id entryWorkflow')])
  end.

Section Build.

(** [String(n)], that is [Number::toString(n)]. *)
Variable Number_toString : jsnumber -> jsstring.

(** The body of [buildBmadManifestV11]. *)
Definition manifestBuild (projectName : jsstring)
           (workflows : list (option WorkflowListItemForManifest))
           (createdAt : jsstring) (version : option jsstring)
  : BmadManifestBuildResult :=
  let rawName := trim projectName in
  let name := if nonEmpty rawName then rawName else u "Untitled" in
  let warnings0 := if nonEmpty rawName then [] else [WarnProjectNameEmpty] in
  match workflows with
  | [] => {| manifest := None; warnings := warnings0; errors := [ErrWorkflowsEmpty] |}
  | _ :: _ =>
      let '(byId, errors1) := collectById workflows [] in
      let ordered := sort byIdAscending byId in
      match ordered with
      | [] => {| manifest := None; warnings := warnings0; errors := [ErrNoValidWorkflow] |}
      | _ :: _ =>
          let normalizedIds := List.map (fun w => trim (Number_toString (wf_id w))) ordered in
          let invalidIds :=
            filter (fun id => negb (nonEmpty id) || negb (WORKFLOW_ID_PATTERN_test id))
                   normalizedIds in
          let errors2 :=
            match invalidIds with [] => [] | _ :: _ => [ErrInvalidWorkflowIds invalidIds] end in
          let createdAt' := trim createdAt in
          let errors3 := if nonEmpty createdAt' then [] else [ErrCreatedAtEmpty] in
          let version' := trim (match version with Some v => v | None => u "0.1.0" end) in
          let errors4 := if nonEmpty version' then [] else [ErrVersionEmpty] in
          let errors := errors1 ++ errors2 ++ errors3 ++ errors4 in
          match errors with
          | _ :: _ => {| manifest := None; warnings := warnings0; errors := errors |}
          | [] =>
              let '(entryWorkflow, warnings1) := selectEntry ordered in
              let entryId :=
                trim (match entryWorkflow with
                      | Some w => Number_toString (wf_id w)
                      | None => []
                      end) in
              let entryPaths := buildWorkflowPaths entryId in
              let workflowsIndex :=
                List.map
                  (fun wf =>
                     let id := trim (Number_toString (wf_id wf)) in
                     let paths := buildWorkflowPaths id in
                     {| mw_id := id; mw_displayName := wf_name wf;
                        mw_workflow := fst paths; mw_graph := snd paths; mw_tags := [] |})
                  ordered in
              {| manifest :=
                   Some {| name := name; version := version'; createdAt := createdAt';
                           entry := {| entry_workflow := fst entryPaths;
                                       entry_graph := snd entryPaths;
                                       entry_agents := u "agents.json";
                                       entry_assetsDir := u "assets/" |};
                           workflows := workflowsIndex |};
                 warnings := warnings0 ++ warnings1;
                 errors := [] |}
          end
      end
  end.

(** With a [NaN] id the comparator is not consistent and the language
    leaves the order of the sorted arrays to the engine: the embedding
    covers the arrays in which no workflow has the id [NaN]. *)
Definition idsComparable (workflows : list (option WorkflowListItemForManifest)) : bool :=
  forallb (fun o => match o with Some w => negb (isNaN (wf_id w)) | None => true end)
          workflows.

Definition buildBmadManifestV11 (projectName : jsstring)
           (workflows : list (option WorkflowListItemForManifest))
           (createdAt : jsstring) (version : option jsstring)
  : Outcome BmadManifestBuildResult :=
  if idsComparable workflows
  then Returns (manifestBuild projectName workflows createdAt version)
  else NotCovered.

End Build.

End BmadManifest.

(* ================================================================== *)
(** * YAML frontmatter: [src/lib/export/frontmatter.ts] *)
(* ================================================================== *)

Module Frontmatter.
Import JS.

(** What [YAML.parse] throws: an [Error] with its message, or any other
    value. *)
Inductive Thrown := ThrownError (message : jsstring) | ThrownOther.

Inductive FrontmatterError :=
| ErrFrontmatterNotObject
| ErrYamlParseFailed (message : jsstring).

Record FrontmatterParseResult := {
  data : option (list (jsstring * jsval));
  error : option FrontmatterError
}.

Section Parse.

(** [YAML.parse] of the [yaml] package: the root value, or what it
    throws. *)
Variable YAML_parse : jsstring -> jsval + Thrown.

Definition parseYamlToObject (yamlText : jsstring) : FrontmatterParseResult :=
  let trimmed := trim yamlText in
  if negb (nonEmpty trimmed) then {| data := Some []; error := None |}
  else
    match YAML_parse trimmed with
    | inl parsed =>
        if negb (truthy parsed) then {| data := Some []; error := None |}
        else match parsed with
             | JObj props => {| data := Some props; error := None |}
             | _ => {| data := None; error := Some ErrFrontmatterNotObject |}
             end
    | inr (ThrownError message) =>
        {| data := None; error := Some (ErrYamlParseFailed message) |}
    | inr ThrownOther =>
        {| data := None;
           error := Some (ErrYamlParseFailed
                            (u "YAML " ++ [35299%N; 26512%N; 22833%N; 36133%N])) |}
    end.

End Parse.

End Frontmatter.

(* ================================================================== *)
(** * The export assembler: [src/lib/bmad-zip-v11.ts] *)
(* ================================================================== *)

Module BmadZip.
Import JS JSNumber Outcomes WorkflowGraph.

Record WorkflowDetailForExportV11 := {
  wd_id : jsnumber;
  wd_name : jsstring;
  wd_workflowMd : jsstring;
  wd_graphJson : jsstring;
  wd_stepFilesJson : jsstring
}.

(** [string | Uint8Array] *)
Inductive FileValue := Text (s : jsstring) | Bytes (b : list N).

Inductive ExportError :=
| ErrJsonEmpty (label : jsstring)
| ErrJsonNotObject (label : jsstring)
| ErrJsonInvalid (label : jsstring)
| ErrStepFileNotString (workflowLabel key : jsstring)
| ErrGraphNodesEmpty (workflowLabel : jsstring)
| ErrEntryMissing
| ErrEntryPathsMissing
| ErrNoWorkflows
| ErrAssetPathUnsafe (path : jsstring)
| ErrWorkflowIdInvalid (workflowLabel workflowId : jsstring)
| ErrWorkflowMdMissing (workflowLabel : jsstring)
| ErrStepKeyNotUnderSteps (workflowLabel key : jsstring)
| ErrStepKeyUnsafe (workflowLabel key : jsstring)
| ErrStepFileEmpty (workflowLabel key : jsstring)
| ErrGraphBuildFailed (workflowLabel : jsstring) (graphErrors : list GraphError)
| ErrNodeFileNotUnderSteps (workflowLabel nodeId file : jsstring)
| ErrNodeFileUnsafe (workflowLabel nodeId file : jsstring)
| ErrStepFileMissing (workflowLabel file nodeId : jsstring)
| ErrZipStepFileMissing (workflowLabel full : jsstring)
| ErrUnknownAgentId (workflowLabel agentId nodeId : jsstring)
| ErrEntryFileMissing (path : jsstring).

Inductive ExportWarning :=
| WarnSkippedAsset (path : jsstring)
| WarnGraph (workflowLabel : jsstring) (w : GraphWarning).

Record BmadExportFilesV11BuildResult := {
  filename : jsstring;
  filesByPath : option (Map.t FileValue);
  errors : list ExportError;
  warnings : list ExportWarning
}.

Definition WORKFLOW_ID_PATTERN_test : jsstring -> bool := idPatternTest.

(** [input.trim().replace(/\\/g, "/").replace(/^\.\/+/, "")] *)
Definition normalizeZipPath (input : jsstring) : jsstring :=
  let slashed := List.map (fun c => if (c =? 92)%N then 47%N else c) (trim input) in
  match slashed with
  | 46%N :: 47%N :: rest => stripStart (fun c => (c =? 47)%N) rest
  | _ => slashed
  end.

Definition isSafeZipPath (path : jsstring) : bool :=
  if negb (nonEmpty path) then false
  else if startsWith path (u "/") then false
  else if existsb (fun c => (c =? 0)%N) path then false
  else if existsb (fun part => str_eqb part (u "..") || str_eqb part (u ".")
                               || negb (nonEmpty part))
                  (split 47 path)
  then false
  else true.

(** The class of [sanitizeFilename]: backslash, slash, colon, star,
    question mark, double quote, angle brackets and bar. *)
Definition isFilenameUnsafe (c : N) : bool :=
  ((c =? 92) || (c =? 47) || (c =? 58) || (c =? 42) || (c =? 63) || (c =? 34)
   || (c =? 60) || (c =? 62) || (c =? 124))%N.

Definition sanitizeFilename (input : jsstring) : jsstring :=
  let raw := if nonEmpty (trim input) then trim input else u "Untitled" in
  let cleaned :=
    stripEnd (fun c => (c =? 46)%N)
      (trim (replaceRuns isWhiteSpace (u " ") (replaceRuns isFilenameUnsafe (u "-") raw))) in
  let base := if nonEmpty cleaned then cleaned else u "Untitled" in
  if (120 <? length base)%nat then trim (firstn 120 base) else base.

(** The unchecked casts [nodesRaw as BuilderGraphNode[]] and
    [edgesRaw as BuilderGraphEdge[]] (lines 96-97) change nothing at run
    time: the compiler receives the parsed elements as they are. In the
    declared types [id], [source] and [target] are strings, and the
    compiler tests them for truthiness before any other use, so that a
    property that is absent or falsy ([null], [false], [0]) is read as
    the empty string is. A property that is truthy and not a string is
    outside the declared type: it is not read at all ([None]). *)
Definition stringOrFalsy (v : jsval) : option jsstring :=
  match v with
  | JStr s => Some s
  | _ => if truthy v then None else Some []
  end.

Definition asBuilderGraphNode (v : jsval) : option BuilderGraphNode :=
  match stringOrFalsy (prop v "id") with
  | Some id =>
      Some {| bnode_id := id;
              bnode_type := prop v "type";
              bnode_data :=
                match prop v "data" with
                | JObj _ as d =>
                    Some {| data_title := prop d "title"; data_agentId := prop d "agentId";
                            data_inputs := prop d "inputs";
                            data_outputs := prop d "outputs" |}
                | _ => None
                end |}
  | None => None
  end.

(** The object identity of the edge at index [i] is [i], since
    [JSON.parse] never shares objects. *)
Definition asBuilderGraphEdge (v : jsval) (i : nat) : option BuilderGraphEdge :=
  match stringOrFalsy (prop v "source"), stringOrFalsy (prop v "target") with
  | Some source, Some target =>
      Some {| bedge_ref := i;
              bedge_id := match prop v "id" with JStr s => Some s | _ => None end;
              bedge_source := source;
              bedge_target := target;
              bedge_label := prop v "label";
              bedge_data :=
                match prop v "data" with
                | JObj _ as d =>
                    Some {| data_isDefault := prop d "isDefault";
                            data_conditionText := prop d "conditionText" |}
                | _ => None
                end |}
  | _, _ => None
  end.

(** All the elements of an array read at their declared type, or
    [None]. *)
Fixpoint castNodes (items : list jsval) : option (list BuilderGraphNode) :=
  match items with
  | [] => Some []
  | v :: rest =>
      match asBuilderGraphNode v, castNodes rest with
      | Some n, Some ns => Some (n :: ns)
      | _, _ => None
      end
  end.

Fixpoint castEdgesFrom (i : nat) (items : list jsval) : option (list BuilderGraphEdge) :=
  match items with
  | [] => Some []
  | v :: rest =>
      match asBuilderGraphEdge v i, castEdgesFrom (S i) rest with
      | Some e, Some es => Some (e :: es)
      | _, _ => None
      end
  end.

Definition castEdges (items : list jsval) : option (list BuilderGraphEdge) :=
  castEdgesFrom 0 items.

(** A number or a boolean: a primitive value that has no method
    [localeCompare]. *)
Definition isNumberOrBoolean (v : jsval) : bool :=
  match v with JNum _ | JBool _ => true | _ => false end.

(** [SameValueZero] on numbers and booleans. *)
Definition sameKey (a b : jsval) : bool :=
  match a, b with
  | JNum x, JNum y => sameValueZero x y
  | JBool x, JBool y => Bool.eqb x y
  | _, _ => false
  end.

(** A payload on which the compiler throws. Without edges no node has
    an incoming edge, so [startNodes] (line 164) holds every key of
    [nodesById], the truthy ids; when these are numbers or booleans and
    two of them differ, the array has at least two elements and the
    comparator [(a, b) => a.localeCompare(b)] of its sort is called on
    them: [a.localeCompare] is [undefined] and the call throws a
    [TypeError]. Nothing before that line throws or returns. *)
Definition throwsInSort (nodesRaw edgesRaw : list jsval) : bool :=
  let ids := filter truthy (List.map (fun v => prop v "id") nodesRaw) in
  match edgesRaw, ids with
  | [], first :: others =>
      forallb isNumberOrBoolean ids && existsb (fun id => negb (sameKey first id)) others
  | _, _ => false
  end.

(** The accumulators of [buildBmadExportFilesV11]. *)
Record Acc := {
  acc_files : Map.t FileValue;       (* filesByPath *)
  acc_paths : list jsstring;         (* filePaths *)
  acc_errors : list ExportError;
  acc_warnings : list ExportWarning
}.

Definition addFile (a : Acc) (path : jsstring) (value : FileValue) : Acc :=
  {| acc_files := Map.set (acc_files a) path value;
     acc_paths := setAdd (acc_paths a) path;
     acc_errors := acc_errors a;
     acc_warnings := acc_warnings a |}.

Definition addErrors (a : Acc) (errs : list ExportError) : Acc :=
  {| acc_files := acc_files a; acc_paths := acc_paths a;
     acc_errors := acc_errors a ++ errs; acc_warnings := acc_warnings a |}.

Definition addWarnings (a : Acc) (warns : list ExportWarning) : Acc :=
  {| acc_files := acc_files a; acc_paths := acc_paths a;
     acc_errors := acc_errors a; acc_warnings := acc_warnings a ++ warns |}.

Section Assembler.

Variable localeCompare : jsstring -> jsstring -> Z.

(** [String(n)], that is [Number::toString(n)]. *)
Variable Number_toString : jsnumber -> jsstring.

(** [JSON.parse]; [None] when it throws. *)
Variable JSON_parse : jsstring -> option jsval.

(** [JSON.stringify(exportedGraph, null, 2)] *)
Variable JSON_stringify_graph : WorkflowGraphV11 -> jsstring.

(** Lines 56-73; the second component is what is pushed to [errors]. *)
Definition parseJsonObject (raw : jsstring) (label : jsstring)
  : option (list (jsstring * jsval)) * list ExportError :=
  let trimmed := trim raw in
  if negb (nonEmpty trimmed) then (None, [ErrJsonEmpty label])
  else match JSON_parse trimmed with
       | Some (JObj props) => (Some props, [])
       | Some _ => (None, [ErrJsonNotObject label])
       | None => (None, [ErrJsonInvalid label])
       end.

(** [out[k] = v] on the plain object [out], for a string [v]: the key
    [__proto__] is the accessor of [Object.prototype], whose setter
    ignores a value that is not an object, so nothing is stored; any
    other key becomes, or stays, an own property. *)
Definition assign (out : Map.t jsstring) (k v : jsstring) : Map.t jsstring :=
  if str_eqb k (u "__proto__") then out else Map.set out k v.

(** Lines 79-86: the loop over [Object.entries(obj)]. *)
Fixpoint stepFileEntries (workflowLabel : jsstring) (entries : list (jsstring * jsval))
         (out : Map.t jsstring) : Map.t jsstring * list ExportError :=
  match entries with
  | [] => (out, [])
  | (k, JStr v) :: rest => stepFileEntries workflowLabel rest (assign out k v)
  | (k, _) :: rest =>
      let '(out', errs) := stepFileEntries workflowLabel rest out in
      (out', ErrStepFileNotString workflowLabel k :: errs)
  end.

Definition parseStepFilesJson (raw : jsstring) (workflowLabel : jsstring)
  : option (Map.t jsstring) * list ExportError :=
  match parseJsonObject raw (workflowLabel ++ u ".stepFilesJson") with
  | (None, errs) => (None, errs)
  | (Some obj, errs) =>
      let '(out, errs') := stepFileEntries workflowLabel obj [] in
      (Some out, errs ++ errs')
  end.

(** Lines 90-103; the payload holds the elements of the two arrays as
    they were parsed. *)
Definition parseBuilderGraphJson (raw : jsstring) (workflowLabel : jsstring)
  : option (list jsval * list jsval) * list ExportError :=
  match parseJsonObject raw (workflowLabel ++ u ".graphJson") with
  | (None, errs) => (None, errs)
  | (Some obj, errs) =>
      let nodes :=
        match lookupProp obj (u "nodes") with
        | JArr items => items
        | _ => []
        end in
      let edges :=
        match lookupProp obj (u "edges") with
        | JArr items => items
        | _ => []
        end in
      match nodes with
      | [] => (None, errs ++ [ErrGraphNodesEmpty workflowLabel])
      | _ :: _ => (Some (nodes, edges), errs)
      end
  end.

(** Lines 240-243: the call of the compiler on the payload. On a
    payload that reads at the declared types the compiler returns; on
    one of the payloads of [throwsInSort] it throws; the other payloads
    are not covered. *)
Definition compilePayload (nodesRaw edgesRaw : list jsval)
  : Outcome WorkflowGraphBuildResult :=
  match castNodes nodesRaw, castEdges edgesRaw with
  | Some nodes, Some edges => Returns (buildWorkflowGraphV11 localeCompare nodes edges)
  | _, _ => if throwsInSort nodesRaw edgesRaw then Throws else NotCovered
  end.

Definition extractEntryPaths (bmadJson : list (jsstring * jsval))
  : option (jsstring * jsstring * jsstring) * list ExportError :=
  match lookupProp bmadJson (u "entry") with
  | JObj _ as entryObj =>
      let workflow := trimmedString (prop entryObj "workflow") in
      let graph := trimmedString (prop entryObj "graph") in
      let agents := trimmedString (prop entryObj "agents") in
      if negb (nonEmpty workflow) || negb (nonEmpty graph) || negb (nonEmpty agents)
      then (None, [ErrEntryPathsMissing])
      else (Some (workflow, graph, agents), [])
  | _ => (None, [ErrEntryMissing])
  end.

(** Lines 154-160: the ids collected from [agents.json]. *)
Definition collectAgentIds (agentsObj : list (jsstring * jsval)) : list jsstring :=
  let agents := match lookupProp agentsObj (u "agents") with JArr l => l | _ => [] end in
  fold_left
    (fun s a =>
       match a with
       | JObj _ =>
           match prop a "id" with
           | JStr id => if (0 <? length (trim id))%nat then setAdd s id else s
           | _ => s
           end
       | _ => s
       end)
    agents [].

(** Lines 178-190: one entry of [assets]. *)
Definition assetEntry (a : Acc) (entry : jsstring * FileValue) : Acc :=
  let '(rawPath, value) := entry in
  let normalized := normalizeZipPath rawPath in
  if negb (startsWith normalized (u "assets/"))
  then addWarnings a [WarnSkippedAsset normalized]
  else if negb (isSafeZipPath normalized)
  then addErrors a [ErrAssetPathUnsafe normalized]
  else addFile a normalized value.

(** Lines 215-230: one entry of [stepFiles]; the pair is
    [stepFilesNormalized] and the errors pushed so far. *)
Definition stepFileEntry (workflowLabel : jsstring)
           (st : Map.t jsstring * list ExportError) (entry : jsstring * jsstring)
  : Map.t jsstring * list ExportError :=
  let '(normalized, errs) := st in
  let '(rawKey, content) := entry in
  let key := normalizeZipPath rawKey in
  if negb (startsWith key (u "steps/"))
  then (normalized, errs ++ [ErrStepKeyNotUnderSteps workflowLabel key])
  else if negb (isSafeZipPath key)
  then (normalized, errs ++ [ErrStepKeyUnsafe workflowLabel key])
  else if negb (nonEmpty (trim content))
  then (normalized, errs ++ [ErrStepFileEmpty workflowLabel key])
  else (Map.set normalized key content, errs).

(** Lines 250-274: one node of the compiled graph: the rewritten node
    and the errors pushed for it. *)
Definition rewriteNode (workflowLabel workflowId : jsstring)
           (stepFilesNormalized : Map.t jsstring) (stepFullPaths : list jsstring)
           (agentIds : list jsstring) (node : WorkflowGraphV11Node)
  : WorkflowGraphV11Node * list ExportError :=
  let file := normalizeZipPath (node_file node) in
  let fileErrors :=
    if negb (startsWith file (u "steps/"))
    then [ErrNodeFileNotUnderSteps workflowLabel (node_id node) file]
    else if negb (isSafeZipPath file)
    then [ErrNodeFileUnsafe workflowLabel (node_id node) file]
    else if negb (match Map.get stepFilesNormalized file with
                  | Some content => nonEmpty content
                  | None => false
                  end)
    then [ErrStepFileMissing workflowLabel file (node_id node)]
    else
      let full := u "workflows/" ++ workflowId ++ u "/" ++ file in
      if negb (setHas stepFullPaths full)
      then [ErrZipStepFileMissing workflowLabel full] else [] in
  let agentId := match node_agentId node with Some a => trim a | None => [] end in
  let agentErrors :=
    if nonEmpty agentId && negb (setHas agentIds agentId)
    then [ErrUnknownAgentId workflowLabel agentId (node_id node)] else [] in
  ({| node_id := node_id node;
      node_type := node_type node;
      node_file := u "workflows/" ++ workflowId ++ u "/" ++ file;
      node_title := node_title node;
      node_agentId := node_agentId node;
      node_inputs := node_inputs node;
      node_outputs := node_outputs node |},
   fileErrors ++ agentErrors).

Definition workflowLabelOf (wf : WorkflowDetailForExportV11) : jsstring :=
  let workflowId := trim (Number_toString (wd_id wf)) in
  u "workflow(" ++ (if nonEmpty (wd_name wf) then wd_name wf else workflowId)
    ++ u ",ID:" ++ Number_toString (wd_id wf) ++ u ")".

(** Lines 244-283: what follows the call of the compiler. *)
Definition afterCompile (agentIds : list jsstring) (a4 : Acc)
           (workflowLabel workflowId : jsstring)
           (stepFilesNormalized : Map.t jsstring) (stepFullPaths : list jsstring)
           (graphBuild : WorkflowGraphBuildResult) : Acc :=
  match WorkflowGraph.graph graphBuild with
  | None =>
      addErrors a4 [ErrGraphBuildFailed workflowLabel (WorkflowGraph.errors graphBuild)]
  | Some g =>
      let a5 :=
        addWarnings a4 (List.map (WarnGraph workflowLabel)
                                 (WorkflowGraph.warnings graphBuild)) in
      let rewritten :=
        List.map (rewriteNode workflowLabel workflowId stepFilesNormalized
                              stepFullPaths agentIds)
                 (nodes g) in
      let a6 := addErrors a5 (flat_map snd rewritten) in
      let exportedGraph :=
        {| entryNodeId := entryNodeId g;
           nodes := List.map fst rewritten;
           edges := WorkflowGraph.edges g |} in
      let graphPath := u "workflows/" ++ workflowId ++ u "/workflow.graph.json" in
      addFile a6 graphPath (Text (JSON_stringify_graph exportedGraph))
  end.

(** Lines 193-284: the body of [for (const wf of workflows)]. *)
Definition workflowStep (agentIds : list jsstring) (a : Acc)
           (wf : WorkflowDetailForExportV11) : Outcome Acc :=
  let workflowId := trim (Number_toString (wd_id wf)) in
  let workflowLabel := workflowLabelOf wf in
  if negb (nonEmpty workflowId) || negb (WORKFLOW_ID_PATTERN_test workflowId)
  then Returns (addErrors a [ErrWorkflowIdInvalid workflowLabel workflowId])
  else if negb (nonEmpty (trim (wd_workflowMd wf)))
  then Returns (addErrors a [ErrWorkflowMdMissing workflowLabel])
  else
    let workflowMdPath := u "workflows/" ++ workflowId ++ u "/workflow.md" in
    let a1 := addFile a workflowMdPath (Text (wd_workflowMd wf)) in
    let '(stepFiles, errs1) := parseStepFilesJson (wd_stepFilesJson wf) workflowLabel in
    let '(graphPayload, errs2) := parseBuilderGraphJson (wd_graphJson wf) workflowLabel in
    let a2 := addErrors a1 (errs1 ++ errs2) in
    match stepFiles, graphPayload with
    | Some stepFiles, Some (payloadNodes, payloadEdges) =>
        let '(stepFilesNormalized, errs3) :=
          fold_left (stepFileEntry workflowLabel) stepFiles ([], []) in
        let a3 := addErrors a2 errs3 in
        let fullPaths :=
          List.map (fun kv => (u "workflows/" ++ workflowId ++ u "/" ++ fst kv, snd kv))
                   stepFilesNormalized in
        let a4 := fold_left (fun acc kv => addFile acc (fst kv) (Text (snd kv))) fullPaths a3 in
        let stepFullPaths := fold_left (fun s kv => setAdd s (fst kv)) fullPaths [] in
        bind (compilePayload payloadNodes payloadEdges)
             (fun graphBuild =>
                Returns (afterCompile agentIds a4 workflowLabel workflowId
                                      stepFilesNormalized stepFullPaths graphBuild))
    | _, _ => Returns a2
    end.

(** Line 193: the loop; an exception leaves it. *)
Fixpoint workflowLoop (agentIds : list jsstring)
         (workflows : list WorkflowDetailForExportV11) (a : Acc) : Outcome Acc :=
  match workflows with
  | [] => Returns a
  | wf :: rest => bind (workflowStep agentIds a wf) (workflowLoop agentIds rest)
  end.

(** Lines 286-299: the two returns after the loop. *)
Definition finish (filename : jsstring) (entryWorkflow entryGraph entryAgents : jsstring)
           (a4 : Acc) : BmadExportFilesV11BuildResult :=
  match acc_errors a4 with
  | _ :: _ =>
      {| filename := filename; filesByPath := None;
         errors := acc_errors a4; warnings := acc_warnings a4 |}
  | [] =>
      let expected :=
        List.map normalizeZipPath [entryWorkflow; entryGraph; entryAgents] in
      let missing :=
        flat_map
          (fun path =>
             if setHas (acc_paths a4) path then [] else [ErrEntryFileMissing path])
          expected in
      match missing with
      | _ :: _ =>
          {| filename := filename; filesByPath := None;
             errors := missing; warnings := acc_warnings a4 |}
      | [] =>
          {| filename := filename; filesByPath := Some (acc_files a4);
             errors := []; warnings := acc_warnings a4 |}
      end
  end.

(** [assets] lists [Object.entries(params.assets)]; [None] when the
    parameter is absent. *)
Definition buildBmadExportFilesV11 (projectName bmadJson agentsJson : jsstring)
           (workflows : list WorkflowDetailForExportV11)
           (assets : option (list (jsstring * FileValue)))
  : Outcome BmadExportFilesV11BuildResult :=
  let filename := sanitizeFilename (trim projectName) ++ u ".bmad" in
  let '(bmadObj, errs1) := parseJsonObject bmadJson (u "bmad.json") in
  let '(agentsObj, errs2) := parseJsonObject agentsJson (u "agents.json") in
  let fail errs :=
    {| filename := filename; filesByPath := None; errors := errs; warnings := [] |} in
  match bmadObj, agentsObj with
  | Some bmadObj, Some agentsObj =>
      match extractEntryPaths bmadObj with
      | (None, errs3) => Returns (fail (errs1 ++ errs2 ++ errs3))
      | (Some (entryWorkflow, entryGraph, entryAgents), errs3) =>
          let agentIds := collectAgentIds agentsObj in
          match workflows with
          | [] => Returns (fail [ErrNoWorkflows])
          | _ :: _ =>
              let a0 :=
                {| acc_files := []; acc_paths := [];
                   acc_errors := errs1 ++ errs2 ++ errs3; acc_warnings := [] |} in
              let a1 := addFile a0 (u "bmad.json") (Text bmadJson) in
              let a2 := addFile a1 (u "agents.json") (Text agentsJson) in
              let a3 :=
                match assets with
                | Some entries => fold_left assetEntry entries a2
                | None => a2
                end in
              bind (workflowLoop agentIds workflows a3)
                   (fun a4 =>
                      Returns (finish filename entryWorkflow entryGraph entryAgents a4))
          end
      end
  | _, _ => Returns (fail (errs1 ++ errs2))
  end.

End Assembler.

End BmadZip.

(* ================================================================== *)
(** * Vocabulary of the statements about the graph compiler *)
(* ================================================================== *)

Module GraphSpec.
Import JS WorkflowGraph.

(** [x] is the id of an input node: a non-empty id some node carries. *)
Definition isNodeId (nodes : list BuilderGraphNode) (x : jsstring) : Prop :=
  x <> [] /\ exists n, In n nodes /\ bnode_id n = x.

(** The last input node that carries the id. *)
Definition lastNode (nodes : list BuilderGraphNode) (id : jsstring)
  : option BuilderGraphNode :=
  find (fun n => str_eqb (bnode_id n) id) (rev nodes).

(** An input edge from [a] to [b] whose two endpoints resolve. *)
Definition resolvedEdge (nodes : list BuilderGraphNode) (edges : list BuilderGraphEdge)
           (a b : jsstring) : Prop :=
  exists e, In e edges /\ bedge_source e = a /\ bedge_target e = b
            /\ isNodeId nodes a /\ isNodeId nodes b.

(** An edge of the emitted document from [a] to [b]. *)
Definition graphEdge (g : WorkflowGraphV11) (a b : jsstring) : Prop :=
  exists e, In e (WorkflowGraph.edges g) /\ edge_from e = a /\ edge_to e = b.

(** A directed cycle: a path of at least one edge from a node to itself. *)
Definition hasCycle (R : jsstring -> jsstring -> Prop) : Prop :=
  exists v, clos_trans jsstring R v v.

Definition mkRecord (e : BuilderGraphEdge) (i : nat) : EdgeRecord :=
  {| edge := e; idx := i |}.

Definition src (r : EdgeRecord) : jsstring := bedge_source (edge r).
Definition tgt (r : EdgeRecord) : jsstring := bedge_target (edge r).

Definition fromSource (s : jsstring) (r : EdgeRecord) : bool := str_eqb (src r) s.

(** The input edges that leave [s], each with its index in the input
    array, in the stable order of the compiler. *)
Definition outgoingInStableOrder (localeCompare : jsstring -> jsstring -> Z)
           (edges : list BuilderGraphEdge) (s : jsstring) : list EdgeRecord :=
  sortGroup localeCompare (filter (fromSource s) (mapi mkRecord edges)).

(** The emitted edges that leave [s], in document order. *)
Definition emittedFrom (g : WorkflowGraphV11) (s : jsstring) : list WorkflowGraphV11Edge :=
  filter (fun e => str_eqb (edge_from e) s) (WorkflowGraph.edges g).

(** The edge has a label of its own: a string that is not blank. *)
Definition explicitLabel (e : BuilderGraphEdge) : bool :=
  nonEmpty (trimmedString (bedge_label e)).

(** Both endpoints of the edge are present and are keys of [nodesById]. *)
Definition resolves (nodesById : Map.t BuilderGraphNode) (e : BuilderGraphEdge) : bool :=
  nonEmpty (bedge_source e) && nonEmpty (bedge_target e)
  && Map.has nodesById (bedge_source e) && Map.has nodesById (bedge_target e).

(** The targets of the edges that leave [a], in input order. *)
Definition targetsOf (E : list EdgeRecord) (a : jsstring) : list jsstring :=
  List.map tgt (filter (fromSource a) E).

(** How many edges enter [v]. *)
Definition indegreeOf (E : list EdgeRecord) (v : jsstring) : Z :=
  Z.of_nat (count_occ str_eq_dec (List.map tgt E) v).

(** The number of distinct node ids, and the number of nodes the
    traversal of lines 143-157 visits on the valid edges. *)
Definition nodeCount (bnodes : list BuilderGraphNode) : Z :=
  Z.of_nat (length (Map.keys (buildNodesById bnodes))).

Definition visitedCount (bnodes : list BuilderGraphNode) (bedges : list BuilderGraphEdge)
  : Z :=
  let nodeIds := Map.keys (buildNodesById bnodes) in
  let E := fst (validateEdges (buildNodesById bnodes) bedges 0) in
  let indegree := fst (degrees nodeIds E) in
  let outgoing := snd (degrees nodeIds E) in
  fst (kahn (length nodeIds) outgoing (zeroIndegree indegree nodeIds) indegree 0).

(** Of the edges that enter [v], how many leave a node of [done]. *)
Definition processed (E : list EdgeRecord) (done : list jsstring) (v : jsstring) : Z :=
  Z.of_nat (count_occ str_eq_dec (flat_map (targetsOf E) done) v).

(** The invariant of the traversal loop. [done] lists the nodes shifted
    off the queue so far, [nxt] is [nextIndegree], and [stuck] is a set
    of nodes each of which has a predecessor in the set. *)
Record Inv (nodeIds : list jsstring) (E : list EdgeRecord) (stuck : jsstring -> Prop)
       (done queue : list jsstring) (nxt : Map.t Z) : Prop := {
  inv_NoDup : NoDup (done ++ queue);
  inv_nodes : forall v, In v (done ++ queue) -> In v nodeIds;
  inv_zero : forall v, In v (done ++ queue) -> Map.get0 nxt v <= 0;
  inv_count : forall v, Map.get0 nxt v = indegreeOf E v - processed E done v;
  inv_stuck : forall c, stuck c -> ~ In c (done ++ queue)
}.

End GraphSpec.

Module GraphClaims.
Import JS WorkflowGraph GraphSpec.

(** A candidate entry node: a node id that no resolved edge enters. *)
Definition isStartNode (bnodes : list BuilderGraphNode) (bedges : list BuilderGraphEdge)
           (c : jsstring) : Prop :=
  isNodeId bnodes c /\ forall a, ~ resolvedEdge bnodes bedges a c.

(** The key of the stable order: the edge id, trimmed, when that is not
    empty, and [source->target#index] otherwise, with the index of the
    edge in the input array. *)
Definition stableKey (r : EdgeRecord) : jsstring :=
  let fallback := src r ++ u "->" ++ tgt r ++ u "#" ++ String_of_nat (idx r) in
  match bedge_id (edge r) with
  | Some id => match trim id with [] => fallback | key => key end
  | None => fallback
  end.

(** [a] comes before [b] in the stable order: its key is not after the
    key of [b], and when the two keys tie, [a] comes first in the
    input. *)
Definition stableBefore (localeCompare : jsstring -> jsstring -> Z)
           (a b : EdgeRecord) : Prop :=
  localeCompare (stableKey a) (stableKey b) <= 0
  /\ (localeCompare (stableKey b) (stableKey a) <= 0 -> (idx a < idx b)%nat).

(** The input edges that leave [s], each with its index in the input
    array, in input order. *)
Definition outgoingInInputOrder (edges : list BuilderGraphEdge) (s : jsstring)
  : list EdgeRecord :=
  filter (fromSource s) (mapi mkRecord edges).

(** "Edges with an explicit non-empty label keep that label unchanged",
    read on one input. *)
Definition keepsExplicitLabels (localeCompare : jsstring -> jsstring -> Z)
           (bnodes : list BuilderGraphNode) (bedges : list BuilderGraphEdge) : Prop :=
  forall g s i r e l,
    graph (buildWorkflowGraphV11 localeCompare bnodes bedges) = Some g ->
    nth_error (outgoingInStableOrder localeCompare bedges s) i = Some r ->
    nth_error (emittedFrom g s) i = Some e ->
    bedge_label (edge r) = JStr l -> l <> [] ->
    edge_label e = l.

(** "For every source node with multiple outgoing edges of which none
    is flagged isDefault, no emitted edge of that source carries
    isDefault:true", read on one input. *)
Definition implicitDefaultNotWritten (localeCompare : jsstring -> jsstring -> Z)
           (bnodes : list BuilderGraphNode) (bedges : list BuilderGraphEdge) : Prop :=
  forall g s e,
    graph (buildWorkflowGraphV11 localeCompare bnodes bedges) = Some g ->
    (1 < length (outgoingInStableOrder localeCompare bedges s))%nat ->
    filter flaggedDefault (outgoingInStableOrder localeCompare bedges s) = [] ->
    In e (emittedFrom g s) ->
    edge_isDefault e <> Some true.

End GraphClaims.

(** Worked inputs of the graph compiler. *)
Module GraphExamples.
Import JS WorkflowGraph.
Local Open Scope string_scope.

(** Scenario C: a decision node [d] with the unlabelled, unflagged edges
    [e1] to [x] and [e2] to [y]. *)
Definition scenarioC_nodes : list BuilderGraphNode :=
  [plainNode "d"; plainNode "x"; plainNode "y"].

Definition scenarioC_edges : list BuilderGraphEdge :=
  [plainEdge 0 (Some "e1") "d" "x" JUndefined;
   plainEdge 1 (Some "e2") "d" "y" JUndefined].

(** Scenario D: the cycle [a -> b -> a]. *)
Definition scenarioD_nodes : list BuilderGraphNode := [plainNode "a"; plainNode "b"].

Definition scenarioD_edges : list BuilderGraphEdge :=
  [plainEdge 0 None "a" "b" (JStr []); plainEdge 1 None "b" "a" (JStr [])].

(** Scenario B, with a label of its own, padded with spaces. *)
Definition padded_nodes : list BuilderGraphNode := [plainNode "a"; plainNode "b"].

Definition padded_edges : list BuilderGraphEdge :=
  [plainEdge 0 None "a" "b" (JStr (u " yes "))].

(** A decision node [d] whose first edge carries the label [yes] and
    whose second edge carries none. *)
Definition mixed_nodes : list BuilderGraphNode :=
  [plainNode "d"; plainNode "x"; plainNode "y"].

Definition mixed_edges : list BuilderGraphEdge :=
  [plainEdge 0 (Some "e1") "d" "x" (JStr (u "yes"));
   plainEdge 1 (Some "e2") "d" "y" JUndefined].

(** The same decision node with its edges listed in the other order:
    the unlabelled edge to [y], without an id, comes first in the input,
    and the edge to [x], with the id [a1] padded with spaces and the
    label [yes], comes second. *)
Definition reversed_edges : list BuilderGraphEdge :=
  [plainEdge 0 None "d" "y" JUndefined;
   plainEdge 1 (Some " a1 ") "d" "x" (JStr (u "yes"))].

(** Two start nodes [a] and [b], both leading to [c]; [c] is listed
    twice, the second time as a decision node. *)
Definition twoStarts_nodes : list BuilderGraphNode :=
  [plainNode "b"; plainNode "c"; plainNode "a";
   {| bnode_id := u "c"; bnode_type := JStr (u "decision"); bnode_data := None |}].

Definition twoStarts_edges : list BuilderGraphEdge :=
  [plainEdge 0 None "b" "c" JUndefined; plainEdge 1 None "a" "c" JUndefined].

End GraphExamples.

(** Vocabulary of the statements about the package manifest. *)
Module ManifestSpec.
Import JS JSNumber BmadManifest.

(** The elements of the [workflows] array that are not [null]. *)
Definition presentWorkflows (workflows : list (option WorkflowListItemForManifest))
  : list WorkflowListItemForManifest :=
  flat_map (fun o => match o with Some w => [w] | None => [] end) workflows.

(** The value of a number other than [NaN]: a rational or an infinity. *)
Inductive extended :=
| NegInf
| Fin (q : QArith_base.Q)
| PosInf.

Definition valueOf (n : jsnumber) : option extended :=
  match n with
  | NumNaN => None
  | NumInfinity true => Some NegInf
  | NumInfinity false => Some PosInf
  | NumFinite m e => Some (Fin (finiteValue m e))
  end.

Definition extendedLe (x y : extended) : Prop :=
  match x, y with
  | NegInf, _ => True
  | _, PosInf => True
  | Fin p, Fin q => QArith_base.Qle p q
  | _, _ => False
  end.

Definition extendedLt (x y : extended) : Prop :=
  match x, y with
  | NegInf, NegInf => False
  | NegInf, _ => True
  | PosInf, _ => False
  | Fin _, NegInf => False
  | Fin p, Fin q => QArith_base.Qlt p q
  | Fin _, PosInf => True
  end.

(** [a] is at most [b], as values; no number is compared with [NaN]. *)
Definition notAbove (a b : jsnumber) : Prop :=
  match valueOf a, valueOf b with
  | Some x, Some y => extendedLe x y
  | _, _ => False
  end.

(** [a] is less than [b], as values. *)
Definition below (a b : jsnumber) : Prop :=
  match valueOf a, valueOf b with
  | Some x, Some y => extendedLt x y
  | _, _ => False
  end.

(** No workflow of the list has the id [NaN]. *)
Definition noNaN (l : list WorkflowListItemForManifest) : Prop :=
  Forall (fun w => isNaN (wf_id w) = false) l.

(** The id of a workflow as the manifest writes it: the trimmed
    [String(id)]. *)
Definition idText (Number_toString : jsnumber -> jsstring)
           (w : WorkflowListItemForManifest) : jsstring :=
  trim (Number_toString (wf_id w)).

(** The manifest's [entry] points at the two files of workflow [w],
    [workflows/<id>/workflow.md] and [workflows/<id>/workflow.graph.json]. *)
Definition isEntryOf (Number_toString : jsnumber -> jsstring)
           (m : BmadManifestV11) (w : WorkflowListItemForManifest) : Prop :=
  entry_workflow (entry m)
  = u "workflows/" ++ idText Number_toString w ++ u "/workflow.md"
  /\ entry_graph (entry m)
     = u "workflows/" ++ idText Number_toString w ++ u "/workflow.graph.json".

(** The entry of the [workflows] index for workflow [w]. *)
Definition indexEntryOf (Number_toString : jsnumber -> jsstring)
           (w : WorkflowListItemForManifest) : ManifestWorkflow :=
  {| mw_id := idText Number_toString w;
     mw_displayName := wf_name w;
     mw_workflow := u "workflows/" ++ idText Number_toString w ++ u "/workflow.md";
     mw_graph := u "workflows/" ++ idText Number_toString w ++ u "/workflow.graph.json";
     mw_tags := [] |}.

(** A warning of the entry selection. *)
Definition isSelectionWarning (w : ManifestWarning) : Prop :=
  match w with
  | WarnMultipleDefaultWorkflows _ | WarnNoDefaultWorkflow _ => True
  | WarnProjectNameEmpty => False
  end.

(** The number [n] has the integer [z] as its value. *)
Definition isInteger (n : jsnumber) (z : Z) : Prop := sameValueZero n (ofZ z) = true.

(** [Number::toString] prints a safe integer as its decimal numeral. *)
Definition printsSafeIntegers (Number_toString : jsnumber -> jsstring) : Prop :=
  forall n z, isInteger n z -> isSafeInteger z -> Number_toString n = String_of_Z z.

(** A stand-in for [Number::toString] in the worked inputs, whose ids
    are safe integers: it prints a safe integer, [NaN] and the
    infinities as JavaScript does. On the other numbers it is not
    [Number::toString]. *)
Definition printInteger (n : jsnumber) : jsstring :=
  match n with
  | NumNaN => u "NaN"
  | NumInfinity false => u "Infinity"
  | NumInfinity true => u "-Infinity"
  | NumFinite m e => String_of_Z (QArith_base.Qnum (Qreduction.Qred (finiteValue m e)))
  end.

Definition workflowItem (id : Z) (name : string) (isDefault : option bool)
  : option WorkflowListItemForManifest :=
  Some {| wf_id := ofZ id; wf_name := u name; wf_isDefault := isDefault |}.

End ManifestSpec.

(** Worked inputs of the package manifest builder. *)
Module ManifestExamples.
Import JS BmadManifest ManifestSpec.

Definition oneDefault : list (option WorkflowListItemForManifest) :=
  [workflowItem 2 "Review" None; workflowItem 1 "Main" (Some true)].

Definition twoDefaults : list (option WorkflowListItemForManifest) :=
  [workflowItem 3 "Late" (Some true); None; workflowItem 1 "Main" None;
   workflowItem 2 "Review" (Some true)].

Definition noDefault : list (option WorkflowListItemForManifest) :=
  [workflowItem 3 "Late" None; workflowItem 2 "Review" (Some false)].

End ManifestExamples.

(** Vocabulary of the statements about the frontmatter parser. *)
Module FrontmatterSpec.
Import JS Frontmatter.

(** "For every input whose YAML root is not a mapping the result is
    [data: null] with the not-an-object error", read on one input. *)
Definition nonMappingRejected (YAML_parse : jsstring -> jsval + Thrown)
           (yamlText : jsstring) : Prop :=
  forall root,
    YAML_parse (trim yamlText) = inl root ->
    (forall props, root <> JObj props) ->
    parseYamlToObject YAML_parse yamlText
    = {| data := None; error := Some ErrFrontmatterNotObject |}.

(** What [YAML.parse] returns on the documents of the worked examples:
    the plain scalars [0], [false] and [null], the flow sequence
    [[]] and the flow mapping [{}]; any other text stands for a plain
    string scalar. *)
Definition yamlOfExamples (text : jsstring) : jsval + Thrown :=
  if str_eq_dec text (u "0") then inl (JNum (NumFinite 0 0))
  else if str_eq_dec text (u "false") then inl (JBool false)
  else if str_eq_dec text (u "null") then inl JNull
  else if str_eq_dec text (u "[]") then inl (JArr [])
  else if str_eq_dec text (u "{}") then inl (JObj [])
  else inl (JStr text).

End FrontmatterSpec.

(** Vocabulary of the statements about agent ids. *)
Module AgentsSpec.
Import JS Utils AgentsManifest.

(** The candidates [uniqueAgentId] tries before it reads the clock:
    the slug, then the slug with the suffixes [-2] to [-999]. *)
Definition candidateIds (base : jsstring) : list jsstring :=
  base :: List.map (fun i => base ++ u "-" ++ String_of_Z (Z.of_nat i)) (seq 2 998).

(** A legacy record [{ name, role }]. *)
Definition legacyRecord (name role : string) : jsval :=
  JObj [(u "name", JStr (u name)); (u "role", JStr (u role))].

(** [item] is a record of the legacy shape whose trimmed name is [name]. *)
Definition isRecordNamed (name : jsstring) (item : jsval) : Prop :=
  isPlainObject item = true /\ normalizeString (prop item "name") = name.

(** The manifest that the legacy branch hands to the validator: the
    agents pushed by [parsed.forEach] (lines 166-187). *)
Definition legacyManifest (toLowerCase : jsstring -> jsstring) (Date_now : nat -> Z)
           (items : list jsval) : AgentsManifestV11 :=
  {| agents :=
       st_agents
         (forEachFrom (legacyItem toLowerCase Date_now)
            {| st_agents := []; st_seen := []; st_warnings := []; st_errors := [] |}
            items 0) |}.

(** A validator that accepts every manifest, and a clock that stands
    still during the run. *)
Definition acceptAll (m : AgentsManifestV11) : bool := true.
Definition noErrors (m : AgentsManifestV11) : list ErrorObject := [].
Definition frozenClock (i : nat) : Z := 1700000000000.

(** 1001 records of the name [a]; the last two differ in their role. *)
Definition legacy1001 : list jsval :=
  repeat (legacyRecord "a" "writer") 999
  ++ [legacyRecord "a" "editor"; legacyRecord "a" "tester"].

(** [JSON.parse] on the one text of the worked example: the text
    [legacy-1001] stands for the JSON text of the array [legacy1001]. *)
Definition parseLegacy1001 (text : jsstring) : option jsval :=
  if str_eq_dec text (u "legacy-1001") then Some (JArr legacy1001) else None.

(** Every code unit is one the id pattern allows after the first. *)
Definition allIdChars (s : jsstring) : Prop := Forall (fun c => isIdChar c = true) s.

End AgentsSpec.

(** Vocabulary of the statements about the export assembler. *)
Module ExportSpec.
Import JS JSNumber Outcomes WorkflowGraph BmadZip.








(** The errors of [b] are those of [a], followed by more. *)
Definition extends (a b : Acc) : Prop :=
  exists extra, acc_errors b = acc_errors a ++ extra.

End ExportSpec.

(** Scenario E, the worked input of the export assembler: one workflow
    whose only node refers to the agent [ghost], while [agents.json]
    declares the agent [dev]. *)
Module ExportExamples.
Import JS WorkflowGraph BmadZip.

(** A JSON string literal: the text between double quotes. *)
Definition q (s : string) : jsstring := 34%N :: u s ++ [34%N].











End ExportExamples.

(** Further vocabulary and worked inputs of the graph compiler. *)
Module GraphMore.
Import JS WorkflowGraph GraphSpec.

(** The endpoints of an input edge and of an emitted edge. *)
Definition inputEnds (e : BuilderGraphEdge) : jsstring * jsstring :=
  (bedge_source e, bedge_target e).

Definition emittedEnds (e : WorkflowGraphV11Edge) : jsstring * jsstring :=
  (edge_from e, edge_to e).

(** A path along a relation: each element is related to the next. *)
Fixpoint chain (R : jsstring -> jsstring -> Prop) (l : list jsstring) : Prop :=
  match l with
  | a :: ((b :: _) as t) => R a b /\ chain R t
  | _ => True
  end.

(** There is a valid edge from [a] to [b]. *)
Definition edgeIn (E : list EdgeRecord) (a b : jsstring) : Prop :=
  exists r, In r E /\ src r = a /\ tgt r = b.

(** Every node with no pending incoming edge has been queued or
    visited. *)
Definition Full (nodeIds : list jsstring) (done queue : list jsstring) (nxt : Map.t Z)
  : Prop :=
  forall v, In v nodeIds -> Map.get0 nxt v <= 0 -> In v (done ++ queue).

(** A string that is present and not blank, or absent. *)
Definition notBlank (o : option jsstring) : Prop :=
  match o with Some s => s <> [] /\ trim s = s | None => True end.

(** A list of strings that is present, not empty and free of blank
    strings, or absent. *)
Definition noBlanks (o : option (list jsstring)) : Prop :=
  match o with
  | Some l => l <> [] /\ Forall (fun s => s <> [] /\ trim s = s) l
  | None => True
  end.

Local Open Scope string_scope.

(** An edge [a -> ghost] whose target is not a node. *)
Definition dangling_nodes : list BuilderGraphNode := [plainNode "a"; plainNode "b"].

Definition dangling_edges : list BuilderGraphEdge :=
  [plainEdge 0 None "a" "b" JUndefined; plainEdge 1 None "a" "ghost" JUndefined].

(** A node whose id has a space in it. *)
Definition badId_nodes : list BuilderGraphNode := [plainNode "a"; plainNode "b c"].

(** A decision node [d] with three edges, of which [e2] and [e3] are
    flagged as the default. *)
Definition flaggedEdge (ref : nat) (id source target : string) : BuilderGraphEdge :=
  {| bedge_ref := ref; bedge_id := Some (u id); bedge_source := u source;
     bedge_target := u target; bedge_label := JUndefined;
     bedge_data := Some {| data_isDefault := JBool true; data_conditionText := JUndefined |} |}.

Definition twoFlagged_nodes : list BuilderGraphNode :=
  [plainNode "d"; plainNode "x"; plainNode "y"; plainNode "z"].

Definition twoFlagged_edges : list BuilderGraphEdge :=
  [plainEdge 0 (Some "e1") "d" "x" JUndefined;
   flaggedEdge 1 "e2" "d" "y";
   flaggedEdge 2 "e3" "d" "z"].

(** A node of an unknown type. *)
Definition oddType_nodes : list BuilderGraphNode :=
  [{| bnode_id := u "a"; bnode_type := JStr (u "gateway"); bnode_data := None |}].

(** A chain [a -> b -> c] and a diamond on top of it. *)
Definition diamond_nodes : list BuilderGraphNode :=
  [plainNode "c"; plainNode "a"; plainNode "b"; plainNode "d"].

Definition diamond_edges : list BuilderGraphEdge :=
  [plainEdge 0 None "a" "b" JUndefined; plainEdge 1 None "a" "c" JUndefined;
   plainEdge 2 None "b" "d" JUndefined; plainEdge 3 None "c" "d" JUndefined].

End GraphMore.

(** Further vocabulary of the statements about agent ids and agent
    manifests. *)
Module AgentsMore.
Import JS Utils AgentsManifest AgentsSpec.

(** No two dashes in a row. *)
Fixpoint noDashPair (s : jsstring) : bool :=
  match s with
  | a :: ((b :: _) as t) => negb (isDash a && isDash b) && noDashPair t
  | _ => true
  end.

(** A slug in the form [slugifyAgentId] produces: code units of
    [[a-z0-9._:-]] only, a letter or digit first, no two dashes in a
    row and no dash at the end. *)
Definition isCanonicalSlug (s : jsstring) : bool :=
  forallb isSlugChar s
  && match s with c :: _ => isLowerAlnum c | [] => false end
  && noDashPair s
  && match rev s with c :: _ => negb (isDash c) | [] => false end.

(** The name a legacy record contributes: its trimmed [name] when the
    record is an object, and nothing otherwise. *)
Definition legacyName (item : jsval) : jsstring :=
  if isPlainObject item then normalizeString (prop item "name") else [].

(** The id a v1.1 record asks for. *)
Definition requestedId (item : jsval) : jsstring := normalizeString (prop item "id").

(** The [agents] array of a parsed v1.1 manifest ([[]] when the property
    is not an array, line 197). *)
Definition rawAgentsOf (parsed : jsval) : list jsval :=
  match prop parsed "agents" with JArr items => items | _ => [] end.

Definition agentName (a : AgentV11) : jsstring := meta_name (agent_metadata a).

(** The state of the builder after the loop over the parsed value
    (lines 162-324). *)
Definition loopState (toLowerCase : jsstring -> jsstring) (Date_now : nat -> Z)
           (parsed : jsval) : BuildState :=
  let st0 := {| st_agents := []; st_seen := []; st_warnings := []; st_errors := [] |} in
  match parsed with
  | JArr items => forEachFrom (legacyItem toLowerCase Date_now) st0 items 0
  | JObj _ =>
      let st1 :=
        {| st_agents := []; st_seen := [];
           st_warnings := schemaVersionWarnings parsed; st_errors := [] |} in
      let rawAgents :=
        match prop parsed "agents" with JArr items => items | _ => [] end in
      forEachFrom manifestItem st1 rawAgents 0
  | _ => pushError st0 ErrAgentsJsonShape
  end.

(** Worked inputs: a legacy array of three records, one of them without
    a name, and a v1.1 manifest of two agents. *)
Definition legacyTrio : list jsval :=
  [legacyRecord "Ann" "writer"; JObj [(u "role", JStr (u "x"))]; legacyRecord "Ann" "editor"].

Definition parseLegacyTrio (text : jsstring) : option jsval :=
  if str_eq_dec text (u "trio") then Some (JArr legacyTrio) else None.

Definition agentRecord (id name : string) : jsval :=
  JObj [(u "id", JStr (u id));
        (u "metadata", JObj [(u "name", JStr (u name))])].

Definition duoManifest : jsval :=
  JObj [(u "schemaVersion", JStr (u "1.1"));
        (u "agents", JArr [agentRecord "pm" "Planner"; agentRecord "dev" "Developer"])].

Definition parseDuo (text : jsstring) : option jsval :=
  if str_eq_dec text (u "duo") then Some duoManifest else None.

End AgentsMore.

(** Further vocabulary of the statements about the package manifest. *)
Module ManifestMore.
Import JS JSNumber BmadManifest ManifestSpec.

(** No two workflows of the list have the same id, as [Map] keys. *)
Definition distinctIds (l : list WorkflowListItemForManifest) : Prop :=
  StronglySorted (fun a b => sameValueZero (wf_id a) (wf_id b) = false) l.

(** The ids of the list are strictly ascending. *)
Definition ascendingIds (l : list WorkflowListItemForManifest) : Prop :=
  StronglySorted (fun a b => below (wf_id a) (wf_id b)) l.

(** Worked inputs: the same id twice, and a negative id. *)
Definition sameIdTwice : list (option WorkflowListItemForManifest) :=
  [workflowItem 4 "Main" None; workflowItem 4 "Copy" None].

Definition negativeId : list (option WorkflowListItemForManifest) :=
  [workflowItem (-5) "Main" None].

End ManifestMore.

(** Vocabulary of the further statements about the export assembler. *)
Module ExportMore.
Import JS JSNumber WorkflowGraph BmadZip ExportSpec ExportExamples.

(** The part of a path that [isSafeZipPath] refuses. *)
Definition badPart (part : jsstring) : bool :=
  str_eqb part (u "..") || str_eqb part (u ".") || negb (nonEmpty part).

(** The id of a workflow as the bundle writes it: the trimmed
    [String(id)]. *)
Definition workflowIdText (Number_toString : jsnumber -> jsstring)
           (wf : WorkflowDetailForExportV11) : jsstring :=
  trim (Number_toString (wd_id wf)).

(** The file [name] of the workflow in the bundle,
    [workflows/<id>/<name>]. *)
Definition workflowFile (Number_toString : jsnumber -> jsstring)
           (wf : WorkflowDetailForExportV11) (name : jsstring) : jsstring :=
  u "workflows/" ++ workflowIdText Number_toString wf ++ u "/" ++ name.












End ExportMore.

(* ================================================================== *)
(** * Frontmatter extraction: [src/lib/export/frontmatter.ts] *)
(* ================================================================== *)

(** The backtracking matchers of ECMAScript regular expressions, for the
    constructs that the three expressions of the module use. A matcher
    takes the continuation that matches the rest of the pattern and the
    input that is left, as the matchers of the language specification
    do; [None] is failure. The expressions have no flags and start with
    [^], so a match can only start at index 0. *)
Module Regex.
Import JS.

Section Matchers.
Variable R : Type.

Definition Cont := jsstring -> option R.
Definition Matcher := Cont -> Cont.

(** One code unit of a class. *)
Definition chr (p : N -> bool) : Matcher :=
  fun k s => match s with
             | c :: r => if p c then k r else None
             | [] => None
             end.

(** [ab] *)
Definition seq (m1 m2 : Matcher) : Matcher := fun k => m1 (m2 k).

(** [a|b]: the left alternative first. *)
Definition alt (m1 m2 : Matcher) : Matcher :=
  fun k s => match m1 k s with Some x => Some x | None => m2 k s end.

(** [a?], greedy. *)
Definition opt (m : Matcher) : Matcher := alt m (fun k => k).

(** [c*] for a class [c], greedy: as many code units as the rest of the
    pattern allows. *)
Fixpoint star (p : N -> bool) (k : Cont) (s : jsstring) : option R :=
  match s with
  | c :: r =>
      if p c
      then match star p k r with Some x => Some x | None => k s end
      else k s
  | [] => k []
  end.

(** [c+], greedy. *)
Definition plus (p : N -> bool) : Matcher := seq (chr p) (star p).

(** [$] without the [m] flag: the end of the input. *)
Definition eos : Matcher :=
  fun k s => match s with [] => k [] | _ :: _ => None end.

(** [([\s\S]*?)]: a capturing group that takes as few code units, of
    any kind, as the rest of the pattern allows; the continuation
    receives what the group captured. *)
Fixpoint lazyAny (k : jsstring -> Cont) (captured : jsstring) (s : jsstring)
  : option R :=
  match k captured s with
  | Some x => Some x
  | None =>
      match s with
      | c :: r => lazyAny k (captured ++ [c]) r
      | [] => None
      end
  end.
End Matchers.

Definition code (c : N) : N -> bool := fun x => (x =? c)%N.

(** With a last continuation that always answers [x], a match answers
    [x]. *)
Definition answers (R : Type) (x : R) (k : Cont R) : Prop :=
  forall s y, k s = Some y -> y = x.

(** [\s]: the white space and line terminators of the language, the
    code units that [trim] strips. *)
Definition ws : N -> bool := isWhiteSpace.

End Regex.

Module FrontmatterExtract.
Import JS Frontmatter Regex.

Definition BOM : N := 65279.
Definition CR : N := 13.
Definition LF : N := 10.
Definition DASH : N := 45.

(** [---] *)
Definition fence (R : Type) : Matcher R :=
  seq (chr (code DASH)) (seq (chr (code DASH)) (chr (code DASH))).

(** [\r?\n] *)
Definition newline (R : Type) : Matcher R := seq (opt (chr (code CR))) (chr (code LF)).

(** [(?:\r?\n|$)] *)
Definition lineEnd (R : Type) : Matcher R := alt (@newline R) (@eos R).

(** [\r?\n---\s*(?:\r?\n|$)], what follows the group of
    [FRONTMATTER_REGEX]. *)
Definition closing (R : Type) : Matcher R :=
  seq (@newline R) (seq (@fence R) (seq (star ws) (@lineEnd R))).

(** [/^\uFEFF?---\s*\r?\n([\s\S]*?)\r?\n---\s*(?:\r?\n|$)/.exec(raw)]:
    the first group of the match. *)
Definition FRONTMATTER_REGEX_exec (raw : jsstring) : option jsstring :=
  seq (opt (chr (code BOM))) (seq (@fence _) (seq (star ws) (@newline _)))
      (lazyAny (fun captured => closing (fun _ => Some captured)) [])
      raw.

(** [/^\uFEFF?---\s*(?:\r?\n|$)/.test(raw)] *)
Definition FRONTMATTER_OPEN_REGEX_test (raw : jsstring) : bool :=
  match seq (opt (chr (code BOM))) (seq (@fence _) (seq (star ws) (@lineEnd _)))
            (fun _ => Some tt) raw with
  | Some _ => true
  | None => false
  end.

(** [/^\uFEFF?\s+---\s*(?:\r?\n|$)/.test(raw)] *)
Definition FRONTMATTER_LEADING_WS_REGEX_test (raw : jsstring) : bool :=
  match seq (opt (chr (code BOM)))
            (seq (plus ws) (seq (@fence _) (seq (star ws) (@lineEnd _))))
            (fun _ => Some tt) raw with
  | Some _ => true
  | None => false
  end.

Inductive ExtractError :=
| ErrFrontmatterNotAtStart
| ErrFrontmatterUnclosed.

Record FrontmatterExtractResult := {
  yaml : option jsstring;
  extractError : option ExtractError
}.

Definition extractYamlFrontmatter (markdown : jsstring) : FrontmatterExtractResult :=
  let raw := markdown in
  if negb (nonEmpty (trim raw)) then {| yaml := None; extractError := None |}
  else if FRONTMATTER_LEADING_WS_REGEX_test raw
  then {| yaml := None; extractError := Some ErrFrontmatterNotAtStart |}
  else
    match FRONTMATTER_REGEX_exec raw with
    | None =>
        if FRONTMATTER_OPEN_REGEX_test raw
        then {| yaml := None; extractError := Some ErrFrontmatterUnclosed |}
        else {| yaml := None; extractError := None |}
    | Some group1 => {| yaml := Some group1; extractError := None |}
    end.

(** The [error] of a [MarkdownFrontmatterResult]: one of the messages
    of the extraction, the message for a missing frontmatter, or one of
    the messages of [parseYamlToObject]. *)
Inductive MarkdownFrontmatterError :=
| ErrExtract (e : ExtractError)
| ErrFrontmatterMissing
| ErrParse (e : FrontmatterError).

Record MarkdownFrontmatterResult := {
  md_data : option (list (jsstring * jsval));
  md_error : option MarkdownFrontmatterError
}.

Section Parse.
Variable YAML_parse : jsstring -> jsval + Thrown.

Definition parseMarkdownFrontmatter (markdown : jsstring) : MarkdownFrontmatterResult :=
  let extract := extractYamlFrontmatter markdown in
  match extractError extract with
  | Some e => {| md_data := None; md_error := Some (ErrExtract e) |}
  | None =>
      match yaml extract with
      | None => {| md_data := None; md_error := Some ErrFrontmatterMissing |}
      | Some text =>
          let parsed := parseYamlToObject YAML_parse text in
          {| md_data := data parsed; md_error := option_map ErrParse (error parsed) |}
      end
  end.
End Parse.

(** Vocabulary: [part] occurs in [s]. *)
Definition occursIn (part s : jsstring) : Prop := exists a b, s = a ++ part ++ b.

(** A line feed followed by three dashes. *)
Definition fenceLine : jsstring := [LF; DASH; DASH; DASH].

(** Worked inputs. *)
Definition document : jsstring := u "---" ++ [LF] ++ u "name: demo" ++ [LF] ++ u "---"
                                    ++ [LF] ++ u "# Title".

Definition emptyFrontmatter : jsstring := u "---" ++ [LF] ++ u "---" ++ [LF].

Definition withBOM : jsstring := [BOM] ++ document.

End FrontmatterExtract.

(* ================================================================== *)
(** * Package assets: [src/lib/assets-v11.ts] *)
(* ================================================================== *)

Module Assets.
Import JS.

Record AssetListItem := {
  path : jsstring;
  content : jsstring;
  bytes : Z
}.

Inductive AssetsJsonError :=
| ErrAssetsNotObject
| ErrAssetsInvalidJson.

Record AssetsJsonParseResult := {
  assets : list AssetListItem;
  map : Map.t jsstring;
  totalBytes : Z;
  error : option AssetsJsonError
}.

(** [input.trim().replace(/\\/g, "/").replace(/^\.\/+/, "")], the
    expression that the three functions of the module share. *)
Definition cleaned (input : jsstring) : jsstring :=
  let slashed := List.map (fun c => if (c =? 92)%N then 47%N else c) (trim input) in
  match slashed with
  | 46%N :: 47%N :: rest => stripStart (fun c => (c =? 47)%N) rest
  | _ => slashed
  end.

(** [part === "" || part === "." || part === ".."] *)
Definition dotPart (part : jsstring) : bool :=
  negb (nonEmpty part) || str_eqb part (u ".") || str_eqb part (u "..").

(** [new TextEncoder().encode(content).length]: the length of the UTF-8
    encoding; a surrogate pair takes four bytes, and a lone surrogate is
    encoded as U+FFFD, three bytes. *)
Definition isHighSurrogate (c : N) : bool := ((55296 <=? c) && (c <=? 56319))%N.
Definition isLowSurrogate (c : N) : bool := ((56320 <=? c) && (c <=? 57343))%N.

Fixpoint utf8Length (s : jsstring) : Z :=
  match s with
  | [] => 0
  | c :: r =>
      if (c <? 128)%N then 1 + utf8Length r
      else if (c <? 2048)%N then 2 + utf8Length r
      else if isHighSurrogate c
      then match r with
           | d :: r' => if isLowSurrogate d then 4 + utf8Length r' else 3 + utf8Length r
           | [] => 3
           end
      else 3 + utf8Length r
  end.

(** Lines 25-31: one entry of [Object.entries(parsed)]. *)
Definition keepAsset (m : Map.t jsstring) (entry : jsstring * jsval) : Map.t jsstring :=
  let '(keyRaw, value) := entry in
  match value with
  | JStr v =>
      let key := cleaned keyRaw in
      if negb (startsWith key (u "assets/")) then m
      else if existsb dotPart (split 47 key) then m
      else Map.set m key v
  | _ => m
  end.

Section Parse.
Variable localeCompare : jsstring -> jsstring -> Z.

(** [JSON.parse]; [None] when it throws. *)
Variable JSON_parse : jsstring -> option jsval.

Definition parseAssetsJson (raw : jsstring) : AssetsJsonParseResult :=
  let trimmed := trim raw in
  if negb (nonEmpty trimmed)
  then {| assets := []; map := []; totalBytes := 0; error := None |}
  else
    match JSON_parse trimmed with
    | Some (JObj props) =>
        let map := fold_left keepAsset props [] in
        let assets :=
          List.map
            (fun path =>
               let content := match Map.get map path with Some c => c | None => [] end in
               {| path := path; content := content; bytes := utf8Length content |})
            (sort localeCompare (Map.keys map)) in
        let totalBytes := fold_left (fun sum item => sum + bytes item) assets 0 in
        {| assets := assets; map := map; totalBytes := totalBytes; error := None |}
    | Some _ =>
        {| assets := []; map := []; totalBytes := 0; error := Some ErrAssetsNotObject |}
    | None =>
        {| assets := []; map := []; totalBytes := 0; error := Some ErrAssetsInvalidJson |}
    end.
End Parse.

(** [/^[A-Za-z0-9._/-]+$/] *)
Definition isAssetChar (c : N) : bool :=
  (isAlnum c || (c =? 46) || (c =? 95) || (c =? 47) || (c =? 45))%N.

Definition ASSET_PATH_PATTERN_test (s : jsstring) : bool :=
  nonEmpty s && forallb isAssetChar s.

Definition ALLOWED_ASSET_EXTENSIONS : list jsstring :=
  [u ".md"; u ".txt"; u ".json"; u ".yaml"; u ".yml"].

Inductive AssetPathError :=
| ErrPathEmpty
| ErrPathAbsolute
| ErrPathNotUnderAssets
| ErrPathDirectory
| ErrPathNul
| ErrPathCharacters
| ErrPathDots
| ErrPathExtension (ext : jsstring).

Record AssetPathResult := {
  value : option jsstring;
  pathError : option AssetPathError
}.

(** [raw.endsWith("/")] *)
Definition endsWithSlash (raw : jsstring) : bool :=
  match rev raw with c :: _ => (c =? 47)%N | [] => false end.

(** [raw.lastIndexOf(c)]; [None] is [-1]. *)
Fixpoint lastIndexOf (c : N) (s : jsstring) : option nat :=
  match s with
  | [] => None
  | x :: r =>
      match lastIndexOf c r with
      | Some i => Some (S i)
      | None => if (x =? c)%N then Some 0%nat else None
      end
  end.

Section Path.
(** [String.prototype.toLowerCase] *)
Variable toLowerCase : jsstring -> jsstring.

Definition normalizeAssetsPath (input : jsstring) : AssetPathResult :=
  let raw := cleaned input in
  let fail e := {| value := None; pathError := Some e |} in
  if negb (nonEmpty raw) then fail ErrPathEmpty
  else if startsWith raw (u "/") then fail ErrPathAbsolute
  else if negb (startsWith raw (u "assets/")) then fail ErrPathNotUnderAssets
  else if endsWithSlash raw then fail ErrPathDirectory
  else if existsb (fun c => (c =? 0)%N) raw then fail ErrPathNul
  else if negb (ASSET_PATH_PATTERN_test raw) then fail ErrPathCharacters
  else if existsb dotPart (split 47 raw) then fail ErrPathDots
  else
    let ext :=
      match lastIndexOf 46 raw with
      | Some dot => toLowerCase (skipn dot raw)
      | None => []
      end in
    if negb (setHas ALLOWED_ASSET_EXTENSIONS ext) then fail (ErrPathExtension ext)
    else {| value := Some raw; pathError := None |}.
End Path.

Definition toRuntimeAssetPath (zipPath : jsstring) : jsstring :=
  let cleaned := cleaned zipPath in
  if startsWith cleaned (u "assets/") then u "@pkg/" ++ cleaned
  else u "@pkg/assets/" ++ stripStart (fun c => (c =? 47)%N) cleaned.

End Assets.

(** Vocabulary and worked inputs of the statements about assets. *)
Module AssetsMore.
Import JS BmadZip Assets ExportExamples.

(** The entries of the [assets] parameter of the exporter when the page
    passes the map of [parseAssetsJson]. *)
Definition asExportAssets (m : Map.t jsstring) : list (jsstring * FileValue) :=
  List.map (fun kv => (fst kv, Text (snd kv))) m.

(** A backslash becomes a slash. *)
Definition unslash (c : N) : N := if (c =? 92)%N then 47%N else c.

(** The sum of a list of numbers. *)
Definition list_sum_Z (l : list Z) : Z := fold_right Z.add 0 l.

Definition noNul (s : jsstring) : Prop := existsb (fun c => (c =? 0)%N) s = false.

Definition assetsJsonText : jsstring :=
  u "{" ++ q ".\assets\b.md" ++ u ":" ++ q "B" ++ u "," ++ q "assets/a.txt" ++ u ":"
    ++ q "A" ++ u "," ++ q "notes.txt" ++ u ":" ++ q "N" ++ u "}".

Definition parseAssetsExample (text : jsstring) : option jsval :=
  if str_eq_dec text assetsJsonText then
    Some (JObj [(u ".\assets\b.md", JStr (u "B"));
                (u "assets/a.txt", JStr (u "A"));
                (u "notes.txt", JStr (u "N"))])
  else None.

End AssetsMore.

(** Vocabulary of the statement on the results of the four builders:
    what a result that is fully populated holds. *)
Module PipelineSpec.
Import JS JSNumber WorkflowGraph GraphSpec GraphMore.
Import AgentsManifest AgentsSpec AgentsMore.
Import ManifestSpec ExportSpec ExportMore.










End PipelineSpec.

(* ================================================================== *)
(** * Proofs *)
(* ================================================================== *)

(* ================================================================== *)
(** * Facts about maps, sets and the sort *)
(* ================================================================== *)

Module MapFacts.
Import JS.

Lemma get_set_same (V : Type) (m : Map.t V) k v :
  Map.get (Map.set m k v) k = Some v.
Proof.
  induction m as [|[k' v'] m IH]; simpl.
  - destruct (str_eq_dec k k); congruence.
  - destruct (str_eq_dec k' k) as [->|Hne]; simpl.
    + destruct (str_eq_dec k k); congruence.
    + destruct (str_eq_dec k' k); congruence.
Qed.

Lemma get_set_other (V : Type) (m : Map.t V) k k' v :
  k <> k' -> Map.get (Map.set m k v) k' = Map.get m k'.
Proof.
  intros Hne. induction m as [|[k0 v0] m IH]; simpl.
  - destruct (str_eq_dec k k'); congruence.
  - destruct (str_eq_dec k0 k) as [->|Hk]; simpl.
    + destruct (str_eq_dec k k'); congruence.
    + destruct (str_eq_dec k0 k'); congruence.
Qed.

Lemma get_some_in_keys (V : Type) (m : Map.t V) k :
  Map.get m k <> None <-> In k (Map.keys m).
Proof.
  induction m as [|[k' v'] m IH]; simpl.
  - split; [congruence | tauto].
  - destruct (str_eq_dec k' k) as [->|Hne].
    + split; [auto | congruence].
    + rewrite IH. split; [auto | intros [H|H]; congruence].
Qed.

Lemma get_none_not_in_keys (V : Type) (m : Map.t V) k :
  Map.get m k = None <-> ~ In k (Map.keys m).
Proof.
  rewrite <- get_some_in_keys. destruct (Map.get m k); split; try congruence.
  intros H. exfalso. apply H. congruence.
Qed.

Lemma has_in_keys (V : Type) (m : Map.t V) k :
  Map.has m k = true <-> In k (Map.keys m).
Proof.
  rewrite <- get_some_in_keys. unfold Map.has.
  destruct (Map.get m k); split; congruence.
Qed.

Lemma keys_set_present (V : Type) (m : Map.t V) k v :
  In k (Map.keys m) -> Map.keys (Map.set m k v) = Map.keys m.
Proof.
  induction m as [|[k' v'] m IH]; simpl; [tauto|].
  intros H. destruct (str_eq_dec k' k) as [->|Hne]; simpl; [reflexivity|].
  f_equal. apply IH. destruct H; congruence.
Qed.

Lemma keys_set_absent (V : Type) (m : Map.t V) k v :
  ~ In k (Map.keys m) -> Map.keys (Map.set m k v) = Map.keys m ++ [k].
Proof.
  induction m as [|[k' v'] m IH]; simpl; [reflexivity|].
  intros H. destruct (str_eq_dec k' k) as [->|Hne]; simpl; [tauto|].
  f_equal. apply IH. tauto.
Qed.

Lemma in_keys_set (V : Type) (m : Map.t V) k v x :
  In x (Map.keys (Map.set m k v)) <-> x = k \/ In x (Map.keys m).
Proof.
  destruct (in_dec str_eq_dec k (Map.keys m)) as [Hin|Hnin].
  - rewrite keys_set_present by assumption. split; [auto | intros [->|H]; auto].
  - rewrite keys_set_absent by assumption. rewrite in_app_iff. simpl.
    split; [intros [H|[H|[]]]; auto | intros [->|H]; auto].
Qed.

Lemma NoDup_keys_set (V : Type) (m : Map.t V) k v :
  NoDup (Map.keys m) -> NoDup (Map.keys (Map.set m k v)).
Proof.
  intros Hnd. destruct (in_dec str_eq_dec k (Map.keys m)) as [Hin|Hnin].
  - rewrite keys_set_present by assumption. assumption.
  - rewrite keys_set_absent by assumption.
    apply NoDup_app; [assumption | repeat constructor; simpl; tauto |].
    intros x Hx [<-|[]]. contradiction.
Qed.

Lemma get0_set_same (m : Map.t Z) k v : Map.get0 (Map.set m k v) k = v.
Proof. unfold Map.get0. now rewrite get_set_same. Qed.

Lemma get0_set_other (m : Map.t Z) k k' v :
  k <> k' -> Map.get0 (Map.set m k v) k' = Map.get0 m k'.
Proof. intros H. unfold Map.get0. now rewrite get_set_other. Qed.

Lemma setHas_true (s : list jsstring) x : setHas s x = true <-> In x s.
Proof. unfold setHas. destruct (in_dec str_eq_dec x s); split; auto; congruence. Qed.

Lemma setHas_false (s : list jsstring) x : setHas s x = false <-> ~ In x s.
Proof. unfold setHas. destruct (in_dec str_eq_dec x s); split; auto; congruence. Qed.

Lemma in_setAdd (s : list jsstring) x y : In y (setAdd s x) <-> y = x \/ In y s.
Proof.
  unfold setAdd. destruct (in_dec str_eq_dec x s).
  - split; [auto | intros [->|H]; auto].
  - rewrite in_app_iff. simpl. split; [intros [H|[H|[]]]; auto | intros [->|H]; auto].
Qed.

Lemma str_eqb_true a b : str_eqb a b = true <-> a = b.
Proof. unfold str_eqb. destruct (str_eq_dec a b); split; auto; congruence. Qed.

Lemma nonEmpty_true s : nonEmpty s = true <-> s <> [].
Proof. destruct s; simpl; split; congruence. Qed.

End MapFacts.

Module SortFacts.
Import JS.

Section Sorting.
Variable A : Type.
Variable cmp : A -> A -> Z.

Lemma insert_perm x l : Permutation (insert cmp x l) (x :: l).
Proof.
  induction l as [|y l IH]; simpl; [reflexivity|].
  destruct (cmp x y <=? 0); [reflexivity|].
  rewrite IH. apply perm_swap.
Qed.

Lemma sort_perm l : Permutation (sort cmp l) l.
Proof.
  induction l as [|x l IH]; simpl; [reflexivity|].
  rewrite insert_perm. now constructor.
Qed.

Lemma sort_in l x : In x (sort cmp l) <-> In x l.
Proof.
  split; apply Permutation_in; [apply sort_perm | symmetry; apply sort_perm].
Qed.

Lemma sort_length l : length (sort cmp l) = length l.
Proof. apply Permutation_length, sort_perm. Qed.

Lemma sort_NoDup l : NoDup l -> NoDup (sort cmp l).
Proof. intros H. eapply Permutation_NoDup; [symmetry; apply sort_perm | exact H]. Qed.

Lemma sort_nil_inv l : sort cmp l = [] -> l = [].
Proof.
  intros H. apply length_zero_iff_nil. rewrite <- sort_length, H. reflexivity.
Qed.

(** For a comparator that is a total preorder the result is ordered. *)
Hypothesis cmp_trans : forall a b c, cmp a b <= 0 -> cmp b c <= 0 -> cmp a c <= 0.
Hypothesis cmp_total : forall a b, cmp a b <= 0 \/ cmp b a <= 0.

Definition ordered (l : list A) : Prop :=
  StronglySorted (fun a b => cmp a b <= 0) l.

Lemma insert_ordered x l : ordered l -> ordered (insert cmp x l).
Proof.
  unfold ordered. induction 1 as [|y l Hs IH Hy]; simpl.
  - repeat constructor.
  - destruct (Z.leb_spec (cmp x y) 0) as [Hle|Hgt].
    + constructor; [constructor; assumption|].
      constructor; [assumption|].
      rewrite Forall_forall in *. intros z Hz. eauto.
    + constructor; [assumption|].
      rewrite Forall_forall in *. intros z Hz.
      apply (Permutation_in _ (insert_perm x l)) in Hz. destruct Hz as [<-|Hz].
      * destruct (cmp_total x y); [lia | assumption].
      * auto.
Qed.

Lemma sort_ordered l : ordered (sort cmp l).
Proof.
  induction l; simpl; [constructor | now apply insert_ordered].
Qed.

Lemma sort_head_least l h t :
  sort cmp l = h :: t -> forall x, In x l -> cmp h x <= 0.
Proof.
  intros Hs x Hx. pose proof (sort_ordered l) as Ho. rewrite Hs in Ho.
  apply sort_in in Hx. rewrite Hs in Hx. inversion Ho as [|? ? _ Hall]; subst.
  destruct Hx as [<-|Hx].
  - destruct (cmp_total h h); assumption.
  - rewrite Forall_forall in Hall. auto.
Qed.
End Sorting.

(** The same for a comparator that is transitive through the elements
    of a class [P] only, on lists of such elements. *)
Section SortingOn.
Variable A : Type.
Variable cmp : A -> A -> Z.
Variable P : A -> Prop.
Hypothesis cmp_trans_on :
  forall a b c, P b -> cmp a b <= 0 -> cmp b c <= 0 -> cmp a c <= 0.
Hypothesis cmp_total : forall a b, cmp a b <= 0 \/ cmp b a <= 0.

Lemma insert_ordered_on x l :
  Forall P l -> ordered cmp l -> ordered cmp (insert cmp x l).
Proof.
  unfold ordered. intros HP Ho. revert HP.
  induction Ho as [|y l Hs IH Hy]; simpl; intros HP.
  - repeat constructor.
  - inversion HP as [|? ? HPy HPl]; subst.
    destruct (Z.leb_spec (cmp x y) 0) as [Hle|Hgt].
    + constructor; [constructor; assumption|].
      constructor; [assumption|].
      rewrite Forall_forall in *. intros z Hz. eauto.
    + constructor; [auto|].
      rewrite Forall_forall in *. intros z Hz.
      apply (Permutation_in _ (insert_perm cmp x l)) in Hz. destruct Hz as [<-|Hz].
      * destruct (cmp_total x y); [lia | assumption].
      * auto.
Qed.

Lemma sort_ordered_on l : Forall P l -> ordered cmp (sort cmp l).
Proof.
  induction 1 as [|x l Hx Hl IH]; simpl; [constructor|].
  apply insert_ordered_on; [|assumption].
  rewrite Forall_forall in *. intros z Hz. apply Hl.
  exact (proj1 (sort_in cmp l z) Hz).
Qed.

Lemma sort_head_least_on l h t :
  Forall P l ->
  sort cmp l = h :: t -> forall x, In x l -> cmp h x <= 0.
Proof.
  intros HP Hs x Hx. pose proof (sort_ordered_on HP) as Ho. rewrite Hs in Ho.
  apply (proj2 (sort_in cmp l x)) in Hx. rewrite Hs in Hx. inversion Ho as [|? ? _ Hall]; subst.
  destruct Hx as [<-|Hx].
  - destruct (cmp_total h h); assumption.
  - rewrite Forall_forall in Hall. auto.
Qed.
End SortingOn.

(** The sort is stable: on a list whose elements come in ascending
    rank, the result is ordered by the comparator, ties by rank. *)
Section Stable.
Variable A : Type.
Variable cmp : A -> A -> Z.
Variable rank : A -> nat.
Hypothesis cmp_trans : forall a b c, cmp a b <= 0 -> cmp b c <= 0 -> cmp a c <= 0.
Hypothesis cmp_total : forall a b, cmp a b <= 0 \/ cmp b a <= 0.

Let before (a b : A) : Prop :=
  cmp a b <= 0 /\ (cmp b a <= 0 -> (rank a < rank b)%nat).

Lemma insert_stable x l :
  Forall (fun y => (rank x < rank y)%nat) l ->
  StronglySorted before l -> StronglySorted before (insert cmp x l).
Proof.
  intros Hrank Hs. revert Hrank.
  induction Hs as [|y l Hs IH Hy]; intros Hrank; simpl.
  - repeat constructor.
  - inversion Hrank as [|? ? Hxy Hxl]; subst.
    destruct (Z.leb_spec (cmp x y) 0) as [Hle|Hgt].
    + constructor; [constructor; assumption|].
      constructor; [split; [assumption | intros _; assumption]|].
      rewrite Forall_forall in *. intros z Hz. destruct (Hy z Hz) as [Hyz _].
      split; [eauto | intros _; auto].
    + constructor; [auto|].
      rewrite Forall_forall in *. intros z Hz.
      apply (Permutation_in _ (insert_perm cmp x l)) in Hz. destruct Hz as [<-|Hz].
      * split; [destruct (cmp_total y x); [assumption | lia] | intros H; lia].
      * auto.
Qed.

Lemma sort_stable l :
  StronglySorted (fun a b => (rank a < rank b)%nat) l ->
  StronglySorted before (sort cmp l).
Proof.
  induction 1 as [|x l Hs IH Hx]; simpl; [constructor|].
  apply insert_stable; [|assumption].
  rewrite Forall_forall in *. intros y Hy. apply Hx.
  exact (proj1 (sort_in cmp l y) Hy).
Qed.
End Stable.

End SortFacts.

(* ================================================================== *)
(** * Numbers as keys and in comparators *)
(* ================================================================== *)

Module NumberFacts.
Import JS JSNumber ManifestSpec.

Lemma subtractSign_range a b :
  subtractSign a b = -1 \/ subtractSign a b = 0 \/ subtractSign a b = 1.
Proof.
  destruct a as [|na|m1 e1], b as [|nb|m2 e2]; cbn [subtractSign]; auto;
    try (destruct na; auto); try (destruct nb; cbn; auto).
  destruct (QArith_base.Qcompare _ _); auto.
Qed.

Lemma subtractSign_opp a b : subtractSign b a = - subtractSign a b.
Proof.
  destruct a as [|na|m1 e1], b as [|nb|m2 e2]; cbn [subtractSign]; try reflexivity.
  - destruct na, nb; reflexivity.
  - destruct na; reflexivity.
  - destruct nb; reflexivity.
  - rewrite <- (QArith_base.Qcompare_antisym (finiteValue m1 e1) (finiteValue m2 e2)).
    destruct (QArith_base.Qcompare (finiteValue m1 e1) (finiteValue m2 e2)); reflexivity.
Qed.

Lemma subtractSign_total a b : subtractSign a b <= 0 \/ subtractSign b a <= 0.
Proof. rewrite (subtractSign_opp a b). lia. Qed.

Lemma finite_sign m1 e1 m2 e2 :
  (subtractSign (NumFinite m1 e1) (NumFinite m2 e2) <= 0
   <-> QArith_base.Qle (finiteValue m1 e1) (finiteValue m2 e2))
  /\ (subtractSign (NumFinite m1 e1) (NumFinite m2 e2) = 0
      <-> QArith_base.Qeq (finiteValue m1 e1) (finiteValue m2 e2)).
Proof.
  cbn [subtractSign]. rewrite QArith_base.Qle_alt, QArith_base.Qeq_alt.
  destruct (QArith_base.Qcompare (finiteValue m1 e1) (finiteValue m2 e2));
    split; split; intros H; try lia; try congruence; try discriminate.
Qed.

(** On numbers other than [NaN] the comparator is transitive. *)
Lemma subtractSign_trans a b c :
  isNaN b = false ->
  subtractSign a b <= 0 -> subtractSign b c <= 0 -> subtractSign a c <= 0.
Proof.
  intros Hb Hab Hbc.
  destruct a as [|na|m1 e1]; [cbn; destruct c; lia| |];
    (destruct c as [|nc|m3 e3]; [cbn; try destruct na; lia| |]);
    (destruct b as [|nb|m2 e2]; [discriminate Hb| |]).
  - destruct na, nb, nc; cbn in *; lia.
  - destruct na, nc; cbn in *; lia.
  - destruct na, nb; cbn in *; lia.
  - destruct na; cbn in *; lia.
  - destruct nb, nc; cbn in *; lia.
  - destruct nc; cbn in *; lia.
  - destruct nb; cbn in *; lia.
  - apply finite_sign. apply finite_sign in Hab. apply finite_sign in Hbc.
    eapply QArith_base.Qle_trans; eassumption.
Qed.

Lemma sameValueZero_zero a b :
  isNaN a = false -> isNaN b = false ->
  (sameValueZero a b = true <-> subtractSign a b = 0).
Proof.
  intros Ha Hb.
  destruct a as [|na|m1 e1]; [discriminate Ha| |];
    (destruct b as [|nb|m2 e2]; [discriminate Hb| |]).
  - cbn. destruct na, nb; cbn; split; congruence || lia.
  - cbn. destruct na; split; congruence || lia.
  - cbn. destruct nb; split; congruence || lia.
  - cbn [sameValueZero]. rewrite QArith_base.Qeq_bool_iff.
    symmetry. apply finite_sign.
Qed.

Lemma sameValueZero_refl a : sameValueZero a a = true.
Proof.
  destruct a as [|na|m e]; cbn; [reflexivity | apply Bool.eqb_reflx|].
  apply QArith_base.Qeq_bool_iff. apply QArith_base.Qeq_refl.
Qed.

Lemma sameValueZero_sym a b : sameValueZero a b = sameValueZero b a.
Proof.
  destruct a as [|na|m1 e1], b as [|nb|m2 e2]; cbn; try reflexivity.
  - destruct na, nb; reflexivity.
  - apply QArith_base.Qeq_bool_comm.
Qed.

Lemma sameValueZero_trans a b c :
  sameValueZero a b = true -> sameValueZero b c = true -> sameValueZero a c = true.
Proof.
  destruct a as [|na|m1 e1], b as [|nb|m2 e2], c as [|nc|m3 e3]; cbn;
    try discriminate; try tauto.
  - destruct na, nb, nc; cbn; congruence.
  - rewrite !QArith_base.Qeq_bool_iff. apply QArith_base.Qeq_trans.
Qed.

(** An integer is the same key as itself only. *)
Lemma sameValueZero_ofZ x y : sameValueZero (ofZ x) (ofZ y) = true <-> x = y.
Proof.
  unfold ofZ. cbn [sameValueZero]. rewrite QArith_base.Qeq_bool_iff.
  unfold finiteValue, QArith_base.Qeq. cbn. lia.
Qed.

Lemma subtractSign_ofZ x y : subtractSign (ofZ x) (ofZ y) <= 0 <-> x <= y.
Proof.
  unfold ofZ. rewrite (proj1 (finite_sign x 0 y 0)).
  unfold finiteValue, QArith_base.Qle. cbn. lia.
Qed.

(** The comparator [a - b] decides the order of the values. *)
Lemma notAbove_sign a b :
  isNaN a = false -> isNaN b = false ->
  (notAbove a b <-> subtractSign a b <= 0).
Proof.
  intros Ha Hb.
  destruct a as [|na|m1 e1]; [discriminate Ha| |];
    (destruct b as [|nb|m2 e2]; [discriminate Hb| |]).
  - destruct na, nb; cbn; split; tauto || lia.
  - destruct na; cbn; split; tauto || lia.
  - destruct nb; cbn; split; tauto || lia.
  - unfold notAbove. cbn [valueOf extendedLe]. symmetry. apply finite_sign.
Qed.

Lemma below_sign a b :
  isNaN a = false -> isNaN b = false ->
  (below a b <-> subtractSign a b < 0).
Proof.
  intros Ha Hb.
  destruct a as [|na|m1 e1]; [discriminate Ha| |];
    (destruct b as [|nb|m2 e2]; [discriminate Hb| |]).
  - destruct na, nb; cbn; split; tauto || lia.
  - destruct na; cbn; split; tauto || lia.
  - destruct nb; cbn; split; tauto || lia.
  - unfold below. cbn [valueOf extendedLt subtractSign].
    rewrite QArith_base.Qlt_alt.
    destruct (QArith_base.Qcompare (finiteValue m1 e1) (finiteValue m2 e2));
      split; intros H; try lia; try congruence; try discriminate.
Qed.

(** Integers are ordered as their values. *)
Lemma notAbove_ofZ x y : notAbove (ofZ x) (ofZ y) <-> x <= y.
Proof.
  rewrite notAbove_sign by reflexivity. apply subtractSign_ofZ.
Qed.

Lemma isInteger_ofZ z : isInteger (ofZ z) z.
Proof. apply sameValueZero_refl. Qed.

Lemma isInteger_not_NaN n z : isInteger n z -> isNaN n = false.
Proof. destruct n; [discriminate | reflexivity | reflexivity]. Qed.

(** The printer of the worked inputs prints the integers. *)
Lemma printInteger_integers : printsSafeIntegers printInteger.
Proof.
  intros n z Hn _. unfold isInteger, ofZ in Hn.
  destruct n as [|neg|m e]; try discriminate Hn.
  cbn [sameValueZero] in Hn. apply QArith_base.Qeq_bool_iff in Hn.
  cbn [printInteger]. apply Qreduction.Qred_complete in Hn. rewrite Hn.
  unfold finiteValue. cbn. rewrite Z.mul_1_r.
  destruct (Z.ggcd z 1) as [g [a b]] eqn:Hg.
  pose proof (Z.ggcd_gcd z 1) as Hgcd. rewrite Hg in Hgcd. cbn [fst] in Hgcd.
  pose proof (Z.ggcd_correct_divisors z 1) as Hd. rewrite Hg in Hd.
  rewrite Z.gcd_1_r in Hgcd. subst g. destruct Hd as [Hz _].
  cbn [snd fst QArith_base.Qnum]. f_equal. lia.
Qed.

End NumberFacts.

Module GraphInputs.
Import JS WorkflowGraph GraphSpec MapFacts SortFacts.

(** ** The [nodesById] map *)

Lemma nodesById_fold_NoDup nodes : forall m,
  NoDup (Map.keys m) -> NoDup (Map.keys (fold_left noteNode nodes m)).
Proof.
  induction nodes as [|n nodes IH]; simpl; intros m Hm; [assumption|].
  apply IH. unfold noteNode. destruct (nonEmpty (bnode_id n)); [|assumption].
  now apply NoDup_keys_set.
Qed.

Lemma nodesById_fold_keys nodes : forall m id,
  In id (Map.keys (fold_left noteNode nodes m))
  <-> In id (Map.keys m) \/ isNodeId nodes id.
Proof.
  unfold isNodeId.
  induction nodes as [|n nodes IH]; simpl; intros m id.
  - split; [auto | intros [H|[_ [n [[] _]]]]; assumption].
  - rewrite IH. unfold noteNode at 1.
    destruct (nonEmpty (bnode_id n)) eqn:Hn.
    + rewrite in_keys_set. apply nonEmpty_true in Hn. split.
      * intros [[->|H]|[Hid [x [Hx Hx']]]]; eauto 8.
      * intros [H|[Hid [x [[Hx|Hx] Hx']]]]; [auto | subst; auto | eauto 8].
    + split.
      * intros [H|[Hid [x [Hx Hx']]]]; eauto 8.
      * intros [H|[Hid [x [[Hx|Hx] Hx']]]]; [auto | | eauto 8].
        subst. destruct (bnode_id x); [congruence | discriminate].
Qed.

Lemma nodeIds_NoDup nodes : NoDup (Map.keys (buildNodesById nodes)).
Proof. apply nodesById_fold_NoDup. constructor. Qed.

Lemma nodeIds_spec nodes id :
  In id (Map.keys (buildNodesById nodes)) <-> isNodeId nodes id.
Proof.
  unfold buildNodesById. rewrite nodesById_fold_keys. simpl. tauto.
Qed.

Lemma nodeIds_nonEmpty nodes id :
  In id (Map.keys (buildNodesById nodes)) -> nonEmpty id = true.
Proof. rewrite nodeIds_spec. intros [H _]. now apply nonEmpty_true. Qed.

Lemma find_app (A : Type) (p : A -> bool) l1 l2 :
  find p (l1 ++ l2) = match find p l1 with Some x => Some x | None => find p l2 end.
Proof.
  induction l1 as [|a l1 IH]; simpl; [reflexivity|]. destruct (p a); auto.
Qed.

Lemma nodesById_fold_get nodes : forall m id,
  id <> [] ->
  Map.get (fold_left noteNode nodes m) id
  = match lastNode nodes id with Some n => Some n | None => Map.get m id end.
Proof.
  unfold lastNode.
  induction nodes as [|n nodes IH]; simpl; intros m id Hid; [reflexivity|].
  rewrite IH by assumption. rewrite find_app. simpl.
  destruct (find _ (rev nodes)); [reflexivity|].
  unfold noteNode, str_eqb. destruct (str_eq_dec (bnode_id n) id) as [He|Hne].
  - subst id. destruct (nonEmpty (bnode_id n)) eqn:Hn.
    + apply get_set_same.
    + destruct (bnode_id n); [congruence | discriminate].
  - destruct (nonEmpty (bnode_id n)); [|reflexivity].
    now apply get_set_other.
Qed.

(** Last occurrence wins. *)
Lemma nodesById_get nodes id :
  id <> [] -> Map.get (buildNodesById nodes) id = lastNode nodes id.
Proof.
  intros Hid. unfold buildNodesById.
  rewrite nodesById_fold_get by assumption. now destruct (lastNode nodes id).
Qed.

(** ** The valid edges *)

Lemma validateEdges_valid m edges : forall i,
  fst (validateEdges m edges i)
  = filter (fun r => resolves m (edge r)) (mapi_from mkRecord i edges).
Proof.
  induction edges as [|e edges IH]; simpl; intros i; [reflexivity|].
  specialize (IH (S i)). destruct (validateEdges m edges (S i)) as [valid errs].
  simpl in IH. unfold resolves at 1. simpl.
  destruct (nonEmpty (bedge_source e)), (nonEmpty (bedge_target e)); simpl;
    try (now rewrite <- IH).
  destruct (Map.has m (bedge_source e)); simpl; [|now rewrite <- IH].
  destruct (Map.has m (bedge_target e)); simpl; now rewrite <- IH.
Qed.

Lemma validateEdges_no_error m edges : forall i,
  snd (validateEdges m edges i) = [] ->
  fst (validateEdges m edges i) = mapi_from mkRecord i edges.
Proof.
  induction edges as [|e edges IH]; simpl; intros i; [reflexivity|].
  specialize (IH (S i)). destruct (validateEdges m edges (S i)) as [valid errs].
  simpl in IH.
  destruct (nonEmpty (bedge_source e)), (nonEmpty (bedge_target e)); simpl;
    try discriminate.
  destruct (Map.has m (bedge_source e)); simpl; [|discriminate].
  destruct (Map.has m (bedge_target e)); simpl; [|discriminate].
  intros H. now rewrite IH.
Qed.

Lemma in_mapi_from (A B : Type) (f : A -> nat -> B) l : forall i y,
  In y (mapi_from f i l) <-> exists k x, nth_error l k = Some x /\ y = f x (i + k)%nat.
Proof.
  induction l as [|a l IH]; simpl; intros i y.
  - split; [tauto | intros [k [x [H _]]]; destruct k; discriminate].
  - rewrite IH. split.
    + intros [<-|[k [x [Hk ->]]]].
      * exists 0%nat, a. rewrite Nat.add_0_r. auto.
      * exists (S k), x. rewrite Nat.add_succ_r. auto.
    + intros [[|k] [x [Hk ->]]]; simpl in Hk.
      * injection Hk as ->. rewrite Nat.add_0_r. auto.
      * right. exists k, x. rewrite Nat.add_succ_r. auto.
Qed.

Lemma mapi_from_length (A B : Type) (f : A -> nat -> B) l : forall i,
  length (mapi_from f i l) = length l.
Proof. induction l; simpl; intros; [reflexivity | now rewrite IHl]. Qed.

Lemma resolves_spec nodes e :
  resolves (buildNodesById nodes) e = true
  <-> isNodeId nodes (bedge_source e) /\ isNodeId nodes (bedge_target e).
Proof.
  unfold resolves. rewrite !andb_true_iff, !has_in_keys, !nodeIds_spec, !nonEmpty_true.
  unfold isNodeId. tauto.
Qed.

(** The valid edges are the input edges whose endpoints resolve. *)
Lemma validEdges_spec nodes edges r :
  In r (fst (validateEdges (buildNodesById nodes) edges 0))
  <-> (exists k, nth_error edges k = Some (edge r) /\ idx r = k)
      /\ isNodeId nodes (src r) /\ isNodeId nodes (tgt r).
Proof.
  rewrite validateEdges_valid, filter_In, in_mapi_from, resolves_spec.
  unfold src, tgt. split.
  - intros [[k [x [Hk ->]]] H]. simpl in *. eauto.
  - intros [[k [Hk Hi]] H]. split; [|assumption].
    exists k, (edge r). split; [assumption|]. destruct r; simpl in *. now subst.
Qed.

Lemma validEdges_resolved nodes edges a b :
  (exists r, In r (fst (validateEdges (buildNodesById nodes) edges 0))
             /\ src r = a /\ tgt r = b)
  <-> resolvedEdge nodes edges a b.
Proof.
  unfold resolvedEdge. split.
  - intros [r [Hr [<- <-]]]. apply validEdges_spec in Hr.
    destruct Hr as [[k [Hk _]] [Ha Hb]].
    exists (edge r). split; [eapply nth_error_In; eassumption|]. auto.
  - intros [e [He [<- [<- [Ha Hb]]]]]. apply In_nth_error in He. destruct He as [k Hk].
    exists (mkRecord e k). split; [|split; reflexivity].
    apply validEdges_spec. unfold src, tgt. simpl. eauto 6.
Qed.

(** ** In-degrees and adjacency lists *)

Lemma init_fold_keys (V : Type) (v : V) ids : forall m,
  Map.keys (fold_left (fun m id => Map.set m id v) ids m)
  = fold_left (fun ks id => if in_dec str_eq_dec id ks then ks else ks ++ [id])
              ids (Map.keys m).
Proof.
  induction ids as [|id ids IH]; simpl; intros m; [reflexivity|].
  rewrite IH. f_equal. destruct (in_dec str_eq_dec id (Map.keys m)).
  - now apply keys_set_present.
  - now apply keys_set_absent.
Qed.

Lemma init_fold_get (V : Type) (v : V) ids : forall m k,
  Map.get (fold_left (fun m id => Map.set m id v) ids m) k
  = if in_dec str_eq_dec k ids then Some v else Map.get m k.
Proof.
  induction ids as [|id ids IH]; simpl; intros m k; [reflexivity|].
  rewrite IH. destruct (in_dec str_eq_dec k ids) as [Hin|Hnin].
  - destruct (str_eq_dec id k); [reflexivity|].
    destruct (in_dec str_eq_dec k ids); tauto.
  - destruct (str_eq_dec id k) as [->|Hne].
    + apply get_set_same.
    + rewrite get_set_other by assumption.
      destruct (in_dec str_eq_dec k ids); tauto.
Qed.

Lemma count_occ_snoc (l : list jsstring) x v :
  count_occ str_eq_dec (l ++ [x]) v
  = (count_occ str_eq_dec l v + if str_eq_dec x v then 1 else 0)%nat.
Proof.
  rewrite count_occ_app. simpl. destruct (str_eq_dec x v); reflexivity.
Qed.

Lemma degrees_indegree nodeIds E v :
  Map.get0 (fst (degrees nodeIds E)) v = indegreeOf E v.
Proof.
  unfold degrees, indegreeOf.
  induction E as [|r E IH] using rev_ind.
  - simpl. unfold initIndegree, Map.get0. rewrite init_fold_get.
    destruct (in_dec str_eq_dec v nodeIds); reflexivity.
  - rewrite fold_left_app, map_app. simpl.
    destruct (fold_left addEdge E _) as [indegree outgoing]. simpl in *.
    rewrite count_occ_snoc. unfold tgt at 2.
    destruct (str_eq_dec (bedge_target (edge r)) v) as [->|Hne].
    + rewrite get0_set_same, IH. lia.
    + rewrite get0_set_other by assumption. rewrite IH. lia.
Qed.

Lemma degrees_outgoing nodeIds E a :
  Map.get (snd (degrees nodeIds E)) a
  = if in_dec str_eq_dec a nodeIds then Some (targetsOf E a) else None.
Proof.
  unfold degrees, targetsOf.
  induction E as [|r E IH] using rev_ind.
  - simpl. unfold initOutgoing. rewrite init_fold_get.
    destruct (in_dec str_eq_dec a nodeIds); reflexivity.
  - rewrite fold_left_app, filter_app, map_app. simpl.
    destruct (fold_left addEdge E _) as [indegree outgoing]. simpl in *.
    unfold fromSource at 2, src, str_eqb.
    destruct (str_eq_dec (bedge_source (edge r)) a) as [Heq|Hne].
    + rewrite Heq, IH. destruct (in_dec str_eq_dec a nodeIds).
      * rewrite get_set_same. reflexivity.
      * assumption.
    + simpl. rewrite app_nil_r.
      destruct (Map.get outgoing (bedge_source (edge r))); [|assumption].
      rewrite get_set_other by assumption. assumption.
Qed.

End GraphInputs.

(** ** The zero-in-degree traversal *)

Module Traversal.
Import JS WorkflowGraph GraphSpec MapFacts SortFacts GraphInputs.

Section Counting.
Variable E : list EdgeRecord.
Variable v : jsstring.

Lemma count_flat_map_app (f g : jsstring -> list jsstring) l :
  count_occ str_eq_dec (flat_map (fun a => f a ++ g a) l) v
  = (count_occ str_eq_dec (flat_map f l) v + count_occ str_eq_dec (flat_map g l) v)%nat.
Proof.
  induction l as [|a l IH]; simpl; [reflexivity|].
  rewrite !count_occ_app, IH. lia.
Qed.

Lemma count_one_edge (r : EdgeRecord) l :
  count_occ str_eq_dec
    (flat_map (fun a => if fromSource a r then [tgt r] else []) l) v
  = if str_eq_dec (tgt r) v then count_occ str_eq_dec l (src r) else 0%nat.
Proof.
  induction l as [|a l IH]; simpl.
  - now destruct (str_eq_dec (tgt r) v).
  - rewrite count_occ_app, IH. unfold fromSource, str_eqb.
    destruct (str_eq_dec (src r) a) as [->|Hne]; simpl.
    + destruct (str_eq_dec (tgt r) v); simpl;
        destruct (str_eq_dec a a); try congruence; reflexivity.
    + destruct (str_eq_dec (tgt r) v); simpl; [|reflexivity].
      destruct (str_eq_dec a (src r)); congruence.
Qed.
End Counting.

Lemma targetsOf_cons r E a :
  targetsOf (r :: E) a = (if fromSource a r then [tgt r] else []) ++ targetsOf E a.
Proof. unfold targetsOf. simpl. now destruct (fromSource a r). Qed.

Lemma processed_cons r E l v :
  count_occ str_eq_dec (flat_map (targetsOf (r :: E)) l) v
  = ((if str_eq_dec (tgt r) v then count_occ str_eq_dec l (src r) else 0)
     + count_occ str_eq_dec (flat_map (targetsOf E) l) v)%nat.
Proof.
  rewrite <- count_one_edge, <- count_flat_map_app.
  f_equal. apply flat_map_ext. intros a. apply targetsOf_cons.
Qed.

Lemma NoDup_count_le_1 (l : list jsstring) x :
  NoDup l -> (count_occ str_eq_dec l x <= 1)%nat.
Proof. intros H. now apply (proj1 (NoDup_count_occ str_eq_dec l)). Qed.

(** The edges into [v] that leave a node of a duplicate-free list are
    at most the edges into [v]. *)
Lemma processed_le E l v :
  NoDup l ->
  (count_occ str_eq_dec (flat_map (targetsOf E) l) v
   <= count_occ str_eq_dec (List.map tgt E) v)%nat.
Proof.
  intros Hl. induction E as [|r E IH].
  - clear Hl. induction l as [|a l IHl]; simpl; [lia | exact IHl].
  - rewrite processed_cons. simpl.
    pose proof (NoDup_count_le_1 (src r) Hl).
    destruct (str_eq_dec (tgt r) v); lia.
Qed.

(** ... and fewer when an edge into [v] leaves a node outside the list. *)
Lemma processed_lt E l v r :
  NoDup l -> In r E -> tgt r = v -> ~ In (src r) l ->
  (count_occ str_eq_dec (flat_map (targetsOf E) l) v
   < count_occ str_eq_dec (List.map tgt E) v)%nat.
Proof.
  intros Hl Hr Hv Hs. induction E as [|r' E IH]; [destruct Hr|].
  rewrite processed_cons. simpl. destruct Hr as [->|Hr].
  - pose proof (processed_le E v Hl).
    rewrite (proj1 (count_occ_not_In str_eq_dec l (src r)) Hs).
    destruct (str_eq_dec (tgt r) v); [lia | contradiction].
  - specialize (IH Hr). pose proof (NoDup_count_le_1 (src r') Hl).
    destruct (str_eq_dec (tgt r') v); lia.
Qed.

(** The inner loop subtracts from each counter the number of times its
    node is listed, and appends, once each, the nodes whose counter
    reaches zero on the way. *)
Lemma relax_spec tos : forall queue nxt,
  (forall v, Map.get0 (snd (relax tos queue nxt)) v
             = Map.get0 nxt v - Z.of_nat (count_occ str_eq_dec tos v))
  /\ exists newly,
       fst (relax tos queue nxt) = queue ++ newly
       /\ NoDup newly
       /\ forall v, In v newly ->
            In v tos /\ 0 < Map.get0 nxt v <= Z.of_nat (count_occ str_eq_dec tos v).
Proof.
  induction tos as [|to rest IH]; intros queue nxt; simpl.
  - split; [intros; lia|]. exists []. rewrite app_nil_r.
    repeat split; try constructor; contradiction.
  - set (value := Map.get0 nxt to - 1).
    set (nxt1 := Map.set nxt to value).
    set (q1 := if value =? 0 then queue ++ [to] else queue).
    destruct (IH q1 nxt1) as [Hcount [newly [Hq [Hnd Hnew]]]].
    assert (Hnxt1 : forall v, Map.get0 nxt1 v
                              = if str_eq_dec to v then Map.get0 nxt v - 1
                                else Map.get0 nxt v).
    { intros v. unfold nxt1, value. destruct (str_eq_dec to v) as [->|Hne].
      - apply get0_set_same.
      - now apply get0_set_other. }
    split.
    + intros v. rewrite Hcount, Hnxt1. destruct (str_eq_dec to v); lia.
    + exists ((if value =? 0 then [to] else []) ++ newly). split; [|split].
      * rewrite Hq. unfold q1. destruct (value =? 0); simpl.
        -- now rewrite <- app_assoc.
        -- reflexivity.
      * destruct (Z.eqb_spec value 0) as [Hz|Hz]; simpl; [|assumption].
        constructor; [|assumption]. intros Hin. apply Hnew in Hin.
        rewrite Hnxt1 in Hin. destruct (str_eq_dec to to); [|congruence].
        unfold value in Hz. lia.
      * intros v Hv. apply in_app_or in Hv. destruct Hv as [Hv|Hv].
        -- destruct (Z.eqb_spec value 0) as [Hz|Hz]; [|destruct Hv].
           destruct Hv as [<-|[]]. unfold value in Hz.
           destruct (str_eq_dec to to); [|congruence].
           split; [now left | lia].
        -- apply Hnew in Hv. destruct Hv as [Hin Hrange].
           rewrite Hnxt1 in Hrange. split; [now right|].
           destruct (str_eq_dec to v); lia.
Qed.

Section Invariant.
Variable nodeIds : list jsstring.
Variable E : list EdgeRecord.
Variable outgoing : Map.t (list jsstring).

Hypothesis nodeIds_NoDup : NoDup nodeIds.
Hypothesis nodeIds_nonEmpty : forall id, In id nodeIds -> nonEmpty id = true.
Hypothesis targets_known : forall r, In r E -> In (tgt r) nodeIds.
Hypothesis outgoing_spec : forall a,
  In a nodeIds -> Map.get outgoing a = Some (targetsOf E a).

(** A set of nodes each of which has a predecessor in the set: the
    nodes that lie on cycles. *)
Variable stuck : jsstring -> Prop.
Hypothesis stuck_pred :
  forall c, stuck c -> exists r, In r E /\ tgt r = c /\ stuck (src r).

Lemma in_targetsOf a v : In v (targetsOf E a) -> In v nodeIds.
Proof.
  unfold targetsOf. rewrite in_map_iff. intros [r [<- Hr]].
  apply filter_In in Hr. apply targets_known, Hr.
Qed.

Lemma Inv_step done id queue nxt :
  Inv nodeIds E stuck done (id :: queue) nxt ->
  Inv nodeIds E stuck (done ++ [id]) (fst (relax (targetsOf E id) queue nxt))
      (snd (relax (targetsOf E id) queue nxt)).
Proof.
  intros [Hnd Hnodes Hzero Hcount Hstuck].
  destruct (relax_spec (targetsOf E id) queue nxt) as [Hnxt [newly [Hq [Hnew_nd Hnew]]]].
  rewrite Hq.
  assert (Hsame : forall v, In v ((done ++ [id]) ++ queue ++ newly)
                            <-> In v (done ++ id :: queue) \/ In v newly).
  { intros v. rewrite !in_app_iff. simpl. tauto. }
  assert (Hfresh : forall v, In v newly -> ~ In v (done ++ id :: queue)).
  { intros v Hv Hold. apply Hnew in Hv. apply Hzero in Hold. lia. }
  assert (Hdone : NoDup (done ++ [id])).
  { apply NoDup_app_remove_r with (l' := queue).
    rewrite <- app_assoc. exact Hnd. }
  constructor.
  - rewrite <- app_assoc. simpl. rewrite app_comm_cons, app_assoc.
    apply NoDup_app; [exact Hnd | exact Hnew_nd |].
    intros v Hold Hv. exact (Hfresh v Hv Hold).
  - intros v Hv. apply Hsame in Hv. destruct Hv as [Hv|Hv]; [auto|].
    apply Hnew in Hv. eapply in_targetsOf, Hv.
  - intros v Hv. rewrite Hnxt. apply Hsame in Hv. destruct Hv as [Hv|Hv].
    + apply Hzero in Hv. lia.
    + apply Hnew in Hv. lia.
  - intros v. rewrite Hnxt, Hcount. unfold processed.
    rewrite flat_map_app, count_occ_app. simpl. rewrite app_nil_r. lia.
  - intros c Hc Hin. apply Hsame in Hin. destruct Hin as [Hin|Hin].
    + exact (Hstuck c Hc Hin).
    + apply Hnew in Hin. destruct Hin as [_ [_ Hle]].
      rewrite Hcount in Hle. unfold processed, indegreeOf in Hle.
      destruct (stuck_pred Hc) as [r [Hr [Htgt Hsrc]]].
      assert (Hout : ~ In (src r) (done ++ [id])).
      { intros Hin. apply (Hstuck _ Hsrc). apply in_app_or in Hin.
        apply in_or_app. simpl in *. tauto. }
      pose proof (@processed_lt E (done ++ [id]) c r Hdone Hr Htgt Hout) as Hlt.
      rewrite flat_map_app, count_occ_app in Hlt. simpl in Hlt.
      rewrite app_nil_r in Hlt. lia.
Qed.

Lemma kahn_invariant fuel : forall done queue nxt visited,
  Inv nodeIds E stuck done queue nxt -> visited = Z.of_nat (length done) ->
  exists done' nxt',
    fst (kahn fuel outgoing queue nxt visited) = Z.of_nat (length done')
    /\ Inv nodeIds E stuck done' (snd (kahn fuel outgoing queue nxt visited)) nxt'
    /\ ((length nodeIds <= fuel + length done)%nat ->
        snd (kahn fuel outgoing queue nxt visited) = []).
Proof.
  induction fuel as [|fuel IH]; intros done queue nxt visited HI Hv; simpl.
  - exists done, nxt. split; [assumption|]. split; [assumption|].
    intros Hlen. destruct HI as [Hnd Hnodes _ _ _].
    pose proof (NoDup_incl_length Hnd Hnodes) as Hle.
    rewrite length_app in Hle. apply length_zero_iff_nil. lia.
  - destruct queue as [|id queue].
    + exists done, nxt. auto.
    + assert (Hid : In id nodeIds).
      { apply (inv_nodes HI). rewrite in_app_iff. simpl. auto. }
      rewrite (nodeIds_nonEmpty _ Hid). simpl.
      rewrite (outgoing_spec _ Hid).
      pose proof (Inv_step HI) as HI'.
      destruct (relax (targetsOf E id) queue nxt) as [queue' nxt'] eqn:Hr.
      simpl in HI'.
      destruct (IH (done ++ [id]) queue' nxt' (visited + 1) HI') as [done' [nxt'' [H1 [H2 H3]]]].
      { rewrite length_app. simpl. lia. }
      exists done', nxt''. split; [assumption|]. split; [assumption|].
      intros Hlen. apply H3. rewrite length_app. simpl. lia.
Qed.

Variable indegree : Map.t Z.
Hypothesis indegree_spec : forall v, Map.get0 indegree v = indegreeOf E v.

Lemma Inv_initial : Inv nodeIds E stuck [] (zeroIndegree indegree nodeIds) indegree.
Proof.
  unfold zeroIndegree. constructor; simpl.
  - now apply NoDup_filter.
  - intros v Hv. apply filter_In in Hv. tauto.
  - intros v Hv. apply filter_In in Hv. destruct Hv as [_ Hv].
    apply Z.eqb_eq in Hv. lia.
  - intros v. rewrite indegree_spec. unfold processed. simpl. lia.
  - intros c Hc Hin. apply filter_In in Hin. destruct Hin as [_ Hz].
    apply Z.eqb_eq in Hz. rewrite indegree_spec in Hz.
    destruct (stuck_pred Hc) as [r [Hr [Htgt _]]].
    unfold indegreeOf in Hz.
    assert (Hin : In c (List.map tgt E)) by (rewrite <- Htgt; now apply in_map).
    apply (count_occ_In str_eq_dec) in Hin. lia.
Qed.

(** [length nodeIds] iterations are enough: the queue is empty when the
    loop stops. *)
Lemma kahn_fuel_enough :
  snd (kahn (length nodeIds) outgoing (zeroIndegree indegree nodeIds) indegree 0) = [].
Proof.
  destruct (@kahn_invariant (length nodeIds) [] _ _ 0 Inv_initial eq_refl)
    as [done' [nxt' [_ [_ H]]]].
  apply H. simpl. lia.
Qed.

(** No node is visited twice. *)
Lemma kahn_visits_at_most :
  fst (kahn (length nodeIds) outgoing (zeroIndegree indegree nodeIds) indegree 0)
  <= Z.of_nat (length nodeIds).
Proof.
  destruct (@kahn_invariant (length nodeIds) [] _ _ 0 Inv_initial eq_refl)
    as [done' [nxt' [Hv [HI _]]]].
  rewrite Hv. destruct HI as [Hnd Hnodes _ _ _].
  apply NoDup_app_remove_r in Hnd.
  assert (Hle : (length done' <= length nodeIds)%nat).
  { apply NoDup_incl_length; [assumption|].
    intros x Hx. apply Hnodes. apply in_or_app. now left. }
  lia.
Qed.

(** A node that lies on a cycle is never visited. *)
Lemma kahn_misses_stuck c :
  stuck c ->
  fst (kahn (length nodeIds) outgoing (zeroIndegree indegree nodeIds) indegree 0)
  <> Z.of_nat (length nodeIds).
Proof.
  intros Hc.
  destruct (@kahn_invariant (length nodeIds) [] _ _ 0 Inv_initial eq_refl)
    as [done' [nxt' [Hv [HI Hq]]]].
  rewrite Hv. rewrite (Hq ltac:(simpl; lia)) in HI.
  destruct HI as [Hnd Hnodes _ _ Hstuck]. rewrite app_nil_r in *.
  assert (HcN : In c nodeIds).
  { destruct (stuck_pred Hc) as [r [Hr [<- _]]]. now apply targets_known. }
  assert (Hlen : (length (c :: done') <= length nodeIds)%nat).
  { apply NoDup_incl_length.
    - constructor; [apply Hstuck, Hc | assumption].
    - intros x [<-|Hx]; auto. }
  simpl in Hlen. lia.
Qed.
End Invariant.

(** Every node of a cycle has a predecessor on a cycle. *)
Lemma cycle_pred (R : jsstring -> jsstring -> Prop) c :
  clos_trans jsstring R c c ->
  exists p, R p c /\ clos_trans jsstring R p p.
Proof.
  intros H. apply clos_trans_tn1 in H.
  inversion H as [Hstep | p ? Hp Hcp]; subst.
  - exists c. split; [assumption | now apply t_step].
  - exists p. split; [assumption|].
    apply clos_tn1_trans in Hcp.
    eapply t_trans; [apply t_step; eassumption | assumption].
Qed.

End Traversal.

(** ** The shape of the compiler's result *)

Module GraphOutput.
Import JS WorkflowGraph GraphSpec MapFacts SortFacts GraphInputs Traversal.

Lemma groupBySource_get E s :
  Map.get (groupBySource E) s
  = match filter (fromSource s) E with [] => None | r :: l => Some (r :: l) end.
Proof.
  unfold groupBySource. induction E as [|r E IH] using rev_ind; [reflexivity|].
  rewrite fold_left_app, filter_app. simpl. unfold addToBucket at 1.
  unfold fromSource at 2, src, str_eqb.
  destruct (str_eq_dec (bedge_source (edge r)) s) as [Heq|Hne].
  - rewrite Heq in *. rewrite get_set_same, IH.
    destruct (filter (fromSource s) E); reflexivity.
  - rewrite get_set_other by assumption. rewrite IH, app_nil_r. reflexivity.
Qed.

Lemma groupBySource_NoDup E : NoDup (Map.keys (groupBySource E)).
Proof.
  unfold groupBySource. induction E as [|r E IH] using rev_ind; [constructor|].
  rewrite fold_left_app. simpl. now apply NoDup_keys_set.
Qed.

Lemma groupBySource_group E s :
  match Map.get (groupBySource E) s with Some g => g | None => [] end
  = filter (fromSource s) E.
Proof.
  rewrite groupBySource_get. now destruct (filter (fromSource s) E).
Qed.

Lemma filter_none (A : Type) (f : A -> bool) l :
  (forall x, In x l -> f x = false) -> filter f l = [].
Proof.
  induction l as [|a l IH]; simpl; intros H; [reflexivity|].
  rewrite (H a) by auto. apply IH. auto.
Qed.

Lemma filter_flat_map_key (A : Type) (f : jsstring -> list A) (key : A -> jsstring)
      (l : list jsstring) (s : jsstring) :
  NoDup l ->
  (forall a e, In a l -> In e (f a) -> key e = a) ->
  filter (fun e => str_eqb (key e) s) (flat_map f l)
  = if in_dec str_eq_dec s l then f s else [].
Proof.
  intros Hnd Hkey. induction Hnd as [|a l Ha Hnd IH]; simpl; [reflexivity|].
  rewrite filter_app, IH by (intros; apply Hkey; simpl; auto).
  assert (Hfa : forall e, In e (f a) -> key e = a) by (intros; apply Hkey; simpl; auto).
  destruct (str_eq_dec a s) as [->|Hne].
  - destruct (in_dec str_eq_dec s l); [contradiction|]. rewrite app_nil_r.
    apply forallb_filter_id. apply forallb_forall. intros e He.
    apply str_eqb_true. auto.
  - replace (filter (fun e => str_eqb (key e) s) (f a)) with (@nil A).
    + simpl. destruct (in_dec str_eq_dec s l); reflexivity.
    + symmetry. apply filter_none. intros e He.
      unfold str_eqb. rewrite (Hfa e He). destruct (str_eq_dec a s); congruence.
Qed.

Section Shape.
Variable localeCompare : jsstring -> jsstring -> Z.
Variable bnodes : list BuilderGraphNode.
Variable bedges : list BuilderGraphEdge.

Let nodesById := buildNodesById bnodes.
Let nodeIds := Map.keys nodesById.
Let E := fst (validateEdges nodesById bedges 0).
Let indegree := fst (degrees nodeIds E).
Let outgoing := snd (degrees nodeIds E).
Let startNodes := startNodesOf localeCompare indegree nodeIds.
Let result := buildWorkflowGraphV11 localeCompare bnodes bedges.

(** Everything the compiler pushes to [errors] before line 178. *)
Let allErrors : list GraphError :=
  match filter (fun id => negb (NODE_ID_PATTERN_test id)) nodeIds with
  | [] => []
  | _ :: _ => [ErrInvalidNodeIds (filter (fun id => negb (NODE_ID_PATTERN_test id)) nodeIds)]
  end
  ++ snd (validateEdges nodesById bedges 0)
  ++ cycleErrors nodeIds E indegree outgoing
  ++ (if nonEmpty (fst (chooseEntry startNodes)) then [] else [ErrNoEntryNode]).

Let emitted : WorkflowGraphV11 :=
  {| entryNodeId := fst (chooseEntry startNodes);
     nodes := List.map fst (List.map (mapNode nodesById) (sortStrings localeCompare nodeIds));
     edges :=
       flat_map fst
         (List.map (mapGroup localeCompare (groupBySource E))
                   (sortStrings localeCompare (Map.keys (groupBySource E)))) |}.

Lemma build_shape :
  bnodes <> [] ->
  errors result = allErrors
  /\ graph result = match allErrors with [] => Some emitted | _ :: _ => None end
  /\ incl (snd (chooseEntry startNodes)) (warnings result).
Proof.
  intros Hnodes.
  unfold result, allErrors, emitted, startNodes, outgoing, indegree, E, nodeIds, nodesById.
  unfold buildWorkflowGraphV11.
  destruct bnodes as [|n0 nodes']; [congruence|].
  destruct (validateEdges (buildNodesById (n0 :: nodes')) bedges 0) as [ve errs2].
  cbn [fst snd].
  destruct (degrees (Map.keys (buildNodesById (n0 :: nodes'))) ve) as [indeg out].
  cbn [fst snd].
  destruct (chooseEntry (startNodesOf localeCompare indeg
              (Map.keys (buildNodesById (n0 :: nodes'))))) as [entry ws].
  cbn [fst snd].
  match goal with
  | |- context [match ?errs with [] => _ | _ :: _ => _ end] =>
      match type of errs with
      | list GraphError => destruct errs eqn:Herrs
      end
  end; cbn [errors graph warnings]; (split; [reflexivity|]); (split; [reflexivity|]);
    intros w Hw; rewrite ?in_app_iff; auto.
Qed.

Lemma build_success g :
  graph result = Some g -> bnodes <> [] /\ allErrors = [] /\ g = emitted.
Proof.
  intros Hg. assert (Hnodes : bnodes <> []).
  { intros Hn. unfold result in Hg. rewrite Hn in Hg. discriminate. }
  destruct (build_shape Hnodes) as [_ [Hgraph _]]. rewrite Hgraph in Hg.
  destruct allErrors; [|discriminate]. injection Hg as <-. auto.
Qed.
End Shape.

End GraphOutput.

(** ** The compiler's guarantees *)

Module GraphTheorems.
Import JS WorkflowGraph GraphSpec GraphClaims GraphExamples.
Import MapFacts SortFacts GraphInputs Traversal GraphOutput.

Lemma in_mapi (A B : Type) (f : A -> nat -> B) l y :
  In y (mapi f l) -> exists x i, In x l /\ y = f x i.
Proof.
  unfold mapi. rewrite in_mapi_from. intros [k [x [Hk ->]]].
  exists x, (0 + k)%nat. split; [eapply nth_error_In; eassumption | reflexivity].
Qed.

Lemma nth_error_mapi_from (A B : Type) (f : A -> nat -> B) l : forall i k,
  nth_error (mapi_from f i l) k = option_map (fun x => f x (i + k)%nat) (nth_error l k).
Proof.
  induction l as [|a l IH]; intros i [|k]; simpl; try reflexivity.
  - now rewrite Nat.add_0_r.
  - rewrite IH. now rewrite Nat.add_succ_r.
Qed.

Lemma nth_error_mapi (A B : Type) (f : A -> nat -> B) l k :
  nth_error (mapi f l) k = option_map (fun x => f x k) (nth_error l k).
Proof. unfold mapi. now rewrite nth_error_mapi_from. Qed.

Lemma flat_map_map (A B C : Type) (f : A -> B) (g : B -> list C) l :
  flat_map g (List.map f l) = flat_map (fun a => g (f a)) l.
Proof. induction l; simpl; [reflexivity | now rewrite IHl]. Qed.

Lemma sortGroup_in lc grp r : In r (sortGroup lc grp) <-> In r grp.
Proof. apply sort_in. Qed.

Section Compiled.
Variable localeCompare : jsstring -> jsstring -> Z.
Variable bnodes : list BuilderGraphNode.
Variable bedges : list BuilderGraphEdge.
Variable g : WorkflowGraphV11.
Hypothesis compiled :
  graph (buildWorkflowGraphV11 localeCompare bnodes bedges) = Some g.

Let nodesById := buildNodesById bnodes.
Let nodeIds := Map.keys nodesById.
Let E := fst (validateEdges nodesById bedges 0).

Lemma compiled_no_edge_error : snd (validateEdges nodesById bedges 0) = [].
Proof.
  destruct (build_success _ _ _ compiled) as [_ [Herrs _]].
  apply app_eq_nil in Herrs. destruct Herrs as [_ Herrs].
  apply app_eq_nil in Herrs. tauto.
Qed.

Lemma compiled_valid_edges : E = mapi mkRecord bedges.
Proof. apply validateEdges_no_error, compiled_no_edge_error. Qed.

Lemma compiled_nodes :
  WorkflowGraph.nodes g
  = List.map (fun id => fst (mapNode nodesById id)) (sortStrings localeCompare nodeIds).
Proof.
  destruct (build_success _ _ _ compiled) as [_ [_ ->]]. simpl.
  now rewrite map_map.
Qed.

Lemma compiled_node_ids :
  List.map node_id (WorkflowGraph.nodes g) = sortStrings localeCompare nodeIds.
Proof.
  rewrite compiled_nodes, map_map. simpl. apply map_id.
Qed.

Lemma compiled_edges_from s :
  emittedFrom g s = fst (emitGroup s (outgoingInStableOrder localeCompare bedges s)).
Proof.
  unfold emittedFrom, outgoingInStableOrder. rewrite <- compiled_valid_edges.
  destruct (build_success _ _ _ compiled) as [_ [_ ->]]. simpl.
  fold nodesById. fold E. rewrite flat_map_map.
  rewrite filter_flat_map_key with (key := edge_from).
  - destruct (in_dec str_eq_dec s _) as [Hin|Hnin].
    + unfold mapGroup. now rewrite groupBySource_group.
    + assert (Hnone : filter (fromSource s) E = []).
      { rewrite <- groupBySource_group.
        destruct (Map.get (groupBySource E) s) eqn:Hget; [|reflexivity].
        exfalso. apply Hnin. apply sort_in. apply get_some_in_keys. congruence. }
      rewrite Hnone. reflexivity.
  - apply sort_NoDup, groupBySource_NoDup.
  - intros a e _ He. unfold mapGroup in He. rewrite groupBySource_group in He.
    simpl in He. apply in_mapi in He. destruct He as [r [i [Hr ->]]]. simpl.
    apply sortGroup_in, filter_In in Hr. destruct Hr as [_ Hr].
    now apply str_eqb_true in Hr.
Qed.

Lemma compiled_edge_origin e :
  In e (WorkflowGraph.edges g) ->
  exists r, In r E /\ edge_from e = src r /\ edge_to e = tgt r.
Proof.
  destruct (build_success _ _ _ compiled) as [_ [_ ->]]. simpl.
  fold nodesById. fold E. rewrite flat_map_map, in_flat_map.
  intros [a [_ He]]. unfold mapGroup in He. rewrite groupBySource_group in He.
  simpl in He. apply in_mapi in He. destruct He as [r [i [Hr ->]]].
  apply sortGroup_in, filter_In in Hr. exists r. simpl. tauto.
Qed.

Lemma compiled_graphEdge a b : graphEdge g a b -> resolvedEdge bnodes bedges a b.
Proof.
  intros [e [He [<- <-]]]. apply compiled_edge_origin in He.
  destruct He as [r [Hr [-> ->]]]. apply validEdges_resolved. eauto.
Qed.
End Compiled.

Lemma clos_trans_incl (R S : jsstring -> jsstring -> Prop) :
  (forall a b, R a b -> S a b) ->
  forall a b, clos_trans jsstring R a b -> clos_trans jsstring S a b.
Proof.
  intros HRS a b H. induction H as [a b H | a b c _ IH1 _ IH2].
  - apply t_step. auto.
  - eapply t_trans; eassumption.
Qed.

Lemma cycle_detected localeCompare bnodes bedges :
  hasCycle (resolvedEdge bnodes bedges) ->
  graph (buildWorkflowGraphV11 localeCompare bnodes bedges) = None
  /\ In ErrCycle (errors (buildWorkflowGraphV11 localeCompare bnodes bedges)).
Proof.
  intros [c Hc].
  set (nodesById := buildNodesById bnodes).
  set (nodeIds := Map.keys nodesById).
  set (E := fst (validateEdges nodesById bedges 0)).
  set (stuck := fun v => clos_trans jsstring (resolvedEdge bnodes bedges) v v).
  assert (Hpred : forall v, stuck v -> exists r, In r E /\ tgt r = v /\ stuck (src r)).
  { intros v Hv. destruct (cycle_pred Hv) as [p [Hp Hpp]].
    apply validEdges_resolved in Hp. destruct Hp as [r [Hr [<- <-]]]. eauto. }
  destruct (Hpred c Hc) as [r0 [Hr0 _]].
  assert (Hnodes : bnodes <> []).
  { apply validEdges_spec in Hr0. destruct Hr0 as [_ [[_ [n [Hn _]]] _]].
    intros ->. destruct Hn. }
  assert (Hmiss :
    fst (kahn (length nodeIds) (snd (degrees nodeIds E))
              (zeroIndegree (fst (degrees nodeIds E)) nodeIds) (fst (degrees nodeIds E)) 0)
    <> Z.of_nat (length nodeIds)).
  { apply kahn_misses_stuck with (E := E) (stuck := stuck) (c := c).
    - apply nodeIds_NoDup.
    - apply nodeIds_nonEmpty.
    - intros r Hr. apply nodeIds_spec. apply validEdges_spec in Hr. tauto.
    - intros a Ha. rewrite degrees_outgoing.
      destruct (in_dec str_eq_dec a nodeIds); [reflexivity | contradiction].
    - exact Hpred.
    - intros v. apply degrees_indegree.
    - exact Hc. }
  assert (Hcyc : cycleErrors nodeIds E (fst (degrees nodeIds E)) (snd (degrees nodeIds E))
                 = [ErrCycle]).
  { unfold cycleErrors. destruct E as [|r E']; [destruct Hr0|].
    apply Z.eqb_neq in Hmiss. now rewrite Hmiss. }
  destruct (build_shape localeCompare bedges Hnodes) as [Herr [Hgraph _]].
  fold nodesById nodeIds E in Herr, Hgraph. rewrite Hcyc in Herr, Hgraph.
  rewrite Herr. split.
  - rewrite Hgraph. match goal with |- match ?l with _ => _ end = _ =>
      destruct l eqn:Hl end; [|reflexivity].
    exfalso. apply app_eq_nil in Hl. destruct Hl as [_ Hl].
    apply app_eq_nil in Hl. destruct Hl as [_ Hl]. discriminate.
  - rewrite !in_app_iff. simpl. auto.
Qed.

Lemma validateEdges_errors m bedges : forall i e,
  In e (snd (validateEdges m bedges i)) -> e <> ErrCycle.
Proof.
  induction bedges as [|x bedges IH]; simpl; intros i e He; [destruct He|].
  specialize (IH (S i) e). destruct (validateEdges m bedges (S i)) as [valid errs].
  simpl in IH.
  destruct (negb (nonEmpty (bedge_source x)) || negb (nonEmpty (bedge_target x)));
    [destruct He as [<-|He]; [discriminate | auto]|].
  destruct (negb (Map.has m (bedge_source x)));
    [destruct He as [<-|He]; [discriminate | auto]|].
  destruct (negb (Map.has m (bedge_target x)));
    [destruct He as [<-|He]; [discriminate | auto]|].
  auto.
Qed.

(** The cycle error is pushed exactly when there are valid edges and the
    traversal has visited fewer nodes than there are. *)
Lemma cycle_error_iff localeCompare bnodes bedges :
  bnodes <> [] ->
  (In ErrCycle (errors (buildWorkflowGraphV11 localeCompare bnodes bedges))
   <-> (exists a b, resolvedEdge bnodes bedges a b)
       /\ visitedCount bnodes bedges < nodeCount bnodes).
Proof.
  intros Hnodes.
  destruct (build_shape localeCompare bedges Hnodes) as [-> _].
  set (nodeIds := Map.keys (buildNodesById bnodes)).
  set (E := fst (validateEdges (buildNodesById bnodes) bedges 0)).
  assert (Hle : visitedCount bnodes bedges <= nodeCount bnodes).
  { unfold visitedCount, nodeCount. fold nodeIds E.
    apply kahn_visits_at_most with (E := E) (stuck := fun _ => False).
    - apply nodeIds_NoDup.
    - apply nodeIds_nonEmpty.
    - intros r Hr. apply nodeIds_spec. apply validEdges_spec in Hr. tauto.
    - intros a Ha. rewrite degrees_outgoing.
      destruct (in_dec str_eq_dec a nodeIds); [reflexivity | contradiction].
    - intros c [].
    - intros v. apply degrees_indegree. }
  assert (Hedges : (exists a b, resolvedEdge bnodes bedges a b) <-> E <> []).
  { split.
    - intros [a [b Hab]]. apply validEdges_resolved in Hab.
      destruct Hab as [r [Hr _]]. fold E in Hr. intros HE. rewrite HE in Hr. destruct Hr.
    - intros HE. destruct E as [|r E'] eqn:HEq; [congruence|].
      exists (src r), (tgt r). apply validEdges_resolved. exists r.
      fold E. rewrite HEq. simpl. auto. }
  rewrite Hedges.
  assert (Hcyc : In ErrCycle (cycleErrors nodeIds E (fst (degrees nodeIds E))
                                          (snd (degrees nodeIds E)))
                 <-> E <> [] /\ visitedCount bnodes bedges < nodeCount bnodes).
  { unfold cycleErrors. unfold visitedCount, nodeCount in *. fold nodeIds E in Hle |- *.
    destruct E as [|r E']; [simpl; split; [tauto | intros [H _]; congruence]|].
    match goal with |- context [?a =? ?b] => destruct (Z.eqb_spec a b) as [Heq|Hne] end.
    - simpl. split; [tauto | intros [_ H]; lia].
    - simpl. split; [intros _; split; [discriminate | lia] | auto]. }
  rewrite <- Hcyc. rewrite !in_app_iff. split; [|tauto].
  intros [H|[H|[H|H]]].
  - destruct (filter _ _); [destruct H | destruct H as [H|[]]; discriminate].
  - exfalso. now apply (@validateEdges_errors _ _ _ _ H).
  - exact H.
  - destruct (nonEmpty _); [destruct H | destruct H as [H|[]]; discriminate].
Qed.

(** C2. Whenever the input edges whose two endpoints resolve contain a
    directed cycle, [buildWorkflowGraphV11] returns [graph: null] and its
    errors hold the cycle error; that error is pushed exactly when there
    are valid edges and the zero-in-degree traversal has visited fewer
    nodes than there are; hence a graph that was compiled has no
    directed cycle. *)
Theorem C2_cycle_rejected localeCompare bnodes bedges :
  let result := buildWorkflowGraphV11 localeCompare bnodes bedges in
  (hasCycle (resolvedEdge bnodes bedges) ->
   graph result = None /\ In ErrCycle (errors result))
  /\ (bnodes <> [] ->
      (In ErrCycle (errors result)
       <-> (exists a b, resolvedEdge bnodes bedges a b)
           /\ visitedCount bnodes bedges < nodeCount bnodes))
  /\ (forall g, graph result = Some g -> ~ hasCycle (graphEdge g)).
Proof.
  intros result. split; [apply cycle_detected|]. split; [apply cycle_error_iff|].
  intros g Hg [v Hv].
  assert (Hc : hasCycle (resolvedEdge bnodes bedges)).
  { exists v. revert Hv. apply clos_trans_incl.
    intros a b. now apply compiled_graphEdge with (localeCompare := localeCompare). }
  destruct (cycle_detected localeCompare Hc) as [Hnone _]. unfold result in Hg. congruence.
Qed.

(** The traversal of the compiler is never cut short by its fuel. *)
Lemma traversal_completes bnodes bedges :
  let nodeIds := Map.keys (buildNodesById bnodes) in
  let E := fst (validateEdges (buildNodesById bnodes) bedges 0) in
  let indegree := fst (degrees nodeIds E) in
  let outgoing := snd (degrees nodeIds E) in
  snd (kahn (length nodeIds) outgoing (zeroIndegree indegree nodeIds) indegree 0) = [].
Proof.
  intros nodeIds E indegree outgoing.
  apply kahn_fuel_enough with (E := E) (stuck := fun _ => False).
  - apply nodeIds_NoDup.
  - apply nodeIds_nonEmpty.
  - intros r Hr. apply nodeIds_spec. apply validEdges_spec in Hr. tauto.
  - intros a Ha. unfold outgoing. rewrite degrees_outgoing.
    destruct (in_dec str_eq_dec a nodeIds); [reflexivity | contradiction].
  - intros c [].
  - intros v. apply degrees_indegree.
Qed.

Lemma startNodes_spec bnodes bedges c :
  let nodeIds := Map.keys (buildNodesById bnodes) in
  let E := fst (validateEdges (buildNodesById bnodes) bedges 0) in
  In c (zeroIndegree (fst (degrees nodeIds E)) nodeIds) <-> isStartNode bnodes bedges c.
Proof.
  intros nodeIds E. unfold zeroIndegree, isStartNode.
  rewrite filter_In, degrees_indegree, Z.eqb_eq. unfold nodeIds at 1.
  rewrite nodeIds_spec. unfold indegreeOf.
  assert (Hiff : Z.of_nat (count_occ str_eq_dec (List.map tgt E) c) = 0
                 <-> forall a, ~ resolvedEdge bnodes bedges a c).
  { split.
    - intros Hz a Ha. apply validEdges_resolved in Ha. destruct Ha as [r [Hr [_ Ht]]].
      assert (Hin : In c (List.map tgt E)) by (rewrite <- Ht; now apply in_map).
      apply (count_occ_In str_eq_dec) in Hin. lia.
    - intros Hno. assert (Hnin : ~ In c (List.map tgt E)).
      { rewrite in_map_iff. intros [r [Ht Hr]]. apply (Hno (src r)).
        apply validEdges_resolved. eauto. }
      apply (count_occ_not_In str_eq_dec) in Hnin. lia. }
  tauto.
Qed.

(** C4. The [entryNodeId] of a compiled graph is a node that no resolved
    input edge enters; for a collation that is a total preorder it is the
    least such node; when there are several such nodes the warning that
    names the chosen one is pushed; and when no such node exists the
    compilation fails, with the cannot-determine-entry-node error among
    its errors (an empty node array, which has no nodes at all, fails
    earlier, at line 93, with the no-nodes error alone). *)
Theorem C4_entry_node localeCompare bnodes bedges :
  let result := buildWorkflowGraphV11 localeCompare bnodes bedges in
  (forall g, graph result = Some g -> isStartNode bnodes bedges (entryNodeId g))
  /\ ((forall a b c, localeCompare a b <= 0 -> localeCompare b c <= 0 ->
                     localeCompare a c <= 0) ->
      (forall a b, localeCompare a b <= 0 \/ localeCompare b a <= 0) ->
      forall g c, graph result = Some g -> isStartNode bnodes bedges c ->
                  localeCompare (entryNodeId g) c <= 0)
  /\ (forall g c1 c2,
        graph result = Some g ->
        isStartNode bnodes bedges c1 -> isStartNode bnodes bedges c2 -> c1 <> c2 ->
        In (WarnMultipleStarts (entryNodeId g)) (warnings result))
  /\ ((forall c, ~ isStartNode bnodes bedges c) ->
      graph result = None /\ (bnodes <> [] -> In ErrNoEntryNode (errors result))).
Proof.
  intros result.
  set (nodeIds := Map.keys (buildNodesById bnodes)).
  set (E := fst (validateEdges (buildNodesById bnodes) bedges 0)).
  set (cands := zeroIndegree (fst (degrees nodeIds E)) nodeIds).
  assert (Hspec : forall c, In c cands <-> isStartNode bnodes bedges c).
  { intros c. apply startNodes_spec. }
  assert (Hentry : forall g, graph result = Some g ->
            exists t, sortStrings localeCompare cands = entryNodeId g :: t
                      /\ snd (chooseEntry (sortStrings localeCompare cands))
                         = match t with [] => [] | _ :: _ => [WarnMultipleStarts (entryNodeId g)] end).
  { intros g Hg. destruct (build_success _ _ _ Hg) as [_ [Herrs ->]]. simpl.
    apply app_eq_nil in Herrs. destruct Herrs as [_ Herrs].
    apply app_eq_nil in Herrs. destruct Herrs as [_ Herrs].
    apply app_eq_nil in Herrs. destruct Herrs as [_ Herrs].
    unfold startNodesOf in *. fold nodeIds E cands in Herrs |- *.
    destruct (sortStrings localeCompare cands) as [|s [|s' t]]; simpl in *.
    - discriminate.
    - exists []. auto.
    - exists (s' :: t). auto. }
  split; [|split; [|split]].
  - intros g Hg. destruct (Hentry g Hg) as [t [Hs _]].
    apply Hspec. apply (sort_in localeCompare). unfold sortStrings in Hs.
    rewrite Hs. now left.
  - intros Htrans Htotal g c Hg Hc. destruct (Hentry g Hg) as [t [Hs _]].
    apply (@sort_head_least _ localeCompare Htrans Htotal cands _ t Hs).
    now apply Hspec.
  - intros g c1 c2 Hg H1 H2 Hne. destruct (Hentry g Hg) as [t [Hs Hw]].
    assert (Hnd : NoDup (sortStrings localeCompare cands)).
    { apply sort_NoDup. apply NoDup_filter, nodeIds_NoDup. }
    apply Hspec, (sort_in localeCompare) in H1, H2.
    unfold sortStrings in *. rewrite Hs in H1, H2.
    assert (Hnodes : bnodes <> []) by (apply (build_success _ _ _ Hg)).
    destruct (build_shape localeCompare bedges Hnodes) as [_ [_ Hincl]].
    apply Hincl. unfold startNodesOf, sortStrings. fold nodeIds E cands.
    rewrite Hw. destruct t as [|s' t]; [|now left].
    destruct H1 as [<-|[]], H2 as [<-|[]]. congruence.
  - intros Hnone.
    assert (Hcase : bnodes = [] \/ bnodes <> [])
      by (destruct bnodes; [now left | right; discriminate]).
    destruct Hcase as [Hnil|Hnodes].
    { split; [unfold result; rewrite Hnil; reflexivity | intros H; contradiction]. }
    destruct (build_shape localeCompare bedges Hnodes) as [Herr [Hgraph _]].
    assert (Hempty : sortStrings localeCompare cands = []).
    { destruct (sortStrings localeCompare cands) as [|s t] eqn:Hs; [reflexivity|].
      exfalso. apply (Hnone s), Hspec, (sort_in localeCompare).
      unfold sortStrings in Hs. rewrite Hs. now left. }
    unfold startNodesOf in Herr, Hgraph. fold nodeIds E cands in Herr, Hgraph.
    rewrite Hempty in Herr, Hgraph. simpl in Herr, Hgraph.
    fold result in Herr, Hgraph. rewrite <- Herr in Hgraph.
    assert (Hin : In ErrNoEntryNode (errors result)).
    { rewrite Herr. rewrite !in_app_iff. simpl. auto. }
    split; [|intros _; exact Hin].
    rewrite Hgraph. destruct (errors result); [destruct Hin | reflexivity].
Qed.

(** C10. A compiled graph is referentially closed: the [from] and the
    [to] of every emitted edge are ids of emitted nodes; and the emitted
    nodes carry, once each, exactly the ids of the input nodes (an input
    node has an id when its [id] is not empty), each emitted node being
    built from the last input node that carries its id. *)
Theorem C10_referentially_closed localeCompare bnodes bedges g :
  graph (buildWorkflowGraphV11 localeCompare bnodes bedges) = Some g ->
  (forall e, In e (WorkflowGraph.edges g) ->
     In (edge_from e) (List.map node_id (WorkflowGraph.nodes g))
     /\ In (edge_to e) (List.map node_id (WorkflowGraph.nodes g)))
  /\ NoDup (List.map node_id (WorkflowGraph.nodes g))
  /\ (forall id, In id (List.map node_id (WorkflowGraph.nodes g)) <-> isNodeId bnodes id)
  /\ (forall n, In n (WorkflowGraph.nodes g) ->
        exists b, lastNode bnodes (node_id n) = Some b
                  /\ n = fst (mapNodeOf (node_id n) (Some b))).
Proof.
  intros Hg.
  assert (Hids : forall id, In id (List.map node_id (WorkflowGraph.nodes g))
                            <-> isNodeId bnodes id).
  { intros id. rewrite (compiled_node_ids _ _ _ Hg). unfold sortStrings.
    rewrite sort_in. apply nodeIds_spec. }
  split; [|split; [|split]].
  - intros e He. destruct (compiled_edge_origin _ _ _ Hg e He) as [r [Hr [-> ->]]].
    apply validEdges_spec in Hr. rewrite !Hids. tauto.
  - rewrite (compiled_node_ids _ _ _ Hg). apply sort_NoDup, nodeIds_NoDup.
  - exact Hids.
  - intros n Hn. rewrite (compiled_nodes _ _ _ Hg) in Hn.
    apply in_map_iff in Hn. destruct Hn as [id [<- Hid]].
    unfold sortStrings in Hid. apply sort_in in Hid.
    assert (Hne : id <> []).
    { apply nodeIds_spec in Hid. apply Hid. }
    unfold mapNode. simpl. rewrite nodesById_get by assumption.
    apply get_some_in_keys in Hid. rewrite nodesById_get in Hid by assumption.
    destruct (lastNode bnodes id) as [b|]; [|congruence].
    exists b. auto.
Qed.

(** The key that the compiler sorts by is the key of the stable order. *)
Lemma stableEdgeSortKey_key r : stableEdgeSortKey (edge r) (idx r) = stableKey r.
Proof.
  unfold stableEdgeSortKey, stableKey, src, tgt.
  destruct (bedge_id (edge r)) as [id|]; [|reflexivity].
  destruct (trim id); reflexivity.
Qed.

Lemma mapi_from_indices (l : list BuilderGraphEdge) : forall i,
  StronglySorted (fun a b => (idx a < idx b)%nat) (mapi_from mkRecord i l)
  /\ Forall (fun r => (i <= idx r)%nat) (mapi_from mkRecord i l).
Proof.
  induction l as [|e l IH]; intros i; cbn [mapi_from]; [split; constructor|].
  destruct (IH (S i)) as [Hs Hi]. split.
  - constructor; [exact Hs|]. eapply Forall_impl; [|exact Hi].
    cbv beta. intros r Hr. cbn [mkRecord idx]. lia.
  - constructor; [cbn [mkRecord idx]; lia|]. eapply Forall_impl; [|exact Hi].
    cbv beta. intros r Hr. lia.
Qed.

Lemma filter_sorted (A : Type) (R : A -> A -> Prop) (f : A -> bool) l :
  StronglySorted R l -> StronglySorted R (filter f l).
Proof.
  induction 1 as [|x l Hs IH Hx]; cbn [filter]; [constructor|].
  destruct (f x); [|exact IH]. constructor; [exact IH|].
  rewrite Forall_forall in *. intros y Hy. apply filter_In in Hy. now apply Hx.
Qed.

(** The stable order of the compiler is the order by key, ties in input
    order. *)
Lemma stable_order localeCompare bedges s :
  (forall a b c, localeCompare a b <= 0 -> localeCompare b c <= 0 -> localeCompare a c <= 0) ->
  (forall a b, localeCompare a b <= 0 \/ localeCompare b a <= 0) ->
  StronglySorted (stableBefore localeCompare) (outgoingInStableOrder localeCompare bedges s).
Proof.
  intros Htrans Htotal. unfold outgoingInStableOrder, sortGroup.
  set (cmp := fun a b : EdgeRecord =>
                localeCompare (stableEdgeSortKey (edge a) (idx a))
                              (stableEdgeSortKey (edge b) (idx b))).
  assert (Hs : StronglySorted
                 (fun a b => cmp a b <= 0 /\ (cmp b a <= 0 -> (idx a < idx b)%nat))
                 (sort cmp (filter (fromSource s) (mapi mkRecord bedges)))).
  { apply sort_stable.
    - intros a b c. unfold cmp. apply Htrans.
    - intros a b. unfold cmp. apply Htotal.
    - apply filter_sorted. exact (proj1 (mapi_from_indices bedges 0)). }
  assert (Himpl : forall a b,
            cmp a b <= 0 /\ (cmp b a <= 0 -> (idx a < idx b)%nat) ->
            stableBefore localeCompare a b).
  { intros a b [H1 H2]. unfold cmp in H1, H2. rewrite !stableEdgeSortKey_key in H1, H2.
    split; assumption. }
  induction Hs as [|x l Hl IH Hx]; constructor; [exact IH|].
  eapply Forall_impl; [|exact Hx]. exact (Himpl x).
Qed.

(** C5, as the code has it. In a compiled graph the edges emitted for a
    source are the input edges that leave it, each once, in the stable
    order: by the trimmed edge id, or by [source->target#index] when the
    id is absent or blank, and in input order when two keys tie (for a
    [localeCompare] that is a total preorder). The edge at position [i]
    keeps its explicit label, trimmed; an edge whose label is absent or
    blank is labelled ["next"] when it is the only edge of its source,
    and ["branch-(i+1)"] otherwise. *)
Theorem C5_edge_labels localeCompare bnodes bedges g s :
  graph (buildWorkflowGraphV11 localeCompare bnodes bedges) = Some g ->
  exists group,
    Permutation group (outgoingInInputOrder bedges s)
    /\ ((forall a b c, localeCompare a b <= 0 -> localeCompare b c <= 0 ->
                       localeCompare a c <= 0) ->
        (forall a b, localeCompare a b <= 0 \/ localeCompare b a <= 0) ->
        StronglySorted (stableBefore localeCompare) group)
    /\ length (emittedFrom g s) = length group
    /\ forall i r, nth_error group i = Some r ->
         exists e, nth_error (emittedFrom g s) i = Some e
                   /\ edge_from e = s
                   /\ edge_to e = tgt r
                   /\ (explicitLabel (edge r) = true ->
                       edge_label e = trimmedString (bedge_label (edge r)))
                   /\ (explicitLabel (edge r) = false -> length group = 1%nat ->
                       edge_label e = u "next")
                   /\ (explicitLabel (edge r) = false -> (1 < length group)%nat ->
                       edge_label e = u "branch-" ++ String_of_nat (i + 1)).
Proof.
  intros Hg. exists (outgoingInStableOrder localeCompare bedges s).
  split; [unfold outgoingInStableOrder, sortGroup; apply sort_perm|].
  split; [apply stable_order|].
  set (group := outgoingInStableOrder localeCompare bedges s).
  rewrite (compiled_edges_from _ _ _ Hg). fold group.
  unfold emitGroup. simpl. split.
  - unfold mapi. apply mapi_from_length.
  - intros i r Hr. rewrite nth_error_mapi, Hr. simpl.
    eexists. split; [reflexivity|]. unfold explicitLabel. simpl.
    split.
    { pose proof (nth_error_In _ _ Hr) as Hin. unfold group, outgoingInStableOrder in Hin.
      apply sortGroup_in, filter_In in Hin. destruct Hin as [_ Hin].
      now apply str_eqb_true in Hin. }
    split; [reflexivity|]. split; [|split].
    + intros ->. reflexivity.
    + intros -> ->. reflexivity.
    + intros -> Hlen. apply Nat.ltb_lt in Hlen. now rewrite Hlen.
Qed.

(** C1, as the code has it. In a compiled graph, a source with several
    outgoing edges none of which is flagged has its first edge in stable
    order written with [isDefault: true], and no edge that is another
    object is; the one edge of a source with exactly one outgoing edge
    is written without [isDefault]. *)
Theorem C1_default_branch localeCompare bnodes bedges g s :
  graph (buildWorkflowGraphV11 localeCompare bnodes bedges) = Some g ->
  let group := outgoingInStableOrder localeCompare bedges s in
  ((1 < length group)%nat -> filter flaggedDefault group = [] ->
   exists r0 rest e0 erest,
     group = r0 :: rest /\ emittedFrom g s = e0 :: erest
     /\ edge_isDefault e0 = Some true
     /\ forall i r e, nth_error group i = Some r ->
                      nth_error (emittedFrom g s) i = Some e ->
                      bedge_ref (edge r) <> bedge_ref (edge r0) ->
                      edge_isDefault e = None)
  /\ (length group = 1%nat ->
      forall e, In e (emittedFrom g s) -> edge_isDefault e = None).
Proof.
  intros Hg group. rewrite (compiled_edges_from _ _ _ Hg). fold group.
  unfold emitGroup. simpl. split.
  - intros Hlen Hnone. apply Nat.ltb_lt in Hlen. rewrite Hlen.
    unfold chosenDefaultOf. rewrite Hnone.
    destruct group as [|r0 rest]; [discriminate|].
    exists r0, rest. eexists. eexists. split; [reflexivity|].
    split; [reflexivity|]. simpl. rewrite Nat.eqb_refl. split; [reflexivity|].
    intros i r e Hr He Hne.
    change (mapEdge true (Some r0) r0 0 :: mapi_from (mapEdge true (Some r0)) 1 rest)
      with (mapi (mapEdge true (Some r0)) (r0 :: rest)) in He.
    rewrite nth_error_mapi, Hr in He. injection He as <-. simpl.
    apply Nat.eqb_neq in Hne. rewrite Nat.eqb_sym in Hne. now rewrite Hne.
  - intros Hlen e He. rewrite Hlen in He. simpl in He.
    apply in_mapi in He. destruct He as [r [i [_ ->]]]. reflexivity.
Qed.

Lemma codeUnitCompare_total a : forall b,
  codeUnitCompare a b <= 0 \/ codeUnitCompare b a <= 0.
Proof.
  induction a as [|x a IH]; intros [|y b]; simpl; try lia.
  destruct (N.ltb_spec x y), (N.ltb_spec y x); try lia. apply IH.
Qed.

Lemma codeUnitCompare_trans a : forall b c,
  codeUnitCompare a b <= 0 -> codeUnitCompare b c <= 0 -> codeUnitCompare a c <= 0.
Proof.
  induction a as [|x a IH]; intros [|y b] [|z c]; simpl; try lia.
  destruct (N.ltb_spec x y), (N.ltb_spec y x), (N.ltb_spec y z), (N.ltb_spec z y),
    (N.ltb_spec x z), (N.ltb_spec z x); try lia.
  apply IH.
Qed.

(** Resolved edges, decided by evaluation. *)
Lemma resolvedEdge_check bnodes bedges a b :
  existsb (fun r => str_eqb (src r) a && str_eqb (tgt r) b)
          (fst (validateEdges (buildNodesById bnodes) bedges 0)) = true ->
  resolvedEdge bnodes bedges a b.
Proof.
  intros H. apply existsb_exists in H. destruct H as [r [Hr H]].
  apply andb_true_iff in H. destruct H as [Hs Ht].
  apply str_eqb_true in Hs, Ht. apply validEdges_resolved. eauto.
Qed.

Ltac resolved_edge := apply resolvedEdge_check; vm_compute; reflexivity.
Ltac start_node := apply startNodes_spec; vm_compute; auto 10.

Lemma C2_cycle_rejected_witness :
  (graph (buildWorkflowGraphV11 codeUnitCompare scenarioD_nodes scenarioD_edges) = None
   /\ In ErrCycle
         (errors (buildWorkflowGraphV11 codeUnitCompare scenarioD_nodes scenarioD_edges)))
  /\ visitedCount scenarioD_nodes scenarioD_edges < nodeCount scenarioD_nodes
  /\ exists g,
       graph (buildWorkflowGraphV11 codeUnitCompare scenarioC_nodes scenarioC_edges) = Some g
       /\ ~ hasCycle (graphEdge g).
Proof.
  assert (Hcycle : hasCycle (resolvedEdge scenarioD_nodes scenarioD_edges)).
  { exists (u "a"). apply t_trans with (y := u "b"); apply t_step; resolved_edge. }
  split; [|split].
  - apply (proj1 (C2_cycle_rejected codeUnitCompare scenarioD_nodes scenarioD_edges)).
    exact Hcycle.
  - pose proof (C2_cycle_rejected codeUnitCompare scenarioD_nodes scenarioD_edges)
      as [Hrejected [Hcount _]].
    specialize (Hcount ltac:(discriminate)).
    exact (proj2 (proj1 Hcount (proj2 (Hrejected Hcycle)))).
  - eexists. split; [vm_compute; reflexivity|].
    apply (proj2 (proj2 (C2_cycle_rejected codeUnitCompare scenarioC_nodes scenarioC_edges))).
    vm_compute. reflexivity.
Defined.

Lemma C4_entry_node_witness :
  (exists g,
     graph (buildWorkflowGraphV11 codeUnitCompare twoStarts_nodes twoStarts_edges) = Some g
     /\ isStartNode twoStarts_nodes twoStarts_edges (entryNodeId g)
     /\ codeUnitCompare (entryNodeId g) (u "b") <= 0
     /\ In (WarnMultipleStarts (entryNodeId g))
           (warnings (buildWorkflowGraphV11 codeUnitCompare twoStarts_nodes twoStarts_edges)))
  /\ graph (buildWorkflowGraphV11 codeUnitCompare scenarioD_nodes scenarioD_edges) = None
  /\ In ErrNoEntryNode
        (errors (buildWorkflowGraphV11 codeUnitCompare scenarioD_nodes scenarioD_edges)).
Proof.
  split.
  - destruct (C4_entry_node codeUnitCompare twoStarts_nodes twoStarts_edges)
      as [H1 [H2 [H3 _]]].
    eexists. split; [vm_compute; reflexivity|]. split; [|split].
    + apply H1. vm_compute. reflexivity.
    + apply H2.
      * intros a b c. apply codeUnitCompare_trans.
      * intros a b. apply codeUnitCompare_total.
      * vm_compute. reflexivity.
      * start_node.
    + apply H3 with (c1 := u "a") (c2 := u "b").
      * vm_compute. reflexivity.
      * start_node.
      * start_node.
      * discriminate.
  - assert (Hnone : forall c, ~ isStartNode scenarioD_nodes scenarioD_edges c).
    { intros c Hc. apply startNodes_spec in Hc. vm_compute in Hc. exact Hc. }
    destruct (proj2 (proj2 (proj2
               (C4_entry_node codeUnitCompare scenarioD_nodes scenarioD_edges))) Hnone)
      as [Hgraph Herr].
    split; [exact Hgraph | apply Herr; discriminate].
Defined.

Lemma C10_referentially_closed_witness :
  exists g,
    graph (buildWorkflowGraphV11 codeUnitCompare twoStarts_nodes twoStarts_edges) = Some g
    /\ (forall e, In e (WorkflowGraph.edges g) ->
          In (edge_from e) (List.map node_id (WorkflowGraph.nodes g))
          /\ In (edge_to e) (List.map node_id (WorkflowGraph.nodes g)))
    /\ NoDup (List.map node_id (WorkflowGraph.nodes g))
    /\ (forall id, In id (List.map node_id (WorkflowGraph.nodes g))
                   <-> isNodeId twoStarts_nodes id)
    /\ (forall n, In n (WorkflowGraph.nodes g) ->
          exists b, lastNode twoStarts_nodes (node_id n) = Some b
                    /\ n = fst (mapNodeOf (node_id n) (Some b))).
Proof.
  eexists. split; [vm_compute; reflexivity|].
  apply (C10_referentially_closed codeUnitCompare twoStarts_nodes twoStarts_edges).
  vm_compute. reflexivity.
Defined.

(** C5, as stated, fails on an edge from [a] to [b] labelled [" yes "]:
    the emitted label is ["yes"]. *)
Lemma C5_counterexample : ~ keepsExplicitLabels codeUnitCompare padded_nodes padded_edges.
Proof.
  intros H.
  let g := eval vm_compute in
        (graph (buildWorkflowGraphV11 codeUnitCompare padded_nodes padded_edges)) in
  match g with
  | Some ?g0 =>
      let r := eval vm_compute in
            (nth_error (outgoingInStableOrder codeUnitCompare padded_edges (u "a")) 0) in
      let e := eval vm_compute in (nth_error (emittedFrom g0 (u "a")) 0) in
      match r with
      | Some ?r0 =>
          match e with
          | Some ?e0 => specialize (H g0 (u "a") 0%nat r0 e0 (u " yes "))
          end
      end
  end.
  assert (Hbad := H ltac:(vm_compute; reflexivity) ltac:(vm_compute; reflexivity)
                    ltac:(vm_compute; reflexivity) ltac:(vm_compute; reflexivity)
                    ltac:(discriminate)).
  vm_compute in Hbad. discriminate Hbad.
Qed.

(** In a group of two, an unlabelled edge that comes second is called
    [branch-2], also when the first edge has a label of its own. *)
Example mixed_group_labels :
  option_map (fun g => List.map edge_label (WorkflowGraph.edges g))
             (graph (buildWorkflowGraphV11 codeUnitCompare mixed_nodes mixed_edges))
  = Some [u "yes"; u "branch-2"].
Proof. vm_compute. reflexivity. Qed.

(** The stable order is by key, not by position in the input: of the
    two edges of [reversed_edges] the second has the key [a1], which
    comes before the key [d->y#0] of the first. *)
Example reversed_group_labels :
  option_map (fun g => List.map (fun e => (edge_to e, edge_label e)) (WorkflowGraph.edges g))
             (graph (buildWorkflowGraphV11 codeUnitCompare mixed_nodes reversed_edges))
  = Some [(u "x", u "yes"); (u "y", u "branch-2")].
Proof. vm_compute. reflexivity. Qed.

Lemma C5_edge_labels_witness :
  exists g group,
    graph (buildWorkflowGraphV11 codeUnitCompare mixed_nodes reversed_edges) = Some g
    /\ List.map (fun e => (edge_to e, edge_label e)) (emittedFrom g (u "d"))
       = [(u "x", u "yes"); (u "y", u "branch-2")]
    /\ Permutation group (outgoingInInputOrder reversed_edges (u "d"))
    /\ StronglySorted (stableBefore codeUnitCompare) group
    /\ length (emittedFrom g (u "d")) = length group
    /\ forall i r, nth_error group i = Some r ->
         exists e, nth_error (emittedFrom g (u "d")) i = Some e
                   /\ edge_from e = u "d"
                   /\ edge_to e = tgt r
                   /\ (explicitLabel (edge r) = true ->
                       edge_label e = trimmedString (bedge_label (edge r)))
                   /\ (explicitLabel (edge r) = false -> length group = 1%nat ->
                       edge_label e = u "next")
                   /\ (explicitLabel (edge r) = false -> (1 < length group)%nat ->
                       edge_label e = u "branch-" ++ String_of_nat (i + 1)).
Proof.
  eexists.
  destruct (@C5_edge_labels codeUnitCompare mixed_nodes reversed_edges _ (u "d")
              ltac:(vm_compute; reflexivity)) as [group [Hperm [Hsorted [Hlen Hlabels]]]].
  exists group. split; [reflexivity|]. split; [vm_compute; reflexivity|].
  split; [exact Hperm|].
  split; [apply Hsorted; [apply codeUnitCompare_trans | apply codeUnitCompare_total]|].
  split; [exact Hlen | exact Hlabels].
Defined.

(** C1, as stated, fails on scenario C: the edge [e1], first in stable
    order, is emitted with [isDefault: true]. *)
Lemma C1_counterexample :
  ~ implicitDefaultNotWritten codeUnitCompare scenarioC_nodes scenarioC_edges.
Proof.
  intros H.
  let g := eval vm_compute in
        (graph (buildWorkflowGraphV11 codeUnitCompare scenarioC_nodes scenarioC_edges)) in
  match g with
  | Some ?g0 =>
      let e := eval vm_compute in (nth_error (emittedFrom g0 (u "d")) 0) in
      match e with
      | Some ?e0 => specialize (H g0 (u "d") e0)
      end
  end.
  apply H.
  - vm_compute. reflexivity.
  - apply Nat.ltb_lt. vm_compute. reflexivity.
  - vm_compute. reflexivity.
  - vm_compute. auto.
  - reflexivity.
Qed.

Lemma C1_default_branch_witness :
  exists g,
    graph (buildWorkflowGraphV11 codeUnitCompare scenarioC_nodes scenarioC_edges) = Some g
    /\ exists r0 rest e0 erest,
         outgoingInStableOrder codeUnitCompare scenarioC_edges (u "d") = r0 :: rest
         /\ emittedFrom g (u "d") = e0 :: erest
         /\ edge_isDefault e0 = Some true
         /\ forall i r e,
              nth_error (outgoingInStableOrder codeUnitCompare scenarioC_edges (u "d")) i
              = Some r ->
              nth_error (emittedFrom g (u "d")) i = Some e ->
              bedge_ref (edge r) <> bedge_ref (edge r0) ->
              edge_isDefault e = None.
Proof.
  eexists. split; [vm_compute; reflexivity|].
  apply (proj1 (@C1_default_branch codeUnitCompare scenarioC_nodes scenarioC_edges
                                   _ (u "d") ltac:(vm_compute; reflexivity))).
  - apply Nat.ltb_lt. vm_compute. reflexivity.
  - vm_compute. reflexivity.
Defined.

End GraphTheorems.

(* ================================================================== *)
(** * The package manifest builder *)
(* ================================================================== *)

Module ManifestTheorems.
Import JS JSNumber Outcomes BmadManifest ManifestSpec ManifestExamples.
Import MapFacts SortFacts NumberFacts.

Lemma Permutation_filter (A : Type) (f : A -> bool) l l' :
  Permutation l l' -> Permutation (filter f l) (filter f l').
Proof.
  induction 1 as [|x l l' _ IH|x y l|l l' l'' _ IH1 _ IH2]; simpl.
  - constructor.
  - destruct (f x); [now constructor | assumption].
  - destruct (f x), (f y); try reflexivity. apply perm_swap.
  - now transitivity (filter f l').
Qed.

Lemma collectById_no_error workflows : forall byId,
  snd (collectById workflows byId) = [] ->
  fst (collectById workflows byId) = byId ++ presentWorkflows workflows.
Proof.
  induction workflows as [|[w|] workflows IH]; simpl; intros byId.
  - now rewrite app_nil_r.
  - destruct (hasId byId (wf_id w)).
    + destruct (collectById workflows byId). discriminate.
    + intros H. rewrite IH by assumption. now rewrite <- app_assoc.
  - apply IH.
Qed.

(** The arrays that the embedding covers are those without a [NaN] id. *)
Lemma idsComparable_noNaN workflows :
  idsComparable workflows = true <-> noNaN (presentWorkflows workflows).
Proof.
  unfold noNaN. induction workflows as [|[w|] workflows IH]; simpl.
  - split; [constructor | reflexivity].
  - rewrite andb_true_iff, IH, negb_true_iff. split.
    + intros [H1 H2]. now constructor.
    + intros H. inversion H; subst. now split.
  - exact IH.
Qed.

Lemma noNaN_perm l l' : Permutation l l' -> noNaN l -> noNaN l'.
Proof.
  unfold noNaN. intros Hp H. rewrite Forall_forall in *. intros w Hw.
  apply H. eapply Permutation_in; [symmetry; eassumption | assumption].
Qed.

Lemma noNaN_filter f l : noNaN l -> noNaN (filter f l).
Proof.
  unfold noNaN. intros H. rewrite Forall_forall in *. intros w Hw.
  apply filter_In in Hw. now apply H.
Qed.

Lemma byIdAscending_trans_on a b c :
  isNaN (wf_id b) = false ->
  byIdAscending a b <= 0 -> byIdAscending b c <= 0 -> byIdAscending a c <= 0.
Proof. unfold byIdAscending. apply subtractSign_trans. Qed.

Lemma byIdAscending_total a b : byIdAscending a b <= 0 \/ byIdAscending b a <= 0.
Proof. unfold byIdAscending. apply subtractSign_total. Qed.

Lemma byIdAscending_ordered l :
  noNaN l -> ordered byIdAscending (sort byIdAscending l).
Proof.
  intros H.
  exact (@sort_ordered_on _ byIdAscending (fun w => isNaN (wf_id w) = false)
           byIdAscending_trans_on byIdAscending_total l H).
Qed.

Lemma sorted_head_least l h t :
  noNaN l ->
  sort byIdAscending l = h :: t ->
  In h l /\ forall w, In w l -> notAbove (wf_id h) (wf_id w).
Proof.
  intros Hn Hs. assert (Hin : In h l).
  { apply (sort_in byIdAscending). rewrite Hs. now left. }
  split; [assumption|]. intros w Hw.
  pose proof (@sort_head_least_on _ byIdAscending (fun w => isNaN (wf_id w) = false)
                byIdAscending_trans_on byIdAscending_total l h t Hn Hs w Hw) as H.
  unfold noNaN in Hn. rewrite Forall_forall in Hn.
  apply notAbove_sign; auto.
Qed.

Section Manifest.
Variable Number_toString : jsnumber -> jsstring.

(** On the arrays without a [NaN] id the builder returns. *)
Lemma manifest_returns projectName workflows createdAt version :
noNaN (presentWorkflows workflows) ->
buildBmadManifestV11 Number_toString projectName workflows createdAt version
= Returns (manifestBuild Number_toString projectName workflows createdAt version).
Proof.
intros H. apply idsComparable_noNaN in H.
unfold buildBmadManifestV11. now rewrite H.
Qed.


(** What a successful build has computed. *)
Lemma manifest_build_success projectName workflows createdAt version m :
manifest (manifestBuild Number_toString projectName workflows createdAt version) = Some m ->
let ordered := sort byIdAscending (presentWorkflows workflows) in
let w0 := if nonEmpty (trim projectName) then [] else [WarnProjectNameEmpty] in
warnings (manifestBuild Number_toString projectName workflows createdAt version)
= w0 ++ snd (selectEntry ordered)
/\ BmadManifest.workflows m = List.map (indexEntryOf Number_toString) ordered
/\ exists w, fst (selectEntry ordered) = Some w /\ isEntryOf Number_toString m w.
Proof.
intros Hm ordered w0.
remember (manifestBuild Number_toString projectName workflows createdAt version)
  as r eqn:Hr.
unfold manifestBuild in Hr.
destruct workflows as [|o workflows]; [subst r; discriminate|].
pose proof (collectById_no_error (o :: workflows) []) as Hby.
destruct (collectById (o :: workflows) []) as [byId errors1].
simpl fst in Hby. simpl snd in Hby.
destruct (sort byIdAscending byId) as [|w1 rest] eqn:Hsort; [subst r; discriminate|].
destruct errors1 as [|e errors1]; [|subst r; discriminate].
rewrite Hby in Hsort by reflexivity.
change (ordered = w1 :: rest) in Hsort. rewrite <- Hsort in Hr.
match type of Hr with
| context [match ?errs with [] => _ | _ :: _ => _ end] =>
    match type of errs with
    | list ManifestError => destruct errs; [|subst r; discriminate]
    end
end.
subst r. destruct (selectEntry ordered) as [entryWorkflow ws] eqn:Hsel.
cbv beta iota zeta delta [manifest] in Hm. cbv beta iota zeta delta [warnings fst snd].
injection Hm as <-. fold w0. split; [reflexivity|]. split; [reflexivity|].
assert (Hsome : entryWorkflow <> None).
{ unfold selectEntry in Hsel.
  destruct (hd_error (sort byIdAscending (filter flagged ordered))).
  - injection Hsel as <- _. discriminate.
  - rewrite Hsort in Hsel. simpl in Hsel. injection Hsel as <- _. discriminate. }
destruct entryWorkflow as [w|]; [|congruence].
exists w. split; [reflexivity|]. split; reflexivity.
Qed.

(** C7. For workflows whose ids are numbers other than [NaN] the
  builder returns, and in a manifest that was built: when exactly one
  workflow is flagged [isDefault === true] it is the entry and the
  selection pushes no warning; when several are flagged the flagged
  one with the lowest id is the entry and a warning is pushed; when
  none is flagged the workflow with the lowest id is the entry and a
  warning is pushed. The entry is read off the two paths
  [workflows/<id>/workflow.md] and [workflows/<id>/workflow.graph.json]
  of the manifest, and "lowest" is the order of the values. *)
Theorem C7_entry_selection projectName workflows createdAt version :
let present := presentWorkflows workflows in
let flaggedOnes := filter flagged present in
noNaN present ->
exists result,
  buildBmadManifestV11 Number_toString projectName workflows createdAt version
  = Returns result
  /\ forall m, manifest result = Some m ->
     (forall w, flaggedOnes = [w] ->
        isEntryOf Number_toString m w
        /\ forall x, In x (warnings result) -> ~ isSelectionWarning x)
     /\ ((1 < length flaggedOnes)%nat ->
         exists w, In w flaggedOnes
                   /\ (forall w', In w' flaggedOnes -> notAbove (wf_id w) (wf_id w'))
                   /\ isEntryOf Number_toString m w
                   /\ exists ids, In (WarnMultipleDefaultWorkflows ids) (warnings result))
     /\ (flaggedOnes = [] ->
         exists w, In w present
                   /\ (forall w', In w' present -> notAbove (wf_id w) (wf_id w'))
                   /\ isEntryOf Number_toString m w
                   /\ In (WarnNoDefaultWorkflow (Some (wf_id w))) (warnings result)).
Proof.
intros present flaggedOnes Hnan.
exists (manifestBuild Number_toString projectName workflows createdAt version).
split; [now apply manifest_returns|]. intros m Hm.
destruct (manifest_build_success _ _ _ _ Hm) as [Hw [_ [w [Hsel Hentry]]]].
fold present in Hw, Hsel. rewrite Hw. clear Hw.
set (ordered := sort byIdAscending present) in *.
assert (Hperm : Permutation (filter flagged ordered) flaggedOnes).
{ apply Permutation_filter, sort_perm. }
assert (Hnf : noNaN (filter flagged ordered)).
{ eapply noNaN_perm; [symmetry; exact Hperm|]. now apply noNaN_filter. }
unfold selectEntry in *.
set (defaults := filter flagged ordered) in *.
split; [|split].
- intros w1 H1. rewrite H1 in Hperm.
  apply Permutation_sym, Permutation_length_1_inv in Hperm.
  rewrite Hperm in *. simpl in *. injection Hsel as <-.
  split; [assumption|]. intros x Hx. apply in_app_or in Hx.
  destruct Hx as [Hx|[]]. destruct (nonEmpty (trim projectName)); [destruct Hx|].
  destruct Hx as [<-|[]]. simpl. tauto.
- intros Hlen. rewrite <- (Permutation_length Hperm) in Hlen.
  apply Nat.ltb_lt in Hlen. rewrite Hlen in *.
  destruct (sort byIdAscending defaults) as [|h t] eqn:Hs.
  + apply sort_nil_inv in Hs. rewrite Hs in Hlen. discriminate.
  + simpl in Hsel. injection Hsel as <-.
    destruct (sorted_head_least Hnf Hs) as [Hin Hleast].
    exists h. split; [eapply Permutation_in; eassumption|].
    split; [|split; [assumption|]].
    * intros w' Hw'. apply Hleast.
      eapply Permutation_in; [symmetry; eassumption | assumption].
    * eexists. apply in_or_app. right. simpl. left. reflexivity.
- intros Hnone. rewrite Hnone in Hperm. apply Permutation_sym, Permutation_nil in Hperm.
  rewrite Hperm in *. simpl in *.
  destruct ordered as [|h t] eqn:Hs; simpl in Hsel; [discriminate|].
  injection Hsel as <-. destruct (sorted_head_least Hnan Hs) as [Hin Hleast].
  exists h. split; [assumption|]. split; [assumption|]. split; [assumption|].
  apply in_or_app. right. simpl. auto.
Qed.

End Manifest.

Lemma C7_entry_selection_witness :
  (exists result m w,
     buildBmadManifestV11 printInteger (u "Demo") oneDefault (u "2025-01-01") None
     = Returns result
     /\ manifest result = Some m
     /\ Some w = workflowItem 1 "Main" (Some true)
     /\ isEntryOf printInteger m w
     /\ forall x, In x (warnings result) -> ~ isSelectionWarning x)
  /\ (exists result m w,
        buildBmadManifestV11 printInteger (u "Demo") twoDefaults (u "2025-01-01") None
        = Returns result
        /\ manifest result = Some m
        /\ In w (filter flagged (presentWorkflows twoDefaults))
        /\ (forall w', In w' (filter flagged (presentWorkflows twoDefaults)) ->
                       notAbove (wf_id w) (wf_id w'))
        /\ isEntryOf printInteger m w
        /\ exists ids, In (WarnMultipleDefaultWorkflows ids) (warnings result))
  /\ (exists result m w,
        buildBmadManifestV11 printInteger (u "Demo") noDefault (u "2025-01-01") None
        = Returns result
        /\ manifest result = Some m
        /\ In w (presentWorkflows noDefault)
        /\ (forall w', In w' (presentWorkflows noDefault) ->
                       notAbove (wf_id w) (wf_id w'))
        /\ isEntryOf printInteger m w
        /\ In (WarnNoDefaultWorkflow (Some (wf_id w))) (warnings result)).
Proof.
  split; [|split].
  - destruct (@C7_entry_selection printInteger (u "Demo") oneDefault (u "2025-01-01") None)
      as [result [Hr H]]; [repeat constructor|].
    exists result. vm_compute in Hr. injection Hr as <-.
    eexists. eexists. split; [vm_compute; reflexivity|]. split; [reflexivity|].
    split; [reflexivity|]. apply (proj1 (H _ eq_refl)). reflexivity.
  - destruct (@C7_entry_selection printInteger (u "Demo") twoDefaults (u "2025-01-01") None)
      as [result [Hr H]]; [repeat constructor|].
    exists result. vm_compute in Hr. injection Hr as <-.
    eexists.
    destruct (proj1 (proj2 (H _ eq_refl))) as [w Hw].
    + apply Nat.ltb_lt. vm_compute. reflexivity.
    + exists w. split; [vm_compute; reflexivity|]. split; [reflexivity|]. exact Hw.
  - destruct (@C7_entry_selection printInteger (u "Demo") noDefault (u "2025-01-01") None)
      as [result [Hr H]]; [repeat constructor|].
    exists result. vm_compute in Hr. injection Hr as <-.
    eexists.
    destruct (proj2 (proj2 (H _ eq_refl))) as [w Hw].
    + reflexivity.
    + exists w. split; [vm_compute; reflexivity|]. split; [reflexivity|]. exact Hw.
Defined.

End ManifestTheorems.

(* ================================================================== *)
(** * The frontmatter parser *)
(* ================================================================== *)

Module FrontmatterTheorems.
Import JS Frontmatter FrontmatterSpec MapFacts.

(** C8, as stated, fails on the document [0]: its root is the number
    zero, not a mapping, and the result is the empty object without an
    error. *)
Lemma C8_counterexample : ~ nonMappingRejected yamlOfExamples (u "0").
Proof.
  intros H. specialize (H (JNum (NumFinite 0 0)) eq_refl).
  assert (Hbad := H ltac:(discriminate)). vm_compute in Hbad. discriminate Hbad.
Qed.

(** C8, as the code has it. A blank text gives the empty object and no
    error, and so does a text whose YAML root is falsy ([null], [false],
    zero, [NaN], the empty string); a truthy root that is not a mapping
    gives [data: null] and the not-an-object error; a mapping is
    returned as [data]. *)
Theorem C8_yaml_root (YAML_parse : jsstring -> jsval + Thrown) (yamlText : jsstring) :
  (trim yamlText = [] ->
   parseYamlToObject YAML_parse yamlText = {| data := Some []; error := None |})
  /\ forall root,
       trim yamlText <> [] ->
       YAML_parse (trim yamlText) = inl root ->
       (truthy root = false ->
        parseYamlToObject YAML_parse yamlText = {| data := Some []; error := None |})
       /\ (truthy root = true -> (forall props, root <> JObj props) ->
           parseYamlToObject YAML_parse yamlText
           = {| data := None; error := Some ErrFrontmatterNotObject |})
       /\ (forall props, root = JObj props ->
           parseYamlToObject YAML_parse yamlText
           = {| data := Some props; error := None |}).
Proof.
  unfold parseYamlToObject. split.
  - intros ->. reflexivity.
  - intros root Hne Hroot. apply nonEmpty_true in Hne. rewrite Hne, Hroot. simpl.
    split; [|split].
    + intros ->. reflexivity.
    + intros -> Hnot. destruct root; try reflexivity. exfalso. eapply Hnot. reflexivity.
    + intros props ->. reflexivity.
Qed.

Lemma C8_yaml_root_witness :
  parseYamlToObject yamlOfExamples (u "  ") = {| data := Some []; error := None |}
  /\ parseYamlToObject yamlOfExamples (u "false") = {| data := Some []; error := None |}
  /\ parseYamlToObject yamlOfExamples (u "[]")
     = {| data := None; error := Some ErrFrontmatterNotObject |}
  /\ parseYamlToObject yamlOfExamples (u "{}") = {| data := Some []; error := None |}.
Proof.
  split; [|split; [|split]].
  - apply (proj1 (C8_yaml_root yamlOfExamples (u "  "))). reflexivity.
  - apply (proj1 (proj2 (C8_yaml_root yamlOfExamples (u "false")) (JBool false)
                        ltac:(vm_compute; discriminate) eq_refl)).
    reflexivity.
  - apply (proj1 (proj2 (proj2 (C8_yaml_root yamlOfExamples (u "[]")) (JArr [])
                               ltac:(vm_compute; discriminate) eq_refl))).
    + reflexivity.
    + discriminate.
  - apply (proj2 (proj2 (proj2 (C8_yaml_root yamlOfExamples (u "{}")) (JObj [])
                               ltac:(vm_compute; discriminate) eq_refl))).
    reflexivity.
Defined.

End FrontmatterTheorems.

(** ** The ids match the id pattern *)

Module SlugFacts.
Import JS Utils AgentsSpec MapFacts.

Lemma replaceRunsFrom_all (P : N -> Prop) cls by_ :
  Forall P by_ ->
  forall s inRun,
    (forall c, In c s -> cls c = false -> P c) ->
    Forall P (replaceRunsFrom cls by_ inRun s).
Proof.
  intros Hby. induction s as [|c s IH]; intros inRun Hs; simpl; [constructor|].
  destruct (cls c) eqn:Hc.
  - apply Forall_app. split.
    + destruct inRun; [constructor | assumption].
    + apply IH. intros; apply Hs; simpl; auto.
  - constructor; [apply Hs; simpl; auto|]. apply IH. intros; apply Hs; simpl; auto.
Qed.

Lemma stripStart_all (P : N -> Prop) cls s : Forall P s -> Forall P (stripStart cls s).
Proof.
  induction 1 as [|c s Hc Hs IH]; simpl; [constructor|].
  destruct (cls c); [assumption | now constructor].
Qed.

Lemma stripEnd_all (P : N -> Prop) cls s : Forall P s -> Forall P (stripEnd cls s).
Proof.
  intros H. unfold stripEnd. apply Forall_rev, stripStart_all, Forall_rev, H.
Qed.

Lemma isSlugChar_isIdChar c : isSlugChar c = true -> isIdChar c = true.
Proof.
  unfold isSlugChar, isIdChar, isAlnum. intros H.
  repeat (apply orb_true_iff in H; destruct H as [H|H]); rewrite H;
    repeat rewrite orb_true_r; reflexivity.
Qed.

Lemma isLowerAlnum_isAlnum c : isLowerAlnum c = true -> isAlnum c = true.
Proof.
  unfold isLowerAlnum, isAlnum. intros H.
  apply orb_true_iff in H. destruct H as [H|H]; rewrite H;
    repeat rewrite orb_true_r; reflexivity.
Qed.

Lemma idPatternTest_intro c s :
  isAlnum c = true -> allIdChars s -> idPatternTest (c :: s) = true.
Proof.
  intros Hc Hs. simpl. rewrite Hc. simpl. apply forallb_forall.
  apply Forall_forall. exact Hs.
Qed.

(** [slugifyAgentId] always yields an id that matches the pattern. *)
Lemma slugifyAgentId_valid toLowerCase input :
  isValidAgentId (slugifyAgentId toLowerCase input) = true.
Proof.
  unfold isValidAgentId, slugifyAgentId.
  set (cleaned := stripEnd isDash _).
  assert (Hall : Forall (fun c => isSlugChar c = true) cleaned).
  { unfold cleaned. apply stripEnd_all, stripStart_all.
    apply replaceRunsFrom_all; [repeat constructor|].
    intros c Hc _. revert c Hc. apply Forall_forall.
    apply replaceRunsFrom_all; [repeat constructor|].
    intros c _ Hc. now apply negb_false_iff in Hc. }
  destruct cleaned as [|c rest]; [reflexivity|].
  assert (Hid : allIdChars (c :: rest)).
  { eapply Forall_impl; [|exact Hall]. apply isSlugChar_isIdChar. }
  destruct (isLowerAlnum c) eqn:Hc.
  - apply idPatternTest_intro; [now apply isLowerAlnum_isAlnum | now inversion Hid].
  - change (u "agent-" ++ c :: rest) with (97%N :: (u "gent-" ++ c :: rest)).
    apply idPatternTest_intro; [reflexivity|].
    apply Forall_app. split; [repeat constructor | exact Hid].
Qed.

Lemma digits_all (d : Decimal.uint) :
  allIdChars (u (NilEmpty.string_of_uint d)).
Proof.
  induction d; simpl; constructor; try reflexivity; assumption.
Qed.

Lemma String_of_Z_all (z : Z) : allIdChars (String_of_Z z).
Proof.
  unfold String_of_Z, NilZero.string_of_int, NilZero.string_of_uint.
  destruct (Z.to_int z) as [d|d].
  - destruct d; try apply digits_all. repeat constructor.
  - change (allIdChars (45%N :: u (match d with
                                   | Decimal.Nil => "0"%string
                                   | _ => NilEmpty.string_of_uint d
                                   end))).
    constructor; [reflexivity|].
    destruct d; try apply digits_all. repeat constructor.
Qed.

Lemma idPatternTest_app s t :
  idPatternTest s = true -> allIdChars t -> idPatternTest (s ++ t) = true.
Proof.
  destruct s as [|c s]; [discriminate|]. simpl. intros H Ht.
  apply andb_true_iff in H. destruct H as [Hc Hs]. rewrite Hc. simpl.
  rewrite forallb_app, Hs. simpl. apply forallb_forall. apply Forall_forall. exact Ht.
Qed.

(** ... and so does [uniqueAgentId], whichever branch returns. *)
Lemma uniqueAgentId_valid toLowerCase now baseName existingIds :
  isValidAgentId (uniqueAgentId toLowerCase now baseName existingIds) = true.
Proof.
  unfold uniqueAgentId.
  pose proof (slugifyAgentId_valid toLowerCase baseName) as Hbase.
  unfold isValidAgentId in *.
  destruct (negb (setHas existingIds _)); [assumption|].
  assert (Hsuffix : forall z,
            idPatternTest (slugifyAgentId toLowerCase baseName ++ u "-" ++ String_of_Z z)
            = true).
  { intros z. apply idPatternTest_app; [assumption|].
    constructor; [reflexivity | apply String_of_Z_all]. }
  assert (Hfree : forall count i next,
            firstFreeSuffix (slugifyAgentId toLowerCase baseName) existingIds count i
            = Some next -> idPatternTest next = true).
  { induction count as [|count IH]; cbn [firstFreeSuffix]; intros i next H; [discriminate|].
    destruct (setHas existingIds _); [eapply IH; eassumption|].
    injection H as <-. apply Hsuffix. }
  destruct (firstFreeSuffix _ existingIds 998 2) eqn:Hf; [eapply Hfree; eassumption|].
  apply Hsuffix.
Qed.

End SlugFacts.

(* ================================================================== *)
(** * Agent ids of the legacy input shape *)
(* ================================================================== *)

Module AgentsTheorems.
Import JS Utils AgentsManifest AgentsSpec MapFacts SlugFacts.

Section Unique.
Variable toLowerCase : jsstring -> jsstring.
Variable baseName : jsstring.
Let base := slugifyAgentId toLowerCase baseName.

Lemma firstFreeSuffix_some existing count : forall i next,
  firstFreeSuffix base existing count (Z.of_nat i) = Some next ->
  ~ In next existing
  /\ In next (List.map (fun j => base ++ u "-" ++ String_of_Z (Z.of_nat j)) (seq i count)).
Proof.
  induction count as [|count IH]; cbn [firstFreeSuffix seq List.map];
    intros i next H; [discriminate|].
  destruct (setHas existing (base ++ u "-" ++ String_of_Z (Z.of_nat i))) eqn:Hhas.
  - replace (Z.of_nat i + 1) with (Z.of_nat (S i)) in H by lia.
    apply IH in H. destruct H as [H1 H2]. split; [assumption | now right].
  - injection H as <-. apply setHas_false in Hhas. split; [assumption | now left].
Qed.

Lemma firstFreeSuffix_none existing count : forall i,
  firstFreeSuffix base existing count (Z.of_nat i) = None ->
  incl (List.map (fun j => base ++ u "-" ++ String_of_Z (Z.of_nat j)) (seq i count))
       existing.
Proof.
  induction count as [|count IH]; cbn [firstFreeSuffix seq List.map];
    intros i H x Hx; [destruct Hx|].
  destruct (setHas existing (base ++ u "-" ++ String_of_Z (Z.of_nat i))) eqn:Hhas;
    [|discriminate].
  replace (Z.of_nat i + 1) with (Z.of_nat (S i)) in H by lia.
  destruct Hx as [<-|Hx]; [now apply setHas_true | now apply (IH (S i))].
Qed.

(** Either the id is a candidate that is not taken, or every candidate
    is taken and the id is the slug with the clock reading. *)
Lemma uniqueAgentId_cases now existing :
  let id := uniqueAgentId toLowerCase now baseName existing in
  (In id (candidateIds base) /\ ~ In id existing)
  \/ (incl (candidateIds base) existing /\ id = base ++ u "-" ++ String_of_Z now).
Proof.
  unfold uniqueAgentId. fold base.
  destruct (setHas existing base) eqn:Hbase; cbn [negb].
  - destruct (firstFreeSuffix base existing 998 2) as [next|] eqn:Hfree.
    + left. apply (firstFreeSuffix_some existing 998 2) in Hfree.
      destruct Hfree as [Hnot Hin]. split; [right; exact Hin | exact Hnot].
    + right. split; [|reflexivity].
      apply (firstFreeSuffix_none existing 998 2) in Hfree.
      intros x [<-|Hx]; [now apply setHas_true | now apply Hfree].
  - left. apply setHas_false in Hbase. split; [now left | assumption].
Qed.

Lemma uniqueAgentId_taken now existing :
  incl (candidateIds base) existing ->
  uniqueAgentId toLowerCase now baseName existing = base ++ u "-" ++ String_of_Z now.
Proof.
  intros Hincl. destruct (uniqueAgentId_cases now existing) as [[Hin Hnot]|[_ H]].
  - exfalso. apply Hnot, Hincl, Hin.
  - exact H.
Qed.
End Unique.

Section Legacy.
Variable toLowerCase : jsstring -> jsstring.
Variable Date_now : nat -> Z.
Variable name : jsstring.
Hypothesis name_not_empty : name <> [].

Let base := slugifyAgentId toLowerCase name.
Let step := legacyItem toLowerCase Date_now.

Lemma legacyItem_named st index item :
  isRecordNamed name item ->
  let id := uniqueAgentId toLowerCase (Date_now index) name (st_seen st) in
  (exists a, st_agents (step st item index) = st_agents st ++ [a] /\ agent_id a = id)
  /\ st_seen (step st item index) = setAdd (st_seen st) id
  /\ st_errors (step st item index) = st_errors st
  /\ st_warnings (step st item index) = st_warnings st.
Proof.
  intros [Hobj Hname]. destruct item as [| | | | | |props]; try discriminate Hobj.
  unfold step, legacyItem. rewrite Hname.
  apply nonEmpty_true in name_not_empty. rewrite name_not_empty.
  cbn [negb st_agents st_seen st_errors st_warnings].
  split; [eexists; split; reflexivity | auto].
Qed.

(** Whatever the array holds, the ids that are assigned match the id
    pattern. *)
Lemma legacy_ids_valid items : forall st index,
  Forall (fun a => isValidAgentId (agent_id a) = true) (st_agents st) ->
  Forall (fun a => isValidAgentId (agent_id a) = true)
         (st_agents (forEachFrom step st items index)).
Proof.
  induction items as [|item items IH]; intros st index Hst; [exact Hst|].
  cbn [forEachFrom]. apply IH. unfold step, legacyItem.
  destruct item; try exact Hst.
  destruct (negb (nonEmpty (normalizeString _))); [exact Hst|].
  cbn [st_agents]. apply Forall_app. split; [exact Hst|].
  constructor; [|constructor]. cbn [agent_id]. apply uniqueAgentId_valid.
Qed.

Lemma forEachFrom_app l1 : forall l2 s i,
  forEachFrom step s (l1 ++ l2) i
  = forEachFrom step (forEachFrom step s l1 i) l2 (i + length l1).
Proof.
  induction l1 as [|a l1 IHl]; intros l2 s i; simpl.
  - now rewrite Nat.add_0_r.
  - rewrite IHl. f_equal. lia.
Qed.

(** After the records of [items], either every candidate is taken, or
    the ids taken so far are distinct candidates, one per record. *)
Lemma legacy_seen items : forall st index,
  Forall (isRecordNamed name) items ->
  st_seen st = [] ->
  let st' := forEachFrom step st items index in
  incl (candidateIds base) (st_seen st')
  \/ (NoDup (st_seen st') /\ incl (st_seen st') (candidateIds base)
      /\ length (st_seen st') = length items).
Proof.
  induction items as [|item items IH] using rev_ind; intros st index Hall Hst.
  - simpl. right. rewrite Hst. repeat split; [constructor | intros x [] ].
  - apply Forall_app in Hall. destruct Hall as [Hall Hitem].
    apply Forall_inv in Hitem.
    rewrite forEachFrom_app. cbn [forEachFrom].
    specialize (IH st index Hall Hst). cbn zeta in IH.
    set (stk := forEachFrom step st items index) in *.
    destruct (legacyItem_named stk (index + length items) Hitem) as [_ [Hseen _]].
    rewrite Hseen.
    destruct (uniqueAgentId_cases toLowerCase name
                (Date_now (index + length items)) (st_seen stk))
      as [[Hin Hnot]|[Hincl _]].
    + destruct IH as [Hfull|[Hnd [Hsub Hlen]]].
      * exfalso. apply Hnot, Hfull, Hin.
      * right. unfold setAdd.
        destruct (in_dec str_eq_dec _ (st_seen stk)); [contradiction|].
        split; [|split].
        -- apply NoDup_app; [assumption | repeat constructor; simpl; tauto |].
           intros x Hx [<-|[]]. contradiction.
        -- intros x Hx. apply in_app_or in Hx. destruct Hx as [Hx|[<-|[]]]; auto.
        -- rewrite !length_app. cbn [length]. lia.
    + left. intros x Hx. apply in_setAdd. right. auto.
Qed.

Lemma candidateIds_length b : length (candidateIds b) = 999%nat.
Proof. unfold candidateIds. cbn [length]. now rewrite length_map, length_seq. Qed.

Lemma forEachFrom_ok items : forall st index,
  Forall (isRecordNamed name) items ->
  st_errors (forEachFrom step st items index) = st_errors st
  /\ st_warnings (forEachFrom step st items index) = st_warnings st.
Proof.
  induction items as [|item items IH]; intros st index Hall; cbn [forEachFrom]; [auto|].
  inversion Hall as [|? ? Hitem Hrest]; subst.
  destruct (IH (step st item index) (S index) Hrest) as [-> ->].
  destruct (legacyItem_named st index Hitem) as [_ [_ [He Hw]]]. auto.
Qed.

(** A list of [n + 2] elements ends with two of them. *)
Lemma last_two (A : Type) (n : nat) (l : list A) :
  length l = (n + 2)%nat ->
  exists front x y, l = front ++ [x; y] /\ length front = n.
Proof.
  intros Hlen. exists (firstn n l).
  assert (Hrest : length (skipn n l) = 2%nat) by (rewrite length_skipn; lia).
  destruct (skipn n l) as [|x [|y [|z rest]]] eqn:Hskip; try discriminate Hrest.
  exists x, y. split.
  - rewrite <- Hskip. symmetry. apply firstn_skipn.
  - rewrite length_firstn. lia.
Qed.

(** In a run of 1001 records of one name, the ids of the last two
    records are both the slug with the clock reading. *)
Lemma legacy_collision items :
  length items = 1001%nat ->
  Forall (isRecordNamed name) items ->
  let st0 := {| st_agents := []; st_seen := []; st_warnings := []; st_errors := [] |} in
  exists front a1 a2,
    st_agents (forEachFrom step st0 items 0) = front ++ [a1; a2]
    /\ agent_id a1 = base ++ u "-" ++ String_of_Z (Date_now 999)
    /\ agent_id a2 = base ++ u "-" ++ String_of_Z (Date_now 1000).
Proof.
  intros Hlen Hall st0.
  destruct (@last_two _ 999 items Hlen) as [first [i1 [i2 [-> Hfirst]]]].
  apply Forall_app in Hall. destruct Hall as [Hall Hlast].
  inversion Hlast as [|? ? H1 Hlast']; subst.
  inversion Hlast' as [|? ? H2 _]; subst.
  rewrite forEachFrom_app, Hfirst. cbn [Nat.add forEachFrom].
  set (st := forEachFrom step st0 first 0).
  assert (Hfull : incl (candidateIds base) (st_seen st)).
  { destruct (@legacy_seen first st0 0%nat Hall eq_refl) as [H|[Hnd [Hsub Hlen']]];
      [exact H|].
    apply NoDup_length_incl; [assumption | | assumption].
    fold st in Hlen'. rewrite Hlen', Hfirst, candidateIds_length. apply Nat.le_refl. }
  destruct (legacyItem_named st 999 H1) as [[a1 [Hagents1 Hid1]] [Hseen _]].
  destruct (legacyItem_named (step st i1 999) 1000 H2) as [[a2 [Hagents2 Hid2]] _].
  exists (st_agents st), a1, a2. split; [|split].
  - rewrite Hagents2, Hagents1, <- app_assoc. reflexivity.
  - rewrite Hid1. now apply uniqueAgentId_taken.
  - rewrite Hid2. apply uniqueAgentId_taken. rewrite Hseen.
    intros x Hx. apply in_setAdd. right. auto.
Qed.
End Legacy.

(** C9, at an input where it fails. Every id the legacy branch assigns
    matches the id pattern. But for a legacy array of 1001 records of
    one name, converted while the clock stands still between the last
    two records, the manifest that is built ends with two agents of the
    same id: once the slug and its suffixes [-2] to [-999] are taken,
    [uniqueAgentId] returns the slug with the clock reading without
    looking it up in the ids that are taken. The schema validator is
    only asked to accept that one manifest. *)
Theorem C9_fallback_ids_collide
        (toLowerCase : jsstring -> jsstring) (JSON_parse : jsstring -> option jsval)
        (schemaValid : AgentsManifestV11 -> bool)
        (schemaErrors : AgentsManifestV11 -> list ErrorObject)
        (Date_now : nat -> Z) (agentsJsonRaw : jsstring)
        (items : list jsval) (name : jsstring) :
  trim agentsJsonRaw <> [] ->
  JSON_parse (trim agentsJsonRaw) = Some (JArr items) ->
  length items = 1001%nat ->
  name <> [] ->
  Forall (isRecordNamed name) items ->
  Date_now 999%nat = Date_now 1000%nat ->
  schemaValid (legacyManifest toLowerCase Date_now items) = true ->
  let m := legacyManifest toLowerCase Date_now items in
  manifest (buildAgentsManifestV11 toLowerCase JSON_parse schemaValid schemaErrors
                                   Date_now agentsJsonRaw) = Some m
  /\ Forall (fun a => isValidAgentId (agent_id a) = true) (agents m)
  /\ (exists front a1 a2, agents m = front ++ [a1; a2] /\ agent_id a1 = agent_id a2)
  /\ ~ NoDup (List.map agent_id (agents m)).
Proof.
  intros Hraw Hparse Hlen Hname Hall Hclock Hvalid m.
  destruct (legacy_collision toLowerCase Date_now Hname Hlen Hall)
    as [front [a1 [a2 [Hagents [Hid1 Hid2]]]]].
  assert (Hsame : agent_id a1 = agent_id a2) by (rewrite Hid1, Hid2, Hclock; reflexivity).
  split; [|split; [|split]].
  - unfold buildAgentsManifestV11. apply nonEmpty_true in Hraw.
    rewrite Hraw, Hparse. cbn [negb]. cbv iota.
    set (st0 := {| st_agents := []; st_seen := []; st_warnings := []; st_errors := [] |})
      in *.
    set (st := forEachFrom (legacyItem toLowerCase Date_now) st0 items 0) in *.
    destruct (forEachFrom_ok toLowerCase Date_now Hname st0 0 Hall) as [Herr _].
    fold st in Herr. rewrite Herr. cbn [st_errors app].
    assert (Hsome : match st_agents st with [] => [ErrNoAgents] | _ :: _ => [] end = []).
    { rewrite Hagents. destruct front; reflexivity. }
    rewrite Hsome. unfold validateAgentsManifestV11.
    change {| agents := st_agents st |} with m. unfold m at 1 2. rewrite Hvalid.
    reflexivity.
  - apply (legacy_ids_valid toLowerCase Date_now). constructor.
  - exists front, a1, a2. split; [exact Hagents | exact Hsame].
  - unfold m, legacyManifest. cbn [agents]. rewrite Hagents, map_app. cbn [List.map].
    rewrite Hsame. intros Hnd. apply NoDup_remove_2 in Hnd. apply Hnd.
    apply in_or_app. right. now left.
Qed.

Lemma C9_fallback_ids_collide_witness :
  let m := legacyManifest asciiLowerCase frozenClock legacy1001 in
  manifest (buildAgentsManifestV11 asciiLowerCase parseLegacy1001 acceptAll noErrors
                                   frozenClock (u "legacy-1001")) = Some m
  /\ Forall (fun a => isValidAgentId (agent_id a) = true) (agents m)
  /\ (exists front a1 a2, agents m = front ++ [a1; a2] /\ agent_id a1 = agent_id a2)
  /\ ~ NoDup (List.map agent_id (agents m)).
Proof.
  apply (@C9_fallback_ids_collide asciiLowerCase parseLegacy1001 acceptAll noErrors
           frozenClock (u "legacy-1001") legacy1001 (u "a")).
  - vm_compute. discriminate.
  - reflexivity.
  - unfold legacy1001. rewrite length_app, repeat_length. reflexivity.
  - discriminate.
  - unfold legacy1001. apply Forall_app. split.
    + apply Forall_forall. intros x Hx. apply repeat_spec in Hx. subst x.
      split; reflexivity.
    + repeat constructor.
  - reflexivity.
  - reflexivity.
Defined.

End AgentsTheorems.

(* ================================================================== *)
(** * The export assembler *)
(* ================================================================== *)

Module ExportTheorems.
Import JS JSNumber Outcomes WorkflowGraph BmadZip ExportSpec ExportExamples MapFacts.
Import ManifestSpec.

Lemma extends_refl a : extends a a.
Proof. exists []. now rewrite app_nil_r. Qed.

Lemma extends_trans a b c : extends a b -> extends b c -> extends a c.
Proof.
  intros [x Hx] [y Hy]. exists (x ++ y). now rewrite Hy, Hx, app_assoc.
Qed.


Lemma extends_addFile a path v : extends a (addFile a path v).
Proof. exists []. simpl. now rewrite app_nil_r. Qed.

Lemma extends_addErrors a errs : extends a (addErrors a errs).
Proof. now exists errs. Qed.

Lemma extends_addWarnings a ws : extends a (addWarnings a ws).
Proof. exists []. simpl. now rewrite app_nil_r. Qed.

Lemma extends_fold (A : Type) (f : Acc -> A -> Acc) l :
  (forall a x, extends a (f a x)) -> forall a, extends a (fold_left f l a).
Proof.
  intros Hf. induction l as [|x l IH]; intros a; simpl; [apply extends_refl|].
  eapply extends_trans; [apply Hf | apply IH].
Qed.


Lemma extends_assetEntry a entry : extends a (assetEntry a entry).
Proof.
  unfold assetEntry. destruct entry as [rawPath value].
  destruct (negb (startsWith _ _)); [apply extends_addWarnings|].
  destruct (negb (isSafeZipPath _)); [apply extends_addErrors | apply extends_addFile].
Qed.

(** ** Typed payloads are read at their declared types *)










Section Assembly.
Variable localeCompare : jsstring -> jsstring -> Z.
Variable Number_toString : jsnumber -> jsstring.
Variable JSON_parse : jsstring -> option jsval.
Variable JSON_stringify_graph : WorkflowGraphV11 -> jsstring.

Let step := workflowStep localeCompare Number_toString JSON_parse JSON_stringify_graph.
Let loop := workflowLoop localeCompare Number_toString JSON_parse JSON_stringify_graph.
Let label := workflowLabelOf Number_toString.








End Assembly.




End ExportTheorems.

(* ================================================================== *)
(** * More guarantees of the graph compiler *)
(* ================================================================== *)

Module GraphRejections.
Import JS WorkflowGraph GraphSpec GraphClaims GraphExamples GraphMore.
Import MapFacts SortFacts GraphInputs Traversal GraphOutput GraphTheorems.

(** The error pushed for the edge at position [k]. *)
Lemma validateEdges_reports m edges : forall i k e,
  nth_error edges k = Some e ->
  let errs := snd (validateEdges m edges i) in
  (nonEmpty (bedge_source e) = false \/ nonEmpty (bedge_target e) = false ->
   In (ErrIncompleteEdge (i + k)) errs)
  /\ (nonEmpty (bedge_source e) = true -> nonEmpty (bedge_target e) = true ->
      Map.has m (bedge_source e) = false ->
      In (ErrSourceMissing (bedge_source e) (i + k)) errs)
  /\ (nonEmpty (bedge_source e) = true -> nonEmpty (bedge_target e) = true ->
      Map.has m (bedge_source e) = true -> Map.has m (bedge_target e) = false ->
      In (ErrTargetMissing (bedge_target e) (i + k)) errs).
Proof.
  induction edges as [|x edges IH]; intros i k e Hk; [destruct k; discriminate|].
  destruct k as [|k].
  - injection Hk as ->. cbn [validateEdges]. rewrite Nat.add_0_r.
    destruct (validateEdges m edges (S i)) as [valid errs].
    destruct (nonEmpty (bedge_source e)), (nonEmpty (bedge_target e));
      cbn [negb orb]; try (cbn [snd]; repeat split; intros; try discriminate;
                           try (now left); intuition discriminate).
    destruct (Map.has m (bedge_source e)); cbn [negb];
      [destruct (Map.has m (bedge_target e)); cbn [negb]|];
      cbn [snd]; repeat split; intros; try discriminate; try (now left);
      intuition discriminate.
  - cbn [nth_error] in Hk. specialize (IH (S i) k e Hk). cbn zeta in IH.
    replace (i + S k)%nat with (S i + k)%nat by lia.
    cbn [validateEdges]. destruct (validateEdges m edges (S i)) as [valid errs].
    cbn [snd] in IH. destruct IH as [H1 [H2 H3]].
    destruct (negb (nonEmpty (bedge_source x)) || negb (nonEmpty (bedge_target x)));
      [|destruct (negb (Map.has m (bedge_source x)));
        [|destruct (negb (Map.has m (bedge_target x)))]];
      cbn [snd]; (split; [|split]); intros; try right; auto.
Qed.

Lemma has_nodeId nodes id :
  Map.has (buildNodesById nodes) id = true <-> isNodeId nodes id.
Proof. rewrite has_in_keys. apply nodeIds_spec. Qed.

Lemma has_not_nodeId nodes id :
  Map.has (buildNodesById nodes) id = false <-> ~ isNodeId nodes id.
Proof.
  rewrite <- has_nodeId. destruct (Map.has (buildNodesById nodes) id).
  - split; [discriminate | intros H; exfalso; now apply H].
  - split; [intros _ H; discriminate H | reflexivity].
Qed.

(** Whatever is pushed to [errors] makes the result [null]. *)
Lemma error_fails localeCompare bnodes bedges err :
  In err (errors (buildWorkflowGraphV11 localeCompare bnodes bedges)) ->
  graph (buildWorkflowGraphV11 localeCompare bnodes bedges) = None.
Proof.
  intros Hin. destruct bnodes as [|n0 rest] eqn:Hb; [reflexivity|].
  rewrite <- Hb in *. assert (Hnodes : bnodes <> []) by (rewrite Hb; discriminate).
  destruct (build_shape localeCompare bedges Hnodes) as [Herr [Hgraph _]].
  rewrite Hgraph. rewrite Herr in Hin.
  match goal with |- match ?l with _ => _ end = None => destruct l end;
    [destruct Hin | reflexivity].
Qed.

(** X1. An input edge that lacks an endpoint, or whose source or target
    is not the id of an input node, is reported with its position in the
    [edges] array, and the compilation fails: no edge is dropped
    silently. *)
Theorem dangling_edge_rejected localeCompare bnodes bedges i e :
  bnodes <> [] ->
  nth_error bedges i = Some e ->
  let result := buildWorkflowGraphV11 localeCompare bnodes bedges in
  (bedge_source e = [] \/ bedge_target e = [] ->
   In (ErrIncompleteEdge i) (errors result))
  /\ (bedge_source e <> [] -> bedge_target e <> [] ->
      ~ isNodeId bnodes (bedge_source e) ->
      In (ErrSourceMissing (bedge_source e) i) (errors result))
  /\ (bedge_source e <> [] -> bedge_target e <> [] ->
      isNodeId bnodes (bedge_source e) -> ~ isNodeId bnodes (bedge_target e) ->
      In (ErrTargetMissing (bedge_target e) i) (errors result))
  /\ (~ (isNodeId bnodes (bedge_source e) /\ isNodeId bnodes (bedge_target e)) ->
      graph result = None).
Proof.
  intros Hnodes Hi result.
  destruct (build_shape localeCompare bedges Hnodes) as [Herr _].
  fold result in Herr.
  destruct (@validateEdges_reports (buildNodesById bnodes) bedges 0 i e Hi)
    as [H1 [H2 H3]]. cbn [Nat.add] in H1, H2, H3.
  assert (Hin : forall err,
            In err (snd (validateEdges (buildNodesById bnodes) bedges 0)) ->
            In err (errors result)).
  { intros err He. rewrite Herr. rewrite !in_app_iff. auto. }
  assert (Hempty : forall s : jsstring, nonEmpty s = false <-> s = []).
  { intros [|c s]; simpl; split; intros; congruence. }
  assert (C1 : bedge_source e = [] \/ bedge_target e = [] ->
               In (ErrIncompleteEdge i) (errors result)).
  { intros H. apply Hin, H1. rewrite !Hempty. exact H. }
  assert (C2 : bedge_source e <> [] -> bedge_target e <> [] ->
               ~ isNodeId bnodes (bedge_source e) ->
               In (ErrSourceMissing (bedge_source e) i) (errors result)).
  { intros Hs Ht Hno. apply Hin, H2; [now apply nonEmpty_true | now apply nonEmpty_true|].
    now apply has_not_nodeId. }
  assert (C3 : bedge_source e <> [] -> bedge_target e <> [] ->
               isNodeId bnodes (bedge_source e) -> ~ isNodeId bnodes (bedge_target e) ->
               In (ErrTargetMissing (bedge_target e) i) (errors result)).
  { intros Hs Ht Hyes Hno.
    apply Hin, H3; [now apply nonEmpty_true | now apply nonEmpty_true | |].
    - now apply has_nodeId.
    - now apply has_not_nodeId. }
  split; [exact C1|]. split; [exact C2|]. split; [exact C3|].
  intros Hnot.
  destruct (bedge_source e) as [|c s] eqn:Hs.
  { eapply error_fails. apply C1. now left. }
  destruct (bedge_target e) as [|c' t] eqn:Ht.
  { eapply error_fails. apply C1. now right. }
  destruct (Map.has (buildNodesById bnodes) (c :: s)) eqn:Hhs.
  - apply has_nodeId in Hhs.
    eapply error_fails. apply C3; try discriminate; [exact Hhs | tauto].
  - apply has_not_nodeId in Hhs. eapply error_fails. apply C2; try discriminate. exact Hhs.
Qed.

Lemma dangling_edge_rejected_witness :
  In (ErrTargetMissing (u "ghost") 1)
     (errors (buildWorkflowGraphV11 codeUnitCompare dangling_nodes dangling_edges))
  /\ graph (buildWorkflowGraphV11 codeUnitCompare dangling_nodes dangling_edges) = None.
Proof.
  destruct (@dangling_edge_rejected codeUnitCompare dangling_nodes dangling_edges 1
              (plainEdge 1 None "a" "ghost" JUndefined)
              ltac:(discriminate) eq_refl) as [_ [_ [H3 H4]]].
  assert (Hghost : ~ isNodeId dangling_nodes (u "ghost")).
  { intros Hg. apply nodeIds_spec in Hg. vm_compute in Hg.
    destruct Hg as [Hg|[Hg|[]]]; discriminate Hg. }
  split.
  - apply H3; [discriminate | discriminate | | exact Hghost].
    apply nodeIds_spec. vm_compute. auto.
  - apply H4. intros [_ Hg]. exact (Hghost Hg).
Defined.

(** X2. Every node id of a compiled graph matches the node id pattern,
    and each node points at the step file named after its id; an input
    node id that does not match the pattern is listed in the
    invalid-ids error, and the compilation fails. *)
Theorem node_ids_checked localeCompare bnodes bedges :
  let result := buildWorkflowGraphV11 localeCompare bnodes bedges in
  (forall g n, graph result = Some g -> In n (WorkflowGraph.nodes g) ->
     NODE_ID_PATTERN_test (node_id n) = true
     /\ node_file n = u "steps/" ++ node_id n ++ u ".md")
  /\ (forall id, isNodeId bnodes id -> NODE_ID_PATTERN_test id = false ->
        graph result = None
        /\ exists invalidIds,
             In (ErrInvalidNodeIds invalidIds) (errors result) /\ In id invalidIds).
Proof.
  intros result. split.
  - intros g n Hg Hn.
    pose proof (compiled_nodes _ _ _ Hg) as Hnodes. rewrite Hnodes in Hn.
    apply in_map_iff in Hn. destruct Hn as [id [<- Hid]].
    split; [|reflexivity]. cbn [mapNode mapNodeOf fst node_id].
    apply sort_in in Hid.
    destruct (build_success _ _ _ Hg) as [_ [Herrs _]].
    apply app_eq_nil in Herrs. destruct Herrs as [Hinvalid _].
    destruct (NODE_ID_PATTERN_test id) eqn:Hp; [reflexivity|].
    exfalso.
    assert (Hin : In id (filter (fun id => negb (NODE_ID_PATTERN_test id))
                                (Map.keys (buildNodesById bnodes)))).
    { apply filter_In. split; [exact Hid | now rewrite Hp]. }
    destruct (filter _ _); [destruct Hin | discriminate Hinvalid].
  - intros id Hid Hbad.
    assert (Hnodes : bnodes <> []).
    { destruct Hid as [_ [n [Hn _]]]. intros ->. destruct Hn. }
    destruct (build_shape localeCompare bedges Hnodes) as [Herr _].
    fold result in Herr.
    assert (Hin : In id (filter (fun id => negb (NODE_ID_PATTERN_test id))
                                (Map.keys (buildNodesById bnodes)))).
    { apply filter_In. split; [now apply nodeIds_spec | now rewrite Hbad]. }
    assert (Herror : In (ErrInvalidNodeIds
                           (filter (fun id => negb (NODE_ID_PATTERN_test id))
                                   (Map.keys (buildNodesById bnodes))))
                        (errors result)).
    { rewrite Herr. apply in_or_app. left.
      destruct (filter _ _); [destruct Hin | now left]. }
    split; [eapply error_fails; exact Herror|]. eexists. split; [exact Herror | exact Hin].
Qed.

Lemma node_ids_checked_witness :
  graph (buildWorkflowGraphV11 codeUnitCompare badId_nodes []) = None
  /\ exists invalidIds,
       In (ErrInvalidNodeIds invalidIds)
          (errors (buildWorkflowGraphV11 codeUnitCompare badId_nodes []))
       /\ In (u "b c") invalidIds.
Proof.
  apply (proj2 (node_ids_checked codeUnitCompare badId_nodes [])).
  - apply nodeIds_spec. vm_compute. auto.
  - reflexivity.
Defined.

(** X3. For a collation that is a total preorder, the nodes of a
    compiled graph are listed in ascending order of their ids, and the
    entry node is one of them. *)
Theorem nodes_sorted_entry_listed localeCompare bnodes bedges g :
  (forall a b c, localeCompare a b <= 0 -> localeCompare b c <= 0 ->
                 localeCompare a c <= 0) ->
  (forall a b, localeCompare a b <= 0 \/ localeCompare b a <= 0) ->
  graph (buildWorkflowGraphV11 localeCompare bnodes bedges) = Some g ->
  StronglySorted (fun a b => localeCompare a b <= 0)
                 (List.map node_id (WorkflowGraph.nodes g))
  /\ In (entryNodeId g) (List.map node_id (WorkflowGraph.nodes g)).
Proof.
  intros Htrans Htotal Hg. rewrite (compiled_node_ids _ _ _ Hg). split.
  - apply sort_ordered; assumption.
  - unfold sortStrings. apply sort_in.
    destruct (build_success _ _ _ Hg) as [_ [Herrs ->]]. cbn [entryNodeId].
    apply app_eq_nil in Herrs. destruct Herrs as [_ Herrs].
    apply app_eq_nil in Herrs. destruct Herrs as [_ Herrs].
    apply app_eq_nil in Herrs. destruct Herrs as [_ Herrs].
    unfold startNodesOf, sortStrings in *.
    set (cands := zeroIndegree _ _) in *.
    assert (Hsub : forall c, In c (sort localeCompare cands) ->
                             In c (Map.keys (buildNodesById bnodes))).
    { intros c Hc. apply sort_in in Hc. unfold cands, zeroIndegree in Hc.
      apply filter_In in Hc. tauto. }
    destruct (sort localeCompare cands) as [|s [|s' t]]; cbn in *.
    + discriminate Herrs.
    + apply Hsub. now left.
    + apply Hsub. now left.
Qed.

Lemma nodes_sorted_entry_listed_witness :
  exists g,
    graph (buildWorkflowGraphV11 codeUnitCompare diamond_nodes diamond_edges) = Some g
    /\ StronglySorted (fun a b => codeUnitCompare a b <= 0)
                      (List.map node_id (WorkflowGraph.nodes g))
    /\ In (entryNodeId g) (List.map node_id (WorkflowGraph.nodes g)).
Proof.
  eexists. split; [vm_compute; reflexivity|].
  apply (@nodes_sorted_entry_listed codeUnitCompare diamond_nodes diamond_edges).
  - intros a b c. apply codeUnitCompare_trans.
  - intros a b. apply codeUnitCompare_total.
  - vm_compute. reflexivity.
Defined.

End GraphRejections.

(** ** Facts about [String.prototype.trim] *)

Module TrimFacts.
Import JS.

(** What [trimStart] strips is a run of white space, and what is left
    does not start with white space. *)
Lemma trimStart_split s :
  exists pre, s = pre ++ trimStart s
              /\ Forall (fun c => isWhiteSpace c = true) pre
              /\ match trimStart s with [] => True | c :: _ => isWhiteSpace c = false end.
Proof.
  induction s as [|c s IH]; simpl.
  - exists []. auto.
  - destruct (isWhiteSpace c) eqn:Hc.
    + destruct IH as [pre [Hs [Hpre Hhead]]]. exists (c :: pre).
      split; [simpl; congruence|]. split; [now constructor | exact Hhead].
    + exists []. simpl. auto.
Qed.

Lemma trimStart_fixed s :
  match s with [] => True | c :: _ => isWhiteSpace c = false end -> trimStart s = s.
Proof. destruct s as [|c s]; simpl; [reflexivity | intros ->; reflexivity]. Qed.

Lemma trimStart_head s :
  match trimStart s with [] => True | c :: _ => isWhiteSpace c = false end.
Proof. destruct (trimStart_split s) as [_ [_ [_ H]]]. exact H. Qed.

(** A trimmed string is empty, or starts and ends with a code unit that
    is not white space. *)
Lemma trim_ends s :
  trim s = []
  \/ exists a b, trim s = a :: b
                 /\ isWhiteSpace a = false
                 /\ match rev (trim s) with [] => True | c :: _ => isWhiteSpace c = false end.
Proof.
  unfold trim, trimEnd.
  destruct (trimStart_split (rev (trimStart s))) as [pre [Hrev [_ Hhead]]].
  set (b := trimStart (rev (trimStart s))) in *.
  destruct b as [|c b'] eqn:Hb; [left; reflexivity|]. right.
  assert (Ha : trimStart s = rev (c :: b') ++ rev pre).
  { rewrite <- rev_app_distr, <- Hrev. now rewrite rev_involutive. }
  destruct (rev (c :: b')) as [|x l] eqn:Hr.
  { exfalso. apply (f_equal (@length N)) in Hr. rewrite length_rev in Hr. discriminate Hr. }
  exists x, l. split; [reflexivity|]. split.
  - pose proof (trimStart_head s) as Hh. rewrite Ha in Hh. exact Hh.
  - rewrite <- Hr, rev_involutive. exact Hhead.
Qed.

Lemma trim_idempotent s : trim (trim s) = trim s.
Proof.
  destruct (trim_ends s) as [H|[a [b [Hab [Ha Hlast]]]]]; [now rewrite H|].
  unfold trim at 1, trimEnd. rewrite (trimStart_fixed (trim s)) by (rewrite Hab; exact Ha).
  rewrite (trimStart_fixed (rev (trim s))) by exact Hlast.
  apply rev_involutive.
Qed.

Lemma trimmedString_idempotent v : trim (trimmedString v) = trimmedString v.
Proof. destruct v; try reflexivity. apply trim_idempotent. Qed.

End TrimFacts.

(* ================================================================== *)
(** * The emitted document *)
(* ================================================================== *)

Module GraphDocument.
Import JS WorkflowGraph GraphSpec GraphClaims GraphExamples GraphMore.
Import MapFacts SortFacts GraphInputs Traversal GraphOutput GraphTheorems.
Import TrimFacts.

Lemma filter_split_perm (A : Type) (f : A -> bool) l :
  Permutation (filter f l ++ filter (fun x => negb (f x)) l) l.
Proof.
  induction l as [|a l IH]; simpl; [constructor|].
  destruct (f a); simpl.
  - now constructor.
  - apply Permutation_sym, Permutation_cons_app, Permutation_sym, IH.
Qed.

Lemma flat_map_perm_pointwise (A B : Type) (f h : A -> list B) l :
  (forall a, In a l -> Permutation (f a) (h a)) ->
  Permutation (flat_map f l) (flat_map h l).
Proof.
  induction l as [|a l IH]; intros H; simpl; [constructor|].
  apply Permutation_app; [apply H; now left | apply IH; intros; apply H; now right].
Qed.

Lemma flat_map_ext_in' (A B : Type) (f h : A -> list B) l :
  (forall a, In a l -> f a = h a) -> flat_map f l = flat_map h l.
Proof.
  induction l as [|a l IH]; intros H; simpl; [reflexivity|].
  rewrite (H a) by now left. f_equal. apply IH. intros; apply H; now right.
Qed.

Lemma map_flat_map' (A B C : Type) (f : B -> C) (h : A -> list B) l :
  List.map f (flat_map h l) = flat_map (fun a => List.map f (h a)) l.
Proof.
  induction l as [|a l IH]; simpl; [reflexivity|]. now rewrite map_app, IH.
Qed.

Lemma fromSource_true s r : fromSource s r = true <-> src r = s.
Proof. unfold fromSource. apply str_eqb_true. Qed.

Lemma filter_other_source (E : list EdgeRecord) s k :
  s <> k ->
  filter (fromSource s) (filter (fun r => negb (fromSource k r)) E)
  = filter (fromSource s) E.
Proof.
  intros Hne. induction E as [|r E IH]; simpl; [reflexivity|].
  destruct (fromSource k r) eqn:Hk; simpl.
  - apply fromSource_true in Hk.
    destruct (fromSource s r) eqn:Hs; [|exact IH].
    apply fromSource_true in Hs. congruence.
  - now rewrite IH.
Qed.

(** Grouping by source loses no record and invents none. *)
Lemma groups_partition ks : forall E : list EdgeRecord,
  NoDup ks ->
  (forall r, In r E -> In (src r) ks) ->
  Permutation (flat_map (fun s => filter (fromSource s) E) ks) E.
Proof.
  induction ks as [|k ks IH]; intros E Hnd Hcov.
  - destruct E as [|r E]; [constructor|]. exfalso. apply (Hcov r). now left.
  - inversion Hnd as [|? ? Hk Hnd']; subst. simpl.
    set (E' := filter (fun r => negb (fromSource k r)) E).
    assert (Hsame : flat_map (fun s => filter (fromSource s) E) ks
                    = flat_map (fun s => filter (fromSource s) E') ks).
    { apply flat_map_ext_in'. intros s Hs. unfold E'. symmetry.
      apply filter_other_source. intros ->. contradiction. }
    rewrite Hsame.
    apply Permutation_trans with (filter (fromSource k) E ++ E').
    + apply Permutation_app_head. apply IH; [assumption|].
      intros r Hr. unfold E' in Hr. apply filter_In in Hr. destruct Hr as [Hr Hne].
      destruct (Hcov r Hr) as [Heq|Hin]; [|exact Hin].
      exfalso. unfold fromSource in Hne.
      assert (Ht : str_eqb (src r) k = true) by (apply str_eqb_true; congruence).
      rewrite Ht in Hne. discriminate Hne.
    + apply filter_split_perm.
Qed.

Lemma emittedEnds_mapi multi chosen grp :
  List.map emittedEnds (mapi (mapEdge multi chosen) grp)
  = List.map (fun r => (src r, tgt r)) grp.
Proof.
  unfold mapi. generalize 0%nat. induction grp as [|r grp IH]; intros i; simpl;
    [reflexivity | now rewrite IH].
Qed.

Lemma map_mapi_mkRecord (B : Type) (f : EdgeRecord -> B) bedges :
  List.map f (mapi mkRecord bedges)
  = mapi (fun e i => f (mkRecord e i)) bedges.
Proof.
  unfold mapi. generalize 0%nat. induction bedges as [|e l IH]; intros i; simpl;
    [reflexivity | now rewrite IH].
Qed.

Lemma mapi_const (A B : Type) (f : A -> B) l :
  mapi (fun x (_ : nat) => f x) l = List.map f l.
Proof.
  unfold mapi. generalize 0%nat. induction l as [|a l IH]; intros i; simpl;
    [reflexivity | now rewrite IH].
Qed.

(** The groups of the sources, emitted one after the other, hold the
    valid edges, each once. *)
Lemma groups_cover localeCompare (E : list EdgeRecord) :
  Permutation
    (List.map emittedEnds
       (flat_map fst (List.map (mapGroup localeCompare (groupBySource E))
                               (sortStrings localeCompare (Map.keys (groupBySource E))))))
    (List.map (fun r => (src r, tgt r)) E).
Proof.
  rewrite flat_map_map, map_flat_map'.
  assert (Hgroup : forall s,
            List.map emittedEnds (fst (mapGroup localeCompare (groupBySource E) s))
            = List.map (fun r => (src r, tgt r))
                       (sortGroup localeCompare (filter (fromSource s) E))).
  { intros s. unfold mapGroup. rewrite groupBySource_group. unfold emitGroup.
    cbn [fst]. apply emittedEnds_mapi. }
  rewrite (flat_map_ext _ _ Hgroup).
  apply Permutation_trans
    with (List.map (fun r => (src r, tgt r))
            (flat_map (fun s => filter (fromSource s) E) (Map.keys (groupBySource E)))).
  - rewrite map_flat_map'.
    apply Permutation_trans
      with (flat_map (fun s => List.map (fun r => (src r, tgt r))
                                        (filter (fromSource s) E))
                     (sortStrings localeCompare (Map.keys (groupBySource E)))).
    + apply flat_map_perm_pointwise. intros s _. apply Permutation_map.
      unfold sortGroup. apply sort_perm.
    + apply Permutation_flat_map. unfold sortStrings. apply sort_perm.
  - apply Permutation_map. apply groups_partition.
    + apply groupBySource_NoDup.
    + intros r Hr. apply get_some_in_keys. rewrite groupBySource_get.
      assert (Hin : In r (filter (fromSource (src r)) E)).
      { apply filter_In. split; [exact Hr|]. unfold fromSource. now apply str_eqb_true. }
      destruct (filter _ E); [destruct Hin | discriminate].
Qed.

(** X4. A compiled graph has exactly the edges of the input: the pairs
    (from, to) of the emitted edges are, up to order, the pairs (source,
    target) of the input edges, duplicates included. *)
Theorem edges_preserved localeCompare bnodes bedges g :
  graph (buildWorkflowGraphV11 localeCompare bnodes bedges) = Some g ->
  Permutation (List.map emittedEnds (WorkflowGraph.edges g)) (List.map inputEnds bedges).
Proof.
  intros Hg.
  pose proof (compiled_valid_edges _ _ _ Hg) as HE.
  destruct (build_success _ _ _ Hg) as [_ [_ ->]]. cbn [WorkflowGraph.edges].
  set (E := fst (validateEdges (buildNodesById bnodes) bedges 0)) in *.
  assert (Hends : List.map inputEnds bedges = List.map (fun r => (src r, tgt r)) E).
  { rewrite HE, map_mapi_mkRecord. symmetry. apply (mapi_const inputEnds). }
  rewrite Hends. apply groups_cover.
Qed.

Lemma edges_preserved_witness :
  exists g,
    graph (buildWorkflowGraphV11 codeUnitCompare diamond_nodes diamond_edges) = Some g
    /\ Permutation (List.map emittedEnds (WorkflowGraph.edges g))
                   (List.map inputEnds diamond_edges).
Proof.
  eexists. split; [vm_compute; reflexivity|].
  apply (@edges_preserved codeUnitCompare diamond_nodes diamond_edges).
  vm_compute. reflexivity.
Defined.

(** What a successful compilation pushes to [warnings]. *)
Lemma build_warnings localeCompare bnodes bedges g :
  graph (buildWorkflowGraphV11 localeCompare bnodes bedges) = Some g ->
  let nodesById := buildNodesById bnodes in
  let nodeIds := Map.keys nodesById in
  let E := fst (validateEdges nodesById bedges 0) in
  let duplicates := Z.of_nat (length bnodes) - Z.of_nat (length nodeIds) in
  warnings (buildWorkflowGraphV11 localeCompare bnodes bedges)
  = ((if 0 <? duplicates then [WarnDuplicateNodeIds duplicates] else [])
     ++ snd (chooseEntry (startNodesOf localeCompare (fst (degrees nodeIds E)) nodeIds)))
    ++ flat_map snd (List.map (mapNode nodesById) (sortStrings localeCompare nodeIds))
    ++ flat_map snd
         (List.map (mapGroup localeCompare (groupBySource E))
                   (sortStrings localeCompare (Map.keys (groupBySource E)))).
Proof.
  intros Hg. cbv zeta. unfold buildWorkflowGraphV11 in *.
  destruct bnodes as [|n0 nodes']; [discriminate Hg|].
  destruct (validateEdges (buildNodesById (n0 :: nodes')) bedges 0) as [ve errs2].
  cbn [fst snd] in *.
  destruct (degrees (Map.keys (buildNodesById (n0 :: nodes'))) ve) as [indeg out].
  cbn [fst snd] in *.
  destruct (chooseEntry (startNodesOf localeCompare indeg
              (Map.keys (buildNodesById (n0 :: nodes'))))) as [entry ws].
  cbn [fst snd] in *.
  match type of Hg with
  | context [match ?errs with [] => _ | _ :: _ => _ end] =>
      match type of errs with
      | list GraphError => destruct errs eqn:Herrs
      end
  end; cbn [graph warnings] in *; [reflexivity | discriminate Hg].
Qed.

Lemma first_match (A : Type) (f : A -> bool) l : forall d rest,
  filter f l = d :: rest ->
  f d = true
  /\ exists i0, nth_error l i0 = Some d
                /\ forall j r, (j < i0)%nat -> nth_error l j = Some r -> f r = false.
Proof.
  induction l as [|a l IH]; intros d rest H; [discriminate|]. simpl in H.
  destruct (f a) eqn:Ha.
  - injection H as <- _. split; [exact Ha|]. exists 0%nat. split; [reflexivity|].
    intros j r Hj. lia.
  - destruct (IH d rest H) as [Hd [i0 [Hi0 Hbefore]]]. split; [exact Hd|].
    exists (S i0). split; [exact Hi0|].
    intros [|j] r Hj Hr; simpl in Hr; [congruence|]. apply (Hbefore j); [lia | exact Hr].
Qed.

Lemma NoDup_map_filter (A B : Type) (f : A -> B) (p : A -> bool) l :
  NoDup (List.map f l) -> NoDup (List.map f (filter p l)).
Proof.
  induction l as [|a l IH]; simpl; intros H; [constructor|].
  inversion H as [|? ? Hnotin Hnd]; subst.
  destruct (p a); [|now apply IH]. simpl. constructor; [|now apply IH].
  intros Hin. apply Hnotin. apply in_map_iff in Hin. destruct Hin as [x [Hx Hin]].
  apply filter_In in Hin. apply in_map_iff. exists x. tauto.
Qed.

(** The edges of one group are distinct objects when the input edges
    are. *)
Lemma group_refs_NoDup localeCompare bedges s :
  NoDup (List.map bedge_ref bedges) ->
  NoDup (List.map (fun r => bedge_ref (edge r))
                  (outgoingInStableOrder localeCompare bedges s)).
Proof.
  intros Hnd. unfold outgoingInStableOrder, sortGroup.
  eapply Permutation_NoDup.
  - apply Permutation_map. apply Permutation_sym. apply sort_perm.
  - apply NoDup_map_filter. rewrite map_mapi_mkRecord.
    rewrite (mapi_const bedge_ref). exact Hnd.
Qed.

(** X5. In a compiled graph, a source with several outgoing edges has
    exactly one emitted edge with [isDefault: true] (the input edges being
    distinct objects): the first edge flagged [isDefault === true] in
    the stable order, or the first edge when none is flagged. When
    several edges are flagged, the warning that lists them is pushed. *)
Theorem one_default_per_branch localeCompare bnodes bedges g s :
  graph (buildWorkflowGraphV11 localeCompare bnodes bedges) = Some g ->
  NoDup (List.map bedge_ref bedges) ->
  let group := outgoingInStableOrder localeCompare bedges s in
  (1 < length group)%nat ->
  exists i0 r0,
    nth_error group i0 = Some r0
    /\ (forall i e, nth_error (emittedFrom g s) i = Some e ->
          (edge_isDefault e = Some true <-> i = i0))
    /\ (filter flaggedDefault group = [] -> i0 = 0%nat)
    /\ (filter flaggedDefault group <> [] ->
        flaggedDefault r0 = true
        /\ forall j r, (j < i0)%nat -> nth_error group j = Some r ->
                       flaggedDefault r = false)
    /\ ((1 < length (filter flaggedDefault group))%nat ->
        In (WarnMultipleDefaults s (List.map defaultIdOf (filter flaggedDefault group)))
           (warnings (buildWorkflowGraphV11 localeCompare bnodes bedges))).
Proof.
  intros Hg Hrefs group Hmulti.
  pose proof (group_refs_NoDup localeCompare bedges s Hrefs) as Hnd. fold group in Hnd.
  assert (Hchosen : exists i0 r0,
            nth_error group i0 = Some r0
            /\ chosenDefaultOf group = Some r0
            /\ (filter flaggedDefault group = [] -> i0 = 0%nat)
            /\ (filter flaggedDefault group <> [] ->
                flaggedDefault r0 = true
                /\ forall j r, (j < i0)%nat -> nth_error group j = Some r ->
                               flaggedDefault r = false)).
  { unfold chosenDefaultOf. destruct (filter flaggedDefault group) as [|d rest] eqn:Hf.
    - destruct group as [|r0 grp]; [simpl in Hmulti; lia|].
      exists 0%nat, r0. repeat split; try reflexivity; congruence.
    - destruct (first_match _ _ Hf) as [Hd [i0 [Hi0 Hbefore]]].
      exists i0, d. split; [exact Hi0|]. split; [reflexivity|].
      split; [discriminate|]. intros _. split; assumption. }
  destruct Hchosen as [i0 [r0 [Hi0 [Hch [Hnone Hsome]]]]].
  exists i0, r0. split; [exact Hi0|]. split; [|split; [exact Hnone|split; [exact Hsome|]]].
  - intros i e He. rewrite (compiled_edges_from _ _ _ Hg) in He. fold group in He.
    unfold emitGroup in He. cbn [fst] in He.
    apply Nat.ltb_lt in Hmulti. rewrite Hmulti, Hch in He.
    rewrite nth_error_mapi in He.
    destruct (nth_error group i) as [r|] eqn:Hr; [|discriminate He].
    cbn [option_map] in He. injection He as <-. cbn [mapEdge edge_isDefault andb].
    assert (Hidx : bedge_ref (edge r0) = bedge_ref (edge r) <-> i = i0).
    { split.
      - intros Heq. apply (proj1 (NoDup_nth_error _) Hnd).
        + rewrite length_map. apply nth_error_Some. congruence.
        + rewrite !nth_error_map, Hr, Hi0. simpl. congruence.
      - intros ->. congruence. }
    destruct (Nat.eqb_spec (bedge_ref (edge r0)) (bedge_ref (edge r))) as [Heq|Hne].
    + split; [intros _; now apply Hidx | reflexivity].
    + split; [discriminate | intros Hi; exfalso; now apply Hne, Hidx].
  - intros Hseveral. rewrite (build_warnings _ _ _ Hg). cbv zeta.
    apply in_or_app. right. apply in_or_app. right.
    set (E := fst (validateEdges (buildNodesById bnodes) bedges 0)).
    assert (HE : E = mapi mkRecord bedges) by (apply (compiled_valid_edges _ _ _ Hg)).
    apply in_flat_map. exists (mapGroup localeCompare (groupBySource E) s). split.
    + apply in_map. unfold sortStrings. apply sort_in. apply get_some_in_keys.
      rewrite groupBySource_get.
      assert (Hne : filter (fromSource s) E <> []).
      { intros Hnil. unfold group, outgoingInStableOrder in Hmulti.
        rewrite <- HE, Hnil in Hmulti. simpl in Hmulti. lia. }
      destruct (filter (fromSource s) E); [congruence | discriminate].
    + unfold mapGroup. rewrite groupBySource_group, HE.
      change (sortGroup localeCompare (filter (fromSource s) (mapi mkRecord bedges)))
        with group.
      unfold emitGroup. cbn [snd].
      apply Nat.ltb_lt in Hmulti, Hseveral. rewrite Hmulti, Hseveral. now left.
Qed.

Lemma one_default_per_branch_witness :
  exists g i0 r0,
    graph (buildWorkflowGraphV11 codeUnitCompare twoFlagged_nodes twoFlagged_edges) = Some g
    /\ nth_error (outgoingInStableOrder codeUnitCompare twoFlagged_edges (u "d")) i0 = Some r0
    /\ i0 = 1%nat
    /\ (forall i e, nth_error (emittedFrom g (u "d")) i = Some e ->
          (edge_isDefault e = Some true <-> i = i0))
    /\ In (WarnMultipleDefaults (u "d") [u "e2"; u "e3"])
          (warnings (buildWorkflowGraphV11 codeUnitCompare twoFlagged_nodes twoFlagged_edges)).
Proof.
  eexists.
  destruct (@one_default_per_branch codeUnitCompare twoFlagged_nodes twoFlagged_edges
              _ (u "d") ltac:(vm_compute; reflexivity)
              ltac:(vm_compute; repeat constructor; simpl; intuition discriminate)
              ltac:(apply Nat.ltb_lt; vm_compute; reflexivity))
    as [i0 [r0 [Hi0 [Hone [_ [Hflag Hwarn]]]]]].
  exists i0, r0. split; [reflexivity|]. split; [exact Hi0|].
  assert (Hfirst : i0 = 1%nat).
  { destruct (Hflag ltac:(vm_compute; discriminate)) as [Hr0 Hbefore].
    destruct i0 as [|[|[|i0]]].
    - vm_compute in Hi0. injection Hi0 as <-. vm_compute in Hr0. discriminate Hr0.
    - reflexivity.
    - exfalso. specialize (Hbefore 1%nat _ ltac:(lia) eq_refl).
      vm_compute in Hbefore. discriminate Hbefore.
    - vm_compute in Hi0. destruct i0; discriminate Hi0. }
  split; [exact Hfirst|]. split; [exact Hone|].
  apply Hwarn. apply Nat.ltb_lt. vm_compute. reflexivity.
Defined.

Lemma parseStringList_clean v :
  Forall (fun s => s <> [] /\ trim s = s) (parseStringList v).
Proof.
  destruct v; try constructor. cbn [parseStringList].
  apply Forall_forall. intros s Hs. apply filter_In in Hs. destruct Hs as [Hin Hne].
  apply in_map_iff in Hin. destruct Hin as [x [<- _]].
  split; [now apply nonEmpty_true | apply trimmedString_idempotent].
Qed.

Lemma someIfNonEmpty_notBlank (s : jsstring) :
  trim s = s -> notBlank (if nonEmpty s then Some s else None).
Proof.
  intros Ht. destruct (nonEmpty s) eqn:Hs; cbn [notBlank]; [|exact I].
  split; [now apply nonEmpty_true | exact Ht].
Qed.

(** X6. A compiled graph carries no empty or padded string: every edge
    has a label that is not empty; an edge id, a condition text, a node
    title and an agent id are trimmed and not empty when they are
    present; and the [inputs] and [outputs] of a node, when present, are
    non-empty lists of trimmed, non-empty strings. *)
Theorem no_blank_strings localeCompare bnodes bedges g :
  graph (buildWorkflowGraphV11 localeCompare bnodes bedges) = Some g ->
  (forall e, In e (WorkflowGraph.edges g) ->
     edge_label e <> [] /\ notBlank (edge_id e) /\ notBlank (edge_conditionText e))
  /\ (forall n, In n (WorkflowGraph.nodes g) ->
        notBlank (node_title n) /\ notBlank (node_agentId n)
        /\ noBlanks (node_inputs n) /\ noBlanks (node_outputs n)).
Proof.
  intros Hg. split.
  - intros e He. destruct (build_success _ _ _ Hg) as [_ [_ Heq]]. rewrite Heq in He.
    cbn [WorkflowGraph.edges] in He. rewrite flat_map_map in He.
    apply in_flat_map in He. destruct He as [s [_ He]].
    unfold mapGroup, emitGroup in He. cbn [fst] in He.
    apply in_mapi in He. destruct He as [r [i [_ ->]]].
    cbn [mapEdge edge_label edge_id edge_conditionText]. split; [|split].
    + destruct (nonEmpty (trimmedString (bedge_label (edge r)))) eqn:Hl.
      * now apply nonEmpty_true.
      * destruct (1 <? _)%nat; discriminate.
    + destruct (bedge_id (edge r)) as [id|]; [|exact I].
      apply someIfNonEmpty_notBlank, trim_idempotent.
    + apply someIfNonEmpty_notBlank.
      destruct (bedge_data (edge r)); [apply trimmedString_idempotent | reflexivity].
  - intros n Hn. rewrite (compiled_nodes _ _ _ Hg) in Hn.
    apply in_map_iff in Hn. destruct Hn as [id [<- _]].
    unfold mapNode, mapNodeOf.
    cbn [fst node_title node_agentId node_inputs node_outputs].
    destruct (Map.get (buildNodesById bnodes) id) as [b|]; [|cbn; auto].
    destruct (bnode_data b) as [d|]; [|cbn; auto].
    split; [apply someIfNonEmpty_notBlank, trimmedString_idempotent|].
    split; [apply someIfNonEmpty_notBlank, trimmedString_idempotent|].
    split.
    + pose proof (parseStringList_clean (data_inputs d)) as H.
      destruct (parseStringList (data_inputs d)); cbn [noBlanks]; [exact I|].
      split; [discriminate | exact H].
    + pose proof (parseStringList_clean (data_outputs d)) as H.
      destruct (parseStringList (data_outputs d)); cbn [noBlanks]; [exact I|].
      split; [discriminate | exact H].
Qed.

Lemma no_blank_strings_witness :
  exists g,
    graph (buildWorkflowGraphV11 codeUnitCompare padded_nodes padded_edges) = Some g
    /\ (forall e, In e (WorkflowGraph.edges g) ->
          edge_label e <> [] /\ notBlank (edge_id e) /\ notBlank (edge_conditionText e))
    /\ (forall n, In n (WorkflowGraph.nodes g) ->
          notBlank (node_title n) /\ notBlank (node_agentId n)
          /\ noBlanks (node_inputs n) /\ noBlanks (node_outputs n)).
Proof.
  eexists. split; [vm_compute; reflexivity|].
  apply (@no_blank_strings codeUnitCompare padded_nodes padded_edges).
  vm_compute. reflexivity.
Defined.

(** X7. A node whose [type] is none of the five node types is emitted
    as a [step]; when that [type] is truthy the warning that names the
    node and the type is pushed. *)
Theorem unknown_type_falls_back localeCompare bnodes bedges g n b :
  graph (buildWorkflowGraphV11 localeCompare bnodes bedges) = Some g ->
  In n (WorkflowGraph.nodes g) ->
  lastNode bnodes (node_id n) = Some b ->
  isNodeType (bnode_type b) = None ->
  node_type n = step
  /\ (truthy (bnode_type b) = true ->
      In (WarnUnknownNodeType (node_id n) (bnode_type b))
         (warnings (buildWorkflowGraphV11 localeCompare bnodes bedges))).
Proof.
  intros Hg Hn Hlast Htype. rewrite (compiled_nodes _ _ _ Hg) in Hn.
  apply in_map_iff in Hn. destruct Hn as [id [<- Hid]].
  cbn [mapNode mapNodeOf fst node_id] in Hlast |- *.
  assert (Hne : id <> []).
  { apply sort_in in Hid. apply nodeIds_nonEmpty in Hid. now apply nonEmpty_true. }
  assert (Hget : Map.get (buildNodesById bnodes) id = Some b).
  { rewrite nodesById_get by exact Hne. exact Hlast. }
  split.
  - unfold mapNode, mapNodeOf. rewrite Hget. cbn [fst node_type]. now rewrite Htype.
  - intros Htruthy. rewrite (build_warnings _ _ _ Hg). cbv zeta.
    apply in_or_app. right. apply in_or_app. left.
    apply in_flat_map. exists (mapNode (buildNodesById bnodes) id).
    split; [now apply in_map|].
    unfold mapNode, mapNodeOf. rewrite Hget. cbn [snd]. rewrite Htype, Htruthy.
    now left.
Qed.

Lemma unknown_type_falls_back_witness :
  exists g n,
    graph (buildWorkflowGraphV11 codeUnitCompare oddType_nodes []) = Some g
    /\ In n (WorkflowGraph.nodes g)
    /\ node_type n = step
    /\ In (WarnUnknownNodeType (u "a") (JStr (u "gateway")))
          (warnings (buildWorkflowGraphV11 codeUnitCompare oddType_nodes [])).
Proof.
  eexists. eexists. split; [vm_compute; reflexivity|]. split; [now left|].
  destruct (@unknown_type_falls_back codeUnitCompare oddType_nodes [] _ _
              {| bnode_id := u "a"; bnode_type := JStr (u "gateway"); bnode_data := None |}
              ltac:(vm_compute; reflexivity) ltac:(now left)
              ltac:(vm_compute; reflexivity) ltac:(vm_compute; reflexivity))
    as [Hstep Hwarn].
  split; [exact Hstep | apply Hwarn; reflexivity].
Defined.

End GraphDocument.

(* ================================================================== *)
(** * The traversal visits every node of an acyclic graph *)
(* ================================================================== *)

Module TraversalComplete.
Import JS WorkflowGraph GraphSpec GraphClaims GraphExamples GraphMore.
Import MapFacts SortFacts GraphInputs Traversal GraphOutput GraphTheorems.
Import GraphRejections.

(** ** Cycles in finite graphs *)

Section Chains.
Variable R : jsstring -> jsstring -> Prop.

Lemma chain_tail a l : chain R (a :: l) -> chain R l.
Proof. destruct l as [|b l]; simpl; tauto. Qed.

Lemma chain_suffix l1 : forall l2, chain R (l1 ++ l2) -> chain R l2.
Proof.
  induction l1 as [|a l1 IH]; intros l2 H; [exact H|].
  apply IH. eapply chain_tail. exact H.
Qed.

Lemma chain_prefix l1 : forall l2, chain R (l1 ++ l2) -> chain R l1.
Proof.
  induction l1 as [|a l1 IH]; intros l2 H; [exact I|].
  destruct l1 as [|b l1]; [exact I|]. simpl in H |- *.
  destruct H as [Hab H]. split; [exact Hab|]. apply (IH l2). exact H.
Qed.

Lemma chain_path m : forall a b, chain R (a :: m ++ [b]) -> clos_trans jsstring R a b.
Proof.
  induction m as [|c m IH]; intros a b H; simpl in H.
  - apply t_step. tauto.
  - destruct H as [Hac H]. eapply t_trans; [apply t_step; exact Hac|].
    apply IH. exact H.
Qed.

Lemma repeated_element (l : list jsstring) :
  ~ NoDup l -> exists x l1 l2 l3, l = l1 ++ x :: l2 ++ x :: l3.
Proof.
  induction l as [|a l IH]; intros H; [exfalso; apply H; constructor|].
  destruct (in_dec str_eq_dec a l) as [Hin|Hnin].
  - apply in_split in Hin. destruct Hin as [l2 [l3 ->]]. exists a, [], l2, l3. reflexivity.
  - destruct IH as [x [l1 [l2 [l3 ->]]]].
    + intros Hnd. apply H. now constructor.
    + exists x, (a :: l1), l2, l3. reflexivity.
Qed.

(** In a non-empty finite set each of whose elements has a
    predecessor in the set, some element lies on a cycle. *)
Lemma closed_set_has_cycle (U : list jsstring) :
  U <> [] ->
  (forall x, In x U -> exists p, In p U /\ R p x) ->
  exists c, clos_trans jsstring R c c.
Proof.
  intros Hne Hpred.
  assert (Hlong : forall n, exists l, length l = S n /\ incl l U /\ chain R l).
  { induction n as [|n [l [Hlen [Hincl Hchain]]]].
    - destruct U as [|x0 U']; [congruence|]. exists [x0].
      repeat split. intros x [<-|[]]. now left.
    - destruct l as [|a l]; [discriminate Hlen|].
      destruct (Hpred a (Hincl a (or_introl eq_refl))) as [p [Hp Hpa]].
      exists (p :: a :: l). split; [simpl in *; lia|]. split.
      + intros x [<-|Hx]; [exact Hp | now apply Hincl].
      + simpl. split; [exact Hpa | exact Hchain]. }
  destruct (Hlong (length U)) as [l [Hlen [Hincl Hchain]]].
  assert (Hdup : ~ NoDup l).
  { intros Hnd. pose proof (NoDup_incl_length Hnd Hincl). lia. }
  destruct (repeated_element Hdup) as [x [l1 [l2 [l3 ->]]]].
  exists x. apply chain_path with (m := l2).
  apply chain_suffix in Hchain.
  change (x :: l2 ++ x :: l3) with ((x :: l2) ++ [x] ++ l3) in Hchain.
  rewrite app_assoc in Hchain. apply chain_prefix in Hchain.
  rewrite <- app_comm_cons in Hchain. exact Hchain.
Qed.
End Chains.

(** ** The nodes that reach zero are queued *)

(** An edge into [v] that is not counted among the edges that leave
    [l]. *)
Lemma unprocessed_edge E (l : list jsstring) v :
  NoDup l ->
  (count_occ str_eq_dec (flat_map (targetsOf E) l) v
   < count_occ str_eq_dec (List.map tgt E) v)%nat ->
  exists r, In r E /\ tgt r = v /\ ~ In (src r) l.
Proof.
  intros Hl. induction E as [|r E IH]; intros Hlt.
  - exfalso. simpl in Hlt. lia.
  - rewrite processed_cons in Hlt. simpl in Hlt.
    destruct (str_eq_dec (tgt r) v) as [Htgt|Htgt].
    + destruct (in_dec str_eq_dec (src r) l) as [Hin|Hnin].
      * assert (Hone : (count_occ str_eq_dec l (src r) >= 1)%nat).
        { apply (count_occ_In str_eq_dec) in Hin. lia. }
        destruct IH as [r' [Hr' H]]; [lia|]. exists r'. split; [now right | exact H].
      * exists r. split; [now left|]. tauto.
    + destruct IH as [r' [Hr' H]]; [lia|]. exists r'. split; [now right | exact H].
Qed.

Lemma relax_complete tos : forall queue nxt v,
  In v queue \/ 0 < Map.get0 nxt v <= Z.of_nat (count_occ str_eq_dec tos v) ->
  In v (fst (relax tos queue nxt)).
Proof.
  induction tos as [|to tos IH]; intros queue nxt v H; cbn [relax].
  - cbn [fst]. destruct H as [H|H]; [exact H|]. simpl in H. lia.
  - apply IH. destruct H as [H|H].
    + left. destruct (_ =? 0); [apply in_or_app; now left | exact H].
    + destruct (str_eq_dec to v) as [->|Hne].
      * rewrite get0_set_same. cbn [count_occ] in H.
        destruct (str_eq_dec v v) as [_|Hn]; [|congruence].
        destruct (Z.eqb_spec (Map.get0 nxt v - 1) 0) as [Hz|Hz].
        -- left. apply in_or_app. right. now left.
        -- right. lia.
      * rewrite get0_set_other by exact Hne. cbn [count_occ] in H.
        destruct (str_eq_dec to v) as [Heq|_]; [congruence|].
        right. exact H.
Qed.

Section Complete.
Variable nodeIds : list jsstring.
Variable E : list EdgeRecord.
Variable outgoing : Map.t (list jsstring).

Hypothesis nodeIds_NoDup : NoDup nodeIds.
Hypothesis nodeIds_nonEmpty : forall id, In id nodeIds -> nonEmpty id = true.
Hypothesis targets_known : forall r, In r E -> In (tgt r) nodeIds.
Hypothesis sources_known : forall r, In r E -> In (src r) nodeIds.
Hypothesis outgoing_spec : forall a,
  In a nodeIds -> Map.get outgoing a = Some (targetsOf E a).

Let never (v : jsstring) : Prop := False.

Lemma never_pred : forall c, never c -> exists r, In r E /\ tgt r = c /\ never (src r).
Proof. intros c []. Qed.

Lemma Full_step done id queue nxt :
  Inv nodeIds E never done (id :: queue) nxt ->
  Full nodeIds done (id :: queue) nxt ->
  Full nodeIds (done ++ [id]) (fst (relax (targetsOf E id) queue nxt))
       (snd (relax (targetsOf E id) queue nxt)).
Proof.
  intros HI HF v Hv Hle.
  destruct (relax_spec (targetsOf E id) queue nxt) as [Hnxt _].
  rewrite Hnxt in Hle.
  destruct (Z_le_gt_dec (Map.get0 nxt v) 0) as [Hold|Hpos].
  - specialize (HF v Hv Hold). rewrite <- app_assoc. cbn [app].
    apply in_app_or in HF. apply in_or_app.
    destruct HF as [HF|[<-|HF]]; [now left | right; now left |].
    right. right. apply relax_complete. now left.
  - apply in_or_app. right. apply relax_complete. right. lia.
Qed.

Lemma kahn_full fuel : forall done queue nxt visited,
  Inv nodeIds E never done queue nxt ->
  Full nodeIds done queue nxt ->
  visited = Z.of_nat (length done) ->
  exists done' nxt',
    fst (kahn fuel outgoing queue nxt visited) = Z.of_nat (length done')
    /\ Inv nodeIds E never done' (snd (kahn fuel outgoing queue nxt visited)) nxt'
    /\ Full nodeIds done' (snd (kahn fuel outgoing queue nxt visited)) nxt'
    /\ ((length nodeIds <= fuel + length done)%nat ->
        snd (kahn fuel outgoing queue nxt visited) = []).
Proof.
  induction fuel as [|fuel IH]; intros done queue nxt visited HI HF Hv; cbn [kahn].
  - exists done, nxt. split; [assumption|]. split; [assumption|]. split; [assumption|].
    intros Hlen. destruct HI as [Hnd Hnodes _ _ _].
    pose proof (NoDup_incl_length Hnd Hnodes) as Hle.
    rewrite length_app in Hle. apply length_zero_iff_nil. cbn [fst snd]. lia.
  - destruct queue as [|id queue].
    + exists done, nxt. auto.
    + assert (Hid : In id nodeIds).
      { apply (inv_nodes HI). rewrite in_app_iff. simpl. auto. }
      rewrite (nodeIds_nonEmpty _ Hid). cbn [negb].
      rewrite (outgoing_spec _ Hid).
      pose proof (@Inv_step nodeIds E targets_known never never_pred
                            done id queue nxt HI) as HI'.
      pose proof (Full_step HI HF) as HF'.
      destruct (relax (targetsOf E id) queue nxt) as [queue' nxt'] eqn:Hr.
      cbn [fst snd] in HI', HF'.
      destruct (IH (done ++ [id]) queue' nxt' (visited + 1) HI' HF')
        as [done' [nxt'' [H1 [H2 [H3 H4]]]]].
      { rewrite length_app. simpl. lia. }
      exists done', nxt''. repeat (split; [assumption|]).
      intros Hlen. apply H4. rewrite length_app. simpl. lia.
Qed.

Variable indegree : Map.t Z.
Hypothesis indegree_spec : forall v, Map.get0 indegree v = indegreeOf E v.

Lemma Full_initial : Full nodeIds [] (zeroIndegree indegree nodeIds) indegree.
Proof.
  intros v Hv Hle. cbn [app]. unfold zeroIndegree. apply filter_In.
  split; [exact Hv|]. apply Z.eqb_eq. rewrite indegree_spec in *.
  unfold indegreeOf in *. lia.
Qed.

(** When the traversal stops short of the node count, some node lies
    on a cycle of valid edges. *)
Lemma short_visit_cycle :
  fst (kahn (length nodeIds) outgoing (zeroIndegree indegree nodeIds) indegree 0)
  <> Z.of_nat (length nodeIds) ->
  exists c, clos_trans jsstring (edgeIn E) c c.
Proof.
  intros Hshort.
  pose proof (@Inv_initial nodeIds E nodeIds_NoDup never never_pred indegree
                           indegree_spec) as HI0.
  destruct (@kahn_full (length nodeIds) [] _ _ 0 HI0 Full_initial eq_refl)
    as [done' [nxt' [Hv [HI [HF Hq]]]]].
  rewrite Hv in Hshort. rewrite (Hq ltac:(simpl; lia)) in HI, HF.
  destruct HI as [Hnd Hnodes _ Hcount _]. rewrite app_nil_r in *.
  unfold Full in HF. setoid_rewrite app_nil_r in HF.
  set (U := filter (fun v => if in_dec str_eq_dec v done' then false else true) nodeIds).
  assert (HU : forall v, In v U <-> In v nodeIds /\ ~ In v done').
  { intros v. unfold U. rewrite filter_In.
    destruct (in_dec str_eq_dec v done'); intuition congruence. }
  destruct U as [|u0 U'] eqn:HUeq.
  - exfalso.
    assert (Hincl : incl nodeIds done').
    { intros v Hv'. destruct (in_dec str_eq_dec v done') as [Hin|Hnin]; [exact Hin|].
      exfalso. apply (proj2 (HU v)). tauto. }
    pose proof (NoDup_incl_length nodeIds_NoDup Hincl).
    pose proof (NoDup_incl_length Hnd Hnodes). lia.
  - apply (@closed_set_has_cycle (edgeIn E) (u0 :: U')); [discriminate|].
    intros x Hx. apply HU in Hx. destruct Hx as [HxN Hxd].
    assert (Hpos : 0 < Map.get0 nxt' x).
    { destruct (Z_le_gt_dec (Map.get0 nxt' x) 0) as [Hle|Hgt]; [|lia].
      exfalso. apply Hxd. now apply HF. }
    rewrite Hcount in Hpos. unfold indegreeOf, processed in Hpos.
    destruct (@unprocessed_edge E done' x Hnd ltac:(lia)) as [r [Hr [Htgt Hsrc]]].
    exists (src r). split.
    + apply HU. split; [now apply sources_known | exact Hsrc].
    + exists r. auto.
Qed.
End Complete.

End TraversalComplete.

(* ================================================================== *)
(** * Which graphs compile *)
(* ================================================================== *)

Module CompilerComplete.
Import JS WorkflowGraph GraphSpec GraphClaims GraphExamples GraphMore.
Import MapFacts SortFacts GraphInputs Traversal GraphOutput GraphTheorems.
Import GraphRejections TraversalComplete.


(** When the traversal of the compiler stops short of the node count,
    the resolved edges contain a cycle. *)
Lemma short_visit_has_cycle bnodes bedges :
  visitedCount bnodes bedges <> nodeCount bnodes ->
  hasCycle (resolvedEdge bnodes bedges).
Proof.
  unfold visitedCount, nodeCount.
  set (nodeIds := Map.keys (buildNodesById bnodes)).
  set (E := fst (validateEdges (buildNodesById bnodes) bedges 0)).
  intros Hshort.
  destruct (@short_visit_cycle nodeIds E (snd (degrees nodeIds E))) with
    (indegree := fst (degrees nodeIds E)) as [c Hc].
  - apply nodeIds_NoDup.
  - apply nodeIds_nonEmpty.
  - intros r Hr. apply nodeIds_spec. apply validEdges_spec in Hr. tauto.
  - intros r Hr. apply nodeIds_spec. apply validEdges_spec in Hr. tauto.
  - intros a Ha. rewrite degrees_outgoing.
    destruct (in_dec str_eq_dec a nodeIds); [reflexivity | contradiction].
  - intros v. apply degrees_indegree.
  - exact Hshort.
  - exists c. revert Hc. apply clos_trans_incl.
    intros a b [r [Hr [Hs Ht]]]. apply validEdges_resolved. eauto.
Qed.

(** X8. The cycle error is reported exactly for the inputs whose
    resolved edges contain a directed cycle: an acyclic graph is never
    rejected as cyclic. *)
Theorem cycle_error_exact localeCompare bnodes bedges :
  In ErrCycle (errors (buildWorkflowGraphV11 localeCompare bnodes bedges))
  <-> hasCycle (resolvedEdge bnodes bedges).
Proof.
  split.
  - intros Herr.
    assert (Hnodes : bnodes <> []).
    { intros ->. cbn in Herr. destruct Herr as [H|[]]. discriminate H. }
    apply (cycle_error_iff localeCompare bedges Hnodes) in Herr.
    destruct Herr as [_ Hlt]. apply short_visit_has_cycle. lia.
  - intros Hc. apply (cycle_detected localeCompare Hc).
Qed.



End CompilerComplete.

(* ================================================================== *)
(** * Slugs *)
(* ================================================================== *)

Module SlugCanonical.
Import JS Utils AgentsManifest AgentsSpec AgentsMore MapFacts SlugFacts.

(** ** Stripping a class from both ends *)

Lemma stripStart_split cls s :
  exists pre, s = pre ++ stripStart cls s
              /\ match stripStart cls s with [] => True | c :: _ => cls c = false end.
Proof.
  induction s as [|c s IH]; simpl.
  - exists []. auto.
  - destruct (cls c) eqn:Hc.
    + destruct IH as [pre [Hs Hhead]]. exists (c :: pre).
      split; [simpl; congruence | exact Hhead].
    + exists []. simpl. auto.
Qed.

Lemma stripStart_fixed cls s :
  match s with [] => True | c :: _ => cls c = false end -> stripStart cls s = s.
Proof. destruct s as [|c s]; simpl; [reflexivity | intros ->; reflexivity]. Qed.

Lemma stripEnd_fixed cls s :
  match rev s with [] => True | c :: _ => cls c = false end -> stripEnd cls s = s.
Proof.
  intros H. unfold stripEnd. rewrite stripStart_fixed by exact H. apply rev_involutive.
Qed.

Lemma stripEnd_split cls s :
  exists post, s = stripEnd cls s ++ post
               /\ match rev (stripEnd cls s) with [] => True | c :: _ => cls c = false end.
Proof.
  unfold stripEnd. destruct (stripStart_split cls (rev s)) as [pre [Hs Hhead]].
  exists (rev pre). split.
  - rewrite <- rev_app_distr, <- Hs. now rewrite rev_involutive.
  - now rewrite rev_involutive.
Qed.

(** Stripped at both ends, a string is empty, or starts and ends outside
    the class. *)
Lemma strip_both cls s :
  let t := stripEnd cls (stripStart cls s) in
  t = []
  \/ exists a b, t = a :: b /\ cls a = false
                 /\ match rev t with [] => True | c :: _ => cls c = false end.
Proof.
  cbv zeta. destruct (stripStart_split cls s) as [_ [_ Hhead]].
  destruct (stripEnd_split cls (stripStart cls s)) as [post [Hs Hlast]].
  destruct (stripEnd cls (stripStart cls s)) as [|a b] eqn:Ht; [now left|].
  right. exists a, b. split; [reflexivity|]. split; [|exact Hlast].
  rewrite Hs in Hhead. exact Hhead.
Qed.

(** ** Runs of dashes *)

Lemma isDash_eq c : isDash c = true -> c = 45%N.
Proof. unfold isDash. apply N.eqb_eq. Qed.

Lemma noDashPair_tail a s : noDashPair (a :: s) = true -> noDashPair s = true.
Proof.
  destruct s as [|b s]; [reflexivity|].
  change (noDashPair (a :: b :: s))
    with (negb (isDash a && isDash b) && noDashPair (b :: s)).
  intros H. apply andb_true_iff in H. tauto.
Qed.

Lemma noDashPair_suffix l1 : forall l2,
  noDashPair (l1 ++ l2) = true -> noDashPair l2 = true.
Proof.
  induction l1 as [|a l1 IH]; intros l2 H; [exact H|].
  apply IH. eapply noDashPair_tail. exact H.
Qed.

Lemma noDashPair_prefix l1 : forall l2,
  noDashPair (l1 ++ l2) = true -> noDashPair l1 = true.
Proof.
  induction l1 as [|a l1 IH]; intros l2 H; [reflexivity|].
  destruct l1 as [|b l1]; [reflexivity|].
  change (noDashPair ((a :: b :: l1) ++ l2))
    with (negb (isDash a && isDash b) && noDashPair ((b :: l1) ++ l2)) in H.
  change (noDashPair (a :: b :: l1))
    with (negb (isDash a && isDash b) && noDashPair (b :: l1)).
  apply andb_true_iff in H. destruct H as [Hab H].
  rewrite Hab. cbn [andb]. apply (IH l2). exact H.
Qed.

Lemma noDashPair_cons a s :
  noDashPair s = true ->
  (isDash a = true -> match s with [] => True | c :: _ => isDash c = false end) ->
  noDashPair (a :: s) = true.
Proof.
  intros Hs Ha. destruct s as [|b s]; [reflexivity|].
  change (noDashPair (a :: b :: s))
    with (negb (isDash a && isDash b) && noDashPair (b :: s)).
  rewrite Hs, andb_true_r. destruct (isDash a); [|reflexivity].
  now rewrite (Ha eq_refl).
Qed.

(** Collapsing the runs of dashes leaves no two dashes in a row. *)
Lemma collapse_noDashPair s : forall inRun,
  noDashPair (replaceRunsFrom isDash (u "-") inRun s) = true
  /\ (inRun = true ->
      match replaceRunsFrom isDash (u "-") inRun s with
      | [] => True
      | c :: _ => isDash c = false
      end).
Proof.
  induction s as [|c s IH]; intros inRun; cbn [replaceRunsFrom]; [auto|].
  destruct (isDash c) eqn:Hc.
  - destruct (IH true) as [Hnd Hhead]. destruct inRun; cbn [app].
    + split; [exact Hnd | intros _; now apply Hhead].
    + split; [|discriminate].
      change (u "-" ++ replaceRunsFrom isDash (u "-") true s)
        with (45%N :: replaceRunsFrom isDash (u "-") true s).
      apply noDashPair_cons; [exact Hnd | intros _; now apply Hhead].
  - destruct (IH false) as [Hnd _]. split; [|intros _; exact Hc].
    apply noDashPair_cons; [exact Hnd | rewrite Hc; discriminate].
Qed.

(** A string without two dashes in a row is left as it is. *)
Lemma collapse_fixed s : forall inRun,
  noDashPair s = true ->
  (inRun = true -> match s with [] => True | c :: _ => isDash c = false end) ->
  replaceRunsFrom isDash (u "-") inRun s = s.
Proof.
  induction s as [|c s IH]; intros inRun Hnd Hhead; cbn [replaceRunsFrom]; [reflexivity|].
  destruct (isDash c) eqn:Hc.
  - destruct inRun; [specialize (Hhead eq_refl); cbn in Hhead; congruence|].
    apply isDash_eq in Hc. subst c.
    change (u "-" ++ replaceRunsFrom isDash (u "-") true s)
      with (45%N :: replaceRunsFrom isDash (u "-") true s).
    f_equal. apply IH; [eapply noDashPair_tail; exact Hnd|].
    intros _. destruct s as [|b s]; [exact I|].
    change (noDashPair (45%N :: b :: s))
      with (negb (isDash 45 && isDash b) && noDashPair (b :: s)) in Hnd.
    apply andb_true_iff in Hnd. destruct Hnd as [Hnd _].
    change (isDash 45) with true in Hnd. cbn [andb] in Hnd.
    now apply negb_true_iff in Hnd.
  - f_equal. apply IH; [eapply noDashPair_tail; exact Hnd | discriminate].
Qed.

(** A string with no code unit of the class is left as it is. *)
Lemma replaceRuns_none cls by_ s : forall inRun,
  forallb (fun c => negb (cls c)) s = true -> replaceRunsFrom cls by_ inRun s = s.
Proof.
  induction s as [|c s IH]; intros inRun H; cbn [replaceRunsFrom]; [reflexivity|].
  cbn [forallb] in H. apply andb_true_iff in H. destruct H as [Hc Hs].
  apply negb_true_iff in Hc. rewrite Hc. f_equal. now apply IH.
Qed.

(** ** Slug characters are not white space *)

Lemma isSlugChar_not_space c : isSlugChar c = true -> isWhiteSpace c = false.
Proof.
  unfold isSlugChar, isWhiteSpace. intros H.
  repeat match type of H with
         | (_ || _)%bool = true => apply orb_true_iff in H; destruct H as [H|H]
         | (_ && _)%bool = true => apply andb_true_iff in H; destruct H as [? H]
         end;
    repeat match goal with
           | X : (_ <=? _)%N = true |- _ => apply N.leb_le in X
           | X : (_ =? _)%N = true |- _ => apply N.eqb_eq in X
           end;
    repeat match goal with
           | |- (_ || _)%bool = false => apply orb_false_iff; split
           | |- (_ && _)%bool = false => apply andb_false_iff
           end;
    try (apply N.eqb_neq; lia);
    try (left; apply N.leb_gt; lia); try (right; apply N.leb_gt; lia).
Qed.

Lemma trim_slug s : forallb isSlugChar s = true -> trim s = s.
Proof.
  intros H. unfold trim, trimEnd.
  assert (Hstart : forall t, forallb isSlugChar t = true -> trimStart t = t).
  { intros [|c t] Ht; [reflexivity|]. cbn [forallb] in Ht.
    apply andb_true_iff in Ht. destruct Ht as [Hc _].
    cbn [trimStart]. now rewrite (isSlugChar_not_space _ Hc). }
  rewrite (Hstart s H). rewrite Hstart; [apply rev_involutive|].
  rewrite forallb_forall in *. intros x Hx. apply H. now apply in_rev.
Qed.

(** ** The slug *)

Lemma slug_chars toLowerCase input :
  let trimmed := toLowerCase (trim input) in
  Forall (fun c => isSlugChar c = true)
         (replaceRuns (fun c => negb (isSlugChar c)) (u "-") trimmed).
Proof.
  cbv zeta. apply replaceRunsFrom_all; [repeat constructor|].
  intros c _ Hc. now apply negb_false_iff in Hc.
Qed.

Lemma isLowerAlnum_not_dash c : isLowerAlnum c = true -> isDash c = false.
Proof.
  unfold isLowerAlnum, isDash. intros H. apply N.eqb_neq.
  apply orb_true_iff in H. destruct H as [H|H]; apply andb_true_iff in H;
    destruct H as [H1 H2]; apply N.leb_le in H1, H2; lia.
Qed.

Lemma canonical_output toLowerCase input :
  isCanonicalSlug (slugifyAgentId toLowerCase input) = true.
Proof.
  unfold slugifyAgentId.
  set (collapsed := replaceRuns isDash (u "-")
                      (replaceRuns (fun c => negb (isSlugChar c)) (u "-")
                                   (toLowerCase (trim input)))).
  assert (Hchars : Forall (fun c => isSlugChar c = true) collapsed).
  { unfold collapsed. apply replaceRunsFrom_all; [repeat constructor|].
    intros c Hc _. revert c Hc. apply Forall_forall. apply slug_chars. }
  assert (Hpairs : noDashPair collapsed = true).
  { unfold collapsed, replaceRuns. apply collapse_noDashPair. }
  set (cleaned := stripEnd isDash (stripStart isDash collapsed)).
  assert (Hc1 : Forall (fun c => isSlugChar c = true) cleaned).
  { unfold cleaned. now apply stripEnd_all, stripStart_all. }
  assert (Hc2 : noDashPair cleaned = true).
  { unfold cleaned.
    destruct (stripStart_split isDash collapsed) as [pre [Hs _]].
    destruct (stripEnd_split isDash (stripStart isDash collapsed)) as [post [Hs' _]].
    rewrite Hs in Hpairs. apply noDashPair_suffix in Hpairs.
    rewrite Hs' in Hpairs. now apply noDashPair_prefix in Hpairs. }
  pose proof (strip_both isDash collapsed) as Hends. cbv zeta in Hends.
  fold cleaned in Hends.
  destruct Hends as [Hnil|[a [b [Hab [Ha Hlast]]]]].
  - rewrite Hnil. reflexivity.
  - rewrite Hab. rewrite Hab in Hc1, Hc2, Hlast.
    assert (Hall : forallb isSlugChar (a :: b) = true).
    { apply forallb_forall. apply Forall_forall. exact Hc1. }
    assert (Hlast' : match rev (a :: b) with c :: _ => negb (isDash c) | [] => false end
                     = true).
    { destruct (rev (a :: b)) as [|c l] eqn:Hr.
      - apply (f_equal (@length N)) in Hr. rewrite length_rev in Hr. discriminate Hr.
      - now rewrite Hlast. }
    destruct (isLowerAlnum a) eqn:Hlow.
    + unfold isCanonicalSlug. rewrite Hall, Hlow, Hc2, Hlast'. reflexivity.
    + unfold isCanonicalSlug.
      change (u "agent-" ++ a :: b) with (u "agent" ++ 45%N :: a :: b).
      assert (H1 : forallb isSlugChar (u "agent" ++ 45%N :: a :: b) = true).
      { rewrite forallb_app. cbn [forallb] in Hall |- *. rewrite Hall. reflexivity. }
      assert (H3 : noDashPair (u "agent" ++ 45%N :: a :: b) = true).
      { change (u "agent" ++ 45%N :: a :: b)
          with (97%N :: 103%N :: 101%N :: 110%N :: 116%N :: 45%N :: a :: b).
        do 5 (apply noDashPair_cons; [|intros H; vm_compute in H; discriminate H]).
        apply noDashPair_cons; [exact Hc2 | intros _; exact Ha]. }
      assert (H4 : match rev (u "agent" ++ 45%N :: a :: b) with
                   | c :: _ => negb (isDash c) | [] => false end = true).
      { rewrite rev_app_distr.
        change (rev (45%N :: a :: b)) with (rev (a :: b) ++ [45%N]).
        destruct (rev (a :: b)) as [|c l]; [discriminate Hlast'|]. exact Hlast'. }
      rewrite H1, H3, H4. reflexivity.
Qed.

Lemma canonical_fixed toLowerCase input :
  (forall s, forallb isSlugChar s = true -> toLowerCase s = s) ->
  isCanonicalSlug input = true ->
  slugifyAgentId toLowerCase input = input.
Proof.
  intros Hlower Hcan. unfold isCanonicalSlug in Hcan.
  apply andb_true_iff in Hcan. destruct Hcan as [Hcan Hlast].
  apply andb_true_iff in Hcan. destruct Hcan as [Hcan Hpairs].
  apply andb_true_iff in Hcan. destruct Hcan as [Hchars Hhead].
  destruct input as [|c s]; [discriminate Hhead|].
  unfold slugifyAgentId. cbv zeta. rewrite (trim_slug _ Hchars), (Hlower _ Hchars).
  assert (Hclean :
    stripEnd isDash
      (stripStart isDash
         (replaceRuns isDash (u "-")
            (replaceRuns (fun c => negb (isSlugChar c)) (u "-") (c :: s))))
    = c :: s).
  { unfold replaceRuns.
    rewrite (@replaceRuns_none (fun c => negb (isSlugChar c)) (u "-") (c :: s) false).
    2:{ apply forallb_forall. intros x Hx. rewrite forallb_forall in Hchars.
        rewrite (Hchars x Hx). reflexivity. }
    rewrite collapse_fixed by (exact Hpairs || discriminate).
    rewrite stripStart_fixed by (now apply isLowerAlnum_not_dash).
    apply stripEnd_fixed.
    destruct (rev (c :: s)); [exact I|]. now apply negb_true_iff in Hlast. }
  rewrite !Hclean. rewrite Hhead. reflexivity.
Qed.

(** X10. [slugifyAgentId] always yields a slug in canonical form
    (code units of [[a-z0-9._:-]], a letter or digit first, no two
    dashes in a row, no dash at the end); when lower-casing leaves such
    strings alone, a string already in canonical form is returned
    unchanged, so that slugifying twice is the same as slugifying
    once. *)
Theorem slugify_canonical (toLowerCase : jsstring -> jsstring) (input : jsstring) :
  (forall s, forallb isSlugChar s = true -> toLowerCase s = s) ->
  isCanonicalSlug (slugifyAgentId toLowerCase input) = true
  /\ (isCanonicalSlug input = true -> slugifyAgentId toLowerCase input = input)
  /\ slugifyAgentId toLowerCase (slugifyAgentId toLowerCase input)
     = slugifyAgentId toLowerCase input.
Proof.
  intros Hlower. split; [apply canonical_output|]. split.
  - now apply canonical_fixed.
  - apply canonical_fixed; [exact Hlower | apply canonical_output].
Qed.

Lemma asciiLowerCase_slug s : forallb isSlugChar s = true -> asciiLowerCase s = s.
Proof.
  intros H. unfold asciiLowerCase. rewrite <- (map_id s) at 2.
  apply map_ext_in. intros c Hc. rewrite forallb_forall in H. specialize (H c Hc).
  destruct ((65 <=? c) && (c <=? 90))%N eqn:Hup; [|reflexivity].
  exfalso. apply andb_true_iff in Hup. destruct Hup as [H1 H2].
  apply N.leb_le in H1, H2. unfold isSlugChar in H.
  repeat match type of H with
         | (_ || _)%bool = true => apply orb_true_iff in H; destruct H as [H|H]
         | (_ && _)%bool = true => apply andb_true_iff in H; destruct H as [? H]
         end;
    repeat match goal with
           | X : (_ <=? _)%N = true |- _ => apply N.leb_le in X
           | X : (_ =? _)%N = true |- _ => apply N.eqb_eq in X
           end; lia.
Qed.

Lemma slugify_canonical_witness :
  slugifyAgentId asciiLowerCase (u "  Product  Manager!! ") = u "product-manager"
  /\ slugifyAgentId asciiLowerCase (u "product-manager") = u "product-manager".
Proof.
  split; [vm_compute; reflexivity|].
  apply (proj1 (proj2 (@slugify_canonical asciiLowerCase (u "product-manager")
                         asciiLowerCase_slug))).
  vm_compute. reflexivity.
Defined.

End SlugCanonical.

(* ================================================================== *)
(** * Fresh agent ids *)
(* ================================================================== *)

Module AgentIds.
Import JS Utils AgentsManifest AgentsSpec AgentsMore MapFacts SlugFacts AgentsTheorems.

(** ** Decimal numerals are distinct for distinct numbers *)

Lemma u_inj a b : u a = u b -> a = b.
Proof.
  unfold u. intros H.
  assert (Hl : list_ascii_of_string a = list_ascii_of_string b).
  { revert H. generalize (list_ascii_of_string a) (list_ascii_of_string b).
    induction l as [|x l IH]; intros [|y l'] H; try discriminate; [reflexivity|].
    cbn [List.map] in H. injection H as Hxy Hl. f_equal; [|now apply IH].
    rewrite <- (ascii_N_embedding x), <- (ascii_N_embedding y). now rewrite Hxy. }
  rewrite <- (string_of_list_ascii_of_string a), <- (string_of_list_ascii_of_string b).
  now rewrite Hl.
Qed.

Lemma to_int_proper z : Z.to_int z <> Decimal.Pos Decimal.Nil
                        /\ Z.to_int z <> Decimal.Neg Decimal.Nil.
Proof.
  destruct z as [|p|p]; cbn [Z.to_int]; split; try discriminate;
    intros H; injection H as H; now apply (DecimalPos.Unsigned.to_uint_nonnil p).
Qed.

Lemma String_of_Z_inj a b : String_of_Z a = String_of_Z b -> a = b.
Proof.
  unfold String_of_Z. intros H. apply u_inj in H.
  apply DecimalZ.to_int_inj.
  destruct (to_int_proper a) as [Ha1 Ha2]. destruct (to_int_proper b) as [Hb1 Hb2].
  pose proof (@NilZero.isi _ Ha1 Ha2) as Ia. pose proof (@NilZero.isi _ Hb1 Hb2) as Ib.
  rewrite H in Ia. congruence.
Qed.

(** The 999 candidates are pairwise distinct. *)
Lemma candidateIds_NoDup base : NoDup (candidateIds base).
Proof.
  unfold candidateIds. constructor.
  - intros Hin. apply in_map_iff in Hin. destruct Hin as [i [Heq _]].
    apply (f_equal (@length N)) in Heq. rewrite !length_app in Heq.
    change (length (u "-")) with 1%nat in Heq. lia.
  - assert (Hinj : forall l, NoDup l ->
              NoDup (List.map (fun i => base ++ u "-" ++ String_of_Z (Z.of_nat i)) l)).
    { induction 1 as [|x l Hx Hnd IH]; cbn [List.map]; constructor; [|exact IH].
      intros Hin. apply in_map_iff in Hin. destruct Hin as [y [Heq Hy]].
      apply app_inv_head in Heq. apply app_inv_head in Heq.
      apply String_of_Z_inj, Nat2Z.inj in Heq. congruence. }
    apply Hinj, seq_NoDup.
Qed.

(** Fewer than 999 taken ids leave a candidate free. *)
Lemma uniqueAgentId_not_taken toLowerCase now baseName existingIds :
  (length existingIds < 999)%nat ->
  ~ In (uniqueAgentId toLowerCase now baseName existingIds) existingIds.
Proof.
  intros Hlen.
  destruct (uniqueAgentId_cases toLowerCase baseName now existingIds)
    as [[_ Hnot]|[Hincl _]]; [exact Hnot|].
  exfalso.
  pose proof (NoDup_incl_length
                (candidateIds_NoDup (slugifyAgentId toLowerCase baseName)) Hincl) as Hle.
  rewrite candidateIds_length in Hle. lia.
Qed.

(** X11. [uniqueAgentId] returns the slug itself when it is not taken;
    and as long as fewer than 999 ids are taken, the id it returns is
    not among them. *)
Theorem uniqueAgentId_fresh toLowerCase now baseName existingIds :
  (~ In (slugifyAgentId toLowerCase baseName) existingIds ->
   uniqueAgentId toLowerCase now baseName existingIds = slugifyAgentId toLowerCase baseName)
  /\ ((length existingIds < 999)%nat ->
      ~ In (uniqueAgentId toLowerCase now baseName existingIds) existingIds).
Proof.
  split.
  - intros Hfree. unfold uniqueAgentId. apply setHas_false in Hfree. now rewrite Hfree.
  - apply uniqueAgentId_not_taken.
Qed.

Lemma uniqueAgentId_fresh_witness :
  uniqueAgentId asciiLowerCase 0 (u "Ann") [u "bob"] = u "ann"
  /\ ~ In (uniqueAgentId asciiLowerCase 0 (u "Ann") [u "ann"; u "ann-2"])
          [u "ann"; u "ann-2"].
Proof.
  destruct (uniqueAgentId_fresh asciiLowerCase 0 (u "Ann") [u "bob"]) as [H1 _].
  destruct (uniqueAgentId_fresh asciiLowerCase 0 (u "Ann") [u "ann"; u "ann-2"])
    as [_ H2].
  split.
  - rewrite H1; [vm_compute; reflexivity|].
    vm_compute. intros [H|[]]. discriminate H.
  - apply H2. cbn [length]. lia.
Defined.

End AgentIds.

(* ================================================================== *)
(** * What the agent manifest builder returns *)
(* ================================================================== *)

Module AgentsBuilderFacts.
Import JS Utils AgentsManifest AgentsSpec AgentsMore MapFacts SlugFacts AgentsTheorems.
Import AgentIds.

Section Builder.
Variable toLowerCase : jsstring -> jsstring.
Variable JSON_parse : jsstring -> option jsval.
Variable schemaValid : AgentsManifestV11 -> bool.
Variable schemaErrors : AgentsManifestV11 -> list ErrorObject.
Variable Date_now : nat -> Z.

Let build := buildAgentsManifestV11 toLowerCase JSON_parse schemaValid schemaErrors
                                    Date_now.

(** The builder, in terms of the state its loop leaves. *)
Lemma build_unfold agentsJsonRaw parsed :
  trim agentsJsonRaw <> [] ->
  JSON_parse (trim agentsJsonRaw) = Some parsed ->
  let st := loopState toLowerCase Date_now parsed in
  let errs := st_errors st
              ++ match st_agents st with [] => [ErrNoAgents] | _ :: _ => [] end in
  build agentsJsonRaw
  = match errs with
    | _ :: _ => {| manifest := None; warnings := st_warnings st; errors := errs |}
    | [] =>
        if schemaValid {| agents := st_agents st |}
        then {| manifest := Some {| agents := st_agents st |};
                warnings := st_warnings st; errors := [] |}
        else {| manifest := None; warnings := st_warnings st;
                errors := List.map ErrAgentsSchema
                            (formatAjvErrorList
                               (schemaErrors {| agents := st_agents st |})) |}
    end.
Proof.
  intros Hraw Hparse. cbv zeta. unfold build, buildAgentsManifestV11.
  apply nonEmpty_true in Hraw. rewrite Hraw, Hparse. cbn [negb]. cbv iota.
  change (match parsed with
          | JArr items =>
              forEachFrom (legacyItem toLowerCase Date_now)
                {| st_agents := []; st_seen := []; st_warnings := []; st_errors := [] |}
                items 0
          | JObj _ =>
              forEachFrom manifestItem
                {| st_agents := []; st_seen := [];
                   st_warnings := schemaVersionWarnings parsed; st_errors := [] |}
                match prop parsed "agents" with JArr items => items | _ => [] end 0
          | _ => pushError
                   {| st_agents := []; st_seen := []; st_warnings := []; st_errors := [] |}
                   ErrAgentsJsonShape
          end) with (loopState toLowerCase Date_now parsed).
  set (st := loopState toLowerCase Date_now parsed).
  destruct (st_errors st ++ match st_agents st with [] => [ErrNoAgents] | _ :: _ => [] end);
    [|reflexivity].
  unfold validateAgentsManifestV11.
  destruct (schemaValid {| agents := st_agents st |}); reflexivity.
Qed.

Lemma build_some agentsJsonRaw m :
  manifest (build agentsJsonRaw) = Some m ->
  exists parsed,
    trim agentsJsonRaw <> []
    /\ JSON_parse (trim agentsJsonRaw) = Some parsed
    /\ st_errors (loopState toLowerCase Date_now parsed) = []
    /\ st_agents (loopState toLowerCase Date_now parsed) <> []
    /\ m = {| agents := st_agents (loopState toLowerCase Date_now parsed) |}
    /\ schemaValid m = true
    /\ errors (build agentsJsonRaw) = [].
Proof.
  intros Hm.
  assert (Hne : trim agentsJsonRaw <> []).
  { intros H. unfold build, buildAgentsManifestV11 in Hm. rewrite H in Hm.
    discriminate Hm. }
  destruct (JSON_parse (trim agentsJsonRaw)) as [parsed|] eqn:Hparse.
  2:{ unfold build, buildAgentsManifestV11 in Hm. apply nonEmpty_true in Hne.
      rewrite Hne, Hparse in Hm. discriminate Hm. }
  pose proof (build_unfold agentsJsonRaw Hne Hparse) as Hb. cbv zeta in Hb.
  rewrite Hb in Hm |- *. exists parsed.
  split; [exact Hne|]. split; [reflexivity|].
  set (st := loopState toLowerCase Date_now parsed) in *.
  destruct (st_errors st) as [|e es] eqn:He; [|discriminate Hm].
  destruct (st_agents st) as [|a0 rest] eqn:Ha; [discriminate Hm|].
  cbn [app] in Hm |- *.
  destruct (schemaValid {| agents := a0 :: rest |}) eqn:Hv; [|discriminate Hm].
  cbn [manifest] in Hm. injection Hm as <-.
  repeat split; try reflexivity; try discriminate. exact Hv.
Qed.

(** X12. A manifest that the builder returns has passed the schema
    validator, holds at least one agent, and comes with no error. *)
Theorem manifest_is_validated agentsJsonRaw m :
  manifest (build agentsJsonRaw) = Some m ->
  schemaValid m = true /\ agents m <> [] /\ errors (build agentsJsonRaw) = [].
Proof.
  intros Hm. destruct (build_some _ Hm) as [parsed [_ [_ [_ [Hne [-> [Hv He]]]]]]].
  cbn [agents]. auto.
Qed.

(** ** The legacy branch *)

Let legacyStep := legacyItem toLowerCase Date_now.

(** A record without a usable name is skipped; any other record adds
    one agent, whose id comes from [uniqueAgentId]. *)
Lemma legacyItem_cases st item index :
  (legacyName item = [] /\ legacyStep st item index = st)
  \/ (legacyName item <> []
      /\ exists a,
           st_agents (legacyStep st item index) = st_agents st ++ [a]
           /\ agent_id a = uniqueAgentId toLowerCase (Date_now index) (legacyName item)
                                         (st_seen st)
           /\ agentName a = legacyName item
           /\ st_seen (legacyStep st item index) = setAdd (st_seen st) (agent_id a)
           /\ st_errors (legacyStep st item index) = st_errors st
           /\ st_warnings (legacyStep st item index) = st_warnings st).
Proof.
  unfold legacyStep, legacyItem, legacyName.
  destruct item; cbn [isPlainObject]; try (left; split; reflexivity).
  destruct (normalizeString (prop (JObj props) "name")) as [|c n] eqn:Hname.
  - left. split; reflexivity.
  - right. split; [discriminate|]. cbn [nonEmpty negb].
    eexists. cbn [st_agents st_seen st_errors st_warnings].
    split; [reflexivity|]. repeat split; reflexivity.
Qed.

Lemma legacy_errors items : forall st index,
  st_errors (forEachFrom legacyStep st items index) = st_errors st.
Proof.
  induction items as [|item items IH]; intros st index; cbn [forEachFrom]; [reflexivity|].
  rewrite IH.
  destruct (legacyItem_cases st item index) as [[_ ->]|[_ [a [_ [_ [_ [_ [H _]]]]]]]];
    [reflexivity | exact H].
Qed.

Lemma legacy_names items : forall st index,
  List.map agentName (st_agents (forEachFrom legacyStep st items index))
  = List.map agentName (st_agents st) ++ filter nonEmpty (List.map legacyName items).
Proof.
  induction items as [|item items IH]; intros st index; cbn [forEachFrom List.map filter].
  - now rewrite app_nil_r.
  - rewrite IH.
    destruct (legacyItem_cases st item index)
      as [[Hn ->]|[Hn [a [Ha [_ [Hname _]]]]]].
    + rewrite Hn. reflexivity.
    + rewrite Ha, map_app. cbn [List.map]. rewrite Hname.
      apply nonEmpty_true in Hn. rewrite Hn. now rewrite <- app_assoc.
Qed.

Lemma legacy_distinct items : forall st index,
  st_seen st = List.map agent_id (st_agents st) ->
  NoDup (st_seen st) ->
  (length (st_seen st) + length items <= 999)%nat ->
  NoDup (List.map agent_id (st_agents (forEachFrom legacyStep st items index))).
Proof.
  induction items as [|item items IH]; intros st index Hseen Hnd Hlen;
    cbn [forEachFrom].
  - now rewrite <- Hseen.
  - cbn [length] in Hlen.
    destruct (legacyItem_cases st item index)
      as [[_ ->]|[_ [a [Ha [Hid [_ [Hs _]]]]]]].
    + apply IH; [assumption | assumption | lia].
    + assert (Hfresh : ~ In (agent_id a) (st_seen st)).
      { rewrite Hid. apply uniqueAgentId_not_taken. lia. }
      assert (Hadd : setAdd (st_seen st) (agent_id a) = st_seen st ++ [agent_id a]).
      { unfold setAdd. destruct (in_dec str_eq_dec _ _); [contradiction | reflexivity]. }
      apply IH.
      * rewrite Hs, Hadd, Ha, map_app, Hseen. reflexivity.
      * rewrite Hs, Hadd. apply NoDup_app; [assumption | repeat constructor; simpl; tauto|].
        intros x Hx [<-|[]]. contradiction.
      * rewrite Hs, Hadd, length_app. cbn [length]. lia.
Qed.

(** X13. For a legacy array of at most 999 records, the agents of the
    manifest that is built have pairwise distinct ids. *)
Theorem legacy_ids_distinct agentsJsonRaw items m :
  JSON_parse (trim agentsJsonRaw) = Some (JArr items) ->
  (length items <= 999)%nat ->
  manifest (build agentsJsonRaw) = Some m ->
  NoDup (List.map agent_id (agents m)).
Proof.
  intros Hparse Hlen Hm.
  destruct (build_some _ Hm) as [parsed [_ [Hp [_ [_ [-> _]]]]]].
  rewrite Hparse in Hp. injection Hp as <-. cbn [agents loopState].
  apply legacy_distinct; [reflexivity | constructor | cbn [st_seen length]; lia].
Qed.

(** X14. The legacy branch converts, in order, the records that are
    objects with a name that is not blank, and keeps that name; the
    other records are skipped without an error, and an array without
    any usable record is rejected. *)
Theorem legacy_records_converted agentsJsonRaw items :
  trim agentsJsonRaw <> [] ->
  JSON_parse (trim agentsJsonRaw) = Some (JArr items) ->
  let names := filter nonEmpty (List.map legacyName items) in
  (forall m, manifest (build agentsJsonRaw) = Some m ->
             List.map agentName (agents m) = names)
  /\ (names = [] ->
      manifest (build agentsJsonRaw) = None
      /\ errors (build agentsJsonRaw) = [ErrNoAgents]).
Proof.
  intros Hraw Hparse names.
  pose proof (build_unfold agentsJsonRaw Hraw Hparse) as Hb. cbv zeta in Hb.
  cbn [loopState] in Hb.
  set (st0 := {| st_agents := []; st_seen := []; st_warnings := []; st_errors := [] |})
    in *.
  pose proof (legacy_names items st0 0) as Hnames. cbn [st0 st_agents List.map app] in Hnames.
  fold st0 in Hnames. fold names in Hnames.
  pose proof (legacy_errors items st0 0) as Herrs. cbn [st0 st_errors] in Herrs.
  fold st0 in Herrs. fold legacyStep in Hb.
  rewrite Herrs in Hb. cbn [app] in Hb. split.
  - intros m Hm. rewrite Hb in Hm.
    destruct (st_agents (forEachFrom legacyStep st0 items 0)) as [|a0 rest] eqn:Ha;
      [discriminate Hm|].
    destruct (schemaValid {| agents := a0 :: rest |}); [|discriminate Hm].
    cbn [manifest] in Hm. injection Hm as <-. exact Hnames.
  - intros Hnone. rewrite Hnone in Hnames.
    destruct (st_agents (forEachFrom legacyStep st0 items 0)) as [|a0 rest] eqn:Ha;
      [|discriminate Hnames].
    rewrite Hb. split; reflexivity.
Qed.

(** ** The v1.1 branch *)

(** A record either pushes an error, or adds one agent under the id it
    asks for, which is well formed and not taken. *)
Lemma manifestItem_cases st item index :
  (exists e, manifestItem st item index = pushError st e)
  \/ (isValidAgentId (requestedId item) = true
      /\ ~ In (requestedId item) (st_seen st)
      /\ exists a,
           agent_id a = requestedId item
           /\ st_agents (manifestItem st item index) = st_agents st ++ [a]
           /\ st_seen (manifestItem st item index) = setAdd (st_seen st) (requestedId item)
           /\ st_errors (manifestItem st item index) = st_errors st).
Proof.
  unfold manifestItem, requestedId.
  destruct item; try (left; eexists; reflexivity). cbv zeta.
  set (id := normalizeString (prop (JObj props) "id")).
  destruct (negb (nonEmpty id)); [left; eexists; reflexivity|].
  destruct (isValidAgentId id) eqn:Hvalid; cbn [negb]; [|left; eexists; reflexivity].
  destruct (setHas (st_seen st) id) eqn:Hseen; [left; eexists; reflexivity|].
  match goal with
  | |- context [if negb (nonEmpty ?name) then _ else _] =>
      destruct (negb (nonEmpty name)); [left; eexists; reflexivity|]
  end.
  match goal with
  | |- context [if negb (nonEmpty ?title) then _ else _] =>
      destruct (negb (nonEmpty title)); [left; eexists; reflexivity|]
  end.
  right. split; [reflexivity|]. split; [now apply setHas_false|].
  eexists. cbn [st_agents st_seen st_errors]. split; [|split; [reflexivity|]].
  - reflexivity.
  - split; reflexivity.
Qed.

Lemma manifest_errors_grow items : forall st index,
  exists extra, st_errors (forEachFrom manifestItem st items index) = st_errors st ++ extra.
Proof.
  induction items as [|item items IH]; intros st index; cbn [forEachFrom].
  - exists []. now rewrite app_nil_r.
  - destruct (IH (manifestItem st item index) (S index)) as [extra ->].
    destruct (manifestItem_cases st item index) as [[e ->]|[_ [_ [a [_ [_ [_ ->]]]]]]].
    + cbn [pushError st_errors]. exists ([e] ++ extra). now rewrite app_assoc.
    + now exists extra.
Qed.

Lemma manifest_loop items : forall st index,
  st_seen st = List.map agent_id (st_agents st) ->
  NoDup (st_seen st) ->
  Forall (fun id => isValidAgentId id = true) (st_seen st) ->
  st_errors (forEachFrom manifestItem st items index) = [] ->
  let ids := List.map agent_id (st_agents (forEachFrom manifestItem st items index)) in
  ids = st_seen st ++ List.map requestedId items
  /\ NoDup ids
  /\ Forall (fun id => isValidAgentId id = true) ids.
Proof.
  induction items as [|item items IH]; intros st index Hseen Hnd Hvalid Herr;
    cbn [forEachFrom List.map] in *.
  - rewrite app_nil_r, <- Hseen. auto.
  - destruct (manifestItem_cases st item index)
      as [[e He]|[Hv [Hfresh [a [Hid [Ha [Hs Hst]]]]]]].
    + exfalso. rewrite He in Herr.
      destruct (manifest_errors_grow items (pushError st e) (S index)) as [extra Hx].
      rewrite Hx in Herr. cbn [pushError st_errors] in Herr.
      apply app_eq_nil in Herr. destruct Herr as [Herr _].
      apply app_eq_nil in Herr. destruct Herr as [_ Herr]. discriminate Herr.
    + assert (Hadd : setAdd (st_seen st) (requestedId item)
                     = st_seen st ++ [requestedId item]).
      { unfold setAdd. destruct (in_dec str_eq_dec _ _); [contradiction | reflexivity]. }
      destruct (IH (manifestItem st item index) (S index)) as [H1 [H2 H3]].
      * rewrite Hs, Hadd, Ha, map_app, Hseen. cbn [List.map]. now rewrite Hid.
      * rewrite Hs, Hadd. apply NoDup_app; [assumption | repeat constructor; simpl; tauto|].
        intros x Hx [<-|[]]. contradiction.
      * rewrite Hs, Hadd. apply Forall_app. split; [assumption | repeat constructor; exact Hv].
      * exact Herr.
      * cbv zeta. rewrite H1, Hs, Hadd, <- app_assoc in *. cbn [app] in *.
        repeat split; assumption.
Qed.

(** X15. For a v1.1 manifest object, the manifest that is built holds
    one agent per element of the [agents] array, in order and under
    the id the element asks for (trimmed); these ids match the id
    pattern and are pairwise distinct. Nothing is dropped: an element
    that cannot be kept fails the whole build. *)
Theorem manifest_agents_kept agentsJsonRaw props m :
  JSON_parse (trim agentsJsonRaw) = Some (JObj props) ->
  manifest (build agentsJsonRaw) = Some m ->
  List.map agent_id (agents m) = List.map requestedId (rawAgentsOf (JObj props))
  /\ NoDup (List.map agent_id (agents m))
  /\ Forall (fun id => isValidAgentId id = true) (List.map agent_id (agents m)).
Proof.
  intros Hparse Hm.
  destruct (build_some _ Hm) as [parsed [_ [Hp [Herr [_ [-> _]]]]]].
  rewrite Hparse in Hp. injection Hp as <-. cbn [agents].
  cbn [loopState] in Herr |- *.
  change (match prop (JObj props) "agents" with JArr items => items | _ => [] end)
    with (rawAgentsOf (JObj props)) in *.
  destruct (@manifest_loop (rawAgentsOf (JObj props))
              {| st_agents := []; st_seen := [];
                 st_warnings := schemaVersionWarnings (JObj props); st_errors := [] |}
              0%nat eq_refl ltac:(constructor) ltac:(constructor) Herr)
    as [H1 [H2 H3]].
  cbn [st_seen app] in H1. auto.
Qed.
End Builder.

(** The validator of the worked examples accepts every manifest. *)
Lemma manifest_is_validated_witness :
  exists m,
    manifest (buildAgentsManifestV11 asciiLowerCase parseDuo acceptAll noErrors
                                     frozenClock (u "duo")) = Some m
    /\ acceptAll m = true /\ agents m <> [].
Proof.
  eexists. split; [vm_compute; reflexivity|].
  destruct (@manifest_is_validated asciiLowerCase parseDuo acceptAll noErrors frozenClock
              (u "duo") _ ltac:(vm_compute; reflexivity)) as [H1 [H2 _]].
  split; [exact H1 | exact H2].
Defined.

Lemma legacy_ids_distinct_witness :
  exists m,
    manifest (buildAgentsManifestV11 asciiLowerCase parseLegacyTrio acceptAll noErrors
                                     frozenClock (u "trio")) = Some m
    /\ List.map agent_id (agents m) = [u "ann"; u "ann-2"]
    /\ NoDup (List.map agent_id (agents m)).
Proof.
  eexists. split; [vm_compute; reflexivity|]. split; [vm_compute; reflexivity|].
  apply (@legacy_ids_distinct asciiLowerCase parseLegacyTrio acceptAll noErrors frozenClock
           (u "trio") legacyTrio).
  - reflexivity.
  - cbn [legacyTrio length]. lia.
  - vm_compute. reflexivity.
Defined.

Lemma legacy_records_converted_witness :
  exists m,
    manifest (buildAgentsManifestV11 asciiLowerCase parseLegacyTrio acceptAll noErrors
                                     frozenClock (u "trio")) = Some m
    /\ List.map agentName (agents m) = [u "Ann"; u "Ann"].
Proof.
  eexists. split; [vm_compute; reflexivity|].
  apply (proj1 (@legacy_records_converted asciiLowerCase parseLegacyTrio acceptAll noErrors
                  frozenClock (u "trio") legacyTrio
                  ltac:(vm_compute; discriminate) eq_refl)).
  vm_compute. reflexivity.
Defined.

Lemma manifest_agents_kept_witness :
  exists m,
    manifest (buildAgentsManifestV11 asciiLowerCase parseDuo acceptAll noErrors
                                     frozenClock (u "duo")) = Some m
    /\ List.map agent_id (agents m) = [u "pm"; u "dev"]
    /\ NoDup (List.map agent_id (agents m)).
Proof.
  eexists. split; [vm_compute; reflexivity|].
  destruct (@manifest_agents_kept asciiLowerCase parseDuo acceptAll noErrors frozenClock
              (u "duo") _ _ eq_refl ltac:(vm_compute; reflexivity)) as [H1 [H2 _]].
  split; [exact H1 | exact H2].
Defined.

End AgentsBuilderFacts.

(* ================================================================== *)
(** * The index of the package manifest *)
(* ================================================================== *)

Module ManifestIndex.
Import JS JSNumber Outcomes BmadManifest ManifestSpec ManifestMore ManifestExamples AgentsSpec.
Import MapFacts SortFacts NumberFacts ManifestTheorems SlugFacts.

(** ** Numerals are not trimmed and start with a digit or a sign *)

Lemma isIdChar_not_space c : isIdChar c = true -> isWhiteSpace c = false.
Proof.
  unfold isIdChar, isAlnum, isWhiteSpace. intros H.
  repeat match type of H with
         | (_ || _)%bool = true => apply orb_true_iff in H; destruct H as [H|H]
         | (_ && _)%bool = true => apply andb_true_iff in H; destruct H as [? H]
         end;
    repeat match goal with
           | X : (_ <=? _)%N = true |- _ => apply N.leb_le in X
           | X : (_ =? _)%N = true |- _ => apply N.eqb_eq in X
           end;
    repeat match goal with
           | |- (_ || _)%bool = false => apply orb_false_iff; split
           | |- (_ && _)%bool = false => apply andb_false_iff
           end;
    try (apply N.eqb_neq; lia);
    try (left; apply N.leb_gt; lia); try (right; apply N.leb_gt; lia).
Qed.

Lemma trim_idChars s : allIdChars s -> trim s = s.
Proof.
  intros H. unfold trim, trimEnd.
  assert (Hstart : forall t, allIdChars t -> trimStart t = t).
  { intros [|c t] Ht; [reflexivity|]. inversion Ht as [|? ? Hc _]; subst.
    cbn [trimStart]. now rewrite (isIdChar_not_space _ Hc). }
  rewrite (Hstart s H). rewrite Hstart; [apply rev_involutive|].
  now apply Forall_rev.
Qed.

Lemma trim_numeral z : trim (String_of_Z z) = String_of_Z z.
Proof. apply trim_idChars, String_of_Z_all. Qed.

Lemma negative_numeral_invalid z :
  z < 0 -> WORKFLOW_ID_PATTERN_test (String_of_Z z) = false.
Proof.
  intros Hz. destruct z as [|p|p]; try lia. reflexivity.
Qed.

(** ** The map [byId] *)

Lemma hasId_spec byId id :
  hasId byId id = true <-> exists w, In w byId /\ sameValueZero (wf_id w) id = true.
Proof. unfold hasId. apply existsb_exists. Qed.

Lemma hasId_false byId id :
  hasId byId id = false -> Forall (fun w => sameValueZero (wf_id w) id = false) byId.
Proof.
  intros H. apply Forall_forall. intros w Hw.
  destruct (sameValueZero (wf_id w) id) eqn:E; [|reflexivity].
  assert (Ht : hasId byId id = true) by (apply hasId_spec; eauto). congruence.
Qed.

(** Pairwise relations that are symmetric do not depend on the order. *)
Lemma pairwise_perm (A : Type) (R : A -> A -> Prop) l l' :
  (forall a b, R a b -> R b a) ->
  Permutation l l' -> StronglySorted R l -> StronglySorted R l'.
Proof.
  intros Hsym. induction 1 as [|x l l' Hp IH|x y l|l l' l'' _ IH1 _ IH2]; intros Hs.
  - constructor.
  - inversion Hs as [|? ? Hl Hx]; subst. constructor; [auto|].
    rewrite Forall_forall in *. intros z Hz. apply Hx.
    eapply Permutation_in; [symmetry; eassumption | assumption].
  - inversion Hs as [|? ? Hl Hy]; subst. inversion Hl as [|? ? Hl' Hx]; subst.
    inversion Hy as [|? ? Hyx Hyl]; subst.
    constructor; [constructor; assumption|]. constructor; [auto | assumption].
  - auto.
Qed.

Lemma pairwise_snoc (A : Type) (R : A -> A -> Prop) l x :
  StronglySorted R l -> Forall (fun a => R a x) l -> StronglySorted R (l ++ [x]).
Proof.
  induction 1 as [|a l Hs IH Ha]; intros Hx; cbn [app].
  - repeat constructor.
  - inversion Hx as [|? ? Hax Hlx]; subst. constructor; [auto|].
    apply Forall_app. split; [assumption | repeat constructor; assumption].
Qed.

Lemma collectById_distinct workflows : forall byId,
  distinctIds byId ->
  snd (collectById workflows byId) = [] ->
  distinctIds (byId ++ presentWorkflows workflows).
Proof.
  induction workflows as [|[w|] workflows IH]; intros byId Hnd Herr; cbn [collectById] in Herr.
  - cbn [presentWorkflows flat_map]. now rewrite app_nil_r.
  - destruct (hasId byId (wf_id w)) eqn:Hhas.
    + destruct (collectById workflows byId). discriminate Herr.
    + specialize (IH (byId ++ [w])). cbn [presentWorkflows flat_map].
      cbn [presentWorkflows flat_map] in IH. rewrite <- app_assoc in IH.
      apply IH; [|exact Herr].
      apply pairwise_snoc; [exact Hnd | now apply hasId_false].
  - now apply IH.
Qed.

Lemma collectById_duplicate workflows : forall byId w,
  In (Some w) workflows -> hasId byId (wf_id w) = true ->
  In (ErrDuplicateWorkflowId (wf_id w)) (snd (collectById workflows byId)).
Proof.
  induction workflows as [|[x|] workflows IH]; intros byId w Hin Hid; [destruct Hin| |].
  - cbn [collectById]. destruct Hin as [Heq|Hin].
    + injection Heq as ->. rewrite Hid.
      destruct (collectById workflows byId). now left.
    + destruct (hasId byId (wf_id x)).
      * specialize (IH byId w Hin Hid). destruct (collectById workflows byId). now right.
      * apply IH; [exact Hin|]. apply hasId_spec in Hid. destruct Hid as [y [Hy Hs]].
        apply hasId_spec. exists y. split; [apply in_or_app; now left | exact Hs].
  - cbn [collectById]. destruct Hin as [Heq|Hin]; [discriminate Heq|]. now apply IH.
Qed.

(** Two elements of the array with one id: the second is reported. *)
Lemma collectById_twice workflows : forall byId i j w w',
  (i < j)%nat ->
  nth_error workflows i = Some (Some w) -> nth_error workflows j = Some (Some w') ->
  sameValueZero (wf_id w) (wf_id w') = true ->
  In (ErrDuplicateWorkflowId (wf_id w')) (snd (collectById workflows byId)).
Proof.
  induction workflows as [|x workflows IH]; intros byId i j w w' Hij Hi Hj Hid.
  - destruct i; discriminate Hi.
  - destruct j as [|j]; [lia|]. cbn [nth_error] in Hj.
    destruct i as [|i].
    + cbn [nth_error] in Hi. injection Hi as ->. cbn [collectById].
      apply nth_error_In in Hj.
      destruct (hasId byId (wf_id w)) eqn:Hhas.
      * assert (Hw' : hasId byId (wf_id w') = true).
        { apply hasId_spec in Hhas. destruct Hhas as [y [Hy Hs]].
          apply hasId_spec. exists y. split; [exact Hy|].
          eapply sameValueZero_trans; eassumption. }
        pose proof (collectById_duplicate workflows byId w' Hj Hw') as Hd.
        destruct (collectById workflows byId). now right.
      * apply collectById_duplicate; [exact Hj|].
        apply hasId_spec. exists w. split; [apply in_or_app; right; now left | exact Hid].
    + cbn [nth_error] in Hi. assert (Hlt : (i < j)%nat) by lia.
      cbn [collectById]. destruct x as [x|].
      * destruct (hasId byId (wf_id x)).
        -- specialize (IH byId i j w w' Hlt Hi Hj Hid).
           destruct (collectById workflows byId). now right.
        -- eapply IH; eassumption.
      * eapply IH; eassumption.
Qed.

(** Every present workflow has its id in [byId]. *)
Lemma collectById_covers workflows : forall byId w,
  In (Some w) workflows ->
  hasId (fst (collectById workflows byId)) (wf_id w) = true.
Proof.
  assert (Hkeep : forall ws byId x,
            hasId byId x = true -> hasId (fst (collectById ws byId)) x = true).
  { induction ws as [|[y|] ws IH]; intros byId x Hx; cbn [collectById]; [exact Hx| |].
    - destruct (hasId byId (wf_id y)).
      + specialize (IH byId x Hx). destruct (collectById ws byId). exact IH.
      + apply IH. apply hasId_spec in Hx. destruct Hx as [z [Hz Hs]].
        apply hasId_spec. exists z. split; [apply in_or_app; now left | exact Hs].
    - now apply IH. }
  induction workflows as [|[x|] workflows IH]; intros byId w Hin; [destruct Hin| |].
  - cbn [collectById]. destruct Hin as [Heq|Hin].
    + injection Heq as ->. destruct (hasId byId (wf_id w)) eqn:Hhas.
      * specialize (Hkeep workflows byId _ Hhas).
        destruct (collectById workflows byId). exact Hkeep.
      * apply Hkeep. apply hasId_spec. exists w.
        split; [apply in_or_app; right; now left | apply sameValueZero_refl].
    + destruct (hasId byId (wf_id x)).
      * specialize (IH byId w Hin). destruct (collectById workflows byId). exact IH.
      * now apply IH.
  - cbn [collectById]. destruct Hin as [Heq|Hin]; [discriminate Heq|]. now apply IH.
Qed.

Lemma strictly_sorted l :
  noNaN l ->
  ordered byIdAscending l -> distinctIds l -> ascendingIds l.
Proof.
  intros Hn Ho. revert Hn.
  induction Ho as [|a l Hs IH Ha]; intros Hn Hnd; constructor.
  - apply IH; [now inversion Hn | now inversion Hnd].
  - inversion Hnd as [|? ? _ Hdiff]; subst. inversion Hn as [|? ? Hna Hnl]; subst.
    apply Forall_forall. intros b Hb. rewrite Forall_forall in Ha, Hdiff, Hnl.
    specialize (Ha b Hb). specialize (Hdiff b Hb). specialize (Hnl b Hb).
    unfold byIdAscending in Ha. apply below_sign; auto.
    assert (Hne : subtractSign (wf_id a) (wf_id b) <> 0).
    { intros Hz. apply sameValueZero_zero in Hz; auto. congruence. }
    lia.
Qed.

Section Shape.
Variable Number_toString : jsnumber -> jsstring.
Variable projectName : jsstring.
Variable workflows : list (option WorkflowListItemForManifest).
Variable createdAt : jsstring.
Variable version : option jsstring.

Let result := manifestBuild Number_toString projectName workflows createdAt version.
Let ordered := sort byIdAscending (fst (collectById workflows [])).
Let normalizedIds := List.map (fun w => trim (Number_toString (wf_id w))) ordered.
Let invalidIds :=
  filter (fun id => negb (nonEmpty id) || negb (WORKFLOW_ID_PATTERN_test id)) normalizedIds.
Let allErrors : list ManifestError :=
  snd (collectById workflows [])
  ++ match invalidIds with [] => [] | _ :: _ => [ErrInvalidWorkflowIds invalidIds] end
  ++ (if nonEmpty (trim createdAt) then [] else [ErrCreatedAtEmpty])
  ++ (if nonEmpty (trim (match version with Some v => v | None => u "0.1.0" end))
      then [] else [ErrVersionEmpty]).

(** The result of the builder when some workflow is present. *)
Lemma manifest_shape :
  ordered <> [] ->
  errors result = allErrors
  /\ (allErrors <> [] -> manifest result = None)
  /\ (allErrors = [] ->
      exists m, manifest result = Some m
                /\ BmadManifest.workflows m = List.map (indexEntryOf Number_toString) ordered
                /\ BmadManifest.createdAt m = trim createdAt
                /\ entry_agents (entry m) = u "agents.json"
                /\ entry_assetsDir (entry m) = u "assets/").
Proof.
  intros Hordered.
  unfold result, allErrors, invalidIds, normalizedIds, ordered in *.
  unfold manifestBuild.
  destruct workflows as [|o ws]; [exfalso; apply Hordered; reflexivity|].
  destruct (collectById (o :: ws) []) as [byId errors1]. cbn [fst snd] in *.
  destruct (sort byIdAscending byId) as [|w1 rest] eqn:Hsort; [congruence|].
  match goal with
  | |- context [match ?errs with [] => _ | _ :: _ => _ end] =>
      match type of errs with
      | list ManifestError => destruct errs eqn:Herrs
      end
  end.
  - destruct (selectEntry (w1 :: rest)) as [entryWorkflow ws1].
    cbn [errors manifest]. split; [reflexivity|]. split; [congruence|].
    intros _. eexists. split; [reflexivity|].
    cbn [BmadManifest.workflows BmadManifest.createdAt entry entry_agents entry_assetsDir].
    repeat split; reflexivity.
  - cbn [errors manifest]. split; [reflexivity|]. split; [reflexivity | discriminate].
Qed.
End Shape.

Section Built.
Variable Number_toString : jsnumber -> jsstring.
Variable projectName : jsstring.
Variable workflows : list (option WorkflowListItemForManifest).
Variable createdAt : jsstring.
Variable version : option jsstring.

Lemma built_ordered m :
manifest (manifestBuild Number_toString projectName workflows createdAt version) = Some m ->
sort byIdAscending (fst (collectById workflows [])) <> [].
Proof.
intros Hm Hnil. unfold manifestBuild in Hm.
destruct workflows as [|o ws]; [discriminate Hm|].
destruct (collectById (o :: ws) []) as [byId errors1].
cbn [fst] in Hnil. rewrite Hnil in Hm. discriminate Hm.
Qed.

Lemma present_ordered w :
In (Some w) workflows ->
exists x, In x (sort byIdAscending (fst (collectById workflows [])))
          /\ sameValueZero (wf_id x) (wf_id w) = true.
Proof.
intros Hin. pose proof (collectById_covers workflows [] w Hin) as Hc.
apply hasId_spec in Hc. destruct Hc as [x [Hinx Hx]].
exists x. split; [|exact Hx]. apply sort_in. exact Hinx.
Qed.

Lemma error_no_manifest e :
In e (errors (manifestBuild Number_toString projectName workflows createdAt version)) ->
manifest (manifestBuild Number_toString projectName workflows createdAt version) = None.
Proof.
unfold manifestBuild.
destruct workflows as [|o ws]; [reflexivity|].
destruct (collectById (o :: ws) []) as [byId errors1].
destruct (sort byIdAscending byId) as [|w1 rest]; [reflexivity|].
match goal with
| |- context [match ?errs with [] => _ | _ :: _ => _ end] =>
    match type of errs with
    | list ManifestError => destruct errs eqn:Herrs
    end
end.
- destruct (selectEntry (w1 :: rest)). cbn [errors]. intros [].
- reflexivity.
Qed.

(** A manifest is built only when every trimmed id matches the id
  pattern. *)
Lemma built_ids_valid m w :
manifest (manifestBuild Number_toString projectName workflows createdAt version) = Some m ->
In w (sort byIdAscending (fst (collectById workflows []))) ->
WORKFLOW_ID_PATTERN_test (idText Number_toString w) = true.
Proof.
intros Hm Hw.
destruct (manifest_shape Number_toString projectName workflows createdAt version
            (built_ordered Hm)) as [_ [Hfail _]].
match type of Hfail with ?errs <> [] -> _ => destruct errs as [|e es] eqn:Herrs end;
  [|rewrite Hfail in Hm by discriminate; discriminate Hm].
apply app_eq_nil in Herrs. destruct Herrs as [_ Herrs].
apply app_eq_nil in Herrs. destruct Herrs as [Herr2 _].
destruct (WORKFLOW_ID_PATTERN_test (idText Number_toString w)) eqn:Ht; [reflexivity|].
match type of Herr2 with
| match ?ids with [] => _ | _ :: _ => _ end = [] =>
    assert (Hin : In (idText Number_toString w) ids)
end.
{ apply filter_In. split.
  - now apply (in_map (fun w => trim (Number_toString (wf_id w)))).
  - rewrite Ht. apply orb_true_r. }
destruct (filter _ _); [destruct Hin | discriminate Herr2].
Qed.
End Built.

(** X16. For workflows whose ids are numbers other than [NaN] the
    builder returns, and the [workflows] index of a manifest that is
    built lists the present workflows once each, in strictly ascending
    order of their ids.  The id of an entry is the trimmed [String(id)],
    which matches the id pattern, and its paths are
    [workflows/<id>/workflow.md] and [workflows/<id>/workflow.graph.json].
    Where [String] prints the safe integers as their decimal numerals, a
    workflow whose id is a safe integer is listed under that numeral, and
    the integer is not negative. *)
Theorem manifest_index_sorted Number_toString projectName workflows createdAt version :
  noNaN (presentWorkflows workflows) ->
  exists result,
    buildBmadManifestV11 Number_toString projectName workflows createdAt version
    = Returns result
    /\ forall m, manifest result = Some m ->
       exists ordered,
         Permutation ordered (presentWorkflows workflows)
         /\ ascendingIds ordered
         /\ BmadManifest.workflows m
            = List.map
                (fun w =>
                   {| mw_id := trim (Number_toString (wf_id w));
                      mw_displayName := wf_name w;
                      mw_workflow := u "workflows/" ++ trim (Number_toString (wf_id w))
                                       ++ u "/workflow.md";
                      mw_graph := u "workflows/" ++ trim (Number_toString (wf_id w))
                                    ++ u "/workflow.graph.json";
                      mw_tags := [] |})
                ordered
         /\ Forall (fun w => idPatternTest (trim (Number_toString (wf_id w))) = true) ordered
         /\ (printsSafeIntegers Number_toString ->
             forall w z, In w ordered -> isInteger (wf_id w) z -> isSafeInteger z ->
                         0 <= z /\ trim (Number_toString (wf_id w)) = String_of_Z z).
Proof.
  intros Hnan.
  exists (manifestBuild Number_toString projectName workflows createdAt version).
  split; [now apply manifest_returns|]. intros m Hm.
  pose proof (built_ordered _ _ _ _ _ Hm) as Hne.
  destruct (manifest_shape Number_toString projectName workflows createdAt version Hne)
    as [_ [Hfail Hok]].
  match type of Hfail with ?errs <> [] -> _ => destruct errs as [|e es] eqn:Herrs end.
  2:{ rewrite Hfail in Hm by discriminate. discriminate Hm. }
  destruct (Hok eq_refl) as [m' [Hm' [Hidx _]]]. rewrite Hm in Hm'. injection Hm' as <-.
  apply app_eq_nil in Herrs. destruct Herrs as [Herr1 _].
  pose proof (collectById_no_error workflows [] Herr1) as Hby. cbn [app] in Hby.
  pose proof (@collectById_distinct workflows [] ltac:(constructor) Herr1) as Hnd.
  cbn [app] in Hnd.
  assert (Hvalid : forall w, In w (sort byIdAscending (fst (collectById workflows []))) ->
            WORKFLOW_ID_PATTERN_test (idText Number_toString w) = true).
  { intros w Hw. eapply built_ids_valid; eassumption. }
  rewrite Hby in Hidx, Hvalid. clear Hby.
  exists (sort byIdAscending (presentWorkflows workflows)).
  split; [apply sort_perm|]. split; [|split; [|split]].
  - apply strictly_sorted.
    + eapply noNaN_perm; [symmetry; apply sort_perm | exact Hnan].
    + now apply byIdAscending_ordered.
    + unfold distinctIds. eapply pairwise_perm; [|symmetry; apply sort_perm | exact Hnd].
      intros a b H. now rewrite sameValueZero_sym.
  - exact Hidx.
  - apply Forall_forall. exact Hvalid.
  - intros Hprint w z Hw Hz Hsafe. specialize (Hvalid w Hw). unfold idText in Hvalid.
    rewrite (Hprint _ _ Hz Hsafe) in *. rewrite trim_numeral in *.
    split; [|reflexivity].
    destruct (Z_lt_le_dec z 0) as [Hneg|Hpos]; [|exact Hpos].
    rewrite (negative_numeral_invalid Hneg) in Hvalid. discriminate Hvalid.
Qed.

Lemma manifest_index_sorted_witness :
  exists result m,
    buildBmadManifestV11 printInteger (u "Demo") twoDefaults (u "2025-01-01") None
    = Returns result
    /\ manifest result = Some m
    /\ List.map mw_id (BmadManifest.workflows m) = [u "1"; u "2"; u "3"]
    /\ exists ordered,
         Permutation ordered (presentWorkflows twoDefaults)
         /\ ascendingIds ordered
         /\ BmadManifest.workflows m = List.map (indexEntryOf printInteger) ordered
         /\ forall w z, In w ordered -> isInteger (wf_id w) z -> isSafeInteger z -> 0 <= z.
Proof.
  destruct (@manifest_index_sorted printInteger (u "Demo") twoDefaults (u "2025-01-01") None)
    as [result [Hr H]]; [repeat constructor|].
  exists result. vm_compute in Hr. injection Hr as <-.
  eexists. split; [vm_compute; reflexivity|]. split; [reflexivity|].
  split; [vm_compute; reflexivity|].
  destruct (H _ eq_refl) as [ordered [H1 [H2 [H3 [_ H5]]]]].
  exists ordered. split; [exact H1|]. split; [exact H2|]. split; [exact H3|].
  intros w z Hw Hz Hsafe. exact (proj1 (H5 printInteger_integers w z Hw Hz Hsafe)).
Defined.

(** X17. For workflows whose ids are numbers other than [NaN] the
    builder returns, and it builds no manifest from an array in which two
    workflows have the same id: the id of the later one is reported as a
    duplicate.  Where [String] prints the safe integers as their decimal
    numerals, no manifest is built either when the id of a workflow is a
    negative safe integer: its numeral is reported among the invalid
    ids. *)
Theorem bad_ids_rejected Number_toString projectName workflows createdAt version :
  noNaN (presentWorkflows workflows) ->
  exists result,
    buildBmadManifestV11 Number_toString projectName workflows createdAt version
    = Returns result
    /\ (forall i j w w',
          (i < j)%nat ->
          nth_error workflows i = Some (Some w) ->
          nth_error workflows j = Some (Some w') ->
          sameValueZero (wf_id w) (wf_id w') = true ->
          manifest result = None
          /\ In (ErrDuplicateWorkflowId (wf_id w')) (errors result))
    /\ (printsSafeIntegers Number_toString ->
        forall w z,
          In (Some w) workflows -> isInteger (wf_id w) z -> isSafeInteger z -> z < 0 ->
          manifest result = None
          /\ exists invalidIds,
               In (ErrInvalidWorkflowIds invalidIds) (errors result)
               /\ In (String_of_Z z) invalidIds).
Proof.
  intros Hnan.
  exists (manifestBuild Number_toString projectName workflows createdAt version).
  split; [now apply manifest_returns|].
  set (result := manifestBuild Number_toString projectName workflows createdAt version).
  assert (Hnonempty : forall w, In (Some w) workflows ->
            sort byIdAscending (fst (collectById workflows [])) <> []).
  { intros w Hin Hnil. destruct (present_ordered workflows w Hin) as [x [Hx _]].
    rewrite Hnil in Hx. destruct Hx. }
  split.
  - intros i j w w' Hij Hi Hj Hid.
    assert (Hin : In (ErrDuplicateWorkflowId (wf_id w')) (errors result)).
    { destruct (manifest_shape Number_toString projectName workflows createdAt version
                  (Hnonempty w (nth_error_In _ _ Hi))) as [Herr _].
      unfold result. rewrite Herr. apply in_or_app. left.
      eapply collectById_twice; eassumption. }
    split; [|exact Hin]. eapply error_no_manifest. exact Hin.
  - intros Hprint w z Hin Hz Hsafe Hneg.
    destruct (manifest_shape Number_toString projectName workflows createdAt version
                (Hnonempty w Hin)) as [Herr _].
    destruct (present_ordered workflows w Hin) as [x [Hx Hid]].
    set (invalidIds :=
           filter (fun id => negb (nonEmpty id) || negb (WORKFLOW_ID_PATTERN_test id))
                  (List.map (fun w => trim (Number_toString (wf_id w)))
                            (sort byIdAscending (fst (collectById workflows []))))) in *.
    assert (Hinv : In (String_of_Z z) invalidIds).
    { unfold invalidIds. apply filter_In. split.
      - apply in_map_iff. exists x. split; [|exact Hx].
        rewrite (Hprint (wf_id x) z); [apply trim_numeral| |exact Hsafe].
        unfold isInteger in *. eapply sameValueZero_trans; eassumption.
      - rewrite (negative_numeral_invalid Hneg). apply orb_true_r. }
    assert (Hreported : In (ErrInvalidWorkflowIds invalidIds) (errors result)).
    { unfold result. rewrite Herr. apply in_or_app. right. apply in_or_app. left.
      destruct invalidIds; [destruct Hinv | now left]. }
    split; [eapply error_no_manifest; exact Hreported|].
    exists invalidIds. split; assumption.
Qed.

Lemma bad_ids_rejected_witness :
  (exists result,
     buildBmadManifestV11 printInteger (u "Demo") sameIdTwice (u "2025-01-01") None
     = Returns result
     /\ manifest result = None
     /\ In (ErrDuplicateWorkflowId (ofZ 4)) (errors result))
  /\ (exists result,
        buildBmadManifestV11 printInteger (u "Demo") negativeId (u "2025-01-01") None
        = Returns result
        /\ manifest result = None
        /\ exists invalidIds,
             In (ErrInvalidWorkflowIds invalidIds) (errors result)
             /\ In (u "-5") invalidIds).
Proof.
  split.
  - destruct (@bad_ids_rejected printInteger (u "Demo") sameIdTwice (u "2025-01-01") None)
      as [result [Hr [H _]]]; [repeat constructor|].
    exists result. split; [exact Hr|].
    exact (H 0%nat 1%nat _ _ ltac:(lia) eq_refl eq_refl eq_refl).
  - destruct (@bad_ids_rejected printInteger (u "Demo") negativeId (u "2025-01-01") None)
      as [result [Hr [_ H]]]; [repeat constructor|].
    exists result. split; [exact Hr|].
    exact (H printInteger_integers _ (-5) (or_introl eq_refl) (isInteger_ofZ _)
             ltac:(unfold isSafeInteger; cbn; lia) ltac:(lia)).
Defined.

End ManifestIndex.

(* ================================================================== *)
(** * The paths of a bundle *)
(* ================================================================== *)

Module PathFacts.
Import JS BmadZip ExportMore MapFacts AgentsSpec SlugFacts.




Lemma isSafeZipPath_spec path :
  isSafeZipPath path = true
  <-> existsb (fun c => (c =? 0)%N) path = false
      /\ existsb badPart (split 47 path) = false.
Proof.
  unfold isSafeZipPath. fold badPart.
  change (fun part : jsstring =>
            str_eqb part (u "..") || str_eqb part (u ".") || negb (nonEmpty part))
    with badPart.
  destruct path as [|c path].
  - cbn. split; [discriminate | intros [_ H]; discriminate H].
  - cbn [nonEmpty negb]. cbv iota.
    destruct (startsWith (c :: path) (u "/")) eqn:Hstart.
    + split; [discriminate|]. intros [_ H]. exfalso.
      change (u "/") with [47%N] in Hstart. cbn [startsWith] in Hstart.
      apply andb_true_iff in Hstart. destruct Hstart as [Hstart _].
      apply N.eqb_eq in Hstart. subst c.
      unfold split in H. cbn [splitFrom] in H.
      change (47 =? 47)%N with true in H. cbv iota in H. cbn in H. discriminate H.
    + destruct (existsb (fun c0 => (c0 =? 0)%N) (c :: path)).
      * split; [discriminate | intros [H _]; discriminate H].
      * destruct (existsb badPart (split 47 (c :: path))); split; auto.
        intros [_ H]. discriminate H.
  Qed.













End PathFacts.

(* ================================================================== *)
(** * What a bundle holds *)
(* ================================================================== *)

Module ExportBundle.
Import JS JSNumber Outcomes WorkflowGraph BmadZip ExportSpec ExportMore ExportExamples.
Import MapFacts ExportTheorems PathFacts ManifestSpec NumberFacts.

(** ** The accumulators only grow *)








(** ** The step files of one workflow *)










Section Bundle.
Variable localeCompare : jsstring -> jsstring -> Z.
Variable Number_toString : jsnumber -> jsstring.
Variable JSON_parse : jsstring -> option jsval.
Variable JSON_stringify_graph : WorkflowGraphV11 -> jsstring.

Let step := workflowStep localeCompare Number_toString JSON_parse JSON_stringify_graph.
Let loop := workflowLoop localeCompare Number_toString JSON_parse JSON_stringify_graph.
Let file := workflowFile Number_toString.







(** ** The loop *)




Variables projectName bmadJson agentsJson : jsstring.
Variable workflows : list WorkflowDetailForExportV11.
Variable assets : option (list (jsstring * FileValue)).

Let build :=
  buildBmadExportFilesV11 localeCompare Number_toString JSON_parse JSON_stringify_graph
                          projectName bmadJson agentsJson workflows assets.

(** The accumulators after the two manifests were added. *)
Let a2 : Acc :=
  {| acc_files := [(u "bmad.json", Text bmadJson); (u "agents.json", Text agentsJson)];
     acc_paths := [u "bmad.json"; u "agents.json"];
     acc_errors := []; acc_warnings := [] |}.







End Bundle.










End ExportBundle.

(* ================================================================== *)
(** * The file name of a bundle *)
(* ================================================================== *)

Module FilenameFacts.
Import JS JSNumber Outcomes BmadZip ExportSpec ExportMore MapFacts TrimFacts ExportBundle.











End FilenameFacts.

(* ================================================================== *)
(** * The matchers *)
(* ================================================================== *)

Module RegexFacts.
Import JS Regex TrimFacts.

Section Facts.
Variable R : Type.
Implicit Types (k : Cont R) (s : jsstring) (p : N -> bool).

(** A greedy star gives a match whenever the rest of the pattern
    matches where the star begins. *)
Lemma star_some p k s : k s <> None -> star p k s <> None.
Proof.
  destruct s as [|c r]; cbn [star]; [auto|]. intros Hk.
  destruct (p c); [|exact Hk]. destruct (star p k r); [discriminate | exact Hk].
Qed.

(** It can run through a prefix of the class. *)
Lemma star_through p k pre s :
  Forall (fun c => p c = true) pre -> star p k s <> None -> star p k (pre ++ s) <> None.
Proof.
  induction 1 as [|c pre Hc _ IH]; intros Hs; cbn [app star]; [exact Hs|].
  rewrite Hc. destruct (star p k (pre ++ s)); [discriminate | now apply IH in Hs].
Qed.

(** It fails when the rest of the pattern fails at every suffix. *)
Lemma star_none p k s :
  (forall a s', s = a ++ s' -> k s' = None) -> star p k s = None.
Proof.
  induction s as [|c r IH]; intros Hk; cbn [star].
  - apply (Hk [] []). reflexivity.
  - assert (Hs : k (c :: r) = None) by (apply (Hk []); reflexivity).
    destruct (p c); [|exact Hs]. rewrite IH; [exact Hs|].
    intros a s' ->. apply (Hk (c :: a)). reflexivity.
Qed.

(** Where the class stops at once, the star takes nothing. *)
Lemma star_stops p k c r : p c = false -> star p k (c :: r) = k (c :: r).
Proof. intros H. cbn [star]. now rewrite H. Qed.

(** The lazy group stops at the first place where the rest of the
    pattern matches. *)
Lemma lazyAny_first (kc : jsstring -> Cont R) y : forall captured t,
  (forall y1 c y2, y = y1 ++ c :: y2 -> kc (captured ++ y1) (c :: y2 ++ t) = None) ->
  lazyAny kc captured (y ++ t) = lazyAny kc (captured ++ y) t.
Proof.
  induction y as [|c y IH]; intros captured t Hnone.
  - now rewrite app_nil_r.
  - cbn [app lazyAny].
    pose proof (Hnone [] c y eq_refl) as H0. rewrite app_nil_r in H0.
    cbn [app] in H0. rewrite H0.
    rewrite IH.
    + now rewrite <- app_assoc.
    + intros y1 d y2 ->. rewrite <- app_assoc. cbn [app].
      apply (Hnone (c :: y1) d y2). reflexivity.
Qed.

Lemma lazyAny_none (kc : jsstring -> Cont R) s : forall captured,
  (forall cap a s', s = a ++ s' -> kc cap s' = None) ->
  lazyAny kc captured s = None.
Proof.
  induction s as [|c r IH]; intros captured Hnone; cbn [lazyAny].
  - now rewrite (Hnone captured [] [] eq_refl).
  - rewrite (Hnone captured [] (c :: r) eq_refl). apply IH.
    intros cap a s' ->. apply (Hnone cap (c :: a)). reflexivity.
Qed.
End Facts.

Lemma answers_chr (R : Type) (x : R) p k : answers x k -> answers x (chr p k).
Proof.
  intros Hk [|c r] y; cbn [chr]; [discriminate|]. destruct (p c); [apply Hk | discriminate].
Qed.

Lemma answers_alt (R : Type) (x : R) (m1 m2 : Matcher R) k :
  answers x (m1 k) -> answers x (m2 k) -> answers x (alt m1 m2 k).
Proof.
  intros H1 H2 s y. unfold alt. destruct (m1 k s) eqn:Hm.
  - intros [= <-]. eapply H1. exact Hm.
  - apply H2.
Qed.

Lemma answers_star (R : Type) (x : R) p k : answers x k -> answers x (star p k).
Proof.
  intros Hk s. induction s as [|c r IH]; intros y; cbn [star]; [apply Hk|].
  destruct (p c); [|apply Hk]. destruct (star p k r) eqn:Hs.
  - intros [= <-]. now apply IH.
  - apply Hk.
Qed.

Lemma answers_eos (R : Type) (x : R) k : answers x k -> answers x (eos k).
Proof. intros Hk [|c r] y; cbn [eos]; [apply Hk | discriminate]. Qed.

End RegexFacts.

(* ================================================================== *)
(** * Reading the frontmatter of a document *)
(* ================================================================== *)

Module FrontmatterFacts.
Import JS Frontmatter FrontmatterSpec Regex FrontmatterExtract RegexFacts TrimFacts.

Lemma code_true c x : code c x = true <-> x = c.
Proof. unfold code. apply N.eqb_eq. Qed.

(** ** The closing fence *)

(** The closing part of the pattern needs a line feed and three dashes,
    after an optional carriage return. *)
Lemma closing_needs_fence (R : Type) (k : Cont R) s :
  closing k s <> None ->
  exists b, s = fenceLine ++ b \/ s = CR :: fenceLine ++ b.
Proof.
  unfold closing, newline, fence, seq, opt, alt, fenceLine.
  assert (Hfence : forall t (K : Cont R),
            chr (code LF) (chr (code DASH) (chr (code DASH) (chr (code DASH) K))) t <> None ->
            exists b, t = [LF; DASH; DASH; DASH] ++ b).
  { intros t K H.
    destruct t as [|c1 t]; cbn [chr] in H; [congruence|].
    destruct (code LF c1) eqn:H1; [|congruence]. apply code_true in H1. subst c1.
    destruct t as [|c2 t]; cbn [chr] in H; [congruence|].
    destruct (code DASH c2) eqn:H2; [|congruence]. apply code_true in H2. subst c2.
    destruct t as [|c3 t]; cbn [chr] in H; [congruence|].
    destruct (code DASH c3) eqn:H3; [|congruence]. apply code_true in H3. subst c3.
    destruct t as [|c4 t]; cbn [chr] in H; [congruence|].
    destruct (code DASH c4) eqn:H4; [|congruence]. apply code_true in H4. subst c4.
    exists t. reflexivity. }
  intros H.
  match type of H with
  | match ?first with Some _ => _ | None => _ end <> None =>
      destruct first eqn:Hfirst
  end.
  - destruct s as [|c s]; cbn [chr] in Hfirst; [discriminate|].
    destruct (code CR c) eqn:Hc; [|discriminate]. apply code_true in Hc. subst c.
    destruct (Hfence s _ ltac:(rewrite Hfirst; discriminate)) as [b ->].
    exists b. now right.
  - destruct (Hfence s _ H) as [b ->]. exists b. now left.
Qed.

(** What follows the fence: nothing, or the end of the line. *)
Lemma lineEnd_some (R : Type) (k : Cont R) tail :
  (forall s, k s <> None) ->
  tail = [] \/ (exists body, tail = LF :: body) ->
  star ws (lineEnd k) tail <> None.
Proof.
  intros Hk Htail. apply star_some. unfold lineEnd, alt, newline, seq, opt, alt, eos.
  destruct Htail as [->|[body ->]].
  - cbn [chr]. apply Hk.
  - cbn [chr]. change (code CR LF) with false. change (code LF LF) with true.
    cbv iota. destruct (k body) eqn:Hb; [discriminate|]. now apply Hk in Hb.
Qed.

Lemma closing_at_fence (R : Type) (k : Cont R) tail :
  (forall s, k s <> None) ->
  tail = [] \/ (exists body, tail = LF :: body) ->
  closing k (fenceLine ++ tail) <> None.
Proof.
  intros Hk Htail. unfold closing, newline, fence, seq, opt, alt, fenceLine.
  cbn [app chr]. change (code CR LF) with false. change (code LF LF) with true.
  change (code DASH DASH) with true. cbv iota.
  now apply lineEnd_some.
Qed.

Lemma closing_answers (captured : jsstring) :
  answers captured (closing (fun _ => Some captured)).
Proof.
  unfold closing, newline, fence, lineEnd, seq, opt.
  assert (Hk : answers captured (fun _ : jsstring => Some captured)).
  { intros s y [= <-]. reflexivity. }
  assert (Hfence : answers captured
                     (chr (code LF)
                        (chr (code DASH) (chr (code DASH) (chr (code DASH)
                           (star ws (alt (fun k => alt (chr (code CR)) (fun k0 => k0)
                                                       (chr (code LF) k))
                                         (@eos _) (fun _ => Some captured)))))))).
  { repeat apply answers_chr. apply answers_star. apply answers_alt.
    - apply answers_alt; [apply answers_chr|]; apply answers_chr; exact Hk.
    - apply answers_eos. exact Hk. }
  apply answers_alt; [apply answers_chr|]; exact Hfence.
Qed.

(** ** Documents *)

Lemma occursIn_suffix part a s : occursIn part s -> occursIn part (a ++ s).
Proof. intros [x [y ->]]. exists (a ++ x), y. now rewrite app_assoc. Qed.

Lemma trim_not_blank s c :
  In c s -> isWhiteSpace c = false -> nonEmpty (trim s) = true.
Proof.
  intros Hin Hc. destruct (trim s) eqn:Ht; [|reflexivity]. exfalso.
  unfold trim, trimEnd in Ht. apply (f_equal (@rev N)) in Ht.
  rewrite rev_involutive in Ht. cbn [rev] in Ht.
  destruct (trimStart_split (rev (trimStart s))) as [post [Hpost [Hws _]]].
  rewrite Ht, app_nil_r in Hpost.
  destruct (trimStart_split s) as [pre [Hs [Hpre _]]].
  assert (Hall : Forall (fun c => isWhiteSpace c = true) s).
  { rewrite Hs. apply Forall_app. split; [exact Hpre|].
    rewrite <- (rev_involutive (trimStart s)), Hpost. now apply Forall_rev. }
  rewrite Forall_forall in Hall. rewrite (Hall c Hin) in Hc. discriminate Hc.
Qed.

Lemma dash_not_ws : isWhiteSpace DASH = false.
Proof. reflexivity. Qed.

Lemma not_ws_codes c :
  isWhiteSpace c = false -> code BOM c = false /\ code CR c = false /\ code LF c = false.
Proof.
  intros Hc. repeat split;
    match goal with
    | |- code ?x c = false =>
        destruct (code x c) eqn:H; [|reflexivity]; apply code_true in H; subst c;
        discriminate Hc
    end.
Qed.

Lemma inside_fence z t b :
  z <> [] -> z ++ fenceLine ++ t = fenceLine ++ b -> exists z', z = fenceLine ++ z'.
Proof.
  unfold fenceLine. intros Hz H.
  destruct z as [|c1 z]; [congruence|]. injection H as -> H.
  destruct z as [|c2 z]; [discriminate H|]. injection H as -> H.
  destruct z as [|c3 z]; [discriminate H|]. injection H as -> H.
  destruct z as [|c4 z]; [discriminate H|]. injection H as -> H.
  exists z. reflexivity.
Qed.

(** Inside a text that has no fence line and does not end with a
    carriage return, the closing part of the pattern does not match. *)
Lemma closing_not_inside (R : Type) (k : Cont R) y y1 c y2 tail :
  ~ occursIn fenceLine y -> (forall a, y <> a ++ [CR]) ->
  y = y1 ++ c :: y2 ->
  closing k (c :: y2 ++ fenceLine ++ tail) = None.
Proof.
  intros Hfence Hcr Hy.
  destruct (closing k (c :: y2 ++ fenceLine ++ tail)) eqn:Hc; [|reflexivity]. exfalso.
  destruct (@closing_needs_fence R k (c :: y2 ++ fenceLine ++ tail)
              ltac:(rewrite Hc; discriminate)) as [b [Hb|Hb]].
  - destruct (@inside_fence (c :: y2) tail b ltac:(discriminate) Hb) as [z' Hz].
    apply Hfence. exists y1, z'. rewrite Hy, Hz. reflexivity.
  - injection Hb as -> Hb. destruct y2 as [|d y2].
    + apply (Hcr y1). exact Hy.
    + destruct (@inside_fence (d :: y2) tail b ltac:(discriminate) Hb) as [z' Hz].
      apply Hfence. exists (y1 ++ [CR]), z'. rewrite Hy, Hz, <- app_assoc. reflexivity.
Qed.

Lemma lazyAny_here (R : Type) (kc : jsstring -> Cont R) captured s x :
  kc captured s = Some x -> lazyAny kc captured s = Some x.
Proof. intros H. destruct s; cbn [lazyAny]; now rewrite H. Qed.

(** In a text without a fence line the lazy group finds no end. *)
Lemma lazyAny_needs_fence (R : Type) (k : jsstring -> Cont R) captured s :
  ~ occursIn fenceLine s ->
  lazyAny (fun cap => closing (k cap)) captured s = None.
Proof.
  intros Hfence. apply lazyAny_none. intros cap a s' ->.
  destruct (closing (k cap) s') eqn:Hc; [|reflexivity]. exfalso.
  destruct (@closing_needs_fence R (k cap) s' ltac:(rewrite Hc; discriminate))
    as [b [->| ->]]; apply Hfence.
  - exists a, b. reflexivity.
  - exists (a ++ [CR]), b. rewrite <- app_assoc. reflexivity.
Qed.

Lemma fenceLine_dec t : occursIn fenceLine t \/ ~ occursIn fenceLine t.
Proof.
  induction t as [|x t IH].
  - right. intros [a [b H]]. destruct a; discriminate H.
  - destruct IH as [IH|IH]; [left; now apply (occursIn_suffix [x])|].
    destruct (list_eq_dec N.eq_dec (firstn 4 (x :: t)) fenceLine) as [He|Hne].
    + left. exists [], (skipn 4 (x :: t)). cbn [app]. rewrite <- He.
      symmetry. apply firstn_skipn.
    + right. intros [a [b H]]. destruct a as [|x' a].
      * apply Hne. rewrite H. reflexivity.
      * injection H as -> H. apply IH. exists a, b. exact H.
Qed.

Section Documents.
Variable YAML_parse : jsstring -> jsval + Thrown.

(** X23. A document that opens with the line [---], goes on with a
    text, and closes it with the line [---] gives that text back as
    its frontmatter, and [parseMarkdownFrontmatter] is
    [parseYamlToObject] of the text; provided that the text starts
    with a code unit that is not white space, holds no line that starts
    with [---], and does not end with a carriage return. *)
Theorem frontmatter_round_trip y tail :
  match y with [] => False | c :: _ => isWhiteSpace c = false end ->
  ~ occursIn fenceLine y ->
  (forall a, y <> a ++ [CR]) ->
  tail = [] \/ (exists body, tail = LF :: body) ->
  let doc := u "---" ++ LF :: y ++ fenceLine ++ tail in
  extractYamlFrontmatter doc = {| yaml := Some y; extractError := None |}
  /\ parseMarkdownFrontmatter YAML_parse doc
     = {| md_data := data (parseYamlToObject YAML_parse y);
          md_error := option_map ErrParse (error (parseYamlToObject YAML_parse y)) |}.
Proof.
  intros Hhead Hfence Hcr Htail doc.
  assert (Hextract : extractYamlFrontmatter doc
                     = {| yaml := Some y; extractError := None |}).
  { unfold extractYamlFrontmatter. cbv zeta.
    rewrite (@trim_not_blank doc DASH ltac:(now left) dash_not_ws). cbn [negb].
    change (FRONTMATTER_LEADING_WS_REGEX_test doc) with false. cbv iota.
    assert (Hexec : FRONTMATTER_REGEX_exec doc = Some y); [|now rewrite Hexec].
    destruct y as [|c y']; [destruct Hhead|].
    destruct (not_ws_codes _ Hhead) as [_ [Hc1 Hc2]].
    set (kc := fun captured : jsstring => closing (fun _ : jsstring => Some captured)).
    change (FRONTMATTER_REGEX_exec doc)
      with (star ws (newline (lazyAny kc [])) (LF :: (c :: y') ++ fenceLine ++ tail)).
    cbn [star]. change (ws LF) with true. cbv iota.
    cbn [app]. rewrite (@star_stops _ ws _ c _ Hhead).
    assert (Hfirst : newline (lazyAny kc []) (c :: y' ++ fenceLine ++ tail) = None).
    { unfold newline, seq, opt, alt. cbn [chr]. now rewrite Hc1, Hc2. }
    rewrite Hfirst.
    change (newline (lazyAny kc []) (LF :: c :: y' ++ fenceLine ++ tail))
      with (lazyAny kc [] ((c :: y') ++ fenceLine ++ tail)).
    rewrite lazyAny_first.
    - cbn [app]. apply lazyAny_here.
      destruct (kc (c :: y') (fenceLine ++ tail)) as [x|] eqn:Hk.
      + f_equal. exact (@closing_answers (c :: y') _ _ Hk).
      + exfalso. revert Hk. apply closing_at_fence; [discriminate | exact Htail].
    - intros y1 d y2 Hy. unfold kc. eapply closing_not_inside; eassumption. }
  split; [exact Hextract|].
  unfold parseMarkdownFrontmatter. cbv zeta. rewrite Hextract. reflexivity.
Qed.

(** X24. A document in which white space comes before the opening
    line [---] is refused: the frontmatter is not at the start. The
    byte-order mark U+FEFF is white space, so a document that starts
    with it and then [---] is refused as well. *)
Theorem leading_whitespace_rejected pre tail :
  pre <> [] ->
  Forall (fun c => isWhiteSpace c = true) pre ->
  tail = [] \/ (exists body, tail = LF :: body) ->
  let doc := pre ++ u "---" ++ tail in
  extractYamlFrontmatter doc
  = {| yaml := None; extractError := Some ErrFrontmatterNotAtStart |}
  /\ parseMarkdownFrontmatter YAML_parse doc
     = {| md_data := None; md_error := Some (ErrExtract ErrFrontmatterNotAtStart) |}.
Proof.
  intros Hpre Hws Htail doc.
  assert (Hextract : extractYamlFrontmatter doc
                     = {| yaml := None; extractError := Some ErrFrontmatterNotAtStart |}).
  { unfold extractYamlFrontmatter. cbv zeta.
    rewrite (@trim_not_blank doc DASH
               ltac:(apply in_or_app; right; now left) dash_not_ws).
    cbn [negb].
    assert (Htest : FRONTMATTER_LEADING_WS_REGEX_test doc = true); [|now rewrite Htest].
    unfold FRONTMATTER_LEADING_WS_REGEX_test.
    match goal with
    | |- match ?m with Some _ => true | None => false end = true =>
        assert (Hm : m <> None); [|destruct m; [reflexivity | congruence]]
    end.
    unfold seq at 1. unfold opt, alt.
    match goal with
    | |- match ?first with Some x => Some x | None => ?second end <> None =>
        assert (Hsecond : second <> None); [|destruct first; [discriminate | exact Hsecond]]
    end.
    destruct pre as [|c pre']; [congruence|]. inversion Hws as [|? ? Hc Hws']; subst.
    unfold doc, seq, plus, seq. cbn [app chr]. unfold ws at 1. rewrite Hc.
    apply star_through; [exact Hws'|]. apply star_some.
    change (u "---" ++ tail) with (DASH :: DASH :: DASH :: tail).
    unfold fence, seq. cbn [chr]. change (code DASH DASH) with true. cbv iota.
    apply lineEnd_some; [discriminate | exact Htail]. }
  split; [exact Hextract|].
  unfold parseMarkdownFrontmatter. cbv zeta. rewrite Hextract. reflexivity.
Qed.

(** X25. A document that opens with the line [---] and has no later
    line that starts with [---] is refused: the frontmatter is not
    closed. This holds for the document made of two fence lines and
    nothing between them. *)
Theorem unclosed_reported y :
  ~ occursIn fenceLine y ->
  let doc := u "---" ++ LF :: y in
  extractYamlFrontmatter doc
  = {| yaml := None; extractError := Some ErrFrontmatterUnclosed |}
  /\ parseMarkdownFrontmatter YAML_parse doc
     = {| md_data := None; md_error := Some (ErrExtract ErrFrontmatterUnclosed) |}.
Proof.
  intros Hfence doc.
  assert (Hextract : extractYamlFrontmatter doc
                     = {| yaml := None; extractError := Some ErrFrontmatterUnclosed |}).
  { unfold extractYamlFrontmatter. cbv zeta.
    rewrite (@trim_not_blank doc DASH ltac:(now left) dash_not_ws). cbn [negb].
    change (FRONTMATTER_LEADING_WS_REGEX_test doc) with false. cbv iota.
    set (kc := fun captured : jsstring => closing (fun _ : jsstring => Some captured)).
    assert (Hexec : FRONTMATTER_REGEX_exec doc = None).
    { change (FRONTMATTER_REGEX_exec doc)
        with (star ws (newline (lazyAny kc [])) (LF :: y)).
      apply star_none. intros a s' Hs.
      unfold newline, seq, opt, alt.
      assert (Hline : forall t, chr (code LF) (lazyAny kc []) t <> None ->
                                exists t', t = LF :: t' /\ lazyAny kc [] t' <> None).
      { intros [|d t] Ht; cbn [chr] in Ht; [congruence|].
        destruct (code LF d) eqn:Hd; [|congruence]. apply code_true in Hd. subst d.
        exists t. split; [reflexivity | exact Ht]. }
      assert (Hinner : forall t, occursIn fenceLine t \/ lazyAny kc [] t = None).
      { intros t. destruct (fenceLine_dec t) as [Hocc|Hno]; [now left | right].
        exact (@lazyAny_needs_fence _ (fun cap _ => Some cap) [] t Hno). }
      destruct (chr (code CR) (chr (code LF) (lazyAny kc [])) s') eqn:Hcr.
      - exfalso. destruct s' as [|d s'']; cbn [chr] in Hcr; [discriminate|].
        destruct (code CR d) eqn:Hd; [|discriminate]. apply code_true in Hd. subst d.
        destruct (Hline s'' ltac:(rewrite Hcr; discriminate)) as [t' [-> Ht']].
        destruct (Hinner t') as [Hocc|Hnone]; [|congruence]. apply Hfence.
        destruct a as [|x a]; [discriminate Hs|]. injection Hs as <- ->.
        apply occursIn_suffix. apply (occursIn_suffix [CR; LF]). exact Hocc.
      - destruct (chr (code LF) (lazyAny kc []) s') eqn:Hlf; [|reflexivity]. exfalso.
        destruct (Hline s' ltac:(rewrite Hlf; discriminate)) as [t' [-> Ht']].
        destruct (Hinner t') as [Hocc|Hnone]; [|congruence]. apply Hfence.
        destruct a as [|x a].
        + injection Hs as ->. exact Hocc.
        + injection Hs as <- ->. apply occursIn_suffix. apply (occursIn_suffix [LF]).
          exact Hocc. }
    rewrite Hexec.
    assert (Hopen : FRONTMATTER_OPEN_REGEX_test doc = true); [|now rewrite Hopen].
    unfold FRONTMATTER_OPEN_REGEX_test.
    change (seq (opt (chr (code BOM))) (seq (@fence _) (seq (star ws) (@lineEnd _)))
                (fun _ : jsstring => Some tt) doc)
      with (star ws (lineEnd (fun _ : jsstring => Some tt)) (LF :: y)).
    pose proof (@lineEnd_some unit (fun _ => Some tt) (LF :: y)
                  ltac:(discriminate) ltac:(right; now exists y)) as Hsome.
    destruct (star ws (lineEnd (fun _ : jsstring => Some tt)) (LF :: y));
      [reflexivity | congruence]. }
  split; [exact Hextract|].
  unfold parseMarkdownFrontmatter. cbv zeta. rewrite Hextract. reflexivity.
Qed.
End Documents.

Lemma parseYamlToObject_all_or_nothing YAML_parse yamlText :
  data (parseYamlToObject YAML_parse yamlText) = None
  <-> error (parseYamlToObject YAML_parse yamlText) <> None.
Proof.
  unfold parseYamlToObject.
  destruct (negb (nonEmpty (trim yamlText))); [cbn; split; congruence|].
  destruct (YAML_parse (trim yamlText)) as [parsed|[message|]];
    [|cbn; split; congruence..].
  destruct (negb (truthy parsed)); [cbn; split; congruence|].
  destruct parsed; cbn; split; congruence.
Qed.

(** X26. [parseMarkdownFrontmatter] returns data or an error, never
    both and never neither. A blank document, and a document whose first
    code unit is neither white space nor a dash, have no frontmatter:
    the error says that it is missing. *)
Theorem frontmatter_missing YAML_parse doc :
  let r := parseMarkdownFrontmatter YAML_parse doc in
  (md_data r = None <-> md_error r <> None)
  /\ (trim doc = [] ->
      r = {| md_data := None; md_error := Some ErrFrontmatterMissing |})
  /\ (forall c rest,
        doc = c :: rest -> isWhiteSpace c = false -> c <> DASH ->
        r = {| md_data := None; md_error := Some ErrFrontmatterMissing |}).
Proof.
  cbv zeta. split; [|split].
  - unfold parseMarkdownFrontmatter. cbv zeta.
    destruct (extractError (extractYamlFrontmatter doc)); [cbn; split; congruence|].
    destruct (yaml (extractYamlFrontmatter doc)) as [text|]; [|cbn; split; congruence].
    cbn [md_data md_error].
    rewrite (parseYamlToObject_all_or_nothing YAML_parse text).
    destruct (error (parseYamlToObject YAML_parse text)); cbn [option_map];
      split; congruence.
  - intros Hblank. unfold parseMarkdownFrontmatter, extractYamlFrontmatter. cbv zeta.
    rewrite Hblank. reflexivity.
  - intros c rest -> Hc Hdash.
    unfold parseMarkdownFrontmatter, extractYamlFrontmatter. cbv zeta.
    rewrite (@trim_not_blank (c :: rest) c ltac:(now left) Hc). cbn [negb].
    destruct (not_ws_codes _ Hc) as [Hbom _].
    assert (Hd : code DASH c = false).
    { destruct (code DASH c) eqn:H; [|reflexivity]. apply code_true in H. congruence. }
    assert (H1 : FRONTMATTER_LEADING_WS_REGEX_test (c :: rest) = false).
    { unfold FRONTMATTER_LEADING_WS_REGEX_test, seq, opt, alt, plus, seq. cbn [chr].
      rewrite Hbom. unfold ws. now rewrite Hc. }
    assert (H2 : FRONTMATTER_REGEX_exec (c :: rest) = None).
    { unfold FRONTMATTER_REGEX_exec, seq, opt, alt, fence, seq. cbn [chr].
      now rewrite Hbom, Hd. }
    assert (H3 : FRONTMATTER_OPEN_REGEX_test (c :: rest) = false).
    { unfold FRONTMATTER_OPEN_REGEX_test, seq, opt, alt, fence, seq. cbn [chr].
      now rewrite Hbom, Hd. }
    rewrite H1, H2, H3. reflexivity.
Qed.

(** ** Worked documents *)

Lemma frontmatter_round_trip_witness :
  extractYamlFrontmatter document
  = {| yaml := Some (u "name: demo"); extractError := None |}
  /\ parseMarkdownFrontmatter yamlOfExamples document
     = {| md_data := data (parseYamlToObject yamlOfExamples (u "name: demo"));
          md_error := option_map ErrParse
                        (error (parseYamlToObject yamlOfExamples (u "name: demo"))) |}.
Proof.
  apply (@frontmatter_round_trip yamlOfExamples (u "name: demo") (LF :: u "# Title")).
  - reflexivity.
  - destruct (fenceLine_dec (u "name: demo")) as [[a [b H]]|H]; [|exact H].
    exfalso.
    assert (Hin : In LF (u "name: demo")).
    { rewrite H. apply in_or_app. right. now left. }
    vm_compute in Hin. repeat (destruct Hin as [Hin|Hin]; [discriminate Hin|]).
    exact Hin.
  - intros a H. apply (f_equal (@rev N)) in H. rewrite rev_app_distr in H.
    vm_compute in H. discriminate H.
  - right. now exists (u "# Title").
Defined.

Lemma leading_whitespace_rejected_witness :
  extractYamlFrontmatter withBOM
  = {| yaml := None; extractError := Some ErrFrontmatterNotAtStart |}
  /\ parseMarkdownFrontmatter yamlOfExamples withBOM
     = {| md_data := None; md_error := Some (ErrExtract ErrFrontmatterNotAtStart) |}.
Proof.
  apply (@leading_whitespace_rejected yamlOfExamples [BOM]
           (LF :: u "name: demo" ++ [LF] ++ u "---" ++ [LF] ++ u "# Title")).
  - discriminate.
  - repeat constructor.
  - right. eexists. reflexivity.
Defined.

Lemma unclosed_reported_witness :
  extractYamlFrontmatter emptyFrontmatter
  = {| yaml := None; extractError := Some ErrFrontmatterUnclosed |}
  /\ parseMarkdownFrontmatter yamlOfExamples emptyFrontmatter
     = {| md_data := None; md_error := Some (ErrExtract ErrFrontmatterUnclosed) |}.
Proof.
  apply (@unclosed_reported yamlOfExamples (u "---" ++ [LF])).
  destruct (fenceLine_dec (u "---" ++ [LF])) as [[a [b H]]|H]; [|exact H].
  exfalso.
  assert (Hlen : length (u "---" ++ [LF]) = length (a ++ fenceLine ++ b)) by now rewrite H.
  rewrite !length_app in Hlen. cbn in Hlen.
  assert (a = [] /\ b = []) as [-> ->].
  { destruct a; [|cbn in Hlen; lia]. destruct b; [|cbn in Hlen; lia]. auto. }
  discriminate H.
Defined.

Lemma frontmatter_missing_witness :
  parseMarkdownFrontmatter yamlOfExamples (u "# Title")
  = {| md_data := None; md_error := Some ErrFrontmatterMissing |}
  /\ parseMarkdownFrontmatter yamlOfExamples (u "  ")
     = {| md_data := None; md_error := Some ErrFrontmatterMissing |}.
Proof.
  split.
  - apply (proj2 (proj2 (frontmatter_missing yamlOfExamples (u "# Title")))
             35%N (u " Title") eq_refl eq_refl).
    discriminate.
  - apply (proj1 (proj2 (frontmatter_missing yamlOfExamples (u "  ")))). reflexivity.
Defined.

End FrontmatterFacts.

(* ================================================================== *)
(** * Asset paths *)
(* ================================================================== *)

Module AssetFacts.
Import JS BmadZip ExportMore Assets AssetsMore MapFacts SortFacts TrimFacts PathFacts.

Lemma cleaned_normalizeZipPath input : cleaned input = normalizeZipPath input.
Proof. reflexivity. Qed.

Lemma dotPart_badPart part : dotPart part = badPart part.
Proof.
  unfold dotPart, badPart.
  destruct (negb (nonEmpty part)), (str_eqb part (u ".")), (str_eqb part (u ".."));
    reflexivity.
Qed.

Lemma dotParts_badParts parts : existsb dotPart parts = existsb badPart parts.
Proof.
  induction parts as [|p parts IH]; cbn [existsb]; [reflexivity|].
  now rewrite dotPart_badPart, IH.
Qed.

(** A string that neither starts nor ends with white space is its own
    trim. *)
Lemma trim_fixed s :
  match s with [] => True | c :: _ => isWhiteSpace c = false end ->
  match rev s with [] => True | c :: _ => isWhiteSpace c = false end ->
  trim s = s.
Proof.
  intros Hhead Hlast. unfold trim, trimEnd.
  rewrite (trimStart_fixed s Hhead), (trimStart_fixed (rev s) Hlast).
  apply rev_involutive.
Qed.

Lemma unslash_fixed s :
  Forall (fun c => c <> 92%N) s -> List.map unslash s = s.
Proof.
  induction 1 as [|c s Hc _ IH]; cbn [List.map]; [reflexivity|].
  rewrite IH. unfold unslash. apply N.eqb_neq in Hc. now rewrite Hc.
Qed.

Lemma unslash_image s : Forall (fun c => c <> 92%N) (List.map unslash s).
Proof.
  induction s as [|c s IH]; cbn [List.map]; constructor; [|exact IH].
  unfold unslash. destruct (c =? 92)%N eqn:Hc; [discriminate|]. now apply N.eqb_neq.
Qed.

Lemma unslash_not_ws c : isWhiteSpace c = false -> isWhiteSpace (unslash c) = false.
Proof. unfold unslash. destruct (c =? 92)%N; [reflexivity | auto]. Qed.

Lemma startsWith_assets s :
  startsWith s (u "assets/") = true -> exists rest, s = u "assets/" ++ rest.
Proof.
  change (u "assets/") with ([97; 115; 115; 101; 116; 115; 47]%N). intros H.
  repeat (destruct s as [|? s]; [discriminate H|];
          cbn [startsWith] in H; apply andb_true_iff in H; destruct H as [Hc H];
          apply N.eqb_eq in Hc; subst).
  exists s. reflexivity.
Qed.

Ltac other_code c H :=
  destruct c as [|?p]; [reflexivity|];
  do 6 (try match goal with
            | p : positive |- _ => destruct p as [p|p|]; try reflexivity
            end);
  exfalso; apply H; reflexivity.

(** The two cases of [cleaned]. *)
Lemma cleaned_cases input :
  cleaned input = List.map unslash (trim input)
  \/ exists rest, List.map unslash (trim input) = 46%N :: 47%N :: rest
                  /\ cleaned input = stripStart (fun c => (c =? 47)%N) rest.
Proof.
  unfold cleaned. cbv zeta. fold unslash.
  destruct (List.map unslash (trim input)) as [|c1 l]; [now left|].
  destruct (N.eq_dec c1 46) as [->|H1].
  - destruct l as [|c2 rest]; [now left|].
    destruct (N.eq_dec c2 47) as [->|H2]; [right; exists rest; split; reflexivity|].
    left. other_code c2 H2.
  - left. other_code c1 H1.
Qed.

Lemma stripStart_suffix cls s : exists pre, s = pre ++ stripStart cls s.
Proof.
  induction s as [|c s [pre IH]]; cbn [stripStart]; [now exists []|].
  destruct (cls c); [|now exists []]. exists (c :: pre). cbn [app]. now rewrite <- IH.
Qed.

(** What [cleaned] returns is a part of the trimmed input in which the
    backslashes are slashes: it holds no backslash and does not end with
    white space. *)
Lemma cleaned_shape input :
  Forall (fun c => c <> 92%N) (cleaned input)
  /\ match rev (cleaned input) with [] => True | c :: _ => isWhiteSpace c = false end.
Proof.
  set (slashed := List.map unslash (trim input)).
  assert (Hno : Forall (fun c => c <> 92%N) slashed) by apply unslash_image.
  assert (Hlast : match rev slashed with [] => True | c :: _ => isWhiteSpace c = false end).
  { unfold slashed. rewrite <- map_rev.
    destruct (trim_ends input) as [Hnil|[a [b [_ [_ Hl]]]]]; [now rewrite Hnil|].
    destruct (rev (trim input)) as [|c r]; [exact I|]. cbn [List.map].
    now apply unslash_not_ws. }
  destruct (cleaned_cases input) as [->|[rest [Hs ->]]]; [split; assumption|].
  fold slashed in Hs.
  destruct (stripStart_suffix (fun c => (c =? 47)%N) rest) as [pre Hpre].
  set (t := stripStart (fun c => (c =? 47)%N) rest) in *.
  assert (Hst : slashed = ([46; 47]%N ++ pre) ++ t).
  { rewrite Hs, <- app_assoc. cbn [app]. now rewrite <- Hpre. }
  rewrite Hst in Hno, Hlast. apply Forall_app in Hno. split; [tauto|].
  rewrite rev_app_distr in Hlast. destruct (rev t); [exact I | exact Hlast].
Qed.

(** Under [assets/], a cleaned path is left as it is when cleaned
    again. *)
Lemma cleaned_fixed input :
  startsWith (cleaned input) (u "assets/") = true ->
  cleaned (cleaned input) = cleaned input.
Proof.
  intros Hstart. destruct (cleaned_shape input) as [Hno Hlast].
  destruct (startsWith_assets _ Hstart) as [rest Hrest].
  set (key := cleaned input) in *.
  assert (Htrim : trim key = key).
  { apply trim_fixed; [rewrite Hrest; reflexivity | exact Hlast]. }
  destruct (cleaned_cases key) as [->|[r [Hs _]]].
  - now rewrite Htrim, unslash_fixed.
  - exfalso. rewrite Htrim, unslash_fixed in Hs by exact Hno.
    rewrite Hrest in Hs. discriminate Hs.
Qed.

(** The exporter takes a cleaned path under [assets/] whose parts are
    good as it is, unless it holds a NUL. *)
Lemma exporter_takes key value a :
  cleaned key = key ->
  startsWith key (u "assets/") = true ->
  existsb dotPart (split 47 key) = false ->
  assetEntry a (key, value)
  = if existsb (fun c => (c =? 0)%N) key
    then addErrors a [ErrAssetPathUnsafe key]
    else addFile a key value.
Proof.
  intros Hfixed Hstart Hparts. unfold assetEntry.
  rewrite <- cleaned_normalizeZipPath, Hfixed, Hstart. cbn [negb].
  rewrite dotParts_badParts in Hparts.
  destruct (existsb (fun c => (c =? 0)%N) key) eqn:Hnul.
  - assert (Hsafe : isSafeZipPath key = false).
    { destruct (isSafeZipPath key) eqn:Hs; [|reflexivity].
      apply isSafeZipPath_spec in Hs. destruct Hs as [Hs _]. congruence. }
    now rewrite Hsafe.
  - assert (Hsafe : isSafeZipPath key = true) by now apply isSafeZipPath_spec.
    now rewrite Hsafe.
Qed.

(** ** The path of a new asset *)

(** X27. A path that [normalizeAssetsPath] accepts is the cleaned
    input; it is under [assets/], it is a safe path of a bundle, it is
    left as it is when normalized again, and the lower-cased text from
    its last dot on is one of the allowed extensions. The exporter adds
    a file under exactly this path, and the runtime path of the asset is
    [@pkg/] followed by it. *)
Theorem asset_path_accepted (toLowerCase : jsstring -> jsstring) input v :
  value (normalizeAssetsPath toLowerCase input) = Some v ->
  pathError (normalizeAssetsPath toLowerCase input) = None
  /\ v = cleaned input
  /\ startsWith v (u "assets/") = true
  /\ isSafeZipPath v = true
  /\ normalizeAssetsPath toLowerCase v = normalizeAssetsPath toLowerCase input
  /\ (exists stem ext, v = stem ++ ext /\ In (toLowerCase ext) ALLOWED_ASSET_EXTENSIONS)
  /\ (forall a content, assetEntry a (v, content) = addFile a v content)
  /\ toRuntimeAssetPath v = u "@pkg/" ++ v.
Proof.
  unfold normalizeAssetsPath. cbv zeta.
  destruct (negb (nonEmpty (cleaned input))) eqn:H1; [discriminate|].
  destruct (startsWith (cleaned input) (u "/")) eqn:H2; [discriminate|].
  destruct (startsWith (cleaned input) (u "assets/")) eqn:Hstart; cbn [negb];
    [|discriminate].
  destruct (endsWithSlash (cleaned input)) eqn:H3; [discriminate|].
  destruct (existsb (fun c => (c =? 0)%N) (cleaned input)) eqn:Hnul; [discriminate|].
  destruct (negb (ASSET_PATH_PATTERN_test (cleaned input))) eqn:H4; [discriminate|].
  destruct (existsb dotPart (split 47 (cleaned input))) eqn:Hparts; [discriminate|].
  destruct (setHas ALLOWED_ASSET_EXTENSIONS
              match lastIndexOf 46 (cleaned input) with
              | Some dot => toLowerCase (skipn dot (cleaned input))
              | None => []
              end) eqn:Hext; cbn [negb]; [|discriminate].
  cbn [value pathError]. intros [= <-].
  pose proof (cleaned_fixed input Hstart) as Hfixed.
  split; [reflexivity|]. split; [reflexivity|]. split; [exact Hstart|].
  split.
  { apply isSafeZipPath_spec. split; [exact Hnul|]. now rewrite <- dotParts_badParts. }
  split.
  { rewrite Hfixed. rewrite H1, H2, Hstart, H3, Hnul, H4, Hparts, Hext. reflexivity. }
  split.
  { apply setHas_true in Hext.
    destruct (lastIndexOf 46 (cleaned input)) as [dot|].
    - exists (firstn dot (cleaned input)), (skipn dot (cleaned input)).
      split; [symmetry; apply firstn_skipn | exact Hext].
    - exfalso. unfold ALLOWED_ASSET_EXTENSIONS in Hext. cbn [In] in Hext.
      repeat (destruct Hext as [Hext|Hext]; [discriminate Hext|]). exact Hext. }
  split.
  { intros a content. rewrite (exporter_takes content a Hfixed Hstart Hparts).
    now rewrite Hnul. }
  unfold toRuntimeAssetPath. cbv zeta. now rewrite Hfixed, Hstart.
Qed.

Lemma asset_path_accepted_witness :
  value (normalizeAssetsPath Utils.asciiLowerCase (u " .\assets\Docs/Guide.MD "))
  = Some (u "assets/Docs/Guide.MD")
  /\ isSafeZipPath (u "assets/Docs/Guide.MD") = true
  /\ toRuntimeAssetPath (u "assets/Docs/Guide.MD") = u "@pkg/assets/Docs/Guide.MD".
Proof.
  split; [vm_compute; reflexivity|].
  destruct (@asset_path_accepted Utils.asciiLowerCase (u " .\assets\Docs/Guide.MD ")
              (u "assets/Docs/Guide.MD") ltac:(vm_compute; reflexivity))
    as [_ [_ [_ [Hsafe [_ [_ [_ Hruntime]]]]]]].
  split; [exact Hsafe | exact Hruntime].
Defined.

(** ** The assets of a package *)

Lemma keepAsset_keys props : forall m,
  (forall k, In k (Map.keys m) ->
     (exists raw, k = cleaned raw) /\ startsWith k (u "assets/") = true
     /\ existsb dotPart (split 47 k) = false) ->
  forall k, In k (Map.keys (fold_left keepAsset props m)) ->
    (exists raw, k = cleaned raw) /\ startsWith k (u "assets/") = true
    /\ existsb dotPart (split 47 k) = false.
Proof.
  induction props as [|[keyRaw value] props IH]; intros m Hm; cbn [fold_left]; [exact Hm|].
  apply IH. unfold keepAsset. destruct value; try exact Hm.
  destruct (startsWith (cleaned keyRaw) (u "assets/")) eqn:Hstart; cbn [negb]; [|exact Hm].
  destruct (existsb dotPart (split 47 (cleaned keyRaw))) eqn:Hparts; [exact Hm|].
  intros k Hk. apply in_keys_set in Hk. destruct Hk as [->|Hk]; [|now apply Hm].
  split; [now exists keyRaw|]. split; assumption.
Qed.

Lemma keepAsset_NoDup props : forall m,
  NoDup (Map.keys m) -> NoDup (Map.keys (fold_left keepAsset props m)).
Proof.
  induction props as [|[keyRaw value] props IH]; intros m Hm; cbn [fold_left]; [exact Hm|].
  apply IH. unfold keepAsset. destruct value; try exact Hm.
  destruct (negb (startsWith (cleaned keyRaw) (u "assets/"))); [exact Hm|].
  destruct (existsb dotPart (split 47 (cleaned keyRaw))); [exact Hm|].
  now apply NoDup_keys_set.
Qed.

Lemma fold_sum l : forall acc,
  fold_left (fun sum item => sum + bytes item) l acc
  = acc + list_sum_Z (List.map bytes l).
Proof.
  unfold list_sum_Z.
  induction l as [|x l IH]; intros acc; cbn [fold_left List.map fold_right]; [lia|].
  rewrite IH. lia.
Qed.

(** X28. What [parseAssetsJson] keeps: every key of its map is a
    cleaned path under [assets/] without empty, [.] or [..] parts, which
    cleaning leaves as it is; the list holds one item for each key of
    the map, with the content of the map and the length of its UTF-8
    encoding, and the total is the sum of these lengths. When the page
    passes the map to the exporter, a kept asset is never skipped: it is
    added under its key, or refused if the key holds a NUL. With an error
    nothing is kept. *)
Theorem assets_listing (localeCompare : jsstring -> jsstring -> Z)
        (JSON_parse : jsstring -> option jsval) raw :
  let r := parseAssetsJson localeCompare JSON_parse raw in
  (forall key text,
     Map.get (map r) key = Some text ->
     startsWith key (u "assets/") = true
     /\ existsb dotPart (split 47 key) = false
     /\ cleaned key = key
     /\ In {| path := key; content := text; bytes := utf8Length text |} (assets r)
     /\ forall a,
          assetEntry a (key, Text text)
          = if existsb (fun c => (c =? 0)%N) key
            then addErrors a [ErrAssetPathUnsafe key]
            else addFile a key (Text text))
  /\ Permutation (List.map path (assets r)) (Map.keys (map r))
  /\ NoDup (List.map path (assets r))
  /\ totalBytes r = list_sum_Z (List.map bytes (assets r))
  /\ (error r <> None -> assets r = [] /\ map r = []).
Proof.
  cbv zeta. unfold parseAssetsJson. cbv zeta.
  assert (Hempty : forall e,
            let r := {| assets := []; map := []; totalBytes := 0; error := e |} in
            (forall key text,
               Map.get (map r) key = Some text ->
               startsWith key (u "assets/") = true
               /\ existsb dotPart (split 47 key) = false
               /\ cleaned key = key
               /\ In {| path := key; content := text; bytes := utf8Length text |} (assets r)
               /\ forall a,
                    assetEntry a (key, Text text)
                    = if existsb (fun c => (c =? 0)%N) key
                      then addErrors a [ErrAssetPathUnsafe key]
                      else addFile a key (Text text))
            /\ Permutation (List.map path (assets r)) (Map.keys (map r))
            /\ NoDup (List.map path (assets r))
            /\ totalBytes r = list_sum_Z (List.map bytes (assets r))
            /\ (error r <> None -> assets r = [] /\ map r = [])).
  { intros e. cbn. split; [discriminate|]. split; [constructor|].
    split; [constructor|]. split; [reflexivity|]. auto. }
  destruct (negb (nonEmpty (trim raw))); [apply Hempty|].
  destruct (JSON_parse (trim raw)) as [parsed|]; [|apply Hempty].
  destruct parsed as [| | | | | |props]; try apply Hempty.
  cbn [assets map totalBytes error].
  set (m := fold_left keepAsset props []).
  assert (Hkeys : forall k, In k (Map.keys m) ->
            (exists raw', k = cleaned raw') /\ startsWith k (u "assets/") = true
            /\ existsb dotPart (split 47 k) = false).
  { apply keepAsset_keys. intros k []. }
  assert (Hpaths : forall l,
            List.map path
              (List.map (fun p => {| path := p;
                                     content := match Map.get m p with
                                                | Some c => c
                                                | None => []
                                                end;
                                     bytes := utf8Length match Map.get m p with
                                                         | Some c => c
                                                         | None => []
                                                         end |}) l) = l).
  { intros l. rewrite map_map. cbn [path]. apply map_id. }
  split; [|split; [|split; [|split]]].
  - intros key text Hget.
    assert (Hin : In key (Map.keys m)).
    { apply get_some_in_keys. rewrite Hget. discriminate. }
    destruct (Hkeys key Hin) as [[raw' Hraw] [Hstart Hparts]].
    assert (Hfixed : cleaned key = key).
    { rewrite Hraw. apply cleaned_fixed. now rewrite <- Hraw. }
    split; [exact Hstart|]. split; [exact Hparts|]. split; [exact Hfixed|]. split.
    + apply in_map_iff. exists key. rewrite Hget. split; [reflexivity|].
      now apply sort_in.
    + intros a. now apply exporter_takes.
  - rewrite Hpaths. apply sort_perm.
  - rewrite Hpaths. apply sort_NoDup. apply keepAsset_NoDup. constructor.
  - rewrite fold_sum. lia.
  - intros H. now contradiction H.
Qed.

Lemma assets_listing_witness :
  let r := parseAssetsJson WorkflowGraph.codeUnitCompare parseAssetsExample assetsJsonText in
  List.map path (assets r) = [u "assets/a.txt"; u "assets/b.md"]
  /\ totalBytes r = 2
  /\ In {| path := u "assets/b.md"; content := u "B"; bytes := 1 |} (assets r).
Proof.
  cbv zeta. split; [vm_compute; reflexivity|]. split; [vm_compute; reflexivity|].
  exact (proj1 (proj2 (proj2 (proj2
           (proj1 (assets_listing WorkflowGraph.codeUnitCompare parseAssetsExample
                                  assetsJsonText)
                  (u "assets/b.md") (u "B") ltac:(vm_compute; reflexivity)))))).
Defined.

End AssetFacts.

(* ================================================================== *)
(** * All or nothing *)
(* ================================================================== *)

Module PipelineTheorems.
Import JS JSNumber Outcomes ExportSpec MapFacts SortFacts PipelineSpec.
Import ManifestSpec ManifestExamples ExportMore ExportExamples AgentsSpec AgentsMore.
Import GraphSpec GraphMore GraphExamples.

(** ** The graph compiler *)





(** ** The agents manifest builder *)



(** ** The package manifest builder *)





(** ** The export assembler *)







End PipelineTheorems.
